(** * Verification of the NEMO Euler solver core (SU2, CNEMOEulerSolver.cpp)

    A shallow embedding of the residual assembly, the time-step engine, the
    implicit system assembly, the boundary conditions and the fatal error
    path of [CNEMOEulerSolver] and [CBaseMPIWrapper::Error], with the
    properties of the design specification stated and proved over it.

    Conventions of the embedding:
    - [su2double] is an IEEE-754 binary64 number, modelled by [spec_float]
      with [prec = 53] and [emax = 1024]; the C++ operators are the
      round-to-nearest operations of [SpecFloat], and [x != x] is the test
      for not-a-number.
    - a [su2double*] is a total map from indices to values: the source keeps
      no bounds and checks none; a [su2double**] is a map of maps.
    - the solver, the configuration and the console are the fields of one
      explicit [State]; a function that may terminate the process returns an
      [outcome].
    - the numerics functors, the fluid model, the linear solver and the
      communication layer are external collaborators: interfaces (type
      classes) whose methods are pure functions of what the source passes
      them. *)

From Stdlib Require Import ZArith Bool List Lia.
From Stdlib Require Import Floats.SpecFloat.
From stdpp Require Import base functions list gmap strings pretty.

Local Open Scope nat_scope.

(* ===================================================================== *)
(** * Part I. The model                                                   *)
(* ===================================================================== *)

(** ** su2double: binary64 arithmetic *)

Definition prec : Z := 53%Z.
Definition emax : Z := 1024%Z.

Abbreviation su2double := spec_float.

Definition NaN : su2double := S754_nan.

Definition fadd (x y : su2double) : su2double := SFadd prec emax x y.
Definition fsub (x y : su2double) : su2double := SFsub prec emax x y.
Definition fmul (x y : su2double) : su2double := SFmul prec emax x y.
Definition fdiv (x y : su2double) : su2double := SFdiv prec emax x y.
Definition fsqrt (x : su2double) : su2double := SFsqrt prec emax x.
Definition fneg (x : su2double) : su2double := SFopp x.
Definition fabs (x : su2double) : su2double := SFabs x.

(** The comparison operators of C++ on doubles; every one of them is false
    on a NaN operand except [!=], which is true. *)
Definition feq (x y : su2double) : bool := SFeqb x y.
Definition fne (x y : su2double) : bool := negb (SFeqb x y).
Definition flt (x y : su2double) : bool := SFltb x y.
Definition fgt (x y : su2double) : bool := SFltb y x.
Definition fle (x y : su2double) : bool := SFleb x y.

(** [std::min(a, b)] is [(b < a) ? b : a] and [std::max(a, b)] is
    [(a < b) ? b : a]. *)
Definition fmin (a b : su2double) : su2double := if flt b a then b else a.
Definition fmax (a b : su2double) : su2double := if flt a b then b else a.

(** Literals: an integer, and a dyadic [m * 2^e], rounded to binary64. *)
Definition Z2D (z : Z) : su2double := binary_normalize prec emax z 0%Z false.
Definition dyadic (m e : Z) : su2double := binary_normalize prec emax m e false.

Definition zero : su2double := S754_zero false.
Definition one : su2double := Z2D 1.
Definition half : su2double := dyadic 1 (-1).

Declare Scope su2double_scope.
Delimit Scope su2double_scope with D.
Bind Scope su2double_scope with spec_float.
Notation "x + y" := (fadd x y) : su2double_scope.
Notation "x - y" := (fsub x y) : su2double_scope.
Notation "x * y" := (fmul x y) : su2double_scope.
Notation "x / y" := (fdiv x y) : su2double_scope.
Notation "- x" := (fneg x) : su2double_scope.

(** Predicates used in the statements. *)
Definition is_nan (x : su2double) : Prop := x = S754_nan.
Definition is_zero (x : su2double) : Prop := exists s, x = S754_zero s.
Definition is_finite (x : su2double) : Prop :=
  match x with S754_zero _ | S754_finite _ _ _ => True | _ => False end.
(** A finite, strictly positive number. *)
Definition is_pos_finite (x : su2double) : Prop :=
  match x with S754_finite false _ _ => True | _ => False end.
(** A number, not a NaN, with the sign bit [s]. *)
Definition signed (s : bool) (x : su2double) : Prop :=
  match x with
  | S754_zero s' | S754_infinity s' | S754_finite s' _ _ => s' = s
  | S754_nan => False
  end.
(** Zero or above, infinity included. *)
Abbreviation nonneg := (signed false).
(** Two numbers that are the opposite of each other, or both a zero (of
    any sign). *)
Definition opposite (a b : su2double) : Prop :=
  b = (- a)%D \/ (is_zero a /\ is_zero b).
(** A zero (of any sign) or a NaN: what a sum of products with zero can
    be. *)
Definition zero_or_nan (a : su2double) : Prop := is_zero a \/ is_nan a.

(** ** Arrays *)

(** [su2double*]: the source indexes raw pointers and never checks a bound. *)
Definition array := nat -> su2double.
(** [su2double**]: an [nVar x nVar] block is [block iVar jVar]. *)
Definition block := nat -> array.

Definition zeros : array := fun _ => zero.
Definition zero_block : block := fun _ => zeros.

(** [for (i = 0; i < n; i++) body(i)] over a state [S]. *)
Definition for_loop {S : Type} (n : nat) (body : nat -> S -> S) (s : S) : S :=
  foldl (fun s i => body i s) s (seq 0 n).

(** [for (i = lo; i < hi; i++) body(i)]. *)
Definition for_range {S : Type} (lo hi : nat) (body : nat -> S -> S) (s : S) : S :=
  foldl (fun s i => body i s) s (seq lo (hi - lo)).

(** The self-comparison scan of the source:
    [for (iVar = 0; iVar < nVar; iVar++) if (v[iVar] != v[iVar]) err = true;] *)
Definition scan_nan (nVar : nat) (v : array) (err : bool) : bool :=
  for_loop nVar (fun iVar err => if fne (v iVar) (v iVar) then true else err) err.

(** The same scan over the two arrays the centered path tests together. *)
Definition scan_nan2 (nVar : nat) (v w : array) (err : bool) : bool :=
  for_loop nVar (fun iVar err =>
    if fne (v iVar) (v iVar) || fne (w iVar) (w iVar) then true else err) err.

(** The double loop over a Jacobian block. *)
Definition scan_nan_block (nVar : nat) (J : block) (err : bool) : bool :=
  for_loop nVar (fun iVar err =>
    for_loop nVar (fun jVar err =>
      if fne (J iVar jVar) (J iVar jVar) then true else err) err) err.

(** The double loop over the two Jacobian blocks of an edge. *)
Definition scan_nan_block2 (nVar : nat) (J K : block) (err : bool) : bool :=
  for_loop nVar (fun iVar err =>
    for_loop nVar (fun jVar err =>
      if fne (J iVar jVar) (J iVar jVar) || fne (K iVar jVar) (K iVar jVar)
      then true else err) err) err.

(** ** Enumerations of the configuration

    [option_structure.hpp] is not part of the sources at hand; the
    enumerators are the ones the solver names, with one extra constructor
    standing for every value the solver does not name. *)

Inductive ENUM_TIME_INT := RUNGE_KUTTA_EXPLICIT | EULER_EXPLICIT | EULER_IMPLICIT.
Inductive TIME_MARCHING :=
  NO | TIME_STEPPING | DT_STEPPING_1ST | DT_STEPPING_2ND | OTHER_TIME_MARCHING.
Inductive ENUM_INIT_OPTION := REYNOLDS | TD_CONDITIONS.
Inductive ENUM_FLUIDMODEL := MUTATIONPP | USER_DEFINED_NONEQ | OTHER_FLUIDMODEL.
Inductive ENUM_FREESTREAM_OPTION :=
  DIMENSIONAL | FREESTREAM_PRESS_EQ_ONE | FREESTREAM_VEL_EQ_MACH
| FREESTREAM_VEL_EQ_ONE | OTHER_REF_NONDIM.
Inductive ENUM_TURB_MODEL := NO_TURB_MODEL | SST | OTHER_TURB_MODEL.
Inductive ENUM_LIMITER := NO_LIMITER | VENKATAKRISHNAN | OTHER_LIMITER.
Inductive COMM_LEVEL := COMM_NONE | COMM_MINIMAL | COMM_FULL.
Inductive BC_TYPE := INTERNAL_BOUNDARY | OTHER_BC.
Inductive ENUM_MEASUREMENTS := SI | US.
Inductive ENUM_TRANSCOEFFMODEL := WILKE | GUPTAYOS | OTHER_TRANSCOEFFMODEL.

#[global] Instance ENUM_TIME_INT_eq_dec : EqDecision ENUM_TIME_INT.
Proof. solve_decision. Defined.
#[global] Instance TIME_MARCHING_eq_dec : EqDecision TIME_MARCHING.
Proof. solve_decision. Defined.
#[global] Instance ENUM_INIT_OPTION_eq_dec : EqDecision ENUM_INIT_OPTION.
Proof. solve_decision. Defined.
#[global] Instance ENUM_FLUIDMODEL_eq_dec : EqDecision ENUM_FLUIDMODEL.
Proof. solve_decision. Defined.
#[global] Instance ENUM_FREESTREAM_OPTION_eq_dec : EqDecision ENUM_FREESTREAM_OPTION.
Proof. solve_decision. Defined.
#[global] Instance ENUM_TURB_MODEL_eq_dec : EqDecision ENUM_TURB_MODEL.
Proof. solve_decision. Defined.
#[global] Instance ENUM_LIMITER_eq_dec : EqDecision ENUM_LIMITER.
Proof. solve_decision. Defined.
#[global] Instance COMM_LEVEL_eq_dec : EqDecision COMM_LEVEL.
Proof. solve_decision. Defined.
#[global] Instance BC_TYPE_eq_dec : EqDecision BC_TYPE.
Proof. solve_decision. Defined.
#[global] Instance ENUM_MEASUREMENTS_eq_dec : EqDecision ENUM_MEASUREMENTS.
Proof. solve_decision. Defined.
#[global] Instance ENUM_TRANSCOEFFMODEL_eq_dec : EqDecision ENUM_TRANSCOEFFMODEL.
Proof. solve_decision. Defined.

Definition MESH_0 : nat := 0.
Definition MASTER_NODE : nat := 0.

(** ** CConfig

    The solver reaches the configuration only through [GetX()] and
    [SetX(v)].  The [su2double] options are a total map from the option's
    name to its value, so that [config->SetX(v)] is [<[X := v]>] and
    [config->GetX()] is a lookup; the flags and the enumerated options, which
    the solver never writes, are plain fields. *)

Inductive ConfigScalar :=
| CFL (iMesh : nat) | Unst_CFL | Max_DeltaTime | Delta_UnstTime | Delta_UnstTimeND
| Total_UnstTime | Total_UnstTimeND
| AoA | AoS | Mach | Mach_Motion | Reynolds | Length_Reynolds
| Pressure_FreeStream | Temperature_FreeStream | Temperature_ve_FreeStream
| Density_FreeStream | Energy_FreeStream | Viscosity_FreeStream
| ModVel_FreeStream | Velocity_FreeStream (iDim : nat)
| Tke_FreeStream | Omega_FreeStream
| TurbulenceIntensity_FreeStream | Turb2LamViscRatio_FreeStream
| Gas_Constant | Gas_ConstantND
| Mu_Ref | Mu_Temperature_Ref | Mu_S | Mu_Constant | Kt_Constant
| Mu_RefND | Mu_Temperature_RefND | Mu_SND | Mu_ConstantND | Kt_ConstantND
| Pressure_Ref | Density_Ref | Temperature_Ref | Temperature_ve_Ref
| Length_Ref | Velocity_Ref | Time_Ref | Omega_Ref | Force_Ref
| Gas_Constant_Ref | Viscosity_Ref | Conductivity_Ref | Energy_Ref | Froude
| Pressure_FreeStreamND | Density_FreeStreamND | Velocity_FreeStreamND (iDim : nat)
| Temperature_FreeStreamND | Temperature_ve_FreeStreamND | ModVel_FreeStreamND
| Viscosity_FreeStreamND | Energy_FreeStreamND | Tke_FreeStreamND
| Omega_FreeStreamND.

#[global] Instance ConfigScalar_eq_dec : EqDecision ConfigScalar.
Proof. solve_decision. Defined.

Record CConfig := {
  scalar : ConfigScalar -> su2double;
  Viscous : bool;
  Grid_Movement : bool;
  GravityForce : bool;
  Axisymmetric : bool;
  Frozen : bool;
  Monoatomic : bool;
  MUSCL_Flow : bool;
  Discrete_Adjoint : bool;
  Continuous_Adjoint : bool;
  Frozen_Limiter_Disc : bool;
  Kind_TimeIntScheme_Flow : ENUM_TIME_INT;
  Time_Marching : TIME_MARCHING;
  Kind_InitOption : ENUM_INIT_OPTION;
  Kind_FluidModel : ENUM_FLUIDMODEL;
  Ref_NonDim : ENUM_FREESTREAM_OPTION;
  Kind_Turb_Model : ENUM_TURB_MODEL;
  Kind_SlopeLimit_Flow : ENUM_LIMITER;
  Kind_TransCoeffModel : ENUM_TRANSCOEFFMODEL;
  SystemMeasurements : ENUM_MEASUREMENTS;
  Comm_Level : COMM_LEVEL;
  Marker_All_KindBC : nat -> BC_TYPE;
  InnerIter : nat;
  LimiterIter : nat;
}.

Definition Get (c : CConfig) (x : ConfigScalar) : su2double := scalar c x.

Definition Set_ (x : ConfigScalar) (v : su2double) (c : CConfig) : CConfig :=
  {| scalar := <[x := v]> (scalar c);
     Viscous := Viscous c; Grid_Movement := Grid_Movement c;
     GravityForce := GravityForce c; Axisymmetric := Axisymmetric c;
     Frozen := Frozen c; Monoatomic := Monoatomic c;
     MUSCL_Flow := MUSCL_Flow c; Discrete_Adjoint := Discrete_Adjoint c;
     Continuous_Adjoint := Continuous_Adjoint c;
     Frozen_Limiter_Disc := Frozen_Limiter_Disc c;
     Kind_TimeIntScheme_Flow := Kind_TimeIntScheme_Flow c;
     Time_Marching := Time_Marching c;
     Kind_InitOption := Kind_InitOption c;
     Kind_FluidModel := Kind_FluidModel c;
     Ref_NonDim := Ref_NonDim c;
     Kind_Turb_Model := Kind_Turb_Model c;
     Kind_SlopeLimit_Flow := Kind_SlopeLimit_Flow c;
     Kind_TransCoeffModel := Kind_TransCoeffModel c;
     SystemMeasurements := SystemMeasurements c;
     Comm_Level := Comm_Level c;
     Marker_All_KindBC := Marker_All_KindBC c;
     InnerIter := InnerIter c;
     LimiterIter := LimiterIter c |}.

(** ** CGeometry (read only) *)

Record CEdge := {
  Node0 : nat;                 (* edges->GetNode(iEdge, 0) *)
  Node1 : nat;                 (* edges->GetNode(iEdge, 1) *)
  edge_Normal : array;         (* edges->GetNormal(iEdge) *)
}.

Record CVertex := {
  vertex_Node : nat;           (* vertex[iMarker][iVertex]->GetNode() *)
  vertex_Normal : array;       (* vertex[iMarker][iVertex]->GetNormal() *)
}.

Record CGeometry := {
  edges : list CEdge;              (* GetnEdge() is its length *)
  vertex : list (list CVertex);    (* vertex[iMarker]; nVertex[iMarker] is the length *)
  Volume : nat -> su2double;       (* nodes->GetVolume(iPoint) *)
  Coord : nat -> array;            (* nodes->GetCoord(iPoint) *)
  Domain : nat -> bool;            (* nodes->GetDomain(iPoint) *)
  nNeighbor : nat -> nat;          (* nodes->GetnNeighbor(iPoint) *)
  GridVel : nat -> array;          (* nodes->GetGridVel(iPoint) *)
  GlobalIndex : nat -> nat;        (* nodes->GetGlobalIndex(iPoint) *)
}.

(** The vertices of one marker; a marker out of range has none. *)
Definition marker_vertices (geometry : CGeometry) (val_marker : nat) : list CVertex :=
  default [] (vertex geometry !! val_marker).

(** ** CNumerics: what the setters store

    A numerics object is the set of inputs the solver hands it through its
    setters; a setter replaces the inputs of its own name and leaves the
    others as the previous caller left them. *)

Inductive NumericsArray :=
| Normal | U_i | U_j | V_i | V_j
| dPdU_i | dPdU_j | dTdU_i | dTdU_j | dTvedU_i | dTvedU_j
| Eve_i | Eve_j | Cvve_i | Cvve_j
| GridVel_i | GridVel_j | Coord_i | Coord_j.

Inductive NumericsScalar := Lambda_i | Lambda_j | Volume_.

Inductive NumericsCount := Neighbor_i | Neighbor_j.

#[global] Instance NumericsArray_eq_dec : EqDecision NumericsArray.
Proof. solve_decision. Defined.
#[global] Instance NumericsScalar_eq_dec : EqDecision NumericsScalar.
Proof. solve_decision. Defined.
#[global] Instance NumericsCount_eq_dec : EqDecision NumericsCount.
Proof. solve_decision. Defined.

Record CNumerics := {
  in_array : NumericsArray -> array;
  in_scalar : NumericsScalar -> su2double;
  in_count : NumericsCount -> nat;
}.

Definition set_arrays (a b : NumericsArray) (x y : array) (n : CNumerics) : CNumerics :=
  {| in_array := <[b := y]> (<[a := x]> (in_array n));
     in_scalar := in_scalar n; in_count := in_count n |}.

Definition SetNormal (v : array) (n : CNumerics) : CNumerics :=
  {| in_array := <[Normal := v]> (in_array n);
     in_scalar := in_scalar n; in_count := in_count n |}.
Definition SetNeighbor (a b : nat) (n : CNumerics) : CNumerics :=
  {| in_array := in_array n; in_scalar := in_scalar n;
     in_count := <[Neighbor_j := b]> (<[Neighbor_i := a]> (in_count n)) |}.
Definition SetLambda (a b : su2double) (n : CNumerics) : CNumerics :=
  {| in_array := in_array n;
     in_scalar := <[Lambda_j := b]> (<[Lambda_i := a]> (in_scalar n));
     in_count := in_count n |}.
Definition SetVolume (v : su2double) (n : CNumerics) : CNumerics :=
  {| in_array := in_array n; in_scalar := <[Volume_ := v]> (in_scalar n);
     in_count := in_count n |}.
Definition SetConservative := set_arrays U_i U_j.
Definition SetPrimitive := set_arrays V_i V_j.
Definition SetdPdU := set_arrays dPdU_i dPdU_j.
Definition SetdTdU := set_arrays dTdU_i dTdU_j.
Definition SetdTvedU := set_arrays dTvedU_i dTvedU_j.
Definition SetEve := set_arrays Eve_i Eve_j.
Definition SetCvve := set_arrays Cvve_i Cvve_j.
Definition SetGridVel := set_arrays GridVel_i GridVel_j.
Definition SetCoord := set_arrays Coord_i Coord_j.

(** ** CNEMOEulerVariable: the per-point storage ([nodes])

    Again reached through getters and setters only: a per-point array or
    scalar is looked up by its name and the point index. *)

Inductive NodeArray :=
| Solution | Primitive | dPdU | dTdU | dTvedU | Eve | Cvve | Limiter | ResTruncError.

Inductive NodeScalar :=
| Lambda | Max_Lambda_Inv | Max_Lambda_Visc | Delta_Time | UnderRelaxation
| SoundSpeed | LaminarViscosity | ThermalConductivity | ThermalConductivity_ve
| Density | RhoCv_tr | RhoCv_ve.

#[global] Instance NodeArray_eq_dec : EqDecision NodeArray.
Proof. solve_decision. Defined.
#[global] Instance NodeScalar_eq_dec : EqDecision NodeScalar.
Proof. solve_decision. Defined.

Record CNEMOEulerVariable := {
  node_array : NodeArray -> nat -> array;       (* GetSolution(iPoint), ... *)
  node_scalar : NodeScalar -> nat -> su2double; (* GetDelta_Time(iPoint), ... *)
  Gradient_Reconstruction : nat -> block;       (* [iPoint][iVar][iDim] *)
}.

Definition SetScalar (x : NodeScalar) (iPoint : nat) (v : su2double)
    (n : CNEMOEulerVariable) : CNEMOEulerVariable :=
  {| node_array := node_array n;
     node_scalar := <[x := <[iPoint := v]> (node_scalar n x)]> (node_scalar n);
     Gradient_Reconstruction := Gradient_Reconstruction n |}.

Definition SetArrayEntry (x : NodeArray) (iPoint iVar : nat) (v : su2double)
    (n : CNEMOEulerVariable) : CNEMOEulerVariable :=
  {| node_array :=
       <[x := <[iPoint := <[iVar := v]> (node_array n x iPoint)]> (node_array n x)]>
         (node_array n);
     node_scalar := node_scalar n;
     Gradient_Reconstruction := Gradient_Reconstruction n |}.

(** [nodes->AddMax_Lambda_Inv(iPoint, v)] and its viscous twin. *)
Definition AddScalar (x : NodeScalar) (iPoint : nat) (v : su2double)
    (n : CNEMOEulerVariable) : CNEMOEulerVariable :=
  SetScalar x iPoint (node_scalar n x iPoint + v)%D n.

(** [nodes->AddSolution(iPoint, iVar, v)]. *)
Definition AddSolution (iPoint iVar : nat) (v : su2double)
    (n : CNEMOEulerVariable) : CNEMOEulerVariable :=
  SetArrayEntry Solution iPoint iVar (node_array n Solution iPoint iVar + v)%D n.

(** What [Cons2PrimVar] writes into the arrays it is given, and its return
    value: true when the state is not physical. *)
Record Cons2Prim := {
  nonphysical : bool;
  c2p_Primitive : array;
  c2p_dPdU : array;
  c2p_dTdU : array;
  c2p_dTvedU : array;
  c2p_Eve : array;
  c2p_Cvve : array;
}.

(** The methods of [CNEMOEulerVariable] that compute; their code is not part
    of the sources at hand. *)
Class CNEMOEulerVariable_methods := {
  GetProjVel : CNEMOEulerVariable -> nat -> array -> su2double;
  Cons2PrimVar : CNEMOEulerVariable -> array -> Cons2Prim;
}.

(** ** CSysVector and CSysMatrix

    Modelled from the spec: the two linear-algebra containers are not part
    of the sources at hand.  The residual vector is a "global mapping from
    point index to an nVar-length accumulator", stored flat (the solver
    itself indexes it with [iPoint*nVar + iVar]); the Jacobian is a
    "block-sparse matrix indexed by (point, point) pairs with nVar x nVar
    blocks". *)

Definition AddBlock (nVar : nat) (iPoint : nat) (val : array) (vec_val : array) : array :=
  for_loop nVar (fun iVar (v : array) =>
    let total_index := iPoint * nVar + iVar in
    <[total_index := (v total_index + val iVar)%D]> v) vec_val.

Definition SubtractBlock (nVar : nat) (iPoint : nat) (val : array) (vec_val : array) : array :=
  for_loop nVar (fun iVar (v : array) =>
    let total_index := iPoint * nVar + iVar in
    <[total_index := (v total_index - val iVar)%D]> v) vec_val.

(** [LinSysRes.GetBlock(iPoint)]. *)
Definition GetBlock (nVar : nat) (iPoint : nat) (vec_val : array) : array :=
  fun iVar => vec_val (iPoint * nVar + iVar).

Abbreviation CSysMatrix := (gmap (nat * nat) block).

Definition block_add (nVar : nat) (B blk : block) : block :=
  fun iVar jVar =>
    if decide (iVar < nVar /\ jVar < nVar) then (blk iVar jVar + B iVar jVar)%D
    else blk iVar jVar.

Definition block_sub (nVar : nat) (B blk : block) : block :=
  fun iVar jVar =>
    if decide (iVar < nVar /\ jVar < nVar) then (blk iVar jVar - B iVar jVar)%D
    else blk iVar jVar.

(** [val] times the identity block. *)
Definition diag_block (val : su2double) : block :=
  fun iVar jVar => if decide (iVar = jVar) then val else zero.

(** A block outside the sparsity pattern does not exist and is not created. *)
Definition AddBlock2 (nVar : nat) (i j : nat) (B : block) (J : CSysMatrix) : CSysMatrix :=
  alter (block_add nVar B) (i, j) J.

Definition SubtractBlock2 (nVar : nat) (i j : nat) (B : block) (J : CSysMatrix) : CSysMatrix :=
  alter (block_sub nVar B) (i, j) J.

(** Modelled from the spec: "diagonal Jacobian boosted by Volume/dt"; [val]
    is added to the diagonal entries of the diagonal block of the row. *)
Definition AddVal2Diag (nVar : nat) (i : nat) (val : su2double) (J : CSysMatrix) : CSysMatrix :=
  alter (block_add nVar (diag_block val)) (i, i) J.

(** Modelled from the spec: "the row forced to identity"; every block of
    row [i] is cleared and its diagonal block is [val] times the identity. *)
Definition SetVal2Diag (i : nat) (val : su2double) (J : CSysMatrix) : CSysMatrix :=
  <[(i, i) := diag_block val]>
    (map_imap (fun (rc : nat * nat) (blk : block) =>
       Some (if decide (rc.1 = i) then zero_block else blk)) J).

(** ** The fluid model (external collaborator)

    The solver sets a mixture state and then reads it back through getters;
    an object of [CNEMOGas] is modelled by what its getters return after
    [SetTDStatePTTv(P, Ys, T, Tve)]. *)

Record TDState := {
  ComputeGasConstant : su2double;
  GetDensity : su2double;
  ComputeSoundSpeed : su2double;
  GetMixtureEnergies : array;        (* vector<su2double> *)
  GetViscosity : su2double;
}.

Record CNEMOGas := {
  SetTDStatePTTv : su2double -> array -> su2double -> su2double -> TDState;
}.

(** ** The solver's state *)

Record Sizes := {
  nVar : nat; nDim : nat; nSpecies : nat; nPrimVar : nat;
  nPoint : nat; nPointDomain : nat;
}.

(** The work arrays of the solver the numerics write into. *)
Record Scratch := {
  Residual : array;
  Res_Conv : array; Res_Visc : array; Jacobian_i : block; Jacobian_j : block;
}.

(** Convergence monitoring of [CSolver]. *)
Record Monitor := {
  Residual_RMS : array;
  Residual_Max : array;
  Point_Max : nat -> nat;
  Point_Max_Coord : nat -> array;
  IterLinSolver : nat;
}.

Record State := {
  sizes : Sizes;
  Gamma : su2double;
  MassFrac_Inf : array;
  FluidModel : CNEMOGas;
  nodes : CNEMOEulerVariable;
  LinSysRes : array;
  LinSysSol : array;
  Jacobian : CSysMatrix;
  scratch : Scratch;
  Min_Delta_Time : su2double;
  Max_Delta_Time : su2double;
  monitor : Monitor;
  config : CConfig;
  cout : list string;
  Rank : nat;
}.

Definition set_FluidModel (f : CNEMOGas -> CNEMOGas) (s : State) : State :=
  {| sizes := sizes s; Gamma := Gamma s; MassFrac_Inf := MassFrac_Inf s;
     FluidModel := f (FluidModel s); nodes := nodes s; LinSysRes :=
     LinSysRes s; LinSysSol := LinSysSol s; Jacobian := Jacobian s;
     scratch := scratch s; Min_Delta_Time := Min_Delta_Time s;
     Max_Delta_Time := Max_Delta_Time s; monitor := monitor s; config :=
     config s; cout := cout s; Rank := Rank s |}.
Definition set_nodes (f : CNEMOEulerVariable -> CNEMOEulerVariable) (s : State) : State :=
  {| sizes := sizes s; Gamma := Gamma s; MassFrac_Inf := MassFrac_Inf s;
     FluidModel := FluidModel s; nodes := f (nodes s); LinSysRes :=
     LinSysRes s; LinSysSol := LinSysSol s; Jacobian := Jacobian s;
     scratch := scratch s; Min_Delta_Time := Min_Delta_Time s;
     Max_Delta_Time := Max_Delta_Time s; monitor := monitor s; config :=
     config s; cout := cout s; Rank := Rank s |}.
Definition set_LinSysRes (f : array -> array) (s : State) : State :=
  {| sizes := sizes s; Gamma := Gamma s; MassFrac_Inf := MassFrac_Inf s;
     FluidModel := FluidModel s; nodes := nodes s; LinSysRes := f
     (LinSysRes s); LinSysSol := LinSysSol s; Jacobian := Jacobian s;
     scratch := scratch s; Min_Delta_Time := Min_Delta_Time s;
     Max_Delta_Time := Max_Delta_Time s; monitor := monitor s; config :=
     config s; cout := cout s; Rank := Rank s |}.
Definition set_LinSysSol (f : array -> array) (s : State) : State :=
  {| sizes := sizes s; Gamma := Gamma s; MassFrac_Inf := MassFrac_Inf s;
     FluidModel := FluidModel s; nodes := nodes s; LinSysRes := LinSysRes
     s; LinSysSol := f (LinSysSol s); Jacobian := Jacobian s; scratch :=
     scratch s; Min_Delta_Time := Min_Delta_Time s; Max_Delta_Time :=
     Max_Delta_Time s; monitor := monitor s; config := config s; cout :=
     cout s; Rank := Rank s |}.
Definition set_Jacobian (f : CSysMatrix -> CSysMatrix) (s : State) : State :=
  {| sizes := sizes s; Gamma := Gamma s; MassFrac_Inf := MassFrac_Inf s;
     FluidModel := FluidModel s; nodes := nodes s; LinSysRes := LinSysRes
     s; LinSysSol := LinSysSol s; Jacobian := f (Jacobian s); scratch :=
     scratch s; Min_Delta_Time := Min_Delta_Time s; Max_Delta_Time :=
     Max_Delta_Time s; monitor := monitor s; config := config s; cout :=
     cout s; Rank := Rank s |}.
Definition set_scratch (f : Scratch -> Scratch) (s : State) : State :=
  {| sizes := sizes s; Gamma := Gamma s; MassFrac_Inf := MassFrac_Inf s;
     FluidModel := FluidModel s; nodes := nodes s; LinSysRes := LinSysRes
     s; LinSysSol := LinSysSol s; Jacobian := Jacobian s; scratch := f
     (scratch s); Min_Delta_Time := Min_Delta_Time s; Max_Delta_Time :=
     Max_Delta_Time s; monitor := monitor s; config := config s; cout :=
     cout s; Rank := Rank s |}.
Definition set_Min_Delta_Time (f : su2double -> su2double) (s : State) : State :=
  {| sizes := sizes s; Gamma := Gamma s; MassFrac_Inf := MassFrac_Inf s;
     FluidModel := FluidModel s; nodes := nodes s; LinSysRes := LinSysRes
     s; LinSysSol := LinSysSol s; Jacobian := Jacobian s; scratch :=
     scratch s; Min_Delta_Time := f (Min_Delta_Time s); Max_Delta_Time :=
     Max_Delta_Time s; monitor := monitor s; config := config s; cout :=
     cout s; Rank := Rank s |}.
Definition set_Max_Delta_Time (f : su2double -> su2double) (s : State) : State :=
  {| sizes := sizes s; Gamma := Gamma s; MassFrac_Inf := MassFrac_Inf s;
     FluidModel := FluidModel s; nodes := nodes s; LinSysRes := LinSysRes
     s; LinSysSol := LinSysSol s; Jacobian := Jacobian s; scratch :=
     scratch s; Min_Delta_Time := Min_Delta_Time s; Max_Delta_Time := f
     (Max_Delta_Time s); monitor := monitor s; config := config s; cout :=
     cout s; Rank := Rank s |}.
Definition set_monitor (f : Monitor -> Monitor) (s : State) : State :=
  {| sizes := sizes s; Gamma := Gamma s; MassFrac_Inf := MassFrac_Inf s;
     FluidModel := FluidModel s; nodes := nodes s; LinSysRes := LinSysRes
     s; LinSysSol := LinSysSol s; Jacobian := Jacobian s; scratch :=
     scratch s; Min_Delta_Time := Min_Delta_Time s; Max_Delta_Time :=
     Max_Delta_Time s; monitor := f (monitor s); config := config s; cout
     := cout s; Rank := Rank s |}.
Definition set_config (f : CConfig -> CConfig) (s : State) : State :=
  {| sizes := sizes s; Gamma := Gamma s; MassFrac_Inf := MassFrac_Inf s;
     FluidModel := FluidModel s; nodes := nodes s; LinSysRes := LinSysRes
     s; LinSysSol := LinSysSol s; Jacobian := Jacobian s; scratch :=
     scratch s; Min_Delta_Time := Min_Delta_Time s; Max_Delta_Time :=
     Max_Delta_Time s; monitor := monitor s; config := f (config s); cout
     := cout s; Rank := Rank s |}.
Definition set_cout (f : list string -> list string) (s : State) : State :=
  {| sizes := sizes s; Gamma := Gamma s; MassFrac_Inf := MassFrac_Inf s;
     FluidModel := FluidModel s; nodes := nodes s; LinSysRes := LinSysRes
     s; LinSysSol := LinSysSol s; Jacobian := Jacobian s; scratch :=
     scratch s; Min_Delta_Time := Min_Delta_Time s; Max_Delta_Time :=
     Max_Delta_Time s; monitor := monitor s; config := config s; cout := f
     (cout s); Rank := Rank s |}.

(** ** Outcomes and process termination *)

(** A call either returns, or the process has been terminated by [Abort]
    with the given error code; the state is the one at that moment. *)
Inductive outcome :=
| Done (s : State)
| Aborted (error : Z) (s : State).

(** A step that may terminate the process. *)
Definition M := State -> outcome.

Definition ret : M := Done.

Definition andThen (f g : M) : M :=
  fun s => match f s with Done s' => g s' | Aborted e s' => Aborted e s' end.

Declare Scope M_scope.
Delimit Scope M_scope with M.
Notation "f ;; g" := (andThen f g)
  (at level 100, g at level 200, right associativity) : M_scope.
Local Open Scope M_scope.

(** A step that cannot fail. *)
Definition step (f : State -> State) : M := fun s => Done (f s).

Definition final (o : outcome) : State :=
  match o with Done s | Aborted _ s => s end.

Definition returns (o : outcome) : Prop :=
  match o with Done _ => True | Aborted _ _ => False end.

(** [cout << a << b << ... ]: the chunks written so far, oldest first. *)
Definition print (chunks : list string) : State -> State :=
  set_cout (fun out => out ++ chunks).

Definition endl : string := String (Ascii.ascii_of_nat 10) EmptyString.
Definition dquote : string := String (Ascii.ascii_of_nat 34) EmptyString.

(** Modelled from the spec: [CBaseMPIWrapper::Abort] is declared in a header
    that is not part of the sources at hand; a fatal condition ends in
    "process termination". *)
Definition Abort (error : Z) : M := fun s => Aborted error s.

(** [CBaseMPIWrapper::Error] of mpi_structure.cpp, the build without
    [HAVE_MPI]: rank 0 prints the error block, then the process aborts. *)
Definition error_block (ErrorMsg FunctionName : string) : list string :=
  [endl; endl;
   "Error in "; dquote; FunctionName; dquote; ": "; endl;
   "-------------------------------------------------------------------------"; endl;
   ErrorMsg; endl;
   "------------------------------ Error Exit -------------------------------"; endl;
   endl; endl].

Definition Error (ErrorMsg FunctionName : string) : M :=
  step (fun s =>
    if decide (Rank s = 0) then print (error_block ErrorMsg FunctionName) s else s) ;;
  Abort 0.

(** [CURRENT_FUNCTION] expands to the compiler's name of the enclosing
    function. *)
Definition CURRENT_FUNCTION (name : string) : string := name.

(** ** The numerics functors (external collaborators)

    A functor is a pure function of the inputs the solver has set on the
    numerics object and of the configuration.  The centered functor is the
    overload [ComputeResidual(Res_Conv, Res_Visc, Jacobian_i, Jacobian_j,
    config)], which writes into the solver's work arrays; the other functors
    return their residual. *)

Class CNumerics_methods := {
  ComputeResidual_centered : CNumerics -> CConfig -> Scratch -> Scratch;
  ComputeResidual : CNumerics -> CConfig -> array;
  ComputeAxisymmetric : CNumerics -> CConfig -> array;
  ComputeChemistry : CNumerics -> CConfig -> array;
  ComputeVibRelaxation : CNumerics -> CConfig -> array;
}.

(** The linear solver and the services of the base class [CSolver]
    (communication, the RMS of the residual) are external collaborators.
    [Solve] receives the matrix, the right-hand side and the initial guess by
    reference and returns them with the number of iterations. *)
Class CSysSolve_methods := {
  Solve : CSysMatrix -> array -> array -> CGeometry -> CConfig
          -> CSysMatrix * array * array * nat;
}.

Class CSolver_methods := {
  InitiateComms_SOLUTION : CGeometry -> State -> State;
  CompleteComms_SOLUTION : CGeometry -> State -> State;
  SetResidual_RMS : CGeometry -> M;
}.

(** What [SetNondimensionalization] takes from outside the solver: the
    trigonometric functions of [<cmath>], two constants of a header that is
    not part of the sources at hand, the constructor of the user-defined gas
    model, and the table printer of the console report. *)
Class cmath := {
  cos : su2double -> su2double;
  sin : su2double -> su2double;
}.

Class constants := {
  PI_NUMBER : su2double;
  STANDARD_GRAVITY : su2double;
}.

Class CUserDefinedTCLib := {
  new_CUserDefinedTCLib : CConfig -> nat -> bool -> CNEMOGas;
}.

Class PrintingToolbox := {
  NonDim_tables : CConfig -> su2double -> list string;
}.

Notation "x |> f" := (f x) (at level 45, left associativity, only parsing).

Section Solver.

Context {numerics_methods : CNumerics_methods}.
Context {variable_methods : CNEMOEulerVariable_methods}.
Context {solve_methods : CSysSolve_methods} {solver_methods : CSolver_methods}.
Context {libm : cmath} {consts : constants}.
Context {tclib : CUserDefinedTCLib} {printer : PrintingToolbox}.

Definition implicit_scheme (s : State) : bool :=
  bool_decide (Kind_TimeIntScheme_Flow (config s) = EULER_IMPLICIT).

(** ** Centered_Residual *)

(** The inputs the centered path sets on the numerics object for one edge. *)
Definition Centered_inputs (geometry : CGeometry) (s : State) (e : CEdge)
    (numerics : CNumerics) : CNumerics :=
  let iPoint := Node0 e in
  let jPoint := Node1 e in
  let get x iPoint := node_array (nodes s) x iPoint in
  numerics
  |> SetNormal (edge_Normal e)
  |> SetNeighbor (nNeighbor geometry iPoint) (nNeighbor geometry jPoint)
  |> SetConservative (get Solution iPoint) (get Solution jPoint)
  |> SetPrimitive (get Primitive iPoint) (get Primitive jPoint)
  |> SetdPdU (get dPdU iPoint) (get dPdU jPoint)
  |> SetdTdU (get dTdU iPoint) (get dTdU jPoint)
  |> SetdTvedU (get dTvedU iPoint) (get dTvedU jPoint)
  |> SetEve (get Eve iPoint) (get Eve jPoint)
  |> SetCvve (get Cvve iPoint) (get Cvve jPoint)
  |> SetLambda (node_scalar (nodes s) Lambda iPoint) (node_scalar (nodes s) Lambda jPoint).

(** The NaN check of the centered path. *)
Definition Centered_err (s : State) (sc : Scratch) : bool :=
  let err := false in
  let err := scan_nan2 (nVar (sizes s)) (Res_Conv sc) (Res_Visc sc) err in
  if implicit_scheme s
  then scan_nan_block2 (nVar (sizes s)) (Jacobian_i sc) (Jacobian_j sc) err
  else err.

(** The update of the residual and of the Jacobian for one edge. *)
Definition Centered_update (e : CEdge) (s : State) : State :=
  let iPoint := Node0 e in
  let jPoint := Node1 e in
  let nVar := nVar (sizes s) in
  let sc := scratch s in
  let s := s
    |> set_LinSysRes (AddBlock nVar iPoint (Res_Conv sc))
    |> set_LinSysRes (SubtractBlock nVar jPoint (Res_Conv sc))
    |> set_LinSysRes (AddBlock nVar iPoint (Res_Visc sc))
    |> set_LinSysRes (SubtractBlock nVar jPoint (Res_Visc sc)) in
  if implicit_scheme s then
    s |> set_Jacobian (AddBlock2 nVar iPoint iPoint (Jacobian_i sc))
      |> set_Jacobian (AddBlock2 nVar iPoint jPoint (Jacobian_j sc))
      |> set_Jacobian (SubtractBlock2 nVar jPoint iPoint (Jacobian_i sc))
      |> set_Jacobian (SubtractBlock2 nVar jPoint jPoint (Jacobian_j sc))
  else s.

(** The body of the edge loop; the numerics object is threaded through it. *)
Definition Centered_edge (geometry : CGeometry) (ns : CNumerics * State) (e : CEdge)
    : CNumerics * State :=
  let '(numerics, s) := ns in
  let numerics := Centered_inputs geometry s e numerics in
  let s := set_scratch (ComputeResidual_centered numerics (config s)) s in
  let err := Centered_err s (scratch s) in
  (numerics, if negb err then Centered_update e s else s).

Definition Centered_Residual (geometry : CGeometry) (numerics : CNumerics)
    (iMesh iRKStep : nat) : M :=
  step (fun s => (foldl (Centered_edge geometry) (numerics, s) (edges geometry)).2).

(** ** Upwind_Residual *)

Definition muscl_flag (s : State) (iMesh : nat) : bool :=
  MUSCL_Flow (config s) && bool_decide (iMesh = MESH_0).

Definition limiter_flag (s : State) : bool :=
  bool_decide (Kind_SlopeLimit_Flow (config s) <> NO_LIMITER)
  && bool_decide (InnerIter (config s) <= LimiterIter (config s))
  && negb (Discrete_Adjoint (config s) && Frozen_Limiter_Disc (config s)).

(** The first-order inputs: the cell-center states of both endpoints and the
    derivative arrays stored with them. *)
Definition first_order_inputs (s : State) (iPoint jPoint : nat)
    (numerics : CNumerics) : CNumerics :=
  let get x iPoint := node_array (nodes s) x iPoint in
  numerics
  |> SetPrimitive (get Primitive iPoint) (get Primitive jPoint)
  |> SetConservative (get Solution iPoint) (get Solution jPoint)
  |> SetdPdU (get dPdU iPoint) (get dPdU jPoint)
  |> SetdTdU (get dTdU iPoint) (get dTdU jPoint)
  |> SetdTvedU (get dTvedU iPoint) (get dTvedU jPoint)
  |> SetEve (get Eve iPoint) (get Eve jPoint)
  |> SetCvve (get Cvve iPoint) (get Cvve jPoint).

(** The smallest limiter of a point over its variables, starting from 1. *)
Definition min_limiter (nVar : nat) (Limiter_i : array) : su2double :=
  for_loop nVar (fun iVar lim_i =>
    if fgt lim_i (Limiter_i iVar) then Limiter_i iVar else lim_i) one.

(** [ProjGradU]: the gradient of one variable along the half edge. *)
Definition ProjGrad (nDim : nat) (Vector : array) (Grad_iVar : array) : su2double :=
  for_loop nDim (fun iDim acc => (acc + Vector iDim * Grad_iVar iDim)%D) zero.

(** The conserved state extrapolated to the face from one endpoint; the
    entries below [nVar] are the ones the source writes. *)
Definition reconstruct (s : State) (geometry : CGeometry) (limiter : bool)
    (lim_ij : su2double) (iPoint jPoint : nat) : array :=
  let Vector_i : array := fun iDim =>
    (half * (Coord geometry jPoint iDim - Coord geometry iPoint iDim))%D in
  let GradU_i := Gradient_Reconstruction (nodes s) iPoint in
  let U_i := node_array (nodes s) Solution iPoint in
  fun iVar =>
    let ProjGradU_i := ProjGrad (nDim (sizes s)) Vector_i (GradU_i iVar) in
    if limiter then (U_i iVar + lim_ij * ProjGradU_i)%D
    else (U_i iVar + ProjGradU_i)%D.

(** The blending factor of an edge: the smaller of the two smallest
    limiters. *)
Definition lim_ij (s : State) (e : CEdge) : su2double :=
  let lim_i := min_limiter (nVar (sizes s)) (node_array (nodes s) Limiter (Node0 e)) in
  let lim_j := min_limiter (nVar (sizes s)) (node_array (nodes s) Limiter (Node1 e)) in
  fmin lim_i lim_j.

(** The two conserved states reconstructed at the face of an edge. *)
Definition Conserved_i (geometry : CGeometry) (s : State) (e : CEdge) : array :=
  reconstruct s geometry (limiter_flag s) (lim_ij s e) (Node0 e) (Node1 e).
Definition Conserved_j (geometry : CGeometry) (s : State) (e : CEdge) : array :=
  reconstruct s geometry (limiter_flag s) (lim_ij s e) (Node1 e) (Node0 e).

(** The inputs the upwind path sets on the numerics object for one edge. *)
Definition Upwind_inputs (geometry : CGeometry) (s : State) (iMesh : nat)
    (e : CEdge) (numerics : CNumerics) : CNumerics :=
  let iPoint := Node0 e in
  let jPoint := Node1 e in
  let numerics := SetNormal (edge_Normal e) numerics in
  if muscl_flag s iMesh then
    let ci := Cons2PrimVar (nodes s) (Conserved_i geometry s e) in
    let cj := Cons2PrimVar (nodes s) (Conserved_j geometry s e) in
    let chk_err_i := nonphysical ci in
    let chk_err_j := nonphysical cj in
    (* Check for physical solutions in the reconstructed values *)
    if chk_err_i || chk_err_j then
      (* Note: If non-physical, revert to first order *)
      first_order_inputs s iPoint jPoint numerics
    else
      numerics
      |> SetConservative (Conserved_i geometry s e) (Conserved_j geometry s e)
      |> SetPrimitive (c2p_Primitive ci) (c2p_Primitive cj)
      |> SetdPdU (c2p_dPdU ci) (c2p_dPdU cj)
      |> SetdTdU (c2p_dTdU ci) (c2p_dTdU cj)
      |> SetdTvedU (c2p_dTvedU ci) (c2p_dTvedU cj)
      |> SetEve (c2p_Eve ci) (c2p_Eve cj)
      |> SetCvve (c2p_Cvve ci) (c2p_Cvve cj)
  else
    (* Set variables without reconstruction *)
    first_order_inputs s iPoint jPoint numerics.

(** The reconstruction of an edge is flagged by the conversion to
    primitives. *)
Definition flagged (geometry : CGeometry) (s : State) (e : CEdge) : bool :=
  nonphysical (Cons2PrimVar (nodes s) (Conserved_i geometry s e))
  || nonphysical (Cons2PrimVar (nodes s) (Conserved_j geometry s e)).

Definition Upwind_update (e : CEdge) (residual : array) (s : State) : State :=
  s |> set_LinSysRes (AddBlock (nVar (sizes s)) (Node0 e) residual)
    |> set_LinSysRes (SubtractBlock (nVar (sizes s)) (Node1 e) residual).

Definition Upwind_edge (geometry : CGeometry) (iMesh : nat)
    (ns : CNumerics * State) (e : CEdge) : CNumerics * State :=
  let '(numerics, s) := ns in
  let numerics := Upwind_inputs geometry s iMesh e numerics in
  let residual := ComputeResidual numerics (config s) in
  let err := scan_nan (nVar (sizes s)) residual false in
  (numerics, if negb err then Upwind_update e residual s else s).

Definition Upwind_Residual (geometry : CGeometry) (numerics : CNumerics)
    (iMesh : nat) : M :=
  step (fun s => (foldl (Upwind_edge geometry iMesh) (numerics, s) (edges geometry)).2).

(** ** BC_Supersonic_Outlet *)

(** [GetNormal(Normal)] copies the normal of the vertex into the local
    buffer, and the loop negates its [nDim] components. *)
Definition outward_normal (nDim : nat) (vertex_normal : array) : array :=
  for_loop nDim (fun iDim (Normal : array) =>
    <[iDim := (- Normal iDim)%D]> Normal) vertex_normal.

Definition Supersonic_Outlet_inputs (geometry : CGeometry) (s : State)
    (v : CVertex) (conv_numerics : CNumerics) : CNumerics :=
  let iPoint := vertex_Node v in
  let get x iPoint := node_array (nodes s) x iPoint in
  (* Current solution at this boundary node *)
  let V_domain := get Primitive iPoint in
  let U_domain := get Solution iPoint in
  (* Allocate the value at the outlet *)
  let V_outlet := V_domain in
  let U_outlet := U_domain in
  let Normal := outward_normal (nDim (sizes s)) (vertex_Normal v) in
  let conv_numerics := conv_numerics
    |> SetNormal Normal
    |> SetPrimitive V_domain V_outlet
    |> SetConservative U_domain U_outlet
    |> SetdPdU (get dPdU iPoint) (get dPdU iPoint)
    |> SetdTdU (get dTdU iPoint) (get dTdU iPoint)
    |> SetdTvedU (get dTvedU iPoint) (get dTvedU iPoint)
    |> SetEve (get Eve iPoint) (get Eve iPoint)
    |> SetCvve (get Cvve iPoint) (get Cvve iPoint) in
  if Grid_Movement (config s)
  then SetGridVel (GridVel geometry iPoint) (GridVel geometry iPoint) conv_numerics
  else conv_numerics.

Definition Supersonic_Outlet_vertex (geometry : CGeometry)
    (ns : CNumerics * State) (v : CVertex) : CNumerics * State :=
  let '(conv_numerics, s) := ns in
  let iPoint := vertex_Node v in
  (* Check if the node belongs to the domain (i.e, not a halo node) *)
  if Domain geometry iPoint then
    let conv_numerics := Supersonic_Outlet_inputs geometry s v conv_numerics in
    let residual := ComputeResidual conv_numerics (config s) in
    (conv_numerics, set_LinSysRes (AddBlock (nVar (sizes s)) iPoint residual) s)
  else ns.

Definition BC_Supersonic_Outlet (geometry : CGeometry)
    (conv_numerics visc_numerics : CNumerics) (val_marker : nat) : M :=
  step (fun s =>
    (foldl (Supersonic_Outlet_vertex geometry) (conv_numerics, s)
           (marker_vertices geometry val_marker)).2).

(** ** BC_Inlet and BC_Supersonic_Inlet *)

(** The statements of [BC_Inlet] that follow the call of [Error]: the loop
    over the vertices of the marker.  What it does at an owned vertex (the
    inlet state from the total conditions or the mass flow, the flux and its
    accumulation) is left arbitrary. *)
Variable BC_Inlet_vertex : CGeometry -> nat -> CVertex -> State -> State.

Definition BC_Inlet_vertices (geometry : CGeometry) (val_marker : nat) : M :=
  step (fun s =>
    foldl (fun s v =>
             if Domain geometry (vertex_Node v)
             then BC_Inlet_vertex geometry val_marker v s else s)
          s (marker_vertices geometry val_marker)).

Definition BC_Inlet (geometry : CGeometry) (conv_numerics visc_numerics : CNumerics)
    (val_marker : nat) : M :=
  Error "BC_INLET: Not operational in NEMO." (CURRENT_FUNCTION "BC_Inlet") ;;
  BC_Inlet_vertices geometry val_marker.

(** Everything after the call of [Error] is commented out in the source. *)
Definition BC_Supersonic_Inlet (geometry : CGeometry)
    (conv_numerics visc_numerics : CNumerics) (val_marker : nat) : M :=
  Error "BC_SUPERSONIC_INLET: Not operational in NEMO."
        (CURRENT_FUNCTION "BC_Supersonic_Inlet").

(** ** Source_Residual *)

(** The three error counters; an [unsigned long] that counts points. *)
Record Counters := { eAxi_local : nat; eChm_local : nat; eVib_local : nat }.

Definition Source_inputs (geometry : CGeometry) (s : State) (iPoint : nat)
    (numerics : CNumerics) : CNumerics :=
  let get x := node_array (nodes s) x iPoint in
  numerics
  |> SetConservative (get Solution) (get Solution)
  |> SetPrimitive (get Primitive) (get Primitive)
  |> SetdPdU (get dPdU) (get dPdU)
  |> SetdTdU (get dTdU) (get dTdU)
  |> SetdTvedU (get dTvedU) (get dTvedU)
  |> SetEve (get Eve) (get Eve)
  |> SetCvve (get Cvve) (get Cvve)
  |> SetVolume (Volume geometry iPoint)
  |> SetCoord (Coord geometry iPoint) (Coord geometry iPoint).

(** The check of one source term: its residual and, when implicit, the
    solver's [Jacobian_i]. *)
Definition Source_err (s : State) (residual : array) : bool :=
  let err := false in
  let err := scan_nan (nVar (sizes s)) residual err in
  if implicit_scheme s
  then scan_nan_block (nVar (sizes s)) (Jacobian_i (scratch s)) err
  else err.

Definition Source_add (iPoint : nat) (residual : array) (s : State) : State :=
  let s' := set_LinSysRes (AddBlock (nVar (sizes s)) iPoint residual) s in
  if implicit_scheme s
  then set_Jacobian (AddBlock2 (nVar (sizes s)) iPoint iPoint (Jacobian_i (scratch s))) s'
  else s'.

Definition Source_subtract (iPoint : nat) (residual : array) (s : State) : State :=
  let s' := set_LinSysRes (SubtractBlock (nVar (sizes s)) iPoint residual) s in
  if implicit_scheme s
  then set_Jacobian (SubtractBlock2 (nVar (sizes s)) iPoint iPoint (Jacobian_i (scratch s))) s'
  else s'.

Definition Source_axisymmetric (numerics : CNumerics) (iPoint : nat)
    (cs : Counters * State) : Counters * State :=
  let '(c, s) := cs in
  if Axisymmetric (config s) then
    let residual := ComputeAxisymmetric numerics (config s) in
    if negb (Source_err s residual) then (c, Source_add iPoint residual s)
    else ({| eAxi_local := S (eAxi_local c); eChm_local := eChm_local c;
             eVib_local := eVib_local c |}, s)
  else cs.

Definition Source_chemistry (numerics : CNumerics) (iPoint : nat)
    (cs : Counters * State) : Counters * State :=
  let '(c, s) := cs in
  if negb (Monoatomic (config s)) then
    if negb (Frozen (config s)) then
      let residual := ComputeChemistry numerics (config s) in
      if negb (Source_err s residual) then (c, Source_subtract iPoint residual s)
      else ({| eAxi_local := eAxi_local c; eChm_local := S (eChm_local c);
               eVib_local := eVib_local c |}, s)
    else cs
  else cs.

Definition Source_vibrational (numerics : CNumerics) (iPoint : nat)
    (cs : Counters * State) : Counters * State :=
  let '(c, s) := cs in
  if negb (Monoatomic (config s)) then
    let residual := ComputeVibRelaxation numerics (config s) in
    if negb (Source_err s residual) then (c, Source_subtract iPoint residual s)
    else ({| eAxi_local := eAxi_local c; eChm_local := eChm_local c;
             eVib_local := S (eVib_local c) |}, s)
  else cs.

(** The body of the loop over the interior points. *)
Definition Source_point (geometry : CGeometry) (iPoint : nat)
    (ncs : CNumerics * (Counters * State)) : CNumerics * (Counters * State) :=
  let '(numerics, cs) := ncs in
  let numerics := Source_inputs geometry cs.2 iPoint numerics in
  (numerics,
   cs |> Source_axisymmetric numerics iPoint
      |> Source_chemistry numerics iPoint
      |> Source_vibrational numerics iPoint).

(** Initialize the source residual to zero. *)
Definition Source_reset (s : State) : State :=
  set_scratch (fun sc =>
    {| Residual := for_loop (nVar (sizes s)) (fun iVar (R : array) => <[iVar := zero]> R)
                     (Residual sc);
       Res_Conv := Res_Conv sc; Res_Visc := Res_Visc sc;
       Jacobian_i := Jacobian_i sc; Jacobian_j := Jacobian_j sc |}) s.

Definition Source_loop (geometry : CGeometry) (numerics : CNumerics) (s : State)
    : Counters * State :=
  (* Initialize the error counter *)
  let c := {| eAxi_local := 0; eChm_local := 0; eVib_local := 0 |} in
  let s := Source_reset s in
  (* loop over interior points *)
  (for_loop (nPointDomain (sizes s)) (Source_point geometry) (numerics, (c, s))).2.

(** The summary printed after the loop. *)
Definition Source_warning (c : Counters) : State -> State :=
  let eAxi_global := eAxi_local c in
  let eChm_global := eChm_local c in
  let eVib_global := eVib_local c in
  if bool_decide (eAxi_global <> 0) || bool_decide (eChm_global <> 0)
     || bool_decide (eVib_global <> 0)
  then print ["Warning!! Instances of NaN in the following source terms: "; endl;
              "Axisymmetry: "; pretty eAxi_global; endl;
              "Chemical:    "; pretty eChm_global; endl;
              "Vib. Relax:  "; pretty eVib_global; endl]
  else id.

Definition Source_Residual (geometry : CGeometry) (numerics : CNumerics)
    (iMesh : nat) : M :=
  step (fun s =>
    let '(c, s) := Source_loop geometry numerics s in
    Source_warning c s).

(** ** SetTime_Step *)

(** [Area = sqrt(sum Normal[iDim]^2)]. *)
Definition face_area (nDim : nat) (Normal : array) : su2double :=
  fsqrt (for_loop nDim (fun iDim Area => (Area + Normal iDim * Normal iDim)%D) zero).

(** [ProjVel += GridVel[iDim]*Normal[iDim]]. *)
Definition dot (nDim : nat) (a b : array) : su2double :=
  for_loop nDim (fun iDim acc => (acc + a iDim * b iDim)%D) zero.

Definition K_v : su2double := half.
Definition big_Delta_Time : su2double := Z2D 1000000.      (* 1E6 *)
Definition four_thirds : su2double := (Z2D 4 / Z2D 3)%D.   (* 4.0/3.0 *)
Definition two_thirds : su2double := (Z2D 2 / Z2D 3)%D.    (* 2.0/3.0 *)

Definition time_steping (s : State) : bool :=
  bool_decide (Time_Marching (config s) = TIME_STEPPING).
Definition dual_time (s : State) : bool :=
  bool_decide (Time_Marching (config s) = DT_STEPPING_1ST)
  || bool_decide (Time_Marching (config s) = DT_STEPPING_2ND).

Definition AddMax_Lambda (x : NodeScalar) (geometry : CGeometry) (iPoint : nat)
    (Lambda : su2double) (s : State) : State :=
  if Domain geometry iPoint then set_nodes (AddScalar x iPoint Lambda) s else s.

(** Set maximum inviscid eigenvalue to zero. *)
Definition TimeStep_reset (s : State) : State :=
  let s := s |> set_Min_Delta_Time (fun _ => big_Delta_Time)
             |> set_Max_Delta_Time (fun _ => zero) in
  for_loop (nPointDomain (sizes s)) (fun iPoint s =>
    let s := set_nodes (SetScalar Max_Lambda_Inv iPoint zero) s in
    if Viscous (config s)
    then set_nodes (SetScalar Max_Lambda_Visc iPoint zero) s else s) s.

(** Loop interior edges. *)
Definition TimeStep_edge (geometry : CGeometry) (s : State) (e : CEdge) : State :=
  let iPoint := Node0 e in
  let jPoint := Node1 e in
  let nDim := nDim (sizes s) in
  let Normal := edge_Normal e in
  let Area := face_area nDim Normal in
  let get x iPoint := node_scalar (nodes s) x iPoint in
  (* Mean Values *)
  let Mean_ProjVel :=
    (half * (GetProjVel (nodes s) iPoint Normal + GetProjVel (nodes s) jPoint Normal))%D in
  let Mean_SoundSpeed := (half * (get SoundSpeed iPoint + get SoundSpeed jPoint) * Area)%D in
  (* Adjustment for grid movement *)
  let Mean_ProjVel :=
    if Grid_Movement (config s) then
      let ProjVel_i := dot nDim (GridVel geometry iPoint) Normal in
      let ProjVel_j := dot nDim (GridVel geometry jPoint) Normal in
      (Mean_ProjVel - half * (ProjVel_i + ProjVel_j))%D
    else Mean_ProjVel in
  (* Inviscid contribution *)
  let Lambda := (fabs Mean_ProjVel + Mean_SoundSpeed)%D in
  let s1 := s |> AddMax_Lambda Max_Lambda_Inv geometry iPoint Lambda
              |> AddMax_Lambda Max_Lambda_Inv geometry jPoint Lambda in
  (* Viscous contribution *)
  if negb (Viscous (config s)) then s1 else
  let Mean_LaminarVisc := (half * (get LaminarViscosity iPoint + get LaminarViscosity jPoint))%D in
  let Mean_ThermalCond :=
    (half * (get ThermalConductivity iPoint + get ThermalConductivity jPoint))%D in
  let Mean_ThermalCond_ve :=
    (half * (get ThermalConductivity_ve iPoint + get ThermalConductivity_ve jPoint))%D in
  let Mean_Density := (half * (get Density iPoint + get Density jPoint))%D in
  let cv := (half * (get RhoCv_tr iPoint + get RhoCv_ve iPoint
                     + get RhoCv_tr jPoint + get RhoCv_ve jPoint) / Mean_Density)%D in
  let Lambda_1 := (four_thirds * Mean_LaminarVisc)%D in
  let Lambda_2 := ((Mean_ThermalCond + Mean_ThermalCond_ve) / cv)%D in
  let Lambda := ((Lambda_1 + Lambda_2) * Area * Area / Mean_Density)%D in
  s1 |> AddMax_Lambda Max_Lambda_Visc geometry iPoint Lambda
     |> AddMax_Lambda Max_Lambda_Visc geometry jPoint Lambda.

(** Loop boundary edges: the one-sided version. *)
Definition TimeStep_vertex (geometry : CGeometry) (s : State) (v : CVertex) : State :=
  let iPoint := vertex_Node v in
  let nDim := nDim (sizes s) in
  let Normal := vertex_Normal v in
  let Area := face_area nDim Normal in
  let get x := node_scalar (nodes s) x iPoint in
  let Mean_ProjVel := GetProjVel (nodes s) iPoint Normal in
  let Mean_SoundSpeed := (get SoundSpeed * Area)%D in
  let Mean_ProjVel :=
    if Grid_Movement (config s) then
      let ProjVel := dot nDim (GridVel geometry iPoint) Normal in
      (Mean_ProjVel - ProjVel)%D
    else Mean_ProjVel in
  let Lambda := (fabs Mean_ProjVel + Mean_SoundSpeed)%D in
  let s1 := AddMax_Lambda Max_Lambda_Inv geometry iPoint Lambda s in
  if negb (Viscous (config s)) then s1 else
  let Mean_LaminarVisc := get LaminarViscosity in
  let Mean_ThermalCond := get ThermalConductivity in
  let Mean_ThermalCond_ve := get ThermalConductivity_ve in
  let Mean_Density := get Density in
  let cv := ((get RhoCv_tr + get RhoCv_ve) / Mean_Density)%D in
  let Lambda_1 := (four_thirds * Mean_LaminarVisc)%D in
  let Lambda_2 := ((Mean_ThermalCond + Mean_ThermalCond_ve) / cv)%D in
  let Lambda := ((Lambda_1 + Lambda_2) * Area * Area / Mean_Density)%D in
  AddMax_Lambda Max_Lambda_Visc geometry iPoint Lambda s1.

Definition TimeStep_boundary (geometry : CGeometry) (s : State) : State :=
  for_loop (length (vertex geometry)) (fun iMarker s =>
    if bool_decide (Marker_All_KindBC (config s) iMarker <> INTERNAL_BOUNDARY)
    then foldl (TimeStep_vertex geometry) s (marker_vertices geometry iMarker)
    else s) s.

(** The spectral radii: reset, interior edges, boundary faces. *)
Definition TimeStep_spectral_radii (geometry : CGeometry) (s : State) : State :=
  TimeStep_boundary geometry (foldl (TimeStep_edge geometry) (TimeStep_reset s) (edges geometry)).

(** The local step of a point of nonzero volume, before the configured
    maximum is applied. *)
Definition Local_Delta_Time (geometry : CGeometry) (iMesh : nat) (s : State)
    (iPoint : nat) : su2double :=
  let Vol := Volume geometry iPoint in
  let CFL_ := Get (config s) (CFL iMesh) in
  let Local_Delta_Time := (CFL_ * Vol / node_scalar (nodes s) Max_Lambda_Inv iPoint)%D in
  if Viscous (config s) then
    let Local_Delta_Time_Visc :=
      (CFL_ * K_v * Vol * Vol / node_scalar (nodes s) Max_Lambda_Visc iPoint)%D in
    fmin Local_Delta_Time Local_Delta_Time_Visc
  else Local_Delta_Time.

(** Each element uses their own speed, steady state simulation: the body of
    the loop over the points; [Global_Delta_Time] is a local variable. *)
Definition TimeStep_point (geometry : CGeometry) (iMesh : nat) (iPoint : nat)
    (gs : su2double * State) : su2double * State :=
  let '(Global_Delta_Time, s) := gs in
  let Vol := Volume geometry iPoint in
  if fne Vol zero then
    let Local_Delta_Time := Local_Delta_Time geometry iMesh s iPoint in
    let Global_Delta_Time := fmin Global_Delta_Time Local_Delta_Time in
    let s := s |> set_Min_Delta_Time (fun Min_Delta_Time => fmin Min_Delta_Time Local_Delta_Time)
               |> set_Max_Delta_Time (fun Max_Delta_Time => fmax Max_Delta_Time Local_Delta_Time) in
    let Local_Delta_Time :=
      if fgt Local_Delta_Time (Get (config s) Max_DeltaTime)
      then Get (config s) Max_DeltaTime else Local_Delta_Time in
    (Global_Delta_Time, set_nodes (SetScalar Delta_Time iPoint Local_Delta_Time) s)
  else
    (Global_Delta_Time, set_nodes (SetScalar Delta_Time iPoint zero) s).

Definition TimeStep_local (geometry : CGeometry) (iMesh : nat) (s : State)
    : su2double * State :=
  for_loop (nPointDomain (sizes s)) (TimeStep_point geometry iMesh) (big_Delta_Time, s).

(** For exact time solution use the minimum delta time of the whole mesh. *)
Definition TimeStep_global (iMesh : nat) (Global_Delta_Time : su2double) (s : State) : State :=
  if time_steping s then
    for_loop (nPointDomain (sizes s)) (fun iPoint s =>
      (* Sets the regular CFL equal to the unsteady CFL *)
      let s := set_config (Set_ (CFL iMesh) (Get (config s) Unst_CFL)) s in
      if feq (Get (config s) (CFL iMesh)) zero
      then set_nodes (SetScalar Delta_Time iPoint (Get (config s) Delta_UnstTime)) s
      else set_nodes (SetScalar Delta_Time iPoint Global_Delta_Time) s) s
  else s.

(** Recompute the unsteady time step for the dual time strategy, and bound
    the pseudo time step of an explicit scheme by the physical one. *)
Definition TimeStep_dual (iMesh Iteration : nat) (Global_Delta_Time : su2double)
    (s : State) : State :=
  let s :=
    if dual_time s && bool_decide (Iteration = 0)
       && fne (Get (config s) Unst_CFL) zero && bool_decide (iMesh = MESH_0)
    then
      let Global_Delta_UnstTimeND :=
        (Get (config s) Unst_CFL * Global_Delta_Time / Get (config s) (CFL iMesh))%D in
      set_config (Set_ Delta_UnstTimeND Global_Delta_UnstTimeND) s
    else s in
  if dual_time s then
    for_loop (nPointDomain (sizes s)) (fun iPoint s =>
      if negb (implicit_scheme s) then
        let Local_Delta_Time :=
          fmin (two_thirds * Get (config s) Delta_UnstTimeND)%D
               (node_scalar (nodes s) Delta_Time iPoint) in
        set_nodes (SetScalar Delta_Time iPoint Local_Delta_Time) s
      else s) s
  else s.

(** The build without [HAVE_MPI]: the reductions over the processes are not
    compiled. *)
Definition SetTime_Step (geometry : CGeometry) (iMesh Iteration : nat) : M :=
  step (fun s =>
    let s := TimeStep_spectral_radii geometry s in
    let '(Global_Delta_Time, s) := TimeStep_local geometry iMesh s in
    s |> TimeStep_global iMesh Global_Delta_Time
      |> TimeStep_dual iMesh Iteration Global_Delta_Time).

(** ** ImplicitEuler_Iteration *)

(** Modelled from the spec: the accumulators of [CSolver] "accumulate RMS and
    max residual norms per variable for convergence monitoring (max-residual
    tracks offending point's global index and coordinates)". *)
Definition SetRes_RMS (iVar : nat) (v : su2double) (m : Monitor) : Monitor :=
  {| Residual_RMS := <[iVar := v]> (Residual_RMS m);
     Residual_Max := Residual_Max m; Point_Max := Point_Max m;
     Point_Max_Coord := Point_Max_Coord m; IterLinSolver := IterLinSolver m |}.

Definition SetRes_Max (iVar : nat) (v : su2double) (point : nat) (m : Monitor) : Monitor :=
  {| Residual_RMS := Residual_RMS m;
     Residual_Max := <[iVar := v]> (Residual_Max m);
     Point_Max := <[iVar := point]> (Point_Max m);
     Point_Max_Coord := Point_Max_Coord m; IterLinSolver := IterLinSolver m |}.

Definition AddRes_RMS (iVar : nat) (v : su2double) (m : Monitor) : Monitor :=
  SetRes_RMS iVar (Residual_RMS m iVar + v)%D m.

Definition AddRes_Max (iVar : nat) (v : su2double) (point : nat) (coord : array)
    (m : Monitor) : Monitor :=
  if fgt v (Residual_Max m iVar) then
    {| Residual_RMS := Residual_RMS m;
       Residual_Max := <[iVar := v]> (Residual_Max m);
       Point_Max := <[iVar := point]> (Point_Max m);
       Point_Max_Coord := <[iVar := coord]> (Point_Max_Coord m);
       IterLinSolver := IterLinSolver m |}
  else m.

Definition SetIterLinSolver (n : nat) (m : Monitor) : Monitor :=
  {| Residual_RMS := Residual_RMS m; Residual_Max := Residual_Max m;
     Point_Max := Point_Max m; Point_Max_Coord := Point_Max_Coord m;
     IterLinSolver := n |}.

(** Set maximum residual to zero. *)
Definition Implicit_reset (s : State) : State :=
  for_loop (nVar (sizes s)) (fun iVar s =>
    s |> set_monitor (SetRes_RMS iVar zero) |> set_monitor (SetRes_Max iVar zero 0)) s.

(** Modify matrix diagonal to assure diagonal dominance. *)
Definition Implicit_diagonal (geometry : CGeometry) (iPoint : nat) (s : State) : State :=
  let nVar := nVar (sizes s) in
  let Vol := Volume geometry iPoint in
  if fne (node_scalar (nodes s) Delta_Time iPoint) zero then
    let Delta := (Vol / node_scalar (nodes s) Delta_Time iPoint)%D in
    set_Jacobian (AddVal2Diag nVar iPoint Delta) s
  else
    let s := set_Jacobian (SetVal2Diag iPoint one) s in
    for_loop nVar (fun iVar s =>
      let total_index := iPoint * nVar + iVar in
      s |> set_LinSysRes (fun LinSysRes => <[total_index := zero]> LinSysRes)
        |> set_nodes (SetArrayEntry ResTruncError iPoint iVar zero)) s.

(** Right hand side of the system (-Residual) and initial guess (x = 0). *)
Definition Implicit_rhs (geometry : CGeometry) (iPoint : nat) (s : State) : State :=
  let nVar := nVar (sizes s) in
  for_loop nVar (fun iVar s =>
    let total_index := iPoint * nVar + iVar in
    let local_Res_TruncError := node_array (nodes s) ResTruncError iPoint in
    let s := set_LinSysRes (fun LinSysRes =>
      <[total_index := (- (LinSysRes total_index + local_Res_TruncError iVar))%D]> LinSysRes) s in
    let s := set_LinSysSol (fun LinSysSol => <[total_index := zero]> LinSysSol) s in
    let r := LinSysRes s total_index in
    s |> set_monitor (AddRes_RMS iVar (r * r)%D)
      |> set_monitor (AddRes_Max iVar (fabs r) (GlobalIndex geometry iPoint)
                                 (Coord geometry iPoint))) s.

(** Build implicit system: the body of the loop over the owned points. *)
Definition Implicit_point (geometry : CGeometry) (iPoint : nat) (s : State) : State :=
  s |> Implicit_diagonal geometry iPoint |> Implicit_rhs geometry iPoint.

Definition Implicit_build (geometry : CGeometry) (s : State) : State :=
  for_loop (nPointDomain (sizes s)) (Implicit_point geometry) (Implicit_reset s).

(** Initialize residual and solution at the ghost points. *)
Definition Implicit_ghost (s : State) : State :=
  let nVar := nVar (sizes s) in
  for_range (nPointDomain (sizes s)) (nPoint (sizes s)) (fun iPoint s =>
    for_loop nVar (fun iVar s =>
      let total_index := iPoint * nVar + iVar in
      s |> set_LinSysRes (fun LinSysRes => <[total_index := zero]> LinSysRes)
        |> set_LinSysSol (fun LinSysSol => <[total_index := zero]> LinSysSol)) s) s.

(** The system handed to the linear solver. *)
Definition Implicit_system (geometry : CGeometry) (s : State) : State :=
  Implicit_ghost (Implicit_build geometry s).

(** Solve or smooth the linear system. *)
Definition Implicit_solve (geometry : CGeometry) (s : State) : State :=
  let '(J, b, x, IterLinSol) :=
    Solve (Jacobian s) (LinSysRes s) (LinSysSol s) geometry (config s) in
  s |> set_Jacobian (fun _ => J) |> set_LinSysRes (fun _ => b)
    |> set_LinSysSol (fun _ => x) |> set_monitor (SetIterLinSolver IterLinSol).

(** Update solution (system written in terms of increments). *)
Definition Implicit_update (s : State) : State :=
  let nVar := nVar (sizes s) in
  for_loop (nPointDomain (sizes s)) (fun iPoint s =>
    for_loop nVar (fun iVar s =>
      set_nodes (fun nodes =>
        AddSolution iPoint iVar
          (node_scalar nodes UnderRelaxation iPoint * LinSysSol s (iPoint * nVar + iVar)%nat)%D
          nodes) s) s) s.

Definition ImplicitEuler_Iteration (geometry : CGeometry) : M :=
  step (Implicit_system geometry) ;;
  step (Implicit_solve geometry) ;;
  step Implicit_update ;;
  step (InitiateComms_SOLUTION geometry) ;;
  step (CompleteComms_SOLUTION geometry) ;;
  SetResidual_RMS geometry.

(** ** SetNondimensionalization *)

Definition cset (x : ConfigScalar) (v : su2double) : State -> State :=
  set_config (Set_ x v).
Definition cget (s : State) (x : ConfigScalar) : su2double := Get (config s) x.

Definition three_halves : su2double := (Z2D 3 / Z2D 2)%D.    (* 3.0/2.0 *)

(** [bool turbulent = false;] *)
Definition turbulent : bool := false.
Definition tkeNeeded (s : State) : bool :=
  turbulent && bool_decide (Kind_Turb_Model (config s) = SST).
Definition reynolds_init (s : State) : bool :=
  bool_decide (Kind_InitOption (config s) = REYNOLDS).

(** Instatiate the fluid model: only the user-defined model is created.
    For every other choice the switch assigns nothing to the solver's
    pointer, which is declared without an initializer and is dereferenced by
    the next statement of the routine: the source has no defined behaviour
    there, and there is no fluid model to go on with. *)
Definition NonDim_fluid_model (s : State) : option State :=
  match Kind_FluidModel (config s) with
  | USER_DEFINED_NONEQ =>
      Some (set_FluidModel (fun _ =>
        new_CUserDefinedTCLib (config s) (nDim (sizes s)) (Viscous (config s))) s)
  | _ => None
  end.

(** Compute the Free Stream velocity, using the Mach number. *)
Definition NonDim_velocity (soundspeed : su2double) (s : State) : State :=
  let Alpha := (cget s AoA * PI_NUMBER / Z2D 180)%D in
  let Beta := (cget s AoS * PI_NUMBER / Z2D 180)%D in
  let Mach_ := cget s Mach in
  let s :=
    if bool_decide (nDim (sizes s) = 2) then
      s |> cset (Velocity_FreeStream 0) (cos Alpha * Mach_ * soundspeed)%D
        |> cset (Velocity_FreeStream 1) (sin Alpha * Mach_ * soundspeed)%D
    else s in
  if bool_decide (nDim (sizes s) = 3) then
    s |> cset (Velocity_FreeStream 0) (cos Alpha * cos Beta * Mach_ * soundspeed)%D
      |> cset (Velocity_FreeStream 1) (sin Beta * Mach_ * soundspeed)%D
      |> cset (Velocity_FreeStream 2) (sin Alpha * cos Beta * Mach_ * soundspeed)%D
  else s.

(** The first lines of the console report; the tables are the printer's. *)
Definition NonDim_report (iMesh : nat) (Froude_ : su2double) (s : State) : State :=
  if bool_decide (Rank s = MASTER_NODE) && bool_decide (iMesh = MESH_0) then
    let s :=
      if Viscous (config s) then
        if reynolds_init s then
          print ["Viscous flow: Computing pressure using the equation of state for multi-species and multi-temperatures"; endl;
                 "based on the free-stream temperatures and a density computed"; endl;
                 "from the Reynolds number."; endl] s
        else
          print ["Viscous flow: Computing density using the equation of state for multi-species and multi-temperatures"; endl;
                 "based on the free-stream temperatures and pressure."; endl] s
      else
        print ["Inviscid flow: Computing density based on free-stream"; endl;
               "and pressure using the the equation of state for multi-species and multi-temperatures."; endl] s in
    let s :=
      if Grid_Movement (config s)
      then print ["Force coefficients computed using MACH_MOTION."; endl] s
      else print ["Force coefficients computed using free-stream values."; endl] s in
    print (endl :: NonDim_tables (config s) Froude_) s
  else s.

(** From [config->SetDensity_FreeStream] to the end of the function: the
    reference values, the non-dimensional free-stream values and the console
    report.  The arguments are the local variables computed before. *)
Definition NonDim_reference (iMesh : nat)
    (Pressure_FreeStream_ Temperature_FreeStream_ Temperature_ve_FreeStream_
     Density_FreeStream_ Energy_FreeStream_ Viscosity_FreeStream_
     ModVel_FreeStream_ : su2double) (energies : array) (s : State) : State :=
  let viscous := Viscous (config s) in
  let Mach_ := cget s Mach in
  let s := cset Density_FreeStream Density_FreeStream_ s in
  let TI := cget s TurbulenceIntensity_FreeStream in
  let Tke_FreeStream_ :=
    if viscous then (three_halves * (ModVel_FreeStream_ * ModVel_FreeStream_ * TI * TI))%D
    else zero in
  (* Compute the freestream energy. *)
  let Energy_FreeStream_ :=
    if tkeNeeded s then (Energy_FreeStream_ + Tke_FreeStream_)%D else Energy_FreeStream_ in
  let s := cset Energy_FreeStream Energy_FreeStream_ s in
  (* Compute non dimensional quantities. *)
  let '(Pressure_Ref_, Density_Ref_, Temperature_Ref_, Temperature_ve_Ref_) :=
    match Ref_NonDim (config s) with
    | DIMENSIONAL => (one, one, one, one)
    | FREESTREAM_PRESS_EQ_ONE =>
        (Pressure_FreeStream_, Density_FreeStream_,
         Temperature_FreeStream_, Temperature_ve_FreeStream_)
    | FREESTREAM_VEL_EQ_MACH =>
        ((Gamma s * Pressure_FreeStream_)%D, Density_FreeStream_,
         Temperature_FreeStream_, Temperature_ve_FreeStream_)
    | FREESTREAM_VEL_EQ_ONE =>
        ((Mach_ * Mach_ * Gamma s * Pressure_FreeStream_)%D, Density_FreeStream_,
         Temperature_FreeStream_, Temperature_ve_FreeStream_)
    | OTHER_REF_NONDIM => (zero, zero, zero, zero)
    end in
  let s := s |> cset Pressure_Ref Pressure_Ref_ |> cset Density_Ref Density_Ref_
             |> cset Temperature_Ref Temperature_Ref_
             |> cset Temperature_ve_Ref Temperature_ve_Ref_ in
  let Length_Ref_ := one in
  let s := cset Length_Ref Length_Ref_ s in
  let Velocity_Ref_ := fsqrt (cget s Pressure_Ref / cget s Density_Ref)%D in
  let s := cset Velocity_Ref Velocity_Ref_ s in
  let Time_Ref_ := (Length_Ref_ / Velocity_Ref_)%D in
  let s := cset Time_Ref Time_Ref_ s in
  let Omega_Ref_ := (Velocity_Ref_ / Length_Ref_)%D in
  let s := cset Omega_Ref Omega_Ref_ s in
  let Force_Ref_ :=
    (cget s Density_Ref * Velocity_Ref_ * Velocity_Ref_ * Length_Ref_ * Length_Ref_)%D in
  let s := cset Force_Ref Force_Ref_ s in
  let Gas_Constant_Ref_ := (Velocity_Ref_ * Velocity_Ref_ / cget s Temperature_Ref)%D in
  let s := cset Gas_Constant_Ref Gas_Constant_Ref_ s in
  let Viscosity_Ref_ := (cget s Density_Ref * Velocity_Ref_ * Length_Ref_)%D in
  let s := cset Viscosity_Ref Viscosity_Ref_ s in
  let Conductivity_Ref_ := (Viscosity_Ref_ * Gas_Constant_Ref_)%D in
  let s := cset Conductivity_Ref Conductivity_Ref_ s in
  let Froude_ := (ModVel_FreeStream_ / fsqrt (STANDARD_GRAVITY * Length_Ref_))%D in
  let s := cset Froude Froude_ s in
  (* Divide by reference values, to compute the non-dimensional free-stream values *)
  let Pressure_FreeStreamND_ := (Pressure_FreeStream_ / cget s Pressure_Ref)%D in
  let s := cset Pressure_FreeStreamND Pressure_FreeStreamND_ s in
  let Density_FreeStreamND_ := (Density_FreeStream_ / cget s Density_Ref)%D in
  let s := cset Density_FreeStreamND Density_FreeStreamND_ s in
  let s := for_loop (nDim (sizes s)) (fun iDim s =>
    cset (Velocity_FreeStreamND iDim)
         (cget s (Velocity_FreeStream iDim) / Velocity_Ref_)%D s) s in
  let s := cset Temperature_FreeStreamND
             (Temperature_FreeStream_ / cget s Temperature_Ref)%D s in
  let s := cset Temperature_ve_FreeStreamND
             (Temperature_ve_FreeStream_ / cget s Temperature_ve_Ref)%D s in
  let s := cset Gas_ConstantND (cget s Gas_Constant / Gas_Constant_Ref_)%D s in
  let ModVel_FreeStreamND_ :=
    fsqrt (for_loop (nDim (sizes s)) (fun iDim acc =>
      (acc + cget s (Velocity_FreeStreamND iDim) * cget s (Velocity_FreeStreamND iDim))%D)
      zero) in
  let s := cset ModVel_FreeStreamND ModVel_FreeStreamND_ s in
  let Viscosity_FreeStreamND_ := (Viscosity_FreeStream_ / Viscosity_Ref_)%D in
  let s := cset Viscosity_FreeStreamND Viscosity_FreeStreamND_ s in
  let Tke_FreeStream_ :=
    (three_halves * (ModVel_FreeStream_ * ModVel_FreeStream_ * TI * TI))%D in
  let s := cset Tke_FreeStream Tke_FreeStream_ s in
  let Tke_FreeStreamND_ :=
    (three_halves * (ModVel_FreeStreamND_ * ModVel_FreeStreamND_ * TI * TI))%D in
  let s := cset Tke_FreeStreamND Tke_FreeStreamND_ s in
  let Turb2Lam := cget s Turb2LamViscRatio_FreeStream in
  let s := cset Omega_FreeStream
             (Density_FreeStream_ * Tke_FreeStream_ / (Viscosity_FreeStream_ * Turb2Lam))%D s in
  let s := cset Omega_FreeStreamND
             (Density_FreeStreamND_ * Tke_FreeStreamND_
              / (Viscosity_FreeStreamND_ * Turb2Lam))%D s in
  (* Initialize the dimensionless Fluid Model *)
  let Energy_FreeStreamND_ :=
    (energies 0 + half * ModVel_FreeStreamND_ * ModVel_FreeStreamND_)%D in
  let s :=
    if viscous then
      s |> cset Mu_ConstantND (cget s Mu_Constant / Viscosity_Ref_)%D
        |> cset Mu_RefND (cget s Mu_Ref / Viscosity_Ref_)%D
        |> cset Mu_SND (cget s Mu_S / cget s Temperature_Ref)%D
        |> cset Mu_Temperature_RefND (cget s Mu_Temperature_Ref / cget s Temperature_Ref)%D
        |> cset Kt_ConstantND (cget s Kt_Constant / Conductivity_Ref_)%D
    else s in
  let Energy_FreeStreamND_ :=
    if tkeNeeded s then (Energy_FreeStreamND_ + Tke_FreeStreamND_)%D
    else Energy_FreeStreamND_ in
  let s := cset Energy_FreeStreamND Energy_FreeStreamND_ s in
  let s := cset Energy_Ref (Energy_FreeStream_ / Energy_FreeStreamND_)%D s in
  let s := cset Total_UnstTimeND (cget s Total_UnstTime / Time_Ref_)%D s in
  let s := cset Delta_UnstTimeND (cget s Delta_UnstTime / Time_Ref_)%D s in
  NonDim_report iMesh Froude_ s.

(** The routine from the first use of the fluid model to its end; [viscous]
    and [dynamic_grid] are the local variables read from the configuration
    before. *)
Definition NonDim_free_stream (iMesh : nat) (viscous dynamic_grid : bool) : M := fun s =>
  let Mach2Vel_FreeStream := zero in
  (* Compute the Free Stream Pressure, Temperatrue, and Density *)
  let Pressure_FreeStream_ := cget s Pressure_FreeStream in
  let Temperature_FreeStream_ := cget s Temperature_FreeStream in
  let Temperature_ve_FreeStream_ := cget s Temperature_ve_FreeStream in
  (* Set mixture state based on pressure, mass fractions and temperatures *)
  let td := SetTDStatePTTv (FluidModel s) Pressure_FreeStream_ (MassFrac_Inf s)
              Temperature_FreeStream_ Temperature_ve_FreeStream_ in
  let GasConstant_Inf := ComputeGasConstant td in
  let s := cset Gas_Constant GasConstant_Inf s in
  let Density_FreeStream_ := GetDensity td in
  let soundspeed := ComputeSoundSpeed td in
  let s := NonDim_velocity soundspeed s in
  (* Compute the modulus of the free stream velocity *)
  let sqvel := for_loop (nDim (sizes s)) (fun iDim acc =>
    (acc + cget s (Velocity_FreeStream iDim) * cget s (Velocity_FreeStream iDim))%D) zero in
  let ModVel_FreeStream_ := fsqrt sqvel in
  let s := cset ModVel_FreeStream ModVel_FreeStream_ s in
  (* Calculate energies *)
  let energies := GetMixtureEnergies td in
  let finish Energy_FreeStream_ Viscosity_FreeStream_ :=
    NonDim_reference iMesh Pressure_FreeStream_ Temperature_FreeStream_
      Temperature_ve_FreeStream_ Density_FreeStream_ Energy_FreeStream_
      Viscosity_FreeStream_ ModVel_FreeStream_ energies in
  if viscous then
    (* Viscous initialization *)
    let s := s |> cset Mu_RefND (cget s Mu_Ref)
               |> cset Mu_Temperature_RefND (cget s Mu_Temperature_Ref)
               |> cset Mu_SND (cget s Mu_S)
               |> cset Mu_ConstantND (cget s Mu_Constant) in
    let Velocity_Reynolds :=
      if dynamic_grid then (cget s Mach_Motion * Mach2Vel_FreeStream)%D
      else ModVel_FreeStream_ in
    let rest Energy_FreeStream_ Viscosity_FreeStream_ (s : State) : State :=
      let s := cset Viscosity_FreeStream Viscosity_FreeStream_ s in
      (* Compute Reynolds number *)
      let Reynolds_ :=
        (Density_FreeStream_ * Velocity_Reynolds * cget s Length_Reynolds
         / Viscosity_FreeStream_)%D in
      let s := cset Reynolds Reynolds_ s in
      finish Energy_FreeStream_ Viscosity_FreeStream_ s in
    if negb (reynolds_init s) then
      (* Thermodynamics quantities based initialization *)
      let Viscosity_FreeStream_ := GetViscosity td in
      let Energy_FreeStream_ := (energies 0 + half * sqvel)%D in
      step (rest Energy_FreeStream_ Viscosity_FreeStream_) s
    else
      (* Reynolds based initialization not present in NEMO *)
      (Error "Only thermodynamics quantities based initialization: set pressure, temperatures and flag INIT_OPTION= TD_CONDITIONS."
             (CURRENT_FUNCTION "SetNondimensionalization") ;;
       step (rest zero zero)) s
  else
    (* For inviscid flow, energy is calculated from the specified
       FreeStream quantities using the proper gas law. *)
    let Energy_FreeStream_ := (energies 0 + half * sqvel)%D in
    step (finish Energy_FreeStream_ zero) s.

(** The routine has an outcome when the fluid model has been instantiated,
    and none when the pointer it goes through was never assigned. *)
Definition SetNondimensionalization (iMesh : nat) (s : State) : option outcome :=
  let viscous := Viscous (config s) in
  let dynamic_grid := Grid_Movement (config s) in
  NonDim_free_stream iMesh viscous dynamic_grid <$> NonDim_fluid_model s.

End Solver.

(** ** Vocabulary of the statements *)

(** What a call of [Error] leaves behind: the process is gone, and the only
    trace in the state is the error block on the console of rank 0. *)
Definition reported (ErrorMsg FunctionName : string) (s : State) : State :=
  if decide (Rank s = 0) then print (error_block ErrorMsg FunctionName) s else s.

(** The entries of block [iPoint] of a flat vector. *)
Definition in_block (nVar iPoint q : nat) : Prop :=
  iPoint * nVar <= q < iPoint * nVar + nVar.

#[global] Instance in_block_dec nVar iPoint q : Decision (in_block nVar iPoint q).
Proof. unfold in_block. apply _. Defined.

(** An entry below [n] is a NaN. *)
Definition has_nan (n : nat) (v : array) : Prop := exists k, k < n /\ is_nan (v k).
Definition block_has_nan (n : nat) (J : block) : Prop :=
  exists k l, k < n /\ l < n /\ is_nan (J k l).

(** What the centered functor has written is rejected by the check: a NaN
    in one of the two residuals or, in an implicit run, in one of the two
    Jacobian blocks. *)
Definition centered_rejected (n : nat) (implicit : bool) (out : Scratch) : Prop :=
  has_nan n (Res_Conv out) \/ has_nan n (Res_Visc out)
  \/ (implicit = true /\ (block_has_nan n (Jacobian_i out) \/ block_has_nan n (Jacobian_j out))).

(** The three source terms and the settings that enable them. *)
Definition axisymmetric_on (s : State) : bool := Axisymmetric (config s).
Definition chemistry_on (s : State) : bool :=
  negb (Monoatomic (config s)) && negb (Frozen (config s)).
Definition vibrational_on (s : State) : bool := negb (Monoatomic (config s)).

(** One more failure of a source term. *)
Definition count_axi (c : Counters) : Counters :=
  {| eAxi_local := S (eAxi_local c); eChm_local := eChm_local c; eVib_local := eVib_local c |}.
Definition count_chm (c : Counters) : Counters :=
  {| eAxi_local := eAxi_local c; eChm_local := S (eChm_local c); eVib_local := eVib_local c |}.
Definition count_vib (c : Counters) : Counters :=
  {| eAxi_local := eAxi_local c; eChm_local := eChm_local c; eVib_local := S (eVib_local c) |}.

(** What the source terms leave as it is. *)
Definition source_frame (s s' : State) : Prop :=
  sizes s' = sizes s /\ config s' = config s /\ scratch s' = scratch s
  /\ nodes s' = nodes s /\ cout s' = cout s.

(** The configured maximum applied to a local time step. *)
Definition capped (s : State) (dt : su2double) : su2double :=
  if fgt dt (Get (config s) Max_DeltaTime) then Get (config s) Max_DeltaTime else dt.

(** The smallest and the largest of the local time steps, as they are
    before the configured maximum is applied, over the points below [n] of
    nonzero volume, starting from [from]. *)
Definition min_uncapped (geometry : CGeometry) (iMesh : nat) (s : State)
    (n : nat) (from : su2double) : su2double :=
  for_loop n (fun iPoint m =>
    if fne (Volume geometry iPoint) zero
    then fmin m (Local_Delta_Time geometry iMesh s iPoint) else m) from.

Definition max_uncapped (geometry : CGeometry) (iMesh : nat) (s : State)
    (n : nat) (from : su2double) : su2double :=
  for_loop n (fun iPoint m =>
    if fne (Volume geometry iPoint) zero
    then fmax m (Local_Delta_Time geometry iMesh s iPoint) else m) from.


(** The inputs of an edge depend on the state through the per-point
    storage, the sizes and the configuration only, none of which the edge
    loops write. *)
Definition same_frame (s s' : State) : Prop :=
  nodes s = nodes s' /\ sizes s = sizes s' /\ config s = config s'.

(** The centered functor writes into work arrays; two outputs agree when
    the entries the solver reads agree: the two
    residuals below [nVar], and the two Jacobian blocks when the scheme is
    implicit. *)
Definition flux_agree (nVar : nat) (implicit : bool) (sc sc' : Scratch) : Prop :=
  (forall k, k < nVar ->
     Res_Conv sc k = Res_Conv sc' k /\ Res_Visc sc k = Res_Visc sc' k)
  /\ (implicit = true -> forall k l, k < nVar -> l < nVar ->
        Jacobian_i sc k l = Jacobian_i sc' k l /\ Jacobian_j sc k l = Jacobian_j sc' k l).

(** The accumulation of the spectral radii writes the two radii of the
    points and resets the two extrema; the configuration, the sizes and the
    stored time steps are not touched. *)
Definition radii_frame (s s' : State) : Prop :=
  config s' = config s /\ sizes s' = sizes s
  /\ Min_Delta_Time s' = Min_Delta_Time s /\ Max_Delta_Time s' = Max_Delta_Time s.

(** Row [i] of a matrix is the identity: its diagonal block is there and is
    the identity block, and its other blocks are zero. *)
Definition identity_row (i : nat) (J : CSysMatrix) : Prop :=
  J !! (i, i) = Some (diag_block one)
  /\ forall j blk, j <> i -> J !! (i, j) = Some blk -> blk = zero_block.

(** Row [i] of the matrix handed to the solver, from the matrix [J] the
    routine starts with, the time step [dt] and the volume [Vol] of the
    point. *)
Definition implicit_row (n i : nat) (Vol dt : su2double) (J : CSysMatrix)
    (j : nat) : option block :=
  if fne dt zero then
    if decide (j = i) then block_add n (diag_block (Vol / dt)%D) <$> J !! (i, i)
    else J !! (i, j)
  else
    if decide (j = i) then Some (diag_block one)
    else (fun _ => zero_block) <$> J !! (i, j).

(** Modelled from the spec: the system is "J·ΔU = -(Residual +
    TruncationError)" over a "block-sparse matrix indexed by (point, point)
    pairs with nVar x nVar blocks".  The left side of equation [iVar] of
    point [iPoint], for a system of [nP] points: the blocks of the row times
    the unknowns of their points, summed in the order of the points; a block
    that is not in the matrix contributes nothing. *)
Definition block_times (n : nat) (B : block) (x : array) (jPoint iVar : nat)
    (acc : su2double) : su2double :=
  for_loop n (fun jVar acc => (acc + B iVar jVar * x (jPoint * n + jVar)%nat)%D) acc.

Definition row_times (n nP : nat) (J : CSysMatrix) (x : array) (iPoint iVar : nat)
    : su2double :=
  for_loop nP (fun jPoint acc =>
    match J !! (iPoint, jPoint) with
    | Some B => block_times n B x jPoint iVar acc
    | None => acc
    end) zero.

(** A vector of doubles: every entry is a binary64 number. *)
Definition doubles (x : array) : Prop :=
  forall q, valid_binary prec emax (x q) = true.

(** [x] satisfies the [n] equations of point [iPoint] of the system with
    matrix [J] and right-hand side [b]: the two sides compare equal. *)
Definition solves_point (n nP : nat) (J : CSysMatrix) (b x : array) (iPoint : nat)
    : Prop :=
  forall iVar, iVar < n ->
    feq (row_times n nP J x iPoint iVar) (b (iPoint * n + iVar)) = true.

(** What the free-stream set-up leaves as it is before the viscous
    initialization: the initialization option, the viscous flag, the console
    and the rank. *)
Definition nondim_frame (s s' : State) : Prop :=
  Kind_InitOption (config s') = Kind_InitOption (config s)
  /\ Viscous (config s') = Viscous (config s)
  /\ cout s' = cout s /\ Rank s' = Rank s.

(* ===================================================================== *)
(** * Part I, continued. Further routines of the solver                   *)
(* ===================================================================== *)

(** ** Further getters

    The routines below read a few more values through getters of the
    geometry, the configuration, the per-point storage and the gas model.
    None of these routines writes what the getters return, so each getter is
    a function of the object it is called on. *)

Class CGeometry_getters := {
  GetPeriodicVolume : CGeometry -> nat -> su2double;  (* nodes->GetPeriodicVolume(iPoint) *)
  GetVolume_n : CGeometry -> nat -> su2double;        (* nodes->GetVolume_n(iPoint) *)
  GetVolume_nM1 : CGeometry -> nat -> su2double;      (* nodes->GetVolume_nM1(iPoint) *)
}.

Class CConfig_getters := {
  Get_Alpha_RKStep : CConfig -> nat -> su2double;     (* config->Get_Alpha_RKStep(iRKStep) *)
}.

Section Explicit.

Context {solver_methods : CSolver_methods}.
Context {geometry_getters : CGeometry_getters} {config_getters : CConfig_getters}.

(** ** ExplicitEuler_Iteration *)

(** The body of the loop over the owned points; [adjoint] is read once,
    before the loops. *)
Definition ExplicitEuler_point (geometry : CGeometry) (adjoint : bool) (iPoint : nat)
    (s : State) : State :=
  let nVar := nVar (sizes s) in
  let Vol := (Volume geometry iPoint + GetPeriodicVolume geometry iPoint)%D in
  let Delta := (node_scalar (nodes s) Delta_Time iPoint / Vol)%D in
  if negb adjoint then
    for_loop nVar (fun iVar s =>
      let local_Res_TruncError := node_array (nodes s) ResTruncError iPoint in
      let local_Residual := GetBlock nVar iPoint (LinSysRes s) in
      let Res := (local_Residual iVar + local_Res_TruncError iVar)%D in
      s |> set_nodes (AddSolution iPoint iVar ((- Res) * Delta)%D)
        |> set_monitor (AddRes_RMS iVar (Res * Res)%D)
        |> set_monitor (AddRes_Max iVar (fabs Res) (GlobalIndex geometry iPoint)
                                   (Coord geometry iPoint))) s
  else s.

(** The reset of the residual norms is the loop [ImplicitEuler_Iteration]
    starts with; then the solution is updated. *)
Definition ExplicitEuler_update (geometry : CGeometry) (s : State) : State :=
  let adjoint := Continuous_Adjoint (config s) in
  for_loop (nPointDomain (sizes s)) (ExplicitEuler_point geometry adjoint)
           (Implicit_reset s).

Definition ExplicitEuler_Iteration (geometry : CGeometry) : M :=
  step (ExplicitEuler_update geometry) ;;
  step (InitiateComms_SOLUTION geometry) ;;
  step (CompleteComms_SOLUTION geometry) ;;
  SetResidual_RMS geometry.

(** ** ExplicitRK_Iteration *)

Definition ExplicitRK_point (geometry : CGeometry) (RK_AlphaCoeff : su2double)
    (iPoint : nat) (s : State) : State :=
  let nVar := nVar (sizes s) in
  let Vol := Volume geometry iPoint in
  let Delta := (node_scalar (nodes s) Delta_Time iPoint / Vol)%D in
  for_loop nVar (fun iVar s =>
    let Res_TruncError := node_array (nodes s) ResTruncError iPoint in
    let Residual := GetBlock nVar iPoint (LinSysRes s) in
    let Res := (Residual iVar + Res_TruncError iVar)%D in
    s |> set_nodes (AddSolution iPoint iVar ((- Res) * Delta * RK_AlphaCoeff)%D)
      |> set_monitor (AddRes_RMS iVar (Res * Res)%D)
      |> set_monitor (AddRes_Max iVar (fabs Res) (GlobalIndex geometry iPoint)
                                 (Coord geometry iPoint))) s.

Definition ExplicitRK_update (geometry : CGeometry) (iRKStep : nat) (s : State) : State :=
  let RK_AlphaCoeff := Get_Alpha_RKStep (config s) iRKStep in
  for_loop (nPointDomain (sizes s)) (ExplicitRK_point geometry RK_AlphaCoeff)
           (Implicit_reset s).

Definition ExplicitRK_Iteration (geometry : CGeometry) (iRKStep : nat) : M :=
  step (ExplicitRK_update geometry iRKStep) ;;
  step (InitiateComms_SOLUTION geometry) ;;
  step (CompleteComms_SOLUTION geometry) ;;
  SetResidual_RMS geometry.

End Explicit.

(** ** Vocabulary of the further statements *)

(** The loop over the variables of one point that both explicit schemes
    run: the solution entry gets the increment [inc Res] of the residual
    [Res] of the entry, and the residual norms are accumulated. *)
Definition solution_sweep (geometry : CGeometry) (inc : su2double -> su2double)
    (iPoint : nat) (s : State) : State :=
  let nVar := nVar (sizes s) in
  for_loop nVar (fun iVar s =>
    let Res := (GetBlock nVar iPoint (LinSysRes s) iVar
                + node_array (nodes s) ResTruncError iPoint iVar)%D in
    s |> set_nodes (AddSolution iPoint iVar (inc Res))
      |> set_monitor (AddRes_RMS iVar (Res * Res)%D)
      |> set_monitor (AddRes_Max iVar (fabs Res) (GlobalIndex geometry iPoint)
                                 (Coord geometry iPoint))) s.

(** The residual the explicit schemes see at an entry. *)
Definition explicit_Res (s : State) (iPoint iVar : nat) : su2double :=
  let total_index := iPoint * nVar (sizes s) + iVar in
  (LinSysRes s total_index + node_array (nodes s) ResTruncError iPoint iVar)%D.

(** Equal as numbers: equal, or two zeros of different sign. *)
Definition same_number (x y : su2double) : Prop := feq x y = true.

(** ** SetMax_Eigenvalue *)

(** The communication of the maximum eigenvalue is an external
    collaborator, like the one of the solution. *)
Class CSolver_comms := {
  InitiateComms_MAX_EIGENVALUE : CGeometry -> State -> State;
  CompleteComms_MAX_EIGENVALUE : CGeometry -> State -> State;
}.

Section MaxEigenvalue.

Context {variable_methods : CNEMOEulerVariable_methods}.
Context {solver_comms : CSolver_comms}.

(** Set maximum inviscid eigenvalue to zero. *)
Definition MaxEig_reset (s : State) : State :=
  for_loop (nPointDomain (sizes s)) (fun iPoint s =>
    set_nodes (SetScalar Lambda iPoint zero) s) s.

(** Loop interior edges; [nodes->AddLambda] is guarded by the domain flag
    of the point like [nodes->AddMax_Lambda_Inv]. *)
Definition MaxEig_edge (geometry : CGeometry) (s : State) (e : CEdge) : State :=
  let iPoint := Node0 e in
  let jPoint := Node1 e in
  let Normal := edge_Normal e in
  let Area := face_area (nDim (sizes s)) Normal in
  let get x iPoint := node_scalar (nodes s) x iPoint in
  (* Mean Values *)
  let Mean_ProjVel :=
    (half * (GetProjVel (nodes s) iPoint Normal + GetProjVel (nodes s) jPoint Normal))%D in
  let Mean_SoundSpeed := (half * (get SoundSpeed iPoint + get SoundSpeed jPoint) * Area)%D in
  (* Inviscid contribution *)
  let Lambda_ := (fabs Mean_ProjVel + Mean_SoundSpeed)%D in
  s |> AddMax_Lambda Lambda geometry iPoint Lambda_
    |> AddMax_Lambda Lambda geometry jPoint Lambda_.

(** Loop boundary edges. *)
Definition MaxEig_vertex (geometry : CGeometry) (s : State) (v : CVertex) : State :=
  let iPoint := vertex_Node v in
  let Normal := vertex_Normal v in
  let Area := face_area (nDim (sizes s)) Normal in
  let Mean_ProjVel := GetProjVel (nodes s) iPoint Normal in
  let Mean_SoundSpeed := (node_scalar (nodes s) SoundSpeed iPoint * Area)%D in
  let Lambda_ := (fabs Mean_ProjVel + Mean_SoundSpeed)%D in
  AddMax_Lambda Lambda geometry iPoint Lambda_ s.

Definition MaxEig_boundary (geometry : CGeometry) (s : State) : State :=
  for_loop (length (vertex geometry)) (fun iMarker s =>
    if bool_decide (Marker_All_KindBC (config s) iMarker <> INTERNAL_BOUNDARY)
    then foldl (MaxEig_vertex geometry) s (marker_vertices geometry iMarker)
    else s) s.

(** The three loops, before the communication. *)
Definition MaxEig_accumulate (geometry : CGeometry) (s : State) : State :=
  MaxEig_boundary geometry (foldl (MaxEig_edge geometry) (MaxEig_reset s) (edges geometry)).

Definition SetMax_Eigenvalue (geometry : CGeometry) : M :=
  step (MaxEig_accumulate geometry) ;;
  step (InitiateComms_MAX_EIGENVALUE geometry) ;;
  step (CompleteComms_MAX_EIGENVALUE geometry).

End MaxEigenvalue.

(** A point is incident to the mesh when it is an end of an interior edge
    or the node of a vertex of a marker that is not an internal boundary. *)
Definition incident (geometry : CGeometry) (cfg : CConfig) (iPoint : nat) : Prop :=
  (exists e, e ∈ edges geometry /\ (Node0 e = iPoint \/ Node1 e = iPoint))
  \/ (exists iMarker v, Marker_All_KindBC cfg iMarker <> INTERNAL_BOUNDARY
        /\ v ∈ marker_vertices geometry iMarker /\ vertex_Node v = iPoint).

(** The projected velocity of a point is computed from the per-point
    arrays: it is the same for two containers with the same arrays. *)
Definition proj_vel_reads_arrays (V : CNEMOEulerVariable_methods) : Prop :=
  forall n n' iPoint Normal,
    node_array n = node_array n' ->
    GetProjVel n iPoint Normal = GetProjVel n' iPoint Normal.

(** The run of SetTime_Step [s1] and the run of SetMax_Eigenvalue [s2]
    agree: on what the two routines read, and on the inviscid spectral
    radius of the points below [N]. *)
Definition radii_agree (N : nat) (s1 s2 : State) : Prop :=
  sizes s1 = sizes s2 /\ config s1 = config s2
  /\ node_array (nodes s1) = node_array (nodes s2)
  /\ node_scalar (nodes s1) SoundSpeed = node_scalar (nodes s2) SoundSpeed
  /\ forall p, p < N ->
       node_scalar (nodes s1) Max_Lambda_Inv p = node_scalar (nodes s2) Lambda p.

(** The unsteady time step of the dual time strategy after SetTime_Step:
    recomputed from the global step at the first iteration on the finest
    mesh when the unsteady CFL number is not zero. *)
Definition dual_Delta_UnstTimeND (iMesh Iteration : nat) (Global_Delta_Time : su2double)
    (cfg : CConfig) : su2double :=
  if bool_decide (Iteration = 0) && fne (Get cfg Unst_CFL) zero && bool_decide (iMesh = MESH_0)
  then (Get cfg Unst_CFL * Global_Delta_Time / Get cfg (CFL iMesh))%D
  else Get cfg Delta_UnstTimeND.

(** ** SetResidual_DualTime *)

(** The solutions of the two previous time levels. *)
Class CVariable_getters := {
  GetSolution_time_n : CNEMOEulerVariable -> nat -> array;
  GetSolution_time_n1 : CNEMOEulerVariable -> nat -> array;
}.

(** Writes into the work arrays [Residual] and [Jacobian_i] of the solver. *)
Definition set_Residual (f : array -> array) (sc : Scratch) : Scratch :=
  {| Residual := f (Residual sc); Res_Conv := Res_Conv sc; Res_Visc := Res_Visc sc;
     Jacobian_i := Jacobian_i sc; Jacobian_j := Jacobian_j sc |}.

Definition set_Jacobian_i (f : block -> block) (sc : Scratch) : Scratch :=
  {| Residual := Residual sc; Res_Conv := Res_Conv sc; Res_Visc := Res_Visc sc;
     Jacobian_i := f (Jacobian_i sc); Jacobian_j := Jacobian_j sc |}.

(** [Jacobian_i[iVar][jVar] = v]. *)
Definition set_entry (iVar jVar : nat) (v : su2double) (J : block) : block :=
  <[iVar := <[jVar := v]> (J iVar)]> J.

Section DualTime.

Context {geometry_getters : CGeometry_getters} {variable_getters : CVariable_getters}.

(** Compute Residual: the loop over the variables of one point. *)
Definition DualTime_Residual (U_time_nM1 U_time_n U_time_nP1 : array)
    (Volume_nM1 Volume_n Volume_nP1 TimeStep : su2double) (s : State) : State :=
  for_loop (nVar (sizes s)) (fun iVar s =>
    let s :=
      if bool_decide (Time_Marching (config s) = DT_STEPPING_1ST) then
        set_scratch (set_Residual (fun R =>
          <[iVar := ((U_time_nP1 iVar * Volume_nP1 - U_time_n iVar * Volume_n)
                     / TimeStep)%D]> R)) s
      else s in
    if bool_decide (Time_Marching (config s) = DT_STEPPING_2ND) then
      set_scratch (set_Residual (fun R =>
        <[iVar := ((Z2D 3 * U_time_nP1 iVar * Volume_nP1 - Z2D 4 * U_time_n iVar * Volume_n
                    + Z2D 1 * U_time_nM1 iVar * Volume_nM1)
                   / (Z2D 2 * TimeStep))%D]> R)) s
    else s) s.

(** The Jacobian block of one point in an implicit run. *)
Definition DualTime_Jacobian_i (Volume_nP1 TimeStep : su2double) (s : State) : State :=
  let nVar := nVar (sizes s) in
  for_loop nVar (fun iVar s =>
    let s := for_loop nVar (fun jVar s =>
      set_scratch (set_Jacobian_i (set_entry iVar jVar zero)) s) s in
    let s :=
      if bool_decide (Time_Marching (config s) = DT_STEPPING_1ST) then
        set_scratch (set_Jacobian_i (set_entry iVar iVar (Volume_nP1 / TimeStep)%D)) s
      else s in
    if bool_decide (Time_Marching (config s) = DT_STEPPING_2ND) then
      set_scratch (set_Jacobian_i
        (set_entry iVar iVar ((Volume_nP1 * Z2D 3) / (Z2D 2 * TimeStep))%D)) s
    else s) s.

(** The body of the loop over the owned points. *)
Definition DualTime_point (geometry : CGeometry) (implicit dynamic_grid : bool)
    (iPoint : nat) (s : State) : State :=
  let nVar := nVar (sizes s) in
  (* Solution at time n-1, n and n+1 *)
  let U_time_nM1 := GetSolution_time_n1 (nodes s) iPoint in
  let U_time_n := GetSolution_time_n (nodes s) iPoint in
  let U_time_nP1 := node_array (nodes s) Solution iPoint in
  (* Volume at time n-1 and n *)
  let Volume_nM1 :=
    if dynamic_grid then GetVolume_nM1 geometry iPoint else Volume geometry iPoint in
  let Volume_n :=
    if dynamic_grid then GetVolume_n geometry iPoint else Volume geometry iPoint in
  let Volume_nP1 := Volume geometry iPoint in
  (* Time Step *)
  let TimeStep := Get (config s) Delta_UnstTimeND in
  (* Compute Residual *)
  let s := DualTime_Residual U_time_nM1 U_time_n U_time_nP1
             Volume_nM1 Volume_n Volume_nP1 TimeStep s in
  (* Add Residual *)
  let s := set_LinSysRes (AddBlock nVar iPoint (Residual (scratch s))) s in
  if implicit then
    let s := DualTime_Jacobian_i Volume_nP1 TimeStep s in
    set_Jacobian (AddBlock2 nVar iPoint iPoint (Jacobian_i (scratch s))) s
  else s.

Definition SetResidual_DualTime (geometry : CGeometry)
    (iRKStep iMesh RunTime_EqSystem : nat) : M :=
  step (fun s =>
    let implicit := implicit_scheme s in
    let dynamic_grid := Grid_Movement (config s) in
    for_loop (nPointDomain (sizes s)) (DualTime_point geometry implicit dynamic_grid) s).

(** What the routine adds to an entry of the residual of a point: the
    backward difference of the time marching scheme, or, when the scheme is
    neither of the two dual time schemes, what the work array holds. *)
Definition dual_time_source (geometry : CGeometry) (s : State) (iPoint iVar : nat)
    : su2double :=
  let U_time_nM1 := GetSolution_time_n1 (nodes s) iPoint in
  let U_time_n := GetSolution_time_n (nodes s) iPoint in
  let U_time_nP1 := node_array (nodes s) Solution iPoint in
  let dynamic_grid := Grid_Movement (config s) in
  let Volume_nM1 :=
    if dynamic_grid then GetVolume_nM1 geometry iPoint else Volume geometry iPoint in
  let Volume_n :=
    if dynamic_grid then GetVolume_n geometry iPoint else Volume geometry iPoint in
  let Volume_nP1 := Volume geometry iPoint in
  let TimeStep := Get (config s) Delta_UnstTimeND in
  match Time_Marching (config s) with
  | DT_STEPPING_1ST =>
      ((U_time_nP1 iVar * Volume_nP1 - U_time_n iVar * Volume_n) / TimeStep)%D
  | DT_STEPPING_2ND =>
      ((Z2D 3 * U_time_nP1 iVar * Volume_nP1 - Z2D 4 * U_time_n iVar * Volume_n
        + Z2D 1 * U_time_nM1 iVar * Volume_nM1) / (Z2D 2 * TimeStep))%D
  | _ => Residual (scratch s) iVar
  end.

(** What it puts on the diagonal of the Jacobian block of a point. *)
Definition dual_time_diagonal (geometry : CGeometry) (s : State) (iPoint : nat)
    : su2double :=
  let Volume_nP1 := Volume geometry iPoint in
  let TimeStep := Get (config s) Delta_UnstTimeND in
  match Time_Marching (config s) with
  | DT_STEPPING_1ST => (Volume_nP1 / TimeStep)%D
  | DT_STEPPING_2ND => ((Volume_nP1 * Z2D 3) / (Z2D 2 * TimeStep))%D
  | _ => zero
  end.

End DualTime.

(** The entries below [n] of a block are those of [d] times the identity. *)
Definition diagonal_below (n : nat) (d : su2double) (B : block) : Prop :=
  forall k l, k < n -> l < n -> B k l = if decide (k = l) then d else zero.

(** The time marching scheme is one of the two dual time schemes. *)
Definition dual_time_scheme (cfg : CConfig) : Prop :=
  Time_Marching cfg = DT_STEPPING_1ST \/ Time_Marching cfg = DT_STEPPING_2ND.

(** ** BC_Sym_Plane *)

(** The primitive quantities of a point the symmetry plane reads through
    named getters, and the molar masses of the gas model. *)
Class CVariable_primitive_getters := {
  GetPressure : CNEMOEulerVariable -> nat -> su2double;
  GetVelocity : CNEMOEulerVariable -> nat -> nat -> su2double;
  GetMassFraction : CNEMOEulerVariable -> nat -> nat -> su2double;
}.

Class CNEMOGas_getters := {
  GetSpeciesMolarMass : CNEMOGas -> array;
}.

Section SymPlane.

Context {primitive_getters : CVariable_primitive_getters}.
Context {gas_getters : CNEMOGas_getters}.

(** [UnitNormal[iDim] = -Normal[iDim]/Area]; the local array is written
    below [nDim] before any entry is read, so that what it holds before,
    here zeros, does not matter. *)
Definition Sym_Plane_UnitNormal (nDim : nat) (Normal : array) (Area : su2double) : array :=
  for_loop nDim (fun iDim (UnitNormal : array) =>
    <[iDim := ((- Normal iDim) / Area)%D]> UnitNormal) zeros.

(** Apply the flow-tangency b.c. to the convective flux. *)
Definition Sym_Plane_Residual (P Area : su2double) (UnitNormal : array) (s : State)
    : State :=
  let nSpecies := nSpecies (sizes s) in
  let nDim := nDim (sizes s) in
  let s := for_loop nSpecies (fun iSpecies s =>
    set_scratch (set_Residual (fun R => <[iSpecies := zero]> R)) s) s in
  let s := for_loop nDim (fun iDim s =>
    set_scratch (set_Residual (fun R =>
      <[nSpecies + iDim := (P * UnitNormal iDim * Area)%D]> R)) s) s in
  let s := set_scratch (set_Residual (fun R => <[nSpecies + nDim := zero]> R)) s in
  set_scratch (set_Residual (fun R => <[nSpecies + nDim + 1 := zero]> R)) s.

Definition write_Jacobian_i (iVar jVar : nat) (v : su2double) : State -> State :=
  set_scratch (set_Jacobian_i (set_entry iVar jVar v)).

(** The b.c. contribution to the Jacobian, in the work block. *)
Definition Sym_Plane_Jacobian_i (iPoint : nat) (P Area : su2double) (UnitNormal : array)
    (s : State) : State :=
  let nVar := nVar (sizes s) in
  let nSpecies := nSpecies (sizes s) in
  let nDim := nDim (sizes s) in
  (* Initialize Jacobian *)
  let s := for_loop nVar (fun iVar s =>
    for_loop nVar (fun jVar s => write_Jacobian_i iVar jVar zero s) s) s in
  (* Calculate state i *)
  let rho := node_scalar (nodes s) Density iPoint in
  let rhoE := node_array (nodes s) Solution iPoint (nSpecies + nDim) in
  let rhoEve := node_array (nodes s) Solution iPoint (nSpecies + nDim + 1) in
  let dPdU_ := node_array (nodes s) dPdU iPoint in
  let u := fun iDim => GetVelocity (nodes s) iPoint iDim in
  let Ms := GetSpeciesMolarMass (FluidModel s) in
  let '(conc, s) :=
    for_loop nSpecies (fun iSpecies (cs_ : su2double * State) =>
      let '(conc, s) := cs_ in
      let cs := GetMassFraction (nodes s) iPoint iSpecies in
      let conc := (conc + cs * rho / Ms iSpecies)%D in
      (conc,
       for_loop nDim (fun iDim s =>
         s |> write_Jacobian_i (nSpecies + iDim) iSpecies (dPdU_ iSpecies * UnitNormal iDim)%D
           |> write_Jacobian_i iSpecies (nSpecies + iDim) (cs * UnitNormal iDim)%D) s))
      (zero, s) in
  let s := for_loop nDim (fun iDim s =>
    let s := for_loop nDim (fun jDim s =>
      write_Jacobian_i (nSpecies + iDim) (nSpecies + jDim)
        (u iDim * UnitNormal jDim + dPdU_ (nSpecies + jDim)%nat * UnitNormal iDim)%D s) s in
    s |> write_Jacobian_i (nSpecies + iDim) (nSpecies + nDim)
           (dPdU_ (nSpecies + nDim)%nat * UnitNormal iDim)%D
      |> write_Jacobian_i (nSpecies + iDim) (nSpecies + nDim + 1)
           (dPdU_ (nSpecies + nDim + 1)%nat * UnitNormal iDim)%D
      |> write_Jacobian_i (nSpecies + nDim) (nSpecies + iDim)
           ((rhoE + P) / rho * UnitNormal iDim)%D
      |> write_Jacobian_i (nSpecies + nDim + 1) (nSpecies + iDim)
           (rhoEve / rho * UnitNormal iDim)%D) s in
  (* Integrate over the dual-grid area *)
  for_loop nVar (fun iVar s =>
    for_loop nVar (fun jVar s =>
      write_Jacobian_i iVar jVar (Jacobian_i (scratch s) iVar jVar * Area)%D s) s) s.

(** The body of the loop over the vertices of the marker. *)
Definition Sym_Plane_vertex (geometry : CGeometry) (implicit : bool)
    (s : State) (v : CVertex) : State :=
  let iPoint := vertex_Node v in
  (* Check if the node belongs to the domain (i.e, not a halo node) *)
  if Domain geometry iPoint then
    let nVar := nVar (sizes s) in
    let Normal := vertex_Normal v in
    let Area := face_area (nDim (sizes s)) Normal in
    let UnitNormal := Sym_Plane_UnitNormal (nDim (sizes s)) Normal Area in
    (* Retrieve the pressure on the vertex *)
    let P := GetPressure (nodes s) iPoint in
    let s := Sym_Plane_Residual P Area UnitNormal s in
    (* Add value to the residual *)
    let s := set_LinSysRes (AddBlock nVar iPoint (Residual (scratch s))) s in
    if implicit then
      let s := Sym_Plane_Jacobian_i iPoint P Area UnitNormal s in
      set_Jacobian (AddBlock2 nVar iPoint iPoint (Jacobian_i (scratch s))) s
    else s
  else s.

Definition BC_Sym_Plane (geometry : CGeometry) (conv_numerics visc_numerics : CNumerics)
    (val_marker : nat) : M :=
  step (fun s =>
    let implicit := implicit_scheme s in
    foldl (Sym_Plane_vertex geometry implicit) s (marker_vertices geometry val_marker)).

(** The flux of the symmetry plane through the face of a vertex: zero for
    the species and the two energies, the pressure times the outward unit
    normal times the area for the momentum. *)
Definition sym_plane_flux (s : State) (v : CVertex) (iVar : nat) : su2double :=
  let nSpecies := nSpecies (sizes s) in
  let nDim := nDim (sizes s) in
  let Normal := vertex_Normal v in
  let Area := face_area nDim Normal in
  let P := GetPressure (nodes s) (vertex_Node v) in
  if decide (nSpecies <= iVar < nSpecies + nDim)
  then (P * ((- Normal (iVar - nSpecies)%nat) / Area) * Area)%D
  else zero.

(** The fluxes of the owned vertices of a list that sit on [iPoint], added
    one after the other to [x]. *)
Definition sym_plane_sum (geometry : CGeometry) (s : State) (l : list CVertex)
    (iPoint iVar : nat) (x : su2double) : su2double :=
  foldl (fun x v =>
    if Domain geometry (vertex_Node v) && bool_decide (vertex_Node v = iPoint)
    then (x + sym_plane_flux s v iVar)%D else x) x l.

End SymPlane.

(** What the loops that fill the work arrays leave as it is. *)
Definition scratch_frame (s s' : State) : Prop :=
  sizes s' = sizes s /\ config s' = config s /\ nodes s' = nodes s
  /\ FluidModel s' = FluidModel s /\ LinSysRes s' = LinSysRes s
  /\ LinSysSol s' = LinSysSol s /\ Jacobian s' = Jacobian s.

(* ===================================================================== *)
(** * A small instance, for the examples                                  *)
(* ===================================================================== *)

(** Three points on a line, two interior edges, one boundary vertex at the
    last point; two variables per point.  Point 2 has no volume. *)

Definition vec2 (a b : su2double) : array :=
  fun i => match i with 0 => a | 1 => b | _ => zero end.

Definition ex_edge01 : CEdge :=
  {| Node0 := 0; Node1 := 1; edge_Normal := vec2 one zero |}.
Definition ex_edge12 : CEdge :=
  {| Node0 := 1; Node1 := 2; edge_Normal := vec2 (Z2D 2) zero |}.
Definition ex_vertex2 : CVertex :=
  {| vertex_Node := 2; vertex_Normal := vec2 one zero |}.

Definition ex_geometry : CGeometry :=
  {| edges := [ex_edge01; ex_edge12];
     vertex := [[ex_vertex2]];
     Volume := fun iPoint => match iPoint with 2 => zero | _ => Z2D 4 end;
     Coord := fun iPoint => vec2 (Z2D (Z.of_nat iPoint)) zero;
     Domain := fun iPoint => bool_decide (iPoint < 3);
     nNeighbor := fun _ => 2;
     GridVel := fun _ => zeros;
     GlobalIndex := fun iPoint => iPoint |}.

Definition ex_config (scheme : ENUM_TIME_INT) (viscous : bool)
    (marching : TIME_MARCHING) (init : ENUM_INIT_OPTION) (muscl axisymmetric : bool)
    : CConfig :=
  {| scalar := fun x =>
       match x with
       | CFL _ => Z2D 2 | Unst_CFL => Z2D 3 | Max_DeltaTime => one
       | AoA | AoS => zero | Mach => Z2D 2
       | Pressure_FreeStream => Z2D 100000 | Temperature_FreeStream => Z2D 300
       | Temperature_ve_FreeStream => Z2D 300
       | _ => one
       end;
     Viscous := viscous; Grid_Movement := false; GravityForce := false;
     Axisymmetric := axisymmetric; Frozen := false; Monoatomic := false;
     MUSCL_Flow := muscl; Discrete_Adjoint := false; Continuous_Adjoint := false;
     Frozen_Limiter_Disc := false;
     Kind_TimeIntScheme_Flow := scheme; Time_Marching := marching;
     Kind_InitOption := init; Kind_FluidModel := USER_DEFINED_NONEQ;
     Ref_NonDim := DIMENSIONAL; Kind_Turb_Model := NO_TURB_MODEL;
     Kind_SlopeLimit_Flow := NO_LIMITER; Kind_TransCoeffModel := WILKE;
     SystemMeasurements := SI; Comm_Level := COMM_FULL;
     Marker_All_KindBC := fun _ => OTHER_BC;
     InnerIter := 0; LimiterIter := 10 |}.

(** The conserved state of point [iPoint] is [(iPoint + 1, 3)]; every other
    per-point array is the same pair, every per-point scalar is 1 but the
    time step, which is 0 at point 1. *)
Definition ex_nodes : CNEMOEulerVariable :=
  {| node_array := fun x iPoint =>
       match x with
       | ResTruncError => vec2 half half
       | _ => vec2 (Z2D (Z.of_nat iPoint + 1)) (Z2D 3)
       end;
     node_scalar := fun x iPoint =>
       match x, iPoint with
       | Delta_Time, 1 => zero
       | Delta_Time, _ => half
       | _, _ => one
       end;
     Gradient_Reconstruction := fun iPoint iVar => vec2 (Z2D (-8)) zero |}.

Definition ex_gas : CNEMOGas :=
  {| SetTDStatePTTv := fun P Ys T Tve =>
       {| ComputeGasConstant := Z2D 287;
          GetDensity := (P / (Z2D 287 * T))%D;
          ComputeSoundSpeed := Z2D 340;
          GetMixtureEnergies := vec2 (Z2D 1000) (Z2D 10);
          GetViscosity := dyadic 1 (-16) |} |}.

Definition ex_jacobian : CSysMatrix :=
  list_to_map [((0, 0), diag_block (Z2D 5)); ((0, 1), diag_block (Z2D 7));
               ((1, 0), diag_block (Z2D 7)); ((1, 1), diag_block (Z2D 5));
               ((1, 2), diag_block (Z2D 7)); ((2, 1), diag_block (Z2D 7));
               ((2, 2), diag_block (Z2D 5))].

Definition ex_state (cfg : CConfig) : State :=
  {| sizes := {| nVar := 2; nDim := 2; nSpecies := 0; nPrimVar := 10;
                 nPoint := 3; nPointDomain := 3 |};
     Gamma := dyadic 7 (-2);
     MassFrac_Inf := vec2 half half;
     FluidModel := ex_gas;
     nodes := ex_nodes;
     LinSysRes := fun k => Z2D (Z.of_nat k);
     LinSysSol := zeros;
     Jacobian := ex_jacobian;
     scratch := {| Residual := zeros; Res_Conv := zeros; Res_Visc := zeros;
                   Jacobian_i := zero_block; Jacobian_j := zero_block |};
     Min_Delta_Time := zero; Max_Delta_Time := zero;
     monitor := {| Residual_RMS := zeros; Residual_Max := zeros;
                   Point_Max := fun _ => 0; Point_Max_Coord := fun _ => zeros;
                   IterLinSolver := 0 |};
     config := cfg; cout := []; Rank := 0 |}.

Definition ex_explicit : CConfig := ex_config EULER_EXPLICIT false NO TD_CONDITIONS false false.
Definition ex_implicit : CConfig := ex_config EULER_IMPLICIT false NO TD_CONDITIONS false false.

Definition ex_numerics : CNumerics :=
  {| in_array := fun _ => zeros; in_scalar := fun _ => zero; in_count := fun _ => 0 |}.

(** A flux functor: the sum of the two states times the first component of
    the normal; the dissipation is their difference. *)
Definition ex_flux (n : CNumerics) : array :=
  fun k => ((in_array n U_i k + in_array n U_j k) * in_array n Normal 0)%D.

Definition ex_functors : CNumerics_methods :=
  {| ComputeResidual_centered := fun n cfg sc =>
       {| Residual := Residual sc;
          Res_Conv := ex_flux n;
          Res_Visc := fun k => (in_array n U_i k - in_array n U_j k)%D;
          Jacobian_i := diag_block one; Jacobian_j := diag_block one |};
     ComputeResidual := fun n cfg => ex_flux n;
     ComputeAxisymmetric := fun n cfg => in_array n U_i;
     ComputeChemistry := fun n cfg => fun k => (in_array n U_i k * Z2D 2)%D;
     ComputeVibRelaxation := fun n cfg => in_array n V_i |}.

(** The same functors with a NaN injected where the left state is the one
    of point 1: on the edge from point 1 to point 2, and in the chemistry
    source of point 1. *)
Definition at_point1 (n : CNumerics) : bool := feq (in_array n U_i 0) (Z2D 2).

Definition ex_functors_nan : CNumerics_methods :=
  {| ComputeResidual_centered := fun n cfg sc =>
       {| Residual := Residual sc;
          Res_Conv := ex_flux n;
          Res_Visc := fun k =>
            if at_point1 n then NaN else (in_array n U_i k - in_array n U_j k)%D;
          Jacobian_i := diag_block one; Jacobian_j := diag_block one |};
     ComputeResidual := fun n cfg => if at_point1 n then (fun _ => NaN) else ex_flux n;
     ComputeAxisymmetric := fun n cfg => in_array n U_i;
     ComputeChemistry := fun n cfg =>
       if at_point1 n then (fun _ => NaN) else fun k => (in_array n U_i k * Z2D 2)%D;
     ComputeVibRelaxation := fun n cfg => in_array n V_i |}.

(** The per-point methods: the velocity is the unit vector along x; a
    conserved state is flagged when its first entry is negative. *)
Definition ex_variable : CNEMOEulerVariable_methods :=
  {| GetProjVel := fun nodes iPoint Normal => Normal 0;
     Cons2PrimVar := fun nodes U =>
       {| nonphysical := flt (U 0) zero; c2p_Primitive := U; c2p_dPdU := U;
          c2p_dTdU := U; c2p_dTvedU := U; c2p_Eve := U; c2p_Cvve := U |} |}.

(** One sweep of point Jacobi on two variables per point, as the linear
    solver. *)
Definition ex_solve : CSysSolve_methods :=
  {| Solve := fun J b x geometry cfg =>
       (J, b,
        fun k => match J !! (k / 2, k / 2) with
                 | Some blk => (b k / blk (k mod 2) (k mod 2))%D
                 | None => x k
                 end,
        1) |}.

Definition ex_solver : CSolver_methods :=
  {| InitiateComms_SOLUTION := fun geometry s => s;
     CompleteComms_SOLUTION := fun geometry s => s;
     SetResidual_RMS := fun geometry => ret |}.

Definition ex_libm : cmath := {| cos := fun _ => one; sin := fun _ => zero |}.

Definition ex_constants : constants :=
  {| PI_NUMBER := dyadic 7074237752028440 (-51);
     STANDARD_GRAVITY := (Z2D 980665 / Z2D 100000)%D |}.

Definition ex_tclib : CUserDefinedTCLib :=
  {| new_CUserDefinedTCLib := fun cfg nDim viscous => ex_gas |}.

Definition ex_printer : PrintingToolbox :=
  {| NonDim_tables := fun cfg Froude_ => ["-- Models:"; endl] |}.





(** The small mesh with the cell of point 0 turned inside out: its volume is
    -4. *)
Definition ex_geometry_inverted : CGeometry :=
  {| edges := edges ex_geometry;
     vertex := vertex ex_geometry;
     Volume := fun iPoint => match iPoint with 0 => Z2D (-4) | _ => Volume ex_geometry iPoint end;
     Coord := Coord ex_geometry;
     Domain := Domain ex_geometry;
     nNeighbor := nNeighbor ex_geometry;
     GridVel := GridVel ex_geometry;
     GlobalIndex := GlobalIndex ex_geometry |}.

(** Instances of the further interfaces, and the configurations and
    states of the examples of the further routines. *)

(** No periodic volume, the volumes of a static grid, and the coefficient
    1/2 for every Runge-Kutta step. *)
Definition ex_geometry_getters : CGeometry_getters :=
  {| GetPeriodicVolume := fun geometry iPoint => zero;
     GetVolume_n := fun geometry iPoint => Volume geometry iPoint;
     GetVolume_nM1 := fun geometry iPoint => Volume geometry iPoint |}.

Definition ex_config_getters : CConfig_getters :=
  {| Get_Alpha_RKStep := fun cfg iRKStep => half |}.

(** The explicit configuration of the small instance as a continuous
    adjoint run. *)
Definition ex_adjoint : CConfig :=
  {| scalar := scalar ex_explicit;
     Viscous := false; Grid_Movement := false; GravityForce := false;
     Axisymmetric := false; Frozen := false; Monoatomic := false;
     MUSCL_Flow := false; Discrete_Adjoint := false; Continuous_Adjoint := true;
     Frozen_Limiter_Disc := false;
     Kind_TimeIntScheme_Flow := EULER_EXPLICIT; Time_Marching := NO;
     Kind_InitOption := TD_CONDITIONS; Kind_FluidModel := USER_DEFINED_NONEQ;
     Ref_NonDim := DIMENSIONAL; Kind_Turb_Model := NO_TURB_MODEL;
     Kind_SlopeLimit_Flow := NO_LIMITER; Kind_TransCoeffModel := WILKE;
     SystemMeasurements := SI; Comm_Level := COMM_FULL;
     Marker_All_KindBC := fun _ => OTHER_BC;
     InnerIter := 0; LimiterIter := 10 |}.

Definition ex_comms : CSolver_comms :=
  {| InitiateComms_MAX_EIGENVALUE := fun geometry s => s;
     CompleteComms_MAX_EIGENVALUE := fun geometry s => s |}.

(** The small instance on a partitioned mesh: points 0 and 1 are owned,
    point 2 is a ghost point. *)
Definition ex_state_halo (cfg : CConfig) : State :=
  {| sizes := {| nVar := 2; nDim := 2; nSpecies := 0; nPrimVar := 10;
                 nPoint := 3; nPointDomain := 2 |};
     Gamma := Gamma (ex_state cfg);
     MassFrac_Inf := MassFrac_Inf (ex_state cfg);
     FluidModel := FluidModel (ex_state cfg);
     nodes := nodes (ex_state cfg);
     LinSysRes := LinSysRes (ex_state cfg);
     LinSysSol := LinSysSol (ex_state cfg);
     Jacobian := Jacobian (ex_state cfg);
     scratch := scratch (ex_state cfg);
     Min_Delta_Time := zero; Max_Delta_Time := zero;
     monitor := monitor (ex_state cfg);
     config := cfg; cout := []; Rank := 0 |}.

(** A vector of unknowns that is 7 everywhere but at point 1 of the small
    instance, where it is zero. *)
Definition ex_unknowns : array :=
  fun q => match q with 2 | 3 => zero | _ => Z2D 7 end.

(** The small mesh with a fourth point that no edge and no vertex
    reaches. *)
Definition ex_state4 (cfg : CConfig) : State :=
  {| sizes := {| nVar := 2; nDim := 2; nSpecies := 0; nPrimVar := 10;
                 nPoint := 4; nPointDomain := 4 |};
     Gamma := Gamma (ex_state cfg);
     MassFrac_Inf := MassFrac_Inf (ex_state cfg);
     FluidModel := FluidModel (ex_state cfg);
     nodes := nodes (ex_state cfg);
     LinSysRes := LinSysRes (ex_state cfg);
     LinSysSol := LinSysSol (ex_state cfg);
     Jacobian := Jacobian (ex_state cfg);
     scratch := scratch (ex_state cfg);
     Min_Delta_Time := zero; Max_Delta_Time := zero;
     monitor := monitor (ex_state cfg);
     config := cfg; cout := []; Rank := 0 |}.

(** The previous time level holds the solution, the one before holds
    zeros. *)
Definition ex_variable_getters : CVariable_getters :=
  {| GetSolution_time_n := fun nodes iPoint => node_array nodes Solution iPoint;
     GetSolution_time_n1 := fun nodes iPoint => zeros |}.

Definition ex_dual_1st (scheme : ENUM_TIME_INT) : CConfig :=
  ex_config scheme false DT_STEPPING_1ST TD_CONDITIONS false false.

Definition ex_primitive_getters : CVariable_primitive_getters :=
  {| GetPressure := fun nodes iPoint => Z2D 10;
     GetVelocity := fun nodes iPoint iDim => one;
     GetMassFraction := fun nodes iPoint iSpecies => one |}.

Definition ex_gas_getters : CNEMOGas_getters :=
  {| GetSpeciesMolarMass := fun gas => vec2 one one |}.

(** A wall of two faces on point 0, the second one degenerate, and the
    sizes of a gas without species in one dimension: nVar = 0 + 1 + 2. *)
Definition ex_wall : CGeometry :=
  {| edges := [];
     vertex := [[ {| vertex_Node := 0; vertex_Normal := vec2 (Z2D 2) zero |} ];
                [ {| vertex_Node := 1; vertex_Normal := zeros |} ]];
     Volume := fun _ => one;
     Coord := fun _ => zeros;
     Domain := fun _ => true;
     nNeighbor := fun _ => 1;
     GridVel := fun _ => zeros;
     GlobalIndex := fun iPoint => iPoint |}.

Definition ex_wall_state (cfg : CConfig) : State :=
  {| sizes := {| nVar := 3; nDim := 1; nSpecies := 0; nPrimVar := 9;
                 nPoint := 2; nPointDomain := 2 |};
     Gamma := Gamma (ex_state cfg);
     MassFrac_Inf := MassFrac_Inf (ex_state cfg);
     FluidModel := FluidModel (ex_state cfg);
     nodes := nodes (ex_state cfg);
     LinSysRes := fun _ => one;
     LinSysSol := zeros;
     Jacobian := list_to_map [((0, 0), zero_block); ((0, 1), zero_block);
                              ((1, 0), zero_block); ((1, 1), zero_block)];
     scratch := scratch (ex_state cfg);
     Min_Delta_Time := zero; Max_Delta_Time := zero;
     monitor := monitor (ex_state cfg);
     config := cfg; cout := []; Rank := 0 |}.

(* ===================================================================== *)
(** * Part II. Properties                                                 *)
(* ===================================================================== *)

(** ** Facts of binary64 arithmetic *)

Lemma SFcompare_refl x : x <> S754_nan -> SFcompare x x = Some Eq.
Proof.
  destruct x as [s|s| |s m e]; intros Hx; try done; cbn.
  - by destruct s.
  - rewrite Z.compare_refl, Pos.compare_cont_refl. by destruct s.
Qed.

(** [x != x] holds exactly of a NaN. *)
Lemma fne_self x : fne x x = true <-> is_nan x.
Proof.
  unfold fne, SFeqb, is_nan. split.
  - intros Hx. destruct x as [s|s| |s m e]; try done;
      by rewrite SFcompare_refl in Hx.
  - by intros ->.
Qed.

Lemma fne_self_false x : fne x x = false <-> ~ is_nan x.
Proof.
  rewrite <- fne_self. destruct (fne x x); naive_solver.
Qed.

Lemma cond_Zopp_negb s m : cond_Zopp (negb s) m = (- cond_Zopp s m)%Z.
Proof. destruct s; cbn; lia. Qed.

(** Subtracting is adding the opposite, exactly. *)
Lemma fsub_fadd_neg x y : (x - y = x + - y)%D.
Proof.
  unfold fsub, fadd, fneg.
  destruct x as [sx|sx| |sx mx ex], y as [sy|sy| |sy my ey]; cbn;
    by (repeat match goal with s : bool |- _ => destruct s end).
Qed.

(** A finite number and its opposite sum to zero. *)
Lemma fadd_neg_finite x : is_finite x -> (x + - x)%D = zero.
Proof.
  destruct x as [s|s| |s m e]; cbn; try done; intros _.
  - by destruct s.
  - unfold fadd. cbn. by rewrite cond_Zopp_negb, Z.add_opp_diag_r.
Qed.




(** From two zeros, adding [f] to the one and subtracting it from the other
    gives two opposite entries; and so does every further such pair. *)
Lemma opposite_start z1 z2 f :
  is_zero z1 -> is_zero z2 -> is_finite f ->
  is_finite (z1 + f)%D /\ opposite (z1 + f)%D (z2 + - f)%D.
Proof.
  intros [s1 ->] [s2 ->] Hf. destruct f as [s| | |s m e]; try done.
  - split; [by destruct s1, s|]. right. split; destruct s1, s2, s; by eexists.
  - split; [done|]. by left.
Qed.


(** One times a binary64 number is that number. *)
Lemma one_eq : one = S754_finite false 4503599627370496 (-52).
Proof. reflexivity. Qed.

Lemma shr_fexp_canonical m e :
  fexp prec emax (Zpos (digits2_pos m) + e) = e ->
  shr_fexp prec emax (Zpos m) e loc_Exact
  = ({| shr_m := Zpos m; shr_r := false; shr_s := false |}, e).
Proof. intros Hc. unfold shr_fexp. cbn [Zdigits2]. by rewrite Hc, Z.sub_diag. Qed.

Lemma shr_fexp_times_one m e :
  fexp prec emax (Zpos (digits2_pos m) + e) = e ->
  shr_fexp prec emax (Zpos (4503599627370496 * m)) (-52 + e) loc_Exact
  = ({| shr_m := Zpos m; shr_r := false; shr_s := false |}, e).
Proof.
  intros Hc. unfold shr_fexp. cbn [Zdigits2].
  assert (Hd : Zpos (digits2_pos (4503599627370496 * m))
               = (Zpos (digits2_pos m) + 52)%Z).
  { assert (H : forall p, digits2_pos (xO p) = Pos.succ (digits2_pos p)) by reflexivity.
    cbv [Pos.mul]. rewrite !H. lia. }
  rewrite Hd.
  replace (Zpos (digits2_pos m) + 52 + (-52 + e))%Z
    with (Zpos (digits2_pos m) + e)%Z by ring.
  rewrite Hc. replace (e - (-52 + e))%Z with 52%Z by ring.
  unfold shr. apply pair_equal_spec. split; [|ring].
  unfold shr_record_of_loc. cbv [Pos.mul]. cbv [iter_pos shr_1 orb]. reflexivity.
Qed.

Lemma fmul_one_l x : valid_binary prec emax x = true -> (one * x)%D = x.
Proof.
  destruct x as [s|s| |s m e]; try done.
  intros Hv. cbn in Hv. unfold bounded, canonical_mantissa in Hv.
  apply andb_true_iff in Hv as [Hc He]. apply Z.eqb_eq in Hc.
  unfold fmul. rewrite one_eq. cbn [SFmul xorb]. unfold binary_round_aux.
  rewrite (shr_fexp_times_one m e Hc).
  cbn [shr_m loc_of_shr_record round_nearest_even].
  rewrite (shr_fexp_canonical m e Hc). cbn [shr_m]. by rewrite He.
Qed.

(** Sums of products with zero. *)
Lemma fmul_zero_l y : zero_or_nan (zero * y)%D.
Proof. destruct y as [s|s| |s m e]; [left; by eexists|by right|by right|left; by eexists]. Qed.

Lemma fadd_zero_or_nan a b : zero_or_nan a -> zero_or_nan b -> zero_or_nan (a + b)%D.
Proof.
  intros [[sa ->]| ->] [[sb ->]| ->]; try (by right).
  left. destruct sa, sb; by eexists.
Qed.

Lemma fadd_not_zero a b : ~ is_zero a -> zero_or_nan b -> ~ is_zero (a + b)%D.
Proof.
  intros Ha [[sb ->]| ->].
  - destruct a as [s|s| |s m e]; cbn; try (by intros [? ?]).
    destruct Ha. by eexists.
  - destruct a; by intros [? ?].
Qed.

Lemma fadd_zero_or_nan_l a b : zero_or_nan a -> ~ is_zero b -> ~ is_zero (a + b)%D.
Proof.
  intros [[sa ->]| ->] Hb; [|by intros [? ?]].
  destruct b as [s|s| |s m e]; cbn; try (by intros [? ?]).
  destruct Hb. by eexists.
Qed.

Lemma is_zero_cases a : is_zero a \/ ~ is_zero a.
Proof. destruct a; [left; by eexists|right; by intros [? ?]..]. Qed.

Lemma feq_zero a b : is_zero b -> feq a b = true -> is_zero a.
Proof.
  intros [sb ->]. unfold feq, SFeqb.
  destruct a as [s|s| |s m e]; cbn; try done; [by eexists|by destruct s|by destruct s].
Qed.

Lemma feq_zeros a b : is_zero a -> is_zero b -> feq a b = true.
Proof. by intros [sa ->] [sb ->]. Qed.

Lemma fadd_zeros a b : is_zero a -> is_zero b -> is_zero (a + b)%D.
Proof. intros [sa ->] [sb ->]. destruct sa, sb; by eexists. Qed.

Lemma fmul_by_zero a b :
  is_finite a -> is_finite b -> is_zero a \/ is_zero b -> is_zero (a * b)%D.
Proof.
  intros Ha Hb [[sa ->]|[sb ->]].
  - destruct b as [sb|sb| |sb mb eb]; try done; by eexists.
  - destruct a as [sa|sa| |sa ma ea]; try done; by eexists.
Qed.

(** Rounding a non-negative mantissa gives a number of the sign asked for. *)
Lemma iter_pos_shr_1_nonneg p : forall mrs,
  (0 <= shr_m mrs)%Z -> (0 <= shr_m (SpecFloat.iter_pos shr_1 p mrs))%Z.
Proof.
  assert (H1 : forall mrs, (0 <= shr_m mrs)%Z -> (0 <= shr_m (shr_1 mrs))%Z).
  { intros [m r s] Hm. cbn in *. destruct m as [|[q|q|]|q]; cbn; lia. }
  induction p as [p IH|p IH|]; intros mrs Hm; cbn.
  - apply IH, IH, H1, Hm.
  - apply IH, IH, Hm.
  - apply H1, Hm.
Qed.

Lemma shr_fexp_nonneg m e l :
  (0 <= m)%Z -> (0 <= shr_m (fst (shr_fexp prec emax m e l)))%Z.
Proof.
  intros Hm. unfold shr_fexp, shr.
  assert (H0 : (0 <= shr_m (shr_record_of_loc m l))%Z).
  { destruct l as [|[]]; cbn; lia. }
  destruct (_ - e)%Z; cbn [fst]; try done.
  by apply iter_pos_shr_1_nonneg.
Qed.

Lemma round_nearest_even_nonneg m l : (0 <= m)%Z -> (0 <= round_nearest_even m l)%Z.
Proof. intros Hm. destruct l as [|[]]; cbn; try lia. destruct (Z.even m); lia. Qed.

Lemma binary_round_aux_signed sx mx ex lx :
  (0 <= mx)%Z -> signed sx (binary_round_aux prec emax sx mx ex lx).
Proof.
  intros Hm. unfold binary_round_aux.
  pose proof (shr_fexp_nonneg mx ex lx Hm) as H1.
  destruct (shr_fexp prec emax mx ex lx) as [mrs' e']. cbn [fst] in H1.
  pose proof (shr_fexp_nonneg (round_nearest_even (shr_m mrs') (loc_of_shr_record mrs')) e'
                loc_Exact (round_nearest_even_nonneg _ _ H1)) as H2.
  destruct (shr_fexp prec emax _ e' loc_Exact) as [mrs'' e'']. cbn [fst] in H2.
  destruct (shr_m mrs''); [done| |lia].
  by destruct (Z.leb _ _).
Qed.

Lemma pos_finite_nonneg x : is_pos_finite x -> nonneg x.
Proof. destruct x as [| | |[] m e]; cbn; done. Qed.

Lemma fmul_nonneg x y : nonneg x -> is_pos_finite y -> nonneg (x * y)%D.
Proof.
  unfold fmul.
  destruct x as [sx|sx| |sx mx ex], y as [| | |[] my ey]; cbn; try done;
    intros -> _; try done.
  by apply binary_round_aux_signed.
Qed.

Lemma SFdiv_core_nonneg mx ex my ey :
  (0 <= (fst (fst (SFdiv_core_binary prec emax (Zpos mx) ex (Zpos my) ey))))%Z.
Proof.
  unfold SFdiv_core_binary.
  set (s := (_ - _ - _)%Z).
  set (m' := match s with Zpos _ => Z.shiftl (Zpos mx) s | Z0 => Zpos mx | Zneg _ => 0%Z end).
  assert (Hm : (0 <= m')%Z).
  { unfold m'. destruct s; try lia. apply Z.shiftl_nonneg. lia. }
  pose proof (Z.div_pos m' (Zpos my) Hm ltac:(lia)) as Hq.
  unfold Z.div in Hq. destruct (Z.div_eucl m' (Zpos my)) as [q r]. done.
Qed.

Lemma fdiv_nonneg x y : nonneg x -> is_pos_finite y -> nonneg (x / y)%D.
Proof.
  unfold fdiv.
  destruct x as [sx|sx| |sx mx ex], y as [| | |[] my ey]; cbn; try done;
    intros -> _; try done.
  pose proof (SFdiv_core_nonneg mx ex my ey) as Hq.
  destruct (SFdiv_core_binary prec emax (Zpos mx) ex (Zpos my) ey) as [[mz ez] lz].
  by apply binary_round_aux_signed.
Qed.

Lemma SFcompare_antisym x y c :
  SFcompare x y = Some c -> SFcompare y x = Some (CompOpp c).
Proof.
  destruct x as [sx|sx| |sx mx ex], y as [sy|sy| |sy my ey]; cbn; try done;
    try (intros [= <-]; by repeat match goal with s : bool |- _ => destruct s end).
  intros [= <-]. f_equal.
  pose proof (Pos.compare_cont_antisym mx my Eq) as Ha. cbn in Ha.
  destruct sx, sy; try done;
    rewrite (Z.compare_antisym ex ey); destruct (ex ?= ey)%Z; cbn; try done;
    by rewrite <- Ha.
Qed.

Lemma SFcompare_None x y : SFcompare x y = None <-> x = S754_nan \/ y = S754_nan.
Proof.
  destruct x as [sx|sx| |sx mx ex], y as [sy|sy| |sy my ey]; cbn;
    (split; [try done; intros _; (by left) || (by right) | try (intros [|]; done)]).
Qed.

Lemma SFleb_of_not_SFltb x y :
  x <> S754_nan -> y <> S754_nan -> SFltb y x = false -> SFleb x y = true.
Proof.
  intros Hx Hy. unfold SFltb, SFleb.
  destruct (SFcompare y x) as [c|] eqn:E.
  - rewrite (SFcompare_antisym _ _ _ E). by destruct c.
  - apply SFcompare_None in E. by destruct E.
Qed.

Lemma SFleb_zero_nonneg x : nonneg x -> SFleb (S754_zero false) x = true.
Proof. destruct x as [[]|[]| |[] m e]; cbn; done. Qed.

Lemma nonneg_not_nan x : nonneg x -> x <> S754_nan.
Proof. by destruct x. Qed.

Lemma SFleb_refl x : x <> S754_nan -> SFleb x x = true.
Proof.
  intros Hx. unfold SFleb.
  destruct x as [s|s| |s m e]; try done; cbn.
  - by destruct s.
  - rewrite Z.compare_refl, Pos.compare_cont_refl. by destruct s.
Qed.

Lemma SFltb_irrefl x : SFltb x x = false.
Proof.
  unfold SFltb. destruct x as [s|s| |s m e]; try done; by rewrite SFcompare_refl.
Qed.

Lemma fmin_nonneg a b : nonneg a -> nonneg b -> nonneg (fmin a b).
Proof. intros Ha Hb. unfold fmin. by destruct (flt b a). Qed.

Lemma half_pos_finite : is_pos_finite half.
Proof. vm_compute. exact I. Qed.


(** ** Facts of the loops *)

Lemma for_loop_0 {S : Type} (body : nat -> S -> S) s : for_loop 0 body s = s.
Proof. reflexivity. Qed.

Lemma for_loop_S {S : Type} n (body : nat -> S -> S) s :
  for_loop (Datatypes.S n) body s = body n (for_loop n body s).
Proof. unfold for_loop. by rewrite seq_S, foldl_app. Qed.

(** Induction over the iterations of a loop. *)
Lemma for_loop_ind {S : Type} (P : nat -> S -> Prop) n (body : nat -> S -> S) s :
  P 0 s ->
  (forall i s, i < n -> P i s -> P (Datatypes.S i) (body i s)) ->
  P n (for_loop n body s).
Proof.
  intros H0 HS. induction n as [|n IH]; [done|].
  rewrite for_loop_S. apply HS; [lia|]. apply IH. intros i s' Hi. apply HS. lia.
Qed.

Lemma for_loop_ext {S : Type} n (f g : nat -> S -> S) s :
  (forall i s, i < n -> f i s = g i s) -> for_loop n f s = for_loop n g s.
Proof.
  intros Hfg. induction n as [|n IH]; [done|].
  rewrite !for_loop_S, IH; [apply Hfg; lia|]. intros i s' Hi. apply Hfg. lia.
Qed.

(** A loop that writes [h i (v (g i))] at index [g i]: the entries it does
    not reach are unchanged. *)
Lemma for_loop_insert_other {T : Type} n (g : nat -> nat) (h : nat -> T -> T)
    (v : nat -> T) q :
  (forall i, i < n -> g i <> q) ->
  for_loop n (fun i (v : nat -> T) => <[g i := h i (v (g i))]> v) v q = v q.
Proof.
  intros Hq. induction n as [|n IH]; [done|].
  rewrite for_loop_S, fn_lookup_insert_ne; [|apply Hq; lia].
  apply IH. intros i Hi. apply Hq. lia.
Qed.

(** ... and the entry each iteration reaches is updated once, when the
    iterations reach different entries. *)
Lemma for_loop_insert_at {T : Type} n (g : nat -> nat) (h : nat -> T -> T)
    (v : nat -> T) k :
  k < n -> (forall i j, i < n -> j < n -> g i = g j -> i = j) ->
  for_loop n (fun i (v : nat -> T) => <[g i := h i (v (g i))]> v) v (g k) = h k (v (g k)).
Proof.
  intros Hk Hinj. induction n as [|n IH]; [lia|].
  rewrite for_loop_S. destruct (decide (k = n)) as [->|Hne].
  - rewrite fn_lookup_insert. f_equal. apply for_loop_insert_other.
    intros i Hi Heq. apply Hinj in Heq; lia.
  - rewrite fn_lookup_insert_ne.
    + apply IH; [lia|]. intros i j Hi Hj. apply Hinj; lia.
    + intros Heq. apply Hinj in Heq; lia.
Qed.

(** Induction over a loop on a list. *)
Lemma foldl_invariant {A B : Type} (P : A -> Prop) (f : A -> B -> A) (l : list B) a :
  P a -> (forall a x, x ∈ l -> P a -> P (f a x)) -> P (foldl f a l).
Proof.
  revert a. induction l as [|x l IH]; intros a Ha Hf; [done|]. cbn [foldl].
  apply IH; [apply Hf; [left|done]|]. intros a' x' Hx'. apply Hf. by right.
Qed.


(** The scans for NaN. *)
Lemma for_loop_flag n (p : nat -> bool) err :
  for_loop n (fun i err => if p i then true else err) err
  = err || existsb p (seq 0 n).
Proof.
  induction n as [|n IH]; [by rewrite orb_false_r|].
  rewrite for_loop_S, IH, seq_S, existsb_app. cbn.
  destruct (p n), err, (existsb p (seq 0 n)); done.
Qed.

Lemma existsb_seq n (p : nat -> bool) :
  existsb p (seq 0 n) = true <-> exists k, k < n /\ p k = true.
Proof.
  rewrite existsb_exists. split.
  - intros (k & Hk & Hp). apply in_seq in Hk. exists k. split; [lia|done].
  - intros (k & Hk & Hp). exists k. split; [apply in_seq; lia|done].
Qed.

Lemma scan_nan_eq nVar v err :
  scan_nan nVar v err = err || existsb (fun k => fne (v k) (v k)) (seq 0 nVar).
Proof. apply for_loop_flag. Qed.

Lemma scan_nan2_eq nVar v w err :
  scan_nan2 nVar v w err
  = err || existsb (fun k => fne (v k) (v k) || fne (w k) (w k)) (seq 0 nVar).
Proof. apply (for_loop_flag nVar (fun k => fne (v k) (v k) || fne (w k) (w k))). Qed.

Lemma scan_nan_block_eq nVar J err :
  scan_nan_block nVar J err
  = err || existsb (fun i => existsb (fun j => fne (J i j) (J i j)) (seq 0 nVar)) (seq 0 nVar).
Proof.
  unfold scan_nan_block.
  rewrite (for_loop_ext _ _ (fun i err =>
    if existsb (fun j => fne (J i j) (J i j)) (seq 0 nVar) then true else err)).
  - apply for_loop_flag.
  - intros i e _. rewrite for_loop_flag. by destruct e, (existsb _ _).
Qed.

Lemma scan_nan_block2_eq nVar J K err :
  scan_nan_block2 nVar J K err
  = err || existsb (fun i => existsb (fun j =>
             fne (J i j) (J i j) || fne (K i j) (K i j)) (seq 0 nVar)) (seq 0 nVar).
Proof.
  unfold scan_nan_block2.
  rewrite (for_loop_ext _ _ (fun i err =>
    if existsb (fun j => fne (J i j) (J i j) || fne (K i j) (K i j)) (seq 0 nVar)
    then true else err)).
  - apply for_loop_flag.
  - intros i e _.
    rewrite (for_loop_flag nVar (fun j => fne (J i j) (J i j) || fne (K i j) (K i j))).
    by destruct e, (existsb _ _).
Qed.

(** The scan raises the flag exactly when an entry below [nVar] is a NaN. *)
Lemma scan_nan_true nVar v :
  scan_nan nVar v false = true <-> exists k, k < nVar /\ is_nan (v k).
Proof.
  rewrite scan_nan_eq, orb_false_l, existsb_seq.
  split; intros (k & Hk & Hn); exists k; by rewrite fne_self in *.
Qed.

Lemma scan_nan_false nVar v :
  scan_nan nVar v false = false <-> forall k, k < nVar -> ~ is_nan (v k).
Proof.
  rewrite <- not_true_iff_false, scan_nan_true. split.
  - intros Hn k Hk Hv. apply Hn. by exists k.
  - intros Hn (k & Hk & Hv). by apply (Hn k).
Qed.

Lemma scan_nan2_false n v w :
  scan_nan2 n v w false = false <->
  forall k, k < n -> ~ is_nan (v k) /\ ~ is_nan (w k).
Proof.
  rewrite scan_nan2_eq, orb_false_l, <- not_true_iff_false, existsb_seq. split.
  - intros Hn k Hk. rewrite <- !fne_self_false.
    destruct (fne (v k) (v k)) eqn:E1; [exfalso; apply Hn; exists k; by rewrite E1|].
    destruct (fne (w k) (w k)) eqn:E2; [exfalso; apply Hn; exists k; by rewrite E1, E2|].
    done.
  - intros Hn (k & Hk & Hv). destruct (Hn k Hk) as [Hv1 Hv2].
    apply fne_self_false in Hv1, Hv2. by rewrite Hv1, Hv2 in Hv.
Qed.

Lemma scan_nan_block2_false n J K :
  scan_nan_block2 n J K false = false <->
  forall k l, k < n -> l < n -> ~ is_nan (J k l) /\ ~ is_nan (K k l).
Proof.
  rewrite scan_nan_block2_eq, orb_false_l, <- not_true_iff_false, existsb_seq. split.
  - intros Hn k l Hk Hl. rewrite <- !fne_self_false.
    destruct (fne (J k l) (J k l)) eqn:E1.
    { exfalso. apply Hn. exists k. split; [done|]. apply existsb_seq.
      exists l. by rewrite E1. }
    destruct (fne (K k l) (K k l)) eqn:E2.
    { exfalso. apply Hn. exists k. split; [done|]. apply existsb_seq.
      exists l. by rewrite E1, E2. }
    done.
  - intros Hn (k & Hk & Hv). apply existsb_seq in Hv as (l & Hl & Hv).
    destruct (Hn k l Hk Hl) as [Hv1 Hv2].
    apply fne_self_false in Hv1, Hv2. by rewrite Hv1, Hv2 in Hv.
Qed.

Lemma scan_nan_block2_true n J K :
  scan_nan_block2 n J K false = true <->
  exists k l, k < n /\ l < n /\ (is_nan (J k l) \/ is_nan (K k l)).
Proof.
  rewrite scan_nan_block2_eq, orb_false_l, existsb_seq. split.
  - intros (k & Hk & Hv). apply existsb_seq in Hv as (l & Hl & Hv).
    exists k, l. split; [done|]. split; [done|].
    apply orb_true_iff in Hv. by rewrite !fne_self in Hv.
  - intros (k & l & Hk & Hl & Hv). exists k. split; [done|].
    apply existsb_seq. exists l. split; [done|].
    apply orb_true_iff. by rewrite !fne_self.
Qed.

Lemma scan_nan_block_false n J :
  scan_nan_block n J false = false <->
  forall k l, k < n -> l < n -> ~ is_nan (J k l).
Proof.
  rewrite scan_nan_block_eq, orb_false_l, <- not_true_iff_false, existsb_seq. split.
  - intros Hn k l Hk Hl. rewrite <- fne_self_false.
    destruct (fne (J k l) (J k l)) eqn:E1; [|done].
    exfalso. apply Hn. exists k. split; [done|]. apply existsb_seq.
    exists l. by rewrite E1.
  - intros Hn (k & Hk & Hv). apply existsb_seq in Hv as (l & Hl & Hv).
    specialize (Hn k l Hk Hl). apply fne_self_false in Hn. by rewrite Hn in Hv.
Qed.

(** Once raised, the flag stays. *)
Lemma scan_nan_block2_raised n J K : scan_nan_block2 n J K true = true.
Proof. by rewrite scan_nan_block2_eq. Qed.

Lemma scan_nan_block_raised n J : scan_nan_block n J true = true.
Proof. by rewrite scan_nan_block_eq. Qed.

(** The scans read the entries below [nVar] only. *)
Lemma scan_nan_ext n v v' err :
  (forall k, k < n -> v k = v' k) -> scan_nan n v err = scan_nan n v' err.
Proof. intros Hv. apply for_loop_ext. intros k e Hk. by rewrite Hv. Qed.

Lemma scan_nan2_ext n v w v' w' err :
  (forall k, k < n -> v k = v' k /\ w k = w' k) ->
  scan_nan2 n v w err = scan_nan2 n v' w' err.
Proof.
  intros Hv. apply for_loop_ext. intros k e Hk.
  destruct (Hv k Hk) as [-> ->]. done.
Qed.

Lemma scan_nan_block2_ext n J K J' K' err :
  (forall k l, k < n -> l < n -> J k l = J' k l /\ K k l = K' k l) ->
  scan_nan_block2 n J K err = scan_nan_block2 n J' K' err.
Proof.
  intros HJ. apply for_loop_ext. intros k e Hk.
  apply for_loop_ext. intros l e' Hl.
  destruct (HJ k l Hk Hl) as [-> ->]. done.
Qed.


(** ** Facts of the containers *)

Lemma in_block_index nVar iPoint k : k < nVar -> in_block nVar iPoint (iPoint * nVar + k).
Proof. unfold in_block. lia. Qed.

Lemma in_block_disjoint nVar i j q : in_block nVar i q -> in_block nVar j q -> i = j.
Proof. unfold in_block. intros Hi Hj. nia. Qed.

Lemma AddBlock_at nVar iPoint val v k :
  k < nVar ->
  AddBlock nVar iPoint val v (iPoint * nVar + k) = (v (iPoint * nVar + k)%nat + val k)%D.
Proof.
  intros Hk. unfold AddBlock.
  apply (for_loop_insert_at nVar (fun iVar => iPoint * nVar + iVar)
           (fun iVar x => (x + val iVar)%D)); [done|]. intros; lia.
Qed.

Lemma AddBlock_other nVar iPoint val v q :
  ~ in_block nVar iPoint q -> AddBlock nVar iPoint val v q = v q.
Proof.
  intros Hq. unfold AddBlock.
  apply (for_loop_insert_other nVar (fun iVar => iPoint * nVar + iVar)
           (fun iVar x => (x + val iVar)%D)).
  intros i Hi <-. apply Hq. by apply in_block_index.
Qed.

Lemma SubtractBlock_at nVar iPoint val v k :
  k < nVar ->
  SubtractBlock nVar iPoint val v (iPoint * nVar + k) = (v (iPoint * nVar + k)%nat - val k)%D.
Proof.
  intros Hk. unfold SubtractBlock.
  apply (for_loop_insert_at nVar (fun iVar => iPoint * nVar + iVar)
           (fun iVar x => (x - val iVar)%D)); [done|]. intros; lia.
Qed.

Lemma SubtractBlock_other nVar iPoint val v q :
  ~ in_block nVar iPoint q -> SubtractBlock nVar iPoint val v q = v q.
Proof.
  intros Hq. unfold SubtractBlock.
  apply (for_loop_insert_other nVar (fun iVar => iPoint * nVar + iVar)
           (fun iVar x => (x - val iVar)%D)).
  intros i Hi <-. apply Hq. by apply in_block_index.
Qed.

(** An entry of the vector after [AddBlock] depends on that entry before
    and on the entries of the added block below [nVar]. *)
Lemma in_block_offset nVar iPoint q :
  in_block nVar iPoint q -> q = iPoint * nVar + (q - iPoint * nVar) /\ q - iPoint * nVar < nVar.
Proof. unfold in_block. lia. Qed.

Lemma AddBlock_agree nVar iPoint val val' v v' q :
  (forall k, k < nVar -> val k = val' k) -> v q = v' q ->
  AddBlock nVar iPoint val v q = AddBlock nVar iPoint val' v' q.
Proof.
  intros Hval Hv. destruct (decide (in_block nVar iPoint q)) as [Hb|Hb].
  - destruct (in_block_offset _ _ _ Hb) as [Hq Hk]. rewrite Hq.
    rewrite !AddBlock_at by done. rewrite <- Hq. by rewrite Hv, Hval.
  - by rewrite !AddBlock_other.
Qed.

Lemma SubtractBlock_agree nVar iPoint val val' v v' q :
  (forall k, k < nVar -> val k = val' k) -> v q = v' q ->
  SubtractBlock nVar iPoint val v q = SubtractBlock nVar iPoint val' v' q.
Proof.
  intros Hval Hv. destruct (decide (in_block nVar iPoint q)) as [Hb|Hb].
  - destruct (in_block_offset _ _ _ Hb) as [Hq Hk]. rewrite Hq.
    rewrite !SubtractBlock_at by done. rewrite <- Hq. by rewrite Hv, Hval.
  - by rewrite !SubtractBlock_other.
Qed.


Section Properties.

Context {numerics_methods : CNumerics_methods}.
Context {variable_methods : CNEMOEulerVariable_methods}.
Context {solve_methods : CSysSolve_methods} {solver_methods : CSolver_methods}.
Context {libm : cmath} {consts : constants}.
Context {tclib : CUserDefinedTCLib} {printer : PrintingToolbox}.

(** ** The fatal error path *)

Lemma Error_aborts ErrorMsg FunctionName s :
  Error ErrorMsg FunctionName s = Aborted 0 (reported ErrorMsg FunctionName s).
Proof. reflexivity. Qed.

Lemma Error_andThen ErrorMsg FunctionName (k : M) s :
  (Error ErrorMsg FunctionName ;; k) s = Error ErrorMsg FunctionName s.
Proof. reflexivity. Qed.

Lemma reported_frame ErrorMsg FunctionName s :
  LinSysRes (reported ErrorMsg FunctionName s) = LinSysRes s
  /\ Jacobian (reported ErrorMsg FunctionName s) = Jacobian s
  /\ nodes (reported ErrorMsg FunctionName s) = nodes s
  /\ config (reported ErrorMsg FunctionName s) = config s.
Proof. unfold reported. by destruct (decide _). Qed.

(** C6: BC_Inlet and BC_Supersonic_Inlet raise the fatal error "Not
    operational in NEMO" that names them, for every input and whatever the
    per-vertex work of the inlet would be; the process is aborted in the
    state it was called in (but for the error block on the console), so the
    residual vector and the Jacobian are the ones of the caller. *)
Theorem BC_Inlet_not_operational
    (BC_Inlet_vertex : CGeometry -> nat -> CVertex -> State -> State)
    (geometry : CGeometry) (conv_numerics visc_numerics : CNumerics)
    (val_marker : nat) (s : State) :
  let inlet := BC_Inlet BC_Inlet_vertex geometry conv_numerics visc_numerics val_marker s in
  let supersonic := BC_Supersonic_Inlet geometry conv_numerics visc_numerics val_marker s in
  inlet = Aborted 0 (reported "BC_INLET: Not operational in NEMO."
                              (CURRENT_FUNCTION "BC_Inlet") s)
  /\ supersonic = Aborted 0 (reported "BC_SUPERSONIC_INLET: Not operational in NEMO."
                                      (CURRENT_FUNCTION "BC_Supersonic_Inlet") s)
  /\ LinSysRes (final inlet) = LinSysRes s /\ Jacobian (final inlet) = Jacobian s
  /\ LinSysRes (final supersonic) = LinSysRes s /\ Jacobian (final supersonic) = Jacobian s.
Proof.
  cbv zeta. unfold BC_Inlet, BC_Supersonic_Inlet.
  rewrite Error_andThen, !Error_aborts. cbn [final].
  split; [done|]. split; [done|].
  destruct (reported_frame "BC_INLET: Not operational in NEMO."
              (CURRENT_FUNCTION "BC_Inlet") s) as (-> & -> & _).
  destruct (reported_frame "BC_SUPERSONIC_INLET: Not operational in NEMO."
              (CURRENT_FUNCTION "BC_Supersonic_Inlet") s) as (-> & -> & _).
  done.
Qed.

(** ** Residual assembly over the interior edges *)

(** What the update of an edge does to the flat residual vector. *)
Lemma Centered_update_LinSysRes e s :
  LinSysRes (Centered_update e s)
  = SubtractBlock (nVar (sizes s)) (Node1 e) (Res_Visc (scratch s))
      (AddBlock (nVar (sizes s)) (Node0 e) (Res_Visc (scratch s))
        (SubtractBlock (nVar (sizes s)) (Node1 e) (Res_Conv (scratch s))
          (AddBlock (nVar (sizes s)) (Node0 e) (Res_Conv (scratch s)) (LinSysRes s)))).
Proof. unfold Centered_update. by destruct (implicit_scheme _). Qed.

Lemma Centered_update_frame e s :
  sizes (Centered_update e s) = sizes s /\ nodes (Centered_update e s) = nodes s
  /\ config (Centered_update e s) = config s /\ scratch (Centered_update e s) = scratch s.
Proof. unfold Centered_update. by destruct (implicit_scheme _). Qed.

(** The blocks of two different points do not overlap. *)
Lemma block_apart nVar i j k : i <> j -> k < nVar -> ~ in_block nVar i (j * nVar + k).
Proof.
  unfold in_block. intros Hij Hk Hb.
  destruct (decide (i < j)); [|assert (j < i) by lia]; nia.
Qed.



Lemma Add_Subtract_other nVar i j val v q :
  ~ in_block nVar i q -> ~ in_block nVar j q ->
  SubtractBlock nVar j val (AddBlock nVar i val v) q = v q.
Proof. intros Hi Hj. by rewrite SubtractBlock_other, AddBlock_other. Qed.

(** The check of the centered path in terms of its entries. *)
Lemma Centered_err_false s sc :
  Centered_err s sc = false <->
  (forall k, k < nVar (sizes s) -> ~ is_nan (Res_Conv sc k) /\ ~ is_nan (Res_Visc sc k))
  /\ (implicit_scheme s = true ->
      forall k l, k < nVar (sizes s) -> l < nVar (sizes s) ->
        ~ is_nan (Jacobian_i sc k l) /\ ~ is_nan (Jacobian_j sc k l)).
Proof.
  unfold Centered_err.
  destruct (scan_nan2 _ _ _ false) eqn:E2.
  - assert (Hn : ~ forall k, k < nVar (sizes s) ->
               ~ is_nan (Res_Conv sc k) /\ ~ is_nan (Res_Visc sc k)).
    { rewrite <- scan_nan2_false. congruence. }
    assert (Ht : (if implicit_scheme s
                  then scan_nan_block2 (nVar (sizes s)) (Jacobian_i sc) (Jacobian_j sc) true
                  else true) = true).
    { destruct (implicit_scheme s); [apply scan_nan_block2_raised|done]. }
    rewrite Ht. split; [done|]. intros [Hall _]. by destruct Hn.
  - pose proof (proj1 (scan_nan2_false _ _ _) E2) as Hall.
    destruct (implicit_scheme s).
    + rewrite scan_nan_block2_false. split; [intros Hb; by split|].
      intros [_ Hb]. by apply Hb.
    + split; [intros _; by split|done].
Qed.



(** ** NaN containment *)

Lemma same_frame_refl s : same_frame s s.
Proof. done. Qed.

Lemma Upwind_inputs_frame geometry iMesh e n s s' :
  same_frame s s' ->
  Upwind_inputs geometry s iMesh e n = Upwind_inputs geometry s' iMesh e n.
Proof.
  intros (Hn & Hs & Hc).
  unfold Upwind_inputs, Conserved_i, Conserved_j, lim_ij, muscl_flag, limiter_flag,
    first_order_inputs, reconstruct.
  by rewrite Hn, Hs, Hc.
Qed.

Lemma Centered_inputs_frame geometry e n s s' :
  same_frame s s' ->
  Centered_inputs geometry s e n = Centered_inputs geometry s' e n.
Proof. intros (Hn & Hs & Hc). unfold Centered_inputs. by rewrite Hn. Qed.

Lemma Upwind_edge_frame geometry iMesh n s e :
  same_frame s (Upwind_edge geometry iMesh (n, s) e).2.
Proof. unfold Upwind_edge. cbn [snd]. by destruct (negb _). Qed.

Lemma Centered_edge_frame geometry n s e :
  same_frame s (Centered_edge geometry (n, s) e).2.
Proof.
  unfold Centered_edge. cbn [snd]. destruct (negb _); [|done].
  destruct (Centered_update_frame e
    (set_scratch (ComputeResidual_centered (Centered_inputs geometry s e n) (config s)) s))
    as (Hs & Hn & Hc & _).
  unfold same_frame. by rewrite Hs, Hn, Hc.
Qed.

(** A rejected edge leaves the residual vector and the Jacobian as they are:
    the upwind path leaves the whole state, the centered path all of it but
    the work arrays the functor has written. *)
Lemma Upwind_edge_rejected geometry iMesh n s e :
  (exists k, k < nVar (sizes s) /\
     is_nan (ComputeResidual (Upwind_inputs geometry s iMesh e n) (config s) k)) ->
  (Upwind_edge geometry iMesh (n, s) e).2 = s.
Proof.
  intros Hnan. apply scan_nan_true in Hnan.
  unfold Upwind_edge. cbn [snd]. by rewrite Hnan.
Qed.

Lemma Centered_err_true s sc :
  (exists k, k < nVar (sizes s) /\ (is_nan (Res_Conv sc k) \/ is_nan (Res_Visc sc k)))
  \/ (implicit_scheme s = true /\
      exists k l, k < nVar (sizes s) /\ l < nVar (sizes s) /\
        (is_nan (Jacobian_i sc k l) \/ is_nan (Jacobian_j sc k l))) ->
  Centered_err s sc = true.
Proof.
  intros Hnan. apply not_false_iff_true. rewrite Centered_err_false.
  intros [Hres Hjac]. destruct Hnan as [(k & Hk & Hv)|(Himp & k & l & Hk & Hl & Hv)].
  - destruct (Hres k Hk). by destruct Hv.
  - destruct (Hjac Himp k l Hk Hl). by destruct Hv.
Qed.

Lemma Centered_edge_rejected geometry n s e :
  let s' := (Centered_edge geometry (n, s) e).2 in
  let sc := scratch s' in
  (exists k, k < nVar (sizes s) /\ (is_nan (Res_Conv sc k) \/ is_nan (Res_Visc sc k)))
  \/ (implicit_scheme s = true /\
      exists k l, k < nVar (sizes s) /\ l < nVar (sizes s) /\
        (is_nan (Jacobian_i sc k l) \/ is_nan (Jacobian_j sc k l))) ->
  LinSysRes s' = LinSysRes s /\ Jacobian s' = Jacobian s /\ nodes s' = nodes s.
Proof.
  cbn zeta. unfold Centered_edge. cbn [snd].
  set (s1 := set_scratch _ s).
  destruct (Centered_err s1 (scratch s1)) eqn:Herr; cbn [negb]; [done|].
  destruct (Centered_update_frame e s1) as (_ & _ & _ & ->).
  intros Hnan. apply (Centered_err_true s1) in Hnan. congruence.
Qed.

Lemma same_frame_trans s1 s2 s3 : same_frame s1 s2 -> same_frame s2 s3 -> same_frame s1 s3.
Proof. intros (E1 & E2 & E3) (E4 & E5 & E6). unfold same_frame. by rewrite E1, E2, E3. Qed.

Lemma Upwind_run_frame geometry iMesh l : forall n s,
  same_frame s (foldl (Upwind_edge geometry iMesh) (n, s) l).2.
Proof.
  induction l as [|e l IH]; intros n s; [done|]. cbn [foldl].
  pose proof (Upwind_edge_frame geometry iMesh n s e) as Hfr.
  destruct (Upwind_edge geometry iMesh (n, s) e) as [n1 s1]. cbn [snd] in Hfr.
  by apply (same_frame_trans _ s1).
Qed.

Lemma Centered_run_frame geometry l : forall n s,
  same_frame s (foldl (Centered_edge geometry) (n, s) l).2.
Proof.
  induction l as [|e l IH]; intros n s; [done|]. cbn [foldl].
  pose proof (Centered_edge_frame geometry n s e) as Hfr.
  destruct (Centered_edge geometry (n, s) e) as [n1 s1]. cbn [snd] in Hfr.
  by apply (same_frame_trans _ s1).
Qed.

(** The two edge loops, cut after an edge. *)
Lemma foldl_snoc {A B : Type} (f : A -> B -> A) (a : A) (l : list B) (x : B) :
  foldl f a (l ++ [x]) = f (foldl f a l) x.
Proof. by rewrite foldl_app. Qed.

Lemma foldl_cut {A B : Type} (f : A -> B -> A) (a : A) (l1 l2 : list B) (x : B) :
  foldl f a (l1 ++ x :: l2) = foldl f (foldl f a (l1 ++ [x])) l2.
Proof. by rewrite foldl_snoc, foldl_app. Qed.


(** ** First-order fallback of the reconstruction *)

(** What a numerics object holds once the first-order inputs are set. *)
Lemma first_order_inputs_fields s iPoint jPoint numerics :
  let n := first_order_inputs s iPoint jPoint numerics in
  let get x iPoint := node_array (nodes s) x iPoint in
  in_array n U_i = get Solution iPoint /\ in_array n U_j = get Solution jPoint
  /\ in_array n V_i = get Primitive iPoint /\ in_array n V_j = get Primitive jPoint
  /\ in_array n dPdU_i = get dPdU iPoint /\ in_array n dPdU_j = get dPdU jPoint
  /\ in_array n dTdU_i = get dTdU iPoint /\ in_array n dTdU_j = get dTdU jPoint
  /\ in_array n dTvedU_i = get dTvedU iPoint /\ in_array n dTvedU_j = get dTvedU jPoint
  /\ in_array n Eve_i = get Eve iPoint /\ in_array n Eve_j = get Eve jPoint
  /\ in_array n Cvve_i = get Cvve iPoint /\ in_array n Cvve_j = get Cvve jPoint
  /\ in_array n Normal = in_array numerics Normal.
Proof. cbv zeta. repeat split. Qed.

(** The flags the reconstruction reads are those of the state the loop
    starts from. *)
Lemma flagged_frame geometry s s' e :
  same_frame s s' -> flagged geometry s' e = flagged geometry s e.
Proof.
  intros (Hn & Hs & Hc).
  unfold flagged, Conserved_i, Conserved_j, lim_ij, limiter_flag, reconstruct.
  by rewrite Hn, Hs, Hc.
Qed.



(** ** Supersonic outlet *)

Lemma outward_normal_at nDim vertex_normal iDim :
  iDim < nDim -> outward_normal nDim vertex_normal iDim = (- vertex_normal iDim)%D.
Proof.
  intros Hi. unfold outward_normal.
  apply (for_loop_insert_at nDim (fun iDim => iDim) (fun _ x => (- x)%D)); [done|].
  by intros.
Qed.

(** The boundary loop writes the residual vector only. *)
Lemma Supersonic_Outlet_vertex_frame geometry n s v :
  same_frame s (Supersonic_Outlet_vertex geometry (n, s) v).2.
Proof. unfold Supersonic_Outlet_vertex. by destruct (Domain geometry _). Qed.

Lemma Supersonic_Outlet_run_frame geometry l : forall n s,
  same_frame s (foldl (Supersonic_Outlet_vertex geometry) (n, s) l).2.
Proof.
  induction l as [|v l IH]; intros n s; [done|]. cbn [foldl].
  pose proof (Supersonic_Outlet_vertex_frame geometry n s v) as Hfr.
  destruct (Supersonic_Outlet_vertex geometry (n, s) v) as [n1 s1]. cbn [snd] in Hfr.
  by apply (same_frame_trans _ s1).
Qed.

Lemma Supersonic_Outlet_inputs_frame geometry v n s s' :
  same_frame s s' ->
  Supersonic_Outlet_inputs geometry s v n = Supersonic_Outlet_inputs geometry s' v n.
Proof. intros (Hn & Hs & Hc). unfold Supersonic_Outlet_inputs. by rewrite Hn, Hs, Hc. Qed.

(** C7: the loop of BC_Supersonic_Outlet at any vertex [v] of the marker
    whose point belongs to the domain.  [before] is the state in which the
    loop reaches the vertex and [after] the state in which it leaves it; the
    routine returns the state the remaining vertices make of [after].  The
    flux functor receives the state of the interior point (its conserved and
    primitive variables and its five derivative arrays) as the left and as
    the right state, with the normal of the vertex negated; these are the
    inputs the upwind path would set, without reconstruction, on an interior
    edge with this normal and that point at both ends (but for the grid
    velocity, which the boundary sets when the grid moves), so that the
    residual is the one of that zero-gradient edge.  The residual the
    functor returns is added, entry by entry, to the block of the point, and
    nothing else of the residual vector changes at the vertex. *)
Theorem supersonic_outlet_zero_gradient
    (geometry : CGeometry) (conv_numerics visc_numerics : CNumerics) (val_marker : nat)
    (s : State) (l1 l2 : list CVertex) (v : CVertex) (iMesh : nat) :
  marker_vertices geometry val_marker = l1 ++ v :: l2 ->
  Domain geometry (vertex_Node v) = true ->
  let iPoint := vertex_Node v in
  let get x := node_array (nodes s) x iPoint in
  let nV := nVar (sizes s) in
  let Normal_ := outward_normal (nDim (sizes s)) (vertex_Normal v) in
  let run := foldl (Supersonic_Outlet_vertex geometry) (conv_numerics, s) in
  let before := (run l1).2 in
  let after := (run (l1 ++ [v])).2 in
  let n := Supersonic_Outlet_inputs geometry before v (run l1).1 in
  let residual := ComputeResidual n (config s) in
  BC_Supersonic_Outlet geometry conv_numerics visc_numerics val_marker s
  = Done (foldl (Supersonic_Outlet_vertex geometry) (n, after) l2).2
  /\ (in_array n U_i = get Solution /\ in_array n U_j = get Solution
      /\ in_array n V_i = get Primitive /\ in_array n V_j = get Primitive
      /\ in_array n dPdU_i = get dPdU /\ in_array n dPdU_j = get dPdU
      /\ in_array n dTdU_i = get dTdU /\ in_array n dTdU_j = get dTdU
      /\ in_array n dTvedU_i = get dTvedU /\ in_array n dTvedU_j = get dTvedU
      /\ in_array n Eve_i = get Eve /\ in_array n Eve_j = get Eve
      /\ in_array n Cvve_i = get Cvve /\ in_array n Cvve_j = get Cvve
      /\ in_array n Normal = Normal_)
  /\ (forall iDim, iDim < nDim (sizes s) -> Normal_ iDim = (- vertex_Normal v iDim)%D)
  /\ (let self_edge := {| Node0 := iPoint; Node1 := iPoint; edge_Normal := Normal_ |} in
      let first_order := Upwind_inputs geometry s iMesh self_edge (run l1).1 in
      muscl_flag s iMesh = false ->
      n = (if Grid_Movement (config s)
           then SetGridVel (GridVel geometry iPoint) (GridVel geometry iPoint)
           else id) first_order
      /\ (Grid_Movement (config s) = false ->
          residual = ComputeResidual first_order (config s)))
  /\ (forall k, k < nV ->
        LinSysRes after (iPoint * nV + k)
        = (LinSysRes before (iPoint * nV + k)%nat + residual k)%D)
  /\ (forall q, ~ in_block nV iPoint q -> LinSysRes after q = LinSysRes before q).
Proof.
  intros Hmarker Hdom iPoint get nV Normal_ run before after n residual.
  pose proof (Supersonic_Outlet_run_frame geometry l1 conv_numerics s) as Hfr.
  fold (run l1) in Hfr. fold before in Hfr.
  assert (Hn : n = Supersonic_Outlet_inputs geometry s v (run l1).1).
  { subst n. symmetry. by apply Supersonic_Outlet_inputs_frame. }
  assert (Hstep : run (l1 ++ [v])
                  = (n, set_LinSysRes (AddBlock nV iPoint residual) before)).
  { subst run. cbv beta. rewrite foldl_snoc. subst n residual before nV iPoint.
    destruct Hfr as (_ & Hsz & Hcfg).
    destruct (foldl (Supersonic_Outlet_vertex geometry) (conv_numerics, s) l1) as [nA sA].
    cbn [fst snd] in *. unfold Supersonic_Outlet_vertex. by rewrite Hdom, <- Hsz, <- Hcfg. }
  assert (Hafter : after = set_LinSysRes (AddBlock nV iPoint residual) before).
  { subst after. by rewrite Hstep. }
  split; [|split; [|split; [|split; [|split]]]].
  - unfold BC_Supersonic_Outlet, step. rewrite Hmarker, foldl_cut.
    fold (run (l1 ++ [v])). by rewrite Hstep, Hafter.
  - rewrite Hn. unfold Supersonic_Outlet_inputs.
    destruct (Grid_Movement (config s)); repeat split.
  - intros iDim Hi. by apply outward_normal_at.
  - intros self_edge first_order Hmuscl.
    assert (Heq : n = (if Grid_Movement (config s)
                       then SetGridVel (GridVel geometry iPoint) (GridVel geometry iPoint)
                       else id) first_order).
    { rewrite Hn. subst first_order.
      unfold Upwind_inputs, Supersonic_Outlet_inputs. rewrite Hmuscl.
      by destruct (Grid_Movement (config s)). }
    split; [exact Heq|]. intros Hgrid. subst residual. rewrite Heq. by rewrite Hgrid.
  - intros k Hk. rewrite Hafter. cbn [LinSysRes set_LinSysRes]. by apply AddBlock_at.
  - intros q Hq. rewrite Hafter. cbn [LinSysRes set_LinSysRes]. by apply AddBlock_other.
Qed.

(** ** Source terms *)

(** The check of a source term in terms of the entries. *)
Lemma Source_err_true s residual :
  Source_err s residual = true <->
  has_nan (nVar (sizes s)) residual
  \/ (implicit_scheme s = true /\ block_has_nan (nVar (sizes s)) (Jacobian_i (scratch s))).
Proof.
  unfold Source_err, has_nan, block_has_nan.
  destruct (scan_nan (nVar (sizes s)) residual false) eqn:Eres.
  - assert (Ht : (if implicit_scheme s
                  then scan_nan_block (nVar (sizes s)) (Jacobian_i (scratch s)) true
                  else true) = true).
    { destruct (implicit_scheme s); [apply scan_nan_block_raised|done]. }
    rewrite Ht. split; [|done]. intros _. left. by apply scan_nan_true.
  - pose proof (proj1 (scan_nan_false _ _) Eres) as Hres.
    destruct (implicit_scheme s).
    + destruct (scan_nan_block _ _ false) eqn:Eblk.
      * split; [|done]. intros _. right. split; [done|].
        apply not_false_iff_true in Eblk. rewrite scan_nan_block_false in Eblk.
        destruct (scan_nan_block2 (nVar (sizes s)) (Jacobian_i (scratch s))
                    (Jacobian_i (scratch s)) false) eqn:E2.
        -- apply scan_nan_block2_true in E2 as (k & l & Hk & Hl & Hv).
           exists k, l. by destruct Hv.
        -- exfalso. apply Eblk. intros k l Hk Hl.
           by destruct (proj1 (scan_nan_block2_false _ _ _) E2 k l Hk Hl).
      * split; [done|]. intros [(k & Hk & Hv)|(_ & k & l & Hk & Hl & Hv)].
        -- by destruct (Hres k Hk).
        -- by destruct (proj1 (scan_nan_block_false _ _) Eblk k l Hk Hl).
    + split; [done|]. intros [(k & Hk & Hv)|(Hi & _)]; [|done].
      by destruct (Hres k Hk).
Qed.

Lemma Source_add_frame iPoint residual s : source_frame s (Source_add iPoint residual s).
Proof. unfold Source_add. by destruct (implicit_scheme s). Qed.

Lemma Source_subtract_frame iPoint residual s :
  source_frame s (Source_subtract iPoint residual s).
Proof. unfold Source_subtract. by destruct (implicit_scheme s). Qed.

Lemma Source_err_frame s s' residual :
  source_frame s s' -> Source_err s' residual = Source_err s residual.
Proof.
  intros (Hs & Hc & Hsc & _). unfold Source_err, implicit_scheme. by rewrite Hs, Hc, Hsc.
Qed.

(** Each of the three stages of a point: the term is applied, or counted,
    or not enabled. *)
Lemma Source_axisymmetric_eq numerics iPoint c s :
  let r := ComputeAxisymmetric numerics (config s) in
  Source_axisymmetric numerics iPoint (c, s)
  = (if axisymmetric_on s && Source_err s r then count_axi c else c,
     if axisymmetric_on s && negb (Source_err s r) then Source_add iPoint r s else s).
Proof.
  cbn zeta. unfold Source_axisymmetric, axisymmetric_on.
  destruct (Axisymmetric (config s)); [|done]. by destruct (Source_err s _).
Qed.

Lemma Source_chemistry_eq numerics iPoint c s :
  let r := ComputeChemistry numerics (config s) in
  Source_chemistry numerics iPoint (c, s)
  = (if chemistry_on s && Source_err s r then count_chm c else c,
     if chemistry_on s && negb (Source_err s r) then Source_subtract iPoint r s else s).
Proof.
  cbn zeta. unfold Source_chemistry, chemistry_on.
  destruct (Monoatomic (config s)); [done|]. destruct (Frozen (config s)); [done|].
  by destruct (Source_err s _).
Qed.

Lemma Source_vibrational_eq numerics iPoint c s :
  let r := ComputeVibRelaxation numerics (config s) in
  Source_vibrational numerics iPoint (c, s)
  = (if vibrational_on s && Source_err s r then count_vib c else c,
     if vibrational_on s && negb (Source_err s r) then Source_subtract iPoint r s else s).
Proof.
  cbn zeta. unfold Source_vibrational, vibrational_on.
  destruct (Monoatomic (config s)); [done|]. by destruct (Source_err s _).
Qed.

Lemma source_frame_refl s : source_frame s s.
Proof. done. Qed.

Lemma source_frame_trans s1 s2 s3 :
  source_frame s1 s2 -> source_frame s2 s3 -> source_frame s1 s3.
Proof.
  intros (E1 & E2 & E3 & E4 & E5) (E6 & E7 & E8 & E9 & E10).
  unfold source_frame. by rewrite E6, E7, E8, E9, E10.
Qed.

Lemma source_frame_flags s s' :
  source_frame s s' ->
  axisymmetric_on s' = axisymmetric_on s /\ chemistry_on s' = chemistry_on s
  /\ vibrational_on s' = vibrational_on s /\ implicit_scheme s' = implicit_scheme s.
Proof.
  intros (_ & Hc & _).
  unfold axisymmetric_on, chemistry_on, vibrational_on, implicit_scheme. by rewrite Hc.
Qed.

(** The three stages of a point, one after the other, with every check
    read in the state the point starts from. *)
Lemma Source_point_eq geometry iPoint numerics c s :
  let n := Source_inputs geometry s iPoint numerics in
  let ra := ComputeAxisymmetric n (config s) in
  let rc := ComputeChemistry n (config s) in
  let rv := ComputeVibRelaxation n (config s) in
  let s1 := if axisymmetric_on s && negb (Source_err s ra) then Source_add iPoint ra s else s in
  let s2 := if chemistry_on s && negb (Source_err s rc) then Source_subtract iPoint rc s1 else s1 in
  let s3 := if vibrational_on s && negb (Source_err s rv) then Source_subtract iPoint rv s2 else s2 in
  let c1 := if axisymmetric_on s && Source_err s ra then count_axi c else c in
  let c2 := if chemistry_on s && Source_err s rc then count_chm c1 else c1 in
  let c3 := if vibrational_on s && Source_err s rv then count_vib c2 else c2 in
  Source_point geometry iPoint (numerics, (c, s)) = (n, (c3, s3))
  /\ source_frame s s1 /\ source_frame s s2 /\ source_frame s s3.
Proof.
  intros n ra rc rv s1 s2 s3 c1 c2 c3.
  assert (Hf1 : source_frame s s1).
  { unfold s1. destruct (axisymmetric_on s && negb (Source_err s ra));
      [apply Source_add_frame|done]. }
  assert (Hf2 : source_frame s s2).
  { unfold s2. destruct (chemistry_on s && negb (Source_err s rc)); [|done].
    eapply source_frame_trans; [exact Hf1|apply Source_subtract_frame]. }
  assert (Hf3 : source_frame s s3).
  { unfold s3. destruct (vibrational_on s && negb (Source_err s rv)); [|done].
    eapply source_frame_trans; [exact Hf2|apply Source_subtract_frame]. }
  split; [|done].
  unfold Source_point. cbn [fst snd]. fold n.
  rewrite Source_axisymmetric_eq. fold ra s1 c1.
  rewrite Source_chemistry_eq.
  destruct (source_frame_flags s s1 Hf1) as (_ & -> & _ & _).
  rewrite (Source_err_frame s s1 _ Hf1).
  destruct Hf1 as (_ & -> & _). fold rc s2 c2.
  rewrite Source_vibrational_eq.
  destruct (source_frame_flags s s2 Hf2) as (_ & _ & -> & _).
  rewrite (Source_err_frame s s2 _ Hf2).
  destruct Hf2 as (_ & -> & _). done.
Qed.

Lemma Source_add_fields iPoint r s :
  LinSysRes (Source_add iPoint r s) = AddBlock (nVar (sizes s)) iPoint r (LinSysRes s)
  /\ Jacobian (Source_add iPoint r s)
     = (if implicit_scheme s
        then AddBlock2 (nVar (sizes s)) iPoint iPoint (Jacobian_i (scratch s)) (Jacobian s)
        else Jacobian s).
Proof. unfold Source_add. by destruct (implicit_scheme s). Qed.

Lemma Source_subtract_fields iPoint r s :
  LinSysRes (Source_subtract iPoint r s) = SubtractBlock (nVar (sizes s)) iPoint r (LinSysRes s)
  /\ Jacobian (Source_subtract iPoint r s)
     = (if implicit_scheme s
        then SubtractBlock2 (nVar (sizes s)) iPoint iPoint (Jacobian_i (scratch s)) (Jacobian s)
        else Jacobian s).
Proof. unfold Source_subtract. by destruct (implicit_scheme s). Qed.

Lemma Source_add_stage (b : bool) iPoint r s :
  Jacobian (if b then Source_add iPoint r s else s)
  = (if implicit_scheme s && b
     then AddBlock2 (nVar (sizes s)) iPoint iPoint (Jacobian_i (scratch s)) (Jacobian s)
     else Jacobian s).
Proof.
  destruct b; [|by rewrite andb_false_r].
  rewrite (proj2 (Source_add_fields _ _ _)). by rewrite andb_true_r.
Qed.

Lemma Source_subtract_stage (b : bool) iPoint r s :
  Jacobian (if b then Source_subtract iPoint r s else s)
  = (if implicit_scheme s && b
     then SubtractBlock2 (nVar (sizes s)) iPoint iPoint (Jacobian_i (scratch s)) (Jacobian s)
     else Jacobian s).
Proof.
  destruct b; [|by rewrite andb_false_r].
  rewrite (proj2 (Source_subtract_fields _ _ _)). by rewrite andb_true_r.
Qed.

(** The loop over the points prints nothing and keeps the sizes. *)
Lemma Source_loop_frame geometry numerics s :
  cout (Source_loop geometry numerics s).2 = cout s
  /\ sizes (Source_loop geometry numerics s).2 = sizes s
  /\ config (Source_loop geometry numerics s).2 = config s.
Proof.
  unfold Source_loop. set (s0 := Source_reset s).
  change (nPointDomain (sizes s0)) with (nPointDomain (sizes s)).
  change (cout s) with (cout s0). change (sizes s) with (sizes s0).
  change (config s) with (config s0).
  apply (for_loop_ind (fun _ (x : CNumerics * (Counters * State)) =>
           cout x.2.2 = cout s0 /\ sizes x.2.2 = sizes s0 /\ config x.2.2 = config s0));
    [done|].
  intros i [n [c s1]] _ (Hc & Hs & Hcfg). cbn [fst snd] in *.
  destruct (Source_point_eq geometry i n c s1) as (-> & _ & _ & (E1 & E2 & _ & _ & E5)).
  cbn [fst snd]. by rewrite E1, E2, E5.
Qed.

(** One pass of the body of the loop over the points, from any state: each
    enabled term is checked on its own, applied with its own sign or counted
    and skipped. *)
Lemma Source_point_spec geometry iPoint numerics0 c s0 :
  let nV := nVar (sizes s0) in
  let n := Source_inputs geometry s0 iPoint numerics0 in
  let ra := ComputeAxisymmetric n (config s0) in
  let rc := ComputeChemistry n (config s0) in
  let rv := ComputeVibRelaxation n (config s0) in
  let Ji := Jacobian_i (scratch s0) in
  let axi_ok := axisymmetric_on s0 && negb (Source_err s0 ra) in
  let chm_ok := chemistry_on s0 && negb (Source_err s0 rc) in
  let vib_ok := vibrational_on s0 && negb (Source_err s0 rv) in
  let r := Source_point geometry iPoint (numerics0, (c, s0)) in
  let c' := r.2.1 in
  let s' := r.2.2 in
  r.1 = n
  /\ (eAxi_local c' = eAxi_local c
                      + (if axisymmetric_on s0 && Source_err s0 ra then 1 else 0)
      /\ eChm_local c' = eChm_local c
                         + (if chemistry_on s0 && Source_err s0 rc then 1 else 0)
      /\ eVib_local c' = eVib_local c
                         + (if vibrational_on s0 && Source_err s0 rv then 1 else 0))
  /\ (forall k, k < nV ->
        LinSysRes s' (iPoint * nV + k)
        = let x := LinSysRes s0 (iPoint * nV + k) in
          let x := if axi_ok then (x + ra k)%D else x in
          let x := if chm_ok then (x - rc k)%D else x in
          if vib_ok then (x - rv k)%D else x)
  /\ (forall q, ~ in_block nV iPoint q -> LinSysRes s' q = LinSysRes s0 q)
  /\ Jacobian s'
     = (let J := Jacobian s0 in
        let J := if implicit_scheme s0 && axi_ok
                 then AddBlock2 nV iPoint iPoint Ji J else J in
        let J := if implicit_scheme s0 && chm_ok
                 then SubtractBlock2 nV iPoint iPoint Ji J else J in
        if implicit_scheme s0 && vib_ok
        then SubtractBlock2 nV iPoint iPoint Ji J else J)
  /\ source_frame s0 s'.
Proof.
  intros nV n ra rc rv Ji axi_ok chm_ok vib_ok r c' s'.
  destruct (Source_point_eq geometry iPoint numerics0 c s0) as (Hr & Hf1 & Hf2 & Hf3).
  cbv zeta in Hr, Hf1, Hf2, Hf3.
  fold n ra rc rv in Hr, Hf1, Hf2, Hf3. fold axi_ok chm_ok vib_ok in Hr, Hf1, Hf2, Hf3.
  subst c' s' r. rewrite Hr. cbn [fst snd]. clear Hr.
  split; [done|]. split; [|split; [|split; [|split; [|exact Hf3]]]].
  + destruct (axisymmetric_on s0 && Source_err s0 ra),
      (chemistry_on s0 && Source_err s0 rc),
      (vibrational_on s0 && Source_err s0 rv); cbn; lia.
  + intros k Hk. cbv zeta. destruct vib_ok.
    * rewrite (proj1 (Source_subtract_fields _ _ _)).
      destruct Hf2 as (-> & _). fold nV. rewrite SubtractBlock_at by done.
      f_equal. destruct chm_ok.
      -- rewrite (proj1 (Source_subtract_fields _ _ _)).
         destruct Hf1 as (-> & _). fold nV. rewrite SubtractBlock_at by done.
         f_equal. destruct axi_ok; [|done].
         rewrite (proj1 (Source_add_fields _ _ _)). by apply AddBlock_at.
      -- destruct axi_ok; [|done].
         rewrite (proj1 (Source_add_fields _ _ _)). by apply AddBlock_at.
    * destruct chm_ok.
      -- rewrite (proj1 (Source_subtract_fields _ _ _)).
         destruct Hf1 as (-> & _). fold nV. rewrite SubtractBlock_at by done.
         f_equal. destruct axi_ok; [|done].
         rewrite (proj1 (Source_add_fields _ _ _)). by apply AddBlock_at.
      -- destruct axi_ok; [|done].
         rewrite (proj1 (Source_add_fields _ _ _)). by apply AddBlock_at.
  + intros q Hq.
    assert (Ha : LinSysRes (if axi_ok then Source_add iPoint ra s0 else s0) q
                 = LinSysRes s0 q).
    { destruct axi_ok; [|done].
      rewrite (proj1 (Source_add_fields _ _ _)). by apply AddBlock_other. }
    assert (Hc : LinSysRes
                   (if chm_ok
                    then Source_subtract iPoint rc (if axi_ok then Source_add iPoint ra s0 else s0)
                    else (if axi_ok then Source_add iPoint ra s0 else s0)) q
                 = LinSysRes s0 q).
    { destruct chm_ok; [|done].
      rewrite (proj1 (Source_subtract_fields _ _ _)).
      destruct Hf1 as (-> & _). by rewrite SubtractBlock_other. }
    destruct vib_ok; [|done].
    rewrite (proj1 (Source_subtract_fields _ _ _)).
    destruct Hf2 as (-> & _). by rewrite SubtractBlock_other.
  + cbv zeta.
    destruct (source_frame_flags _ _ Hf1) as (_ & _ & _ & Hi1).
    destruct (source_frame_flags _ _ Hf2) as (_ & _ & _ & Hi2).
    destruct Hf1 as (Hs1 & _ & Hsc1 & _). destruct Hf2 as (Hs2 & _ & Hsc2 & _).
    rewrite Source_subtract_stage, Hi2, Hs2, Hsc2.
    rewrite Source_subtract_stage, Hi1, Hs1, Hsc1.
    by rewrite Source_add_stage.
Qed.

(** C5: the loop of Source_Residual over the owned points.  The loop starts
    from the state of the solver with the work array Residual zeroed,
    runs the three source terms at each point below nPointDomain, one point
    after the other, and the routine returns what the loop leaves, with the
    warning printed.  At every point, [before] being the state in which the
    loop reaches it and [after] the state in which the loop leaves it: each
    enabled term (axisymmetric, when configured; chemistry, unless monoatomic
    or frozen; vibrational relaxation, unless monoatomic) is checked on its
    own, its residual below nVar and, when the scheme is implicit, the
    solver's Jacobian block.  A term that passes is applied to the block of
    the point with its own sign, the axisymmetric one added, the other two
    subtracted, and the Jacobian block goes with the same sign to the
    diagonal when the scheme is implicit; a term that fails adds one to its
    own counter and is skipped, and the other terms of the point are checked
    and applied as if nothing had happened.  The only trace of the failures
    is the warning with the three counters on the console. *)
Theorem source_terms_checked_one_by_one
    (geometry : CGeometry) (numerics : CNumerics) (iMesh : nat) (s : State) :
  let s0 := Source_reset s in
  let c0 := {| eAxi_local := 0; eChm_local := 0; eVib_local := 0 |} in
  let run m := for_loop m (Source_point geometry) (numerics, (c0, s0)) in
  let N := nPointDomain (sizes s) in
  let nV := nVar (sizes s) in
  let c_end := (run N).2.1 in
  let s_end := (run N).2.2 in
    Source_Residual geometry numerics iMesh s = Done (Source_warning c_end s_end)
    /\ (LinSysRes s0 = LinSysRes s /\ Jacobian s0 = Jacobian s)
    /\ (forall iPoint, iPoint < N ->
          let c := (run iPoint).2.1 in
          let before := (run iPoint).2.2 in
          let c' := (run (S iPoint)).2.1 in
          let after := (run (S iPoint)).2.2 in
          let n := Source_inputs geometry before iPoint (run iPoint).1 in
          let ra := ComputeAxisymmetric n (config s) in
          let rc := ComputeChemistry n (config s) in
          let rv := ComputeVibRelaxation n (config s) in
          let Ji := Jacobian_i (scratch s) in
          let axi_ok := axisymmetric_on s && negb (Source_err before ra) in
          let chm_ok := chemistry_on s && negb (Source_err before rc) in
          let vib_ok := vibrational_on s && negb (Source_err before rv) in
          (eAxi_local c' = eAxi_local c
                           + (if axisymmetric_on s && Source_err before ra then 1 else 0)
           /\ eChm_local c' = eChm_local c
                              + (if chemistry_on s && Source_err before rc then 1 else 0)
           /\ eVib_local c' = eVib_local c
                              + (if vibrational_on s && Source_err before rv then 1 else 0))
          /\ (forall k, k < nV ->
                LinSysRes after (iPoint * nV + k)
                = let x := LinSysRes before (iPoint * nV + k) in
                  let x := if axi_ok then (x + ra k)%D else x in
                  let x := if chm_ok then (x - rc k)%D else x in
                  if vib_ok then (x - rv k)%D else x)
          /\ (forall q, ~ in_block nV iPoint q -> LinSysRes after q = LinSysRes before q)
          /\ Jacobian after
             = (let J := Jacobian before in
                let J := if implicit_scheme s && axi_ok
                         then AddBlock2 nV iPoint iPoint Ji J else J in
                let J := if implicit_scheme s && chm_ok
                         then SubtractBlock2 nV iPoint iPoint Ji J else J in
                if implicit_scheme s && vib_ok
                then SubtractBlock2 nV iPoint iPoint Ji J else J)
          /\ (forall residual,
                Source_err before residual = true <->
                has_nan nV residual
                \/ (implicit_scheme s = true /\ block_has_nan nV Ji)))
    /\ LinSysRes (Source_warning c_end s_end) = LinSysRes s_end
    /\ Jacobian (Source_warning c_end s_end) = Jacobian s_end
    /\ cout (Source_warning c_end s_end)
       = cout s ++
         (if bool_decide (eAxi_local c_end = 0 /\ eChm_local c_end = 0
                          /\ eVib_local c_end = 0)
          then []
          else ["Warning!! Instances of NaN in the following source terms: "; endl;
                "Axisymmetry: "; pretty (eAxi_local c_end); endl;
                "Chemical:    "; pretty (eChm_local c_end); endl;
                "Vib. Relax:  "; pretty (eVib_local c_end); endl]).
Proof.
  intros s0 c0 run N nV c_end s_end. subst N nV c_end s_end. cbv zeta.
  assert (Hloop : Source_loop geometry numerics s = (run (nPointDomain (sizes s))).2).
  { reflexivity. }
  (* what the loop keeps, at every stage *)
  assert (Hinv : forall m, source_frame s0 (run m).2.2).
  { intros m. subst run. cbv beta.
    apply (for_loop_ind (fun _ (x : CNumerics * (Counters * State)) =>
             source_frame s0 x.2.2)); [done|].
    intros i [n [c s1]] _ Hfr. cbn [fst snd] in *.
    eapply source_frame_trans; [exact Hfr|].
    by destruct (Source_point_spec geometry i n c s1) as (_ & _ & _ & _ & _ & ?). }
  split; [|split; [done|split; [|split; [|split]]]].
  - unfold Source_Residual, step. rewrite Hloop.
    by destruct (run (nPointDomain (sizes s))) as [nE [cE sE]].
  - intros iPoint Hi.
    assert (Hstep : run (S iPoint) = Source_point geometry iPoint (run iPoint)).
    { subst run. cbv beta. by rewrite for_loop_S. }
    rewrite Hstep. specialize (Hinv iPoint).
    destruct (run iPoint) as [nA [c before]]. cbn [fst snd] in *.
    destruct (source_frame_flags _ _ Hinv) as (Ha & Hc & Hv & Himp).
    change (axisymmetric_on s0) with (axisymmetric_on s) in Ha.
    change (chemistry_on s0) with (chemistry_on s) in Hc.
    change (vibrational_on s0) with (vibrational_on s) in Hv.
    change (implicit_scheme s0) with (implicit_scheme s) in Himp.
    destruct Hinv as (Hsz & Hcfg & Hsc & _).
    change (sizes s0) with (sizes s) in Hsz. change (config s0) with (config s) in Hcfg.
    assert (HJi : Jacobian_i (scratch before) = Jacobian_i (scratch s)) by (by rewrite Hsc).
    destruct (Source_point_spec geometry iPoint nA c before)
      as (_ & Hcount & Hin & Hout & HJ & _).
    cbv zeta in Hcount, Hin, Hout, HJ.
    rewrite ?Ha, ?Hc, ?Hv, ?Hcfg in Hcount.
    rewrite ?Ha, ?Hc, ?Hv, ?Hsz, ?Hcfg in Hin.
    rewrite ?Hsz in Hout.
    rewrite ?Ha, ?Hc, ?Hv, ?Himp, ?Hsz, ?Hcfg, ?HJi in HJ.
    split; [exact Hcount|]. split; [exact Hin|]. split; [exact Hout|]. split; [exact HJ|].
    intros residual. rewrite Source_err_true. by rewrite Himp, Hsz, HJi.
  - unfold Source_warning. by destruct (_ || _).
  - unfold Source_warning. by destruct (_ || _).
  - specialize (Hinv (nPointDomain (sizes s))).
    destruct (run (nPointDomain (sizes s))) as [nE [[a b v] sE]]. cbn [fst snd] in *.
    destruct Hinv as (_ & _ & _ & _ & Hcout). change (cout s0) with (cout s) in Hcout.
    unfold Source_warning. cbn [eAxi_local eChm_local eVib_local].
    match goal with |- context [print ?l] => set (w := l); clearbody w end.
    unfold print.
    assert (Hb : bool_decide (a <> 0) || bool_decide (b <> 0) || bool_decide (v <> 0)
                 = negb (bool_decide (a = 0 /\ b = 0 /\ v = 0))).
    { repeat case_bool_decide; cbn; first [done | exfalso; lia]. }
    rewrite Hb. destruct (bool_decide (a = 0 /\ b = 0 /\ v = 0)); cbn;
      by rewrite ?Hcout, ?app_nil_r.
Qed.

(** ** The time step *)

Lemma SetScalar_lookup x iPoint v n y j :
  node_scalar (SetScalar x iPoint v n) y j
  = if decide (x = y) then (if decide (iPoint = j) then v else node_scalar n y j)
    else node_scalar n y j.
Proof.
  unfold SetScalar. cbn [node_scalar]. unfold insert, fn_insert.
  destruct (decide (x = y)) as [->|]; [|done]. done.
Qed.

(** The local step of a point reads the configuration and the two spectral
    radii of the point. *)
Lemma Local_Delta_Time_frame geometry iMesh s s' iPoint :
  config s = config s' ->
  node_scalar (nodes s) Max_Lambda_Inv iPoint = node_scalar (nodes s') Max_Lambda_Inv iPoint ->
  node_scalar (nodes s) Max_Lambda_Visc iPoint = node_scalar (nodes s') Max_Lambda_Visc iPoint ->
  Local_Delta_Time geometry iMesh s iPoint = Local_Delta_Time geometry iMesh s' iPoint.
Proof. intros Hc Hi Hv. unfold Local_Delta_Time. by rewrite Hc, Hi, Hv. Qed.

(** The loop over the points: what it stores for every point it has passed,
    and the three extrema it keeps, which are taken before the cap. *)
Lemma TimeStep_local_spec geometry iMesh s :
  let r := TimeStep_local geometry iMesh s in
  let n := nPointDomain (sizes s) in
  r.1 = min_uncapped geometry iMesh s n big_Delta_Time
  /\ Min_Delta_Time r.2 = min_uncapped geometry iMesh s n (Min_Delta_Time s)
  /\ Max_Delta_Time r.2 = max_uncapped geometry iMesh s n (Max_Delta_Time s)
  /\ config r.2 = config s /\ sizes r.2 = sizes s
  /\ (forall x j, x <> Delta_Time ->
        node_scalar (nodes r.2) x j = node_scalar (nodes s) x j)
  /\ (forall j, j < n ->
        node_scalar (nodes r.2) Delta_Time j
        = if fne (Volume geometry j) zero
          then capped s (Local_Delta_Time geometry iMesh s j) else zero).
Proof.
  cbv zeta. unfold TimeStep_local.
  apply (for_loop_ind (fun i (r : su2double * State) =>
    r.1 = min_uncapped geometry iMesh s i big_Delta_Time
    /\ Min_Delta_Time r.2 = min_uncapped geometry iMesh s i (Min_Delta_Time s)
    /\ Max_Delta_Time r.2 = max_uncapped geometry iMesh s i (Max_Delta_Time s)
    /\ config r.2 = config s /\ sizes r.2 = sizes s
    /\ (forall x j, x <> Delta_Time ->
          node_scalar (nodes r.2) x j = node_scalar (nodes s) x j)
    /\ (forall j, j < i ->
          node_scalar (nodes r.2) Delta_Time j
          = if fne (Volume geometry j) zero
            then capped s (Local_Delta_Time geometry iMesh s j) else zero))).
  { repeat split; try done. intros j Hj. lia. }
  intros i [G s1] Hi (HG & Hmin & Hmax & Hc & Hs & Hx & Hdt). cbn [fst snd] in *.
  unfold min_uncapped, max_uncapped. rewrite !for_loop_S.
  fold (min_uncapped geometry iMesh s i big_Delta_Time).
  fold (min_uncapped geometry iMesh s i (Min_Delta_Time s)).
  fold (max_uncapped geometry iMesh s i (Max_Delta_Time s)).
  unfold TimeStep_point.
  rewrite (Local_Delta_Time_frame geometry iMesh s1 s i Hc) by (by apply Hx).
  destruct (fne (Volume geometry i) zero) eqn:Hvol; cbn [fst snd].
  - cbn [Min_Delta_Time Max_Delta_Time set_Min_Delta_Time set_Max_Delta_Time set_nodes
         config sizes nodes].
    rewrite HG, Hmin, Hmax, Hc.
    split; [done|]. split; [done|]. split; [done|]. split; [done|]. split; [done|].
    split.
    + intros x j Hne. rewrite SetScalar_lookup.
      destruct (decide (Delta_Time = x)) as [<-|]; [done|]. by apply Hx.
    + intros j Hj. rewrite SetScalar_lookup.
      destruct (decide (Delta_Time = Delta_Time)) as [_|]; [|done].
      destruct (decide (i = j)) as [<-|Hne].
      * by rewrite Hvol.
      * apply Hdt. lia.
  - cbn [Min_Delta_Time Max_Delta_Time set_nodes config sizes nodes].
    split; [done|]. split; [done|]. split; [done|]. split; [done|]. split; [done|].
    split.
    + intros x j Hne. rewrite SetScalar_lookup.
      destruct (decide (Delta_Time = x)) as [<-|]; [done|]. by apply Hx.
    + intros j Hj. rewrite SetScalar_lookup.
      destruct (decide (Delta_Time = Delta_Time)) as [_|]; [|done].
      destruct (decide (i = j)) as [<-|Hne].
      * by rewrite Hvol.
      * apply Hdt. lia.
Qed.

Lemma radii_frame_trans s1 s2 s3 : radii_frame s1 s2 -> radii_frame s2 s3 -> radii_frame s1 s3.
Proof.
  intros (E1 & E2 & E3 & E4) (E5 & E6 & E7 & E8). unfold radii_frame.
  by rewrite E5, E6, E7, E8.
Qed.

Lemma AddMax_Lambda_frame x geometry iPoint Lambda_ s :
  radii_frame s (AddMax_Lambda x geometry iPoint Lambda_ s).
Proof. unfold AddMax_Lambda. by destruct (Domain geometry iPoint). Qed.

Lemma TimeStep_edge_frame geometry s e : radii_frame s (TimeStep_edge geometry s e).
Proof.
  unfold TimeStep_edge. cbv zeta.
  destruct (negb (Viscous (config s)));
    repeat (eapply radii_frame_trans; [|apply AddMax_Lambda_frame]); done.
Qed.

Lemma TimeStep_vertex_frame geometry s v : radii_frame s (TimeStep_vertex geometry s v).
Proof.
  unfold TimeStep_vertex. cbv zeta.
  destruct (negb (Viscous (config s)));
    repeat (eapply radii_frame_trans; [|apply AddMax_Lambda_frame]); done.
Qed.

Lemma TimeStep_reset_frame s :
  config (TimeStep_reset s) = config s /\ sizes (TimeStep_reset s) = sizes s
  /\ Min_Delta_Time (TimeStep_reset s) = big_Delta_Time
  /\ Max_Delta_Time (TimeStep_reset s) = zero.
Proof.
  unfold TimeStep_reset. cbv zeta.
  set (s0 := set_Max_Delta_Time _ _).
  change (nPointDomain (sizes s0)) with (nPointDomain (sizes s)).
  apply (for_loop_ind (fun _ s' =>
           config s' = config s /\ sizes s' = sizes s
           /\ Min_Delta_Time s' = big_Delta_Time /\ Max_Delta_Time s' = zero)); [done|].
  intros i s' _ (E1 & E2 & E3 & E4). by destruct (Viscous _).
Qed.

Lemma TimeStep_spectral_radii_frame geometry s :
  let s1 := TimeStep_spectral_radii geometry s in
  config s1 = config s /\ sizes s1 = sizes s
  /\ Min_Delta_Time s1 = big_Delta_Time /\ Max_Delta_Time s1 = zero.
Proof.
  cbv zeta. unfold TimeStep_spectral_radii.
  destruct (TimeStep_reset_frame s) as (E1 & E2 & E3 & E4).
  assert (Hfr : radii_frame (TimeStep_reset s)
            (TimeStep_boundary geometry
               (foldl (TimeStep_edge geometry) (TimeStep_reset s) (edges geometry)))).
  { apply (radii_frame_trans _
             (foldl (TimeStep_edge geometry) (TimeStep_reset s) (edges geometry))).
    - apply (foldl_invariant (radii_frame (TimeStep_reset s))); [done|].
      intros a x _ Ha. eapply radii_frame_trans; [exact Ha|apply TimeStep_edge_frame].
    - unfold TimeStep_boundary.
      apply (for_loop_ind (fun _ s' => radii_frame
               (foldl (TimeStep_edge geometry) (TimeStep_reset s) (edges geometry)) s'));
        [done|].
      intros i s' _ Hs'. destruct (bool_decide _); [|done].
      apply (foldl_invariant (radii_frame
               (foldl (TimeStep_edge geometry) (TimeStep_reset s) (edges geometry))));
        [done|].
      intros a x _ Ha. eapply radii_frame_trans; [exact Ha|apply TimeStep_vertex_frame]. }
  destruct Hfr as (F1 & F2 & F3 & F4). by rewrite F1, F2, F3, F4.
Qed.

(** A capped step is never greater than the maximum, whatever it is. *)
Lemma capped_not_above s dt : fgt (capped s dt) (Get (config s) Max_DeltaTime) = false.
Proof.
  unfold capped, fgt. destruct (SFltb (Get (config s) Max_DeltaTime) dt) eqn:E; [|done].
  apply SFltb_irrefl.
Qed.

(** ... and it lies between zero and the maximum when the step is a number
    that is not negative and the maximum is not below zero. *)
Lemma capped_bounds s dt :
  nonneg dt -> fle zero (Get (config s) Max_DeltaTime) = true ->
  fle zero (capped s dt) = true /\ fle (capped s dt) (Get (config s) Max_DeltaTime) = true.
Proof.
  intros Hdt Hmax. unfold capped, fgt.
  assert (Hm : Get (config s) Max_DeltaTime <> S754_nan).
  { intros E. rewrite E in Hmax. done. }
  destruct (SFltb (Get (config s) Max_DeltaTime) dt) eqn:E.
  - split; [done|]. by apply SFleb_refl.
  - split; [by apply SFleb_zero_nonneg|].
    apply SFleb_of_not_SFltb; [by apply nonneg_not_nan|done|done].
Qed.

(** The local step of a cell of positive volume with positive spectral
    radii and a positive CFL number is a number that is not negative. *)
Lemma Local_Delta_Time_nonneg geometry iMesh s iPoint :
  is_pos_finite (Get (config s) (CFL iMesh)) ->
  is_pos_finite (Volume geometry iPoint) ->
  is_pos_finite (node_scalar (nodes s) Max_Lambda_Inv iPoint) ->
  (Viscous (config s) = true -> is_pos_finite (node_scalar (nodes s) Max_Lambda_Visc iPoint)) ->
  nonneg (Local_Delta_Time geometry iMesh s iPoint).
Proof.
  intros Hcfl Hvol Hinv Hvisc. unfold Local_Delta_Time.
  assert (H1 : nonneg (Get (config s) (CFL iMesh) * Volume geometry iPoint
                       / node_scalar (nodes s) Max_Lambda_Inv iPoint)%D).
  { apply fdiv_nonneg; [|done]. apply fmul_nonneg; [|done]. by apply pos_finite_nonneg. }
  destruct (Viscous (config s)); [|done].
  apply fmin_nonneg; [done|].
  apply fdiv_nonneg; [|by apply Hvisc].
  apply fmul_nonneg; [|done]. apply fmul_nonneg; [|done].
  apply fmul_nonneg; [|apply half_pos_finite]. by apply pos_finite_nonneg.
Qed.

Lemma pos_finite_fne_zero x : is_pos_finite x -> fne x zero = true.
Proof. destruct x as [| | |[] m e]; done. Qed.

(** In steady mode nothing follows the loop over the points. *)
Lemma SetTime_Step_steady geometry iMesh Iteration s :
  time_steping s = false -> dual_time s = false ->
  SetTime_Step geometry iMesh Iteration s
  = Done (TimeStep_local geometry iMesh (TimeStep_spectral_radii geometry s)).2.
Proof.
  intros Hts Hdual. unfold SetTime_Step, step.
  destruct (TimeStep_spectral_radii_frame geometry s) as (Hc1 & _).
  destruct (TimeStep_local_spec geometry iMesh (TimeStep_spectral_radii geometry s))
    as (_ & _ & _ & Hc2 & _).
  destruct (TimeStep_local geometry iMesh (TimeStep_spectral_radii geometry s)) as [G s2].
  cbn [snd] in *. f_equal.
  assert (Hcfg : config s2 = config s) by (by rewrite Hc2, Hc1).
  assert (Hg : TimeStep_global iMesh G s2 = s2).
  { unfold TimeStep_global, time_steping in *. by rewrite Hcfg, Hts. }
  rewrite Hg. unfold TimeStep_dual, dual_time in *. cbv zeta.
  rewrite Hcfg, Hdual. cbn [andb]. by rewrite Hcfg, Hdual.
Qed.

(** C3 (amended): the time step stored for an owned point by the loop over
    the points of SetTime_Step, which in steady mode is the last to write it.
    For a
    point of nonzero volume it is CFL Volume / lambda_inv, replaced in a
    viscous run by the smaller of it and CFL 0.5 Volume Volume / lambda_visc,
    and then replaced by the configured maximum if it is greater; so it is
    never greater than the maximum.  With a positive CFL number, a positive
    volume, positive spectral radii and a maximum that is not negative, it
    lies between 0 and the maximum.  A point of zero volume gets 0.  The
    routine returns on every input. *)
Theorem local_time_step
    (geometry : CGeometry) (iMesh Iteration : nat) (s : State) (iPoint : nat) :
  iPoint < nPointDomain (sizes s) ->
  let s1 := TimeStep_spectral_radii geometry s in
  let out := (TimeStep_local geometry iMesh s1).2 in
  let dt := node_scalar (nodes out) Delta_Time iPoint in
  let Vol := Volume geometry iPoint in
  let CFL_ := Get (config s) (CFL iMesh) in
  let lambda_inv := node_scalar (nodes s1) Max_Lambda_Inv iPoint in
  let lambda_visc := node_scalar (nodes s1) Max_Lambda_Visc iPoint in
  let dt_max := Get (config s) Max_DeltaTime in
  let inviscid := (CFL_ * Vol / lambda_inv)%D in
  let viscous := (CFL_ * half * Vol * Vol / lambda_visc)%D in
  let local := if Viscous (config s) then fmin inviscid viscous else inviscid in
  (time_steping s = false -> dual_time s = false ->
     SetTime_Step geometry iMesh Iteration s = Done out)
  /\ (fne Vol zero = true ->
        dt = (if fgt local dt_max then dt_max else local) /\ fgt dt dt_max = false)
  /\ (is_pos_finite CFL_ -> is_pos_finite Vol -> is_pos_finite lambda_inv ->
      (Viscous (config s) = true -> is_pos_finite lambda_visc) ->
      fle zero dt_max = true ->
        fle zero dt = true /\ fle dt dt_max = true)
  /\ (fne Vol zero = false ->
        dt = zero /\ (fle zero dt_max = true -> fle zero dt = true /\ fle dt dt_max = true))
  /\ returns (SetTime_Step geometry iMesh Iteration s).
Proof.
  intros Hi s1 out dt Vol CFL_ lambda_inv lambda_visc dt_max inviscid viscous local.
  destruct (TimeStep_spectral_radii_frame geometry s) as (Hc1 & Hs1 & _).
  fold s1 in Hc1, Hs1.
  destruct (TimeStep_local_spec geometry iMesh s1) as (_ & _ & _ & _ & _ & _ & Hdt).
  specialize (Hdt iPoint). rewrite Hs1 in Hdt. specialize (Hdt Hi).
  fold out dt Vol in Hdt.
  assert (Hlocal : Local_Delta_Time geometry iMesh s1 iPoint = local).
  { unfold Local_Delta_Time. rewrite Hc1. done. }
  assert (Hcap : forall x, capped s1 x = if fgt x dt_max then dt_max else x).
  { intros x. unfold capped. by rewrite Hc1. }
  split; [by apply SetTime_Step_steady|]. split; [|split; [|split; [|done]]].
  - intros Hvol. rewrite Hvol, Hlocal in Hdt. split; [by rewrite Hdt, Hcap|].
    rewrite Hdt. pose proof (capped_not_above s1 local) as Hna. by rewrite Hc1 in Hna.
  - intros Hcfl Hv Hinv Hvisc Hmax.
    rewrite (pos_finite_fne_zero _ Hv) in Hdt.
    assert (Hnn : nonneg (Local_Delta_Time geometry iMesh s1 iPoint)).
    { apply Local_Delta_Time_nonneg; rewrite ?Hc1; done. }
    destruct (capped_bounds s1 _ Hnn) as [Hlo Hhi]; [by rewrite Hc1|].
    rewrite Hc1 in Hhi. by rewrite Hdt.
  - intros Hvol. rewrite Hvol in Hdt. split; [done|]. intros Hmax. by rewrite Hdt.
Qed.

(** The two blocks that follow the loop over the points write the stored
    time steps and two scalars of the configuration; the extrema of the
    local steps stay as the loop has left them. *)
Lemma TimeStep_global_frame iMesh G s :
  let out := TimeStep_global iMesh G s in
  sizes out = sizes s /\ Min_Delta_Time out = Min_Delta_Time s
  /\ Max_Delta_Time out = Max_Delta_Time s
  /\ Time_Marching (config out) = Time_Marching (config s)
  /\ Kind_TimeIntScheme_Flow (config out) = Kind_TimeIntScheme_Flow (config s)
  /\ (forall x, x <> CFL iMesh -> Get (config out) x = Get (config s) x).
Proof.
  cbv zeta. unfold TimeStep_global. destruct (time_steping s); [|done].
  apply (for_loop_ind (fun _ out =>
    sizes out = sizes s /\ Min_Delta_Time out = Min_Delta_Time s
    /\ Max_Delta_Time out = Max_Delta_Time s
    /\ Time_Marching (config out) = Time_Marching (config s)
    /\ Kind_TimeIntScheme_Flow (config out) = Kind_TimeIntScheme_Flow (config s)
    /\ (forall x, x <> CFL iMesh -> Get (config out) x = Get (config s) x))); [done|].
  intros i a _ (E1 & E2 & E3 & E4 & E5 & E6). cbv zeta.
  destruct (feq _ zero); cbn; (repeat split; try done);
    intros x Hx; unfold fn_insert, insert; (destruct (decide (CFL iMesh = x)) as [<-|]; [done|]);
    by apply E6.
Qed.

Lemma TimeStep_dual_frame iMesh Iteration G s :
  let out := TimeStep_dual iMesh Iteration G s in
  Min_Delta_Time out = Min_Delta_Time s /\ Max_Delta_Time out = Max_Delta_Time s.
Proof.
  cbv zeta. unfold TimeStep_dual. cbv zeta.
  set (s' := if _ && _ && _ && _ then _ else s).
  assert (Hs' : Min_Delta_Time s' = Min_Delta_Time s /\ Max_Delta_Time s' = Max_Delta_Time s).
  { subst s'. by destruct (_ && _ && _ && _). }
  clearbody s'. destruct Hs' as [<- <-]. destruct (dual_time s'); [|done].
  apply (for_loop_ind (fun _ out =>
    Min_Delta_Time out = Min_Delta_Time s' /\ Max_Delta_Time out = Max_Delta_Time s')); [done|].
  intros i a _ [E1 E2]. by destruct (negb _).
Qed.

(** In time-stepping mode with a nonzero unsteady CFL number every owned
    point gets the global step. *)
Lemma TimeStep_global_stored iMesh G s :
  time_steping s = true ->
  feq (Get (config s) Unst_CFL) zero = false ->
  forall j, j < nPointDomain (sizes s) ->
    node_scalar (nodes (TimeStep_global iMesh G s)) Delta_Time j = G.
Proof.
  intros Hts Hcfl. unfold TimeStep_global. rewrite Hts.
  apply (for_loop_ind (fun i out =>
    Get (config out) Unst_CFL = Get (config s) Unst_CFL
    /\ forall j, j < i -> node_scalar (nodes out) Delta_Time j = G)).
  { split; [done|]. intros j Hj. lia. }
  intros i a _ [E1 E2]. cbv zeta.
  assert (Hget : Get (config (set_config (Set_ (CFL iMesh) (Get (config a) Unst_CFL)) a))
                   (CFL iMesh) = Get (config s) Unst_CFL).
  { cbn. unfold fn_insert, insert. destruct (decide (CFL iMesh = CFL iMesh)); [|done].
    exact E1. }
  rewrite Hget, Hcfl. split.
  - cbn. unfold fn_insert, insert. destruct (decide (CFL iMesh = Unst_CFL)); [done|exact E1].
  - intros j Hj. cbn [nodes set_nodes set_config]. rewrite SetScalar_lookup.
    destruct (decide (Delta_Time = Delta_Time)); [|done].
    destruct (decide (i = j)); [done|]. apply E2. lia.
Qed.

Lemma TimeStep_dual_off iMesh Iteration G s :
  dual_time s = false -> TimeStep_dual iMesh Iteration G s = s.
Proof. intros H. unfold TimeStep_dual. cbv zeta. rewrite H. cbn [andb]. by rewrite H. Qed.

(** The whole routine: what it returns, the extrema it leaves and, in
    time-stepping mode, the step of every owned point. *)
Lemma SetTime_Step_extrema geometry iMesh Iteration s :
  let s1 := TimeStep_spectral_radii geometry s in
  let n := nPointDomain (sizes s) in
  let G := min_uncapped geometry iMesh s1 n big_Delta_Time in
  exists out, SetTime_Step geometry iMesh Iteration s = Done out
    /\ Min_Delta_Time out = G
    /\ Max_Delta_Time out = max_uncapped geometry iMesh s1 n zero
    /\ (time_steping s = true -> feq (Get (config s) Unst_CFL) zero = false ->
        forall j, j < n -> node_scalar (nodes out) Delta_Time j = G).
Proof.
  cbv zeta. unfold SetTime_Step, step.
  destruct (TimeStep_spectral_radii_frame geometry s) as (Hc1 & Hs1 & Hmin1 & Hmax1).
  destruct (TimeStep_local_spec geometry iMesh (TimeStep_spectral_radii geometry s))
    as (HG & Hmin & Hmax & Hc2 & Hs2 & _ & _).
  rewrite Hs1, Hmin1 in Hmin. rewrite Hs1, Hmax1 in Hmax. rewrite Hs1 in HG.
  destruct (TimeStep_local geometry iMesh (TimeStep_spectral_radii geometry s)) as [G s2].
  cbn [fst snd] in *. eexists. split; [reflexivity|].
  destruct (TimeStep_dual_frame iMesh Iteration G (TimeStep_global iMesh G s2)) as [-> ->].
  destruct (TimeStep_global_frame iMesh G s2) as (Hsz & -> & -> & Htm & _ & Hget).
  split; [done|]. split; [done|].
  intros Hts Hcfl j Hj.
  assert (Hts2 : time_steping s2 = true).
  { unfold time_steping in *. by rewrite Hc2, Hc1. }
  rewrite TimeStep_dual_off.
  - rewrite <- HG. apply TimeStep_global_stored; [done| |].
    + by rewrite Hc2, Hc1.
    + by rewrite Hs2, Hs1.
  - unfold dual_time, time_steping in *. rewrite Htm.
    apply bool_decide_eq_true in Hts2. rewrite Hts2. done.
Qed.

(** ** The implicit system *)

Lemma array_insert_lookup (v : array) (i q : nat) (x : su2double) :
  (<[i := x]> v) q = if decide (i = q) then x else v q.
Proof. unfold insert, fn_insert. by destruct (decide (i = q)). Qed.

Lemma SetArrayEntry_lookup x iPoint iVar v n y j k :
  node_array (SetArrayEntry x iPoint iVar v n) y j k
  = if decide (x = y /\ iPoint = j /\ iVar = k) then v else node_array n y j k.
Proof.
  unfold SetArrayEntry. cbn [node_array]. unfold insert, fn_insert.
  destruct (decide (x = y)) as [->|]; [|by rewrite decide_False by tauto].
  destruct (decide (iPoint = j)) as [->|]; [|by rewrite decide_False by tauto].
  destruct (decide (iVar = k)) as [->|]; [|by rewrite decide_False by tauto].
  by rewrite decide_True.
Qed.

Lemma AddVal2Diag_lookup n i v J r c :
  AddVal2Diag n i v J !! (r, c)
  = if decide ((r, c) = (i, i)) then block_add n (diag_block v) <$> J !! (i, i)
    else J !! (r, c).
Proof.
  unfold AddVal2Diag. rewrite lookup_alter.
  destruct (decide ((i, i) = (r, c))) as [<-|Hne].
  - by rewrite decide_True.
  - by rewrite decide_False.
Qed.

Lemma SetVal2Diag_lookup i v J r c :
  SetVal2Diag i v J !! (r, c)
  = if decide ((r, c) = (i, i)) then Some (diag_block v)
    else (fun blk => if decide (r = i) then zero_block else blk) <$> J !! (r, c).
Proof.
  unfold SetVal2Diag. destruct (decide ((r, c) = (i, i))) as [->|Hne].
  - by rewrite lookup_insert_eq.
  - rewrite lookup_insert_ne by done. rewrite map_lookup_imap.
    by destruct (J !! (r, c)).
Qed.

(** The diagonal of one point: the matrix row of the point, and for a zero
    time step the right-hand side and the truncation error of the point. *)
Lemma Implicit_diagonal_spec geometry i s :
  let out := Implicit_diagonal geometry i s in
  let n := nVar (sizes s) in
  let dt := node_scalar (nodes s) Delta_Time i in
  sizes out = sizes s
  /\ node_scalar (nodes out) = node_scalar (nodes s)
  /\ LinSysSol out = LinSysSol s
  /\ Jacobian out
     = (if fne dt zero then AddVal2Diag n i (Volume geometry i / dt)%D (Jacobian s)
        else SetVal2Diag i one (Jacobian s))
  /\ (forall q, ~ in_block n i q -> LinSysRes out q = LinSysRes s q)
  /\ (forall j k, j <> i ->
        node_array (nodes out) ResTruncError j k = node_array (nodes s) ResTruncError j k)
  /\ (fne dt zero = false -> forall k, k < n ->
        LinSysRes out (i * n + k) = zero
        /\ node_array (nodes out) ResTruncError i k = zero).
Proof.
  cbv zeta. unfold Implicit_diagonal. cbv zeta.
  destruct (fne (node_scalar (nodes s) Delta_Time i) zero) eqn:Hdt.
  { repeat split; done. }
  set (s0 := set_Jacobian (SetVal2Diag i one) s).
  change (nVar (sizes s)) with (nVar (sizes s0)).
  enough (Hloop : forall m, m <= nVar (sizes s0) ->
    let out := for_loop m (fun iVar s1 =>
        s1 |> set_LinSysRes (fun LinSysRes => <[i * nVar (sizes s0) + iVar := zero]> LinSysRes)
           |> set_nodes (SetArrayEntry ResTruncError i iVar zero)) s0 in
    sizes out = sizes s0 /\ node_scalar (nodes out) = node_scalar (nodes s0)
    /\ LinSysSol out = LinSysSol s0 /\ Jacobian out = Jacobian s0
    /\ (forall q, ~ in_block (nVar (sizes s0)) i q -> LinSysRes out q = LinSysRes s0 q)
    /\ (forall j k, j <> i ->
          node_array (nodes out) ResTruncError j k = node_array (nodes s0) ResTruncError j k)
    /\ (forall k, k < m -> LinSysRes out (i * nVar (sizes s0) + k) = zero
                           /\ node_array (nodes out) ResTruncError i k = zero)).
  { destruct (Hloop (nVar (sizes s0)) (le_n _)) as (E1 & E2 & E3 & E4 & E5 & E6 & E7).
    repeat split; try done; by apply E7. }
  intros m. induction m as [|m IH]; intros Hm; cbv zeta.
  { rewrite for_loop_0. repeat split; try done; lia. }
  rewrite for_loop_S. destruct IH as (E1 & E2 & E3 & E4 & E5 & E6 & E7); [lia|].
  set (s1 := for_loop m _ s0) in *. clearbody s1.
  cbn [sizes nodes LinSysSol Jacobian LinSysRes set_LinSysRes set_nodes].
  split; [done|]. split; [done|]. split; [done|]. split; [done|]. split; [|split].
  - intros q Hq. rewrite array_insert_lookup, decide_False; [by apply E5|].
    intros <-. apply Hq. apply in_block_index. lia.
  - intros j k Hj. rewrite SetArrayEntry_lookup, decide_False by (intros (_ & ? & _); done).
    by apply E6.
  - intros k Hk. rewrite SetArrayEntry_lookup.
    destruct (decide (k = m)) as [->|Hne].
    + rewrite array_insert_lookup, !decide_True; done.
    + rewrite array_insert_lookup, decide_False by lia.
      rewrite decide_False by (intros (_ & _ & ?); done). apply E7. lia.
Qed.

(** The right-hand side of one point. *)
Lemma Implicit_rhs_spec geometry i s :
  let out := Implicit_rhs geometry i s in
  let n := nVar (sizes s) in
  sizes out = sizes s /\ nodes out = nodes s /\ Jacobian out = Jacobian s
  /\ (forall q, ~ in_block n i q ->
        LinSysRes out q = LinSysRes s q /\ LinSysSol out q = LinSysSol s q)
  /\ (forall k, k < n ->
        LinSysRes out (i * n + k)
        = (- (LinSysRes s (i * n + k)%nat + node_array (nodes s) ResTruncError i k))%D
        /\ LinSysSol out (i * n + k) = zero).
Proof.
  cbv zeta. unfold Implicit_rhs. cbv zeta.
  enough (Hloop : forall m, m <= nVar (sizes s) ->
    let out := for_loop m (fun iVar s0 =>
        let total_index := i * nVar (sizes s) + iVar in
        let local_Res_TruncError := node_array (nodes s0) ResTruncError i in
        let s1 := set_LinSysRes (fun LinSysRes =>
          <[total_index := (- (LinSysRes total_index + local_Res_TruncError iVar))%D]>
            LinSysRes) s0 in
        let s2 := set_LinSysSol (fun LinSysSol => <[total_index := zero]> LinSysSol) s1 in
        let r := LinSysRes s2 total_index in
        s2 |> set_monitor (AddRes_RMS iVar (r * r)%D)
           |> set_monitor (AddRes_Max iVar (fabs r) (GlobalIndex geometry i)
                                      (Coord geometry i))) s in
    sizes out = sizes s /\ nodes out = nodes s /\ Jacobian out = Jacobian s
    /\ (forall q, ~ (i * nVar (sizes s) <= q < i * nVar (sizes s) + m) ->
          LinSysRes out q = LinSysRes s q /\ LinSysSol out q = LinSysSol s q)
    /\ (forall k, k < m ->
          LinSysRes out (i * nVar (sizes s) + k)
          = (- (LinSysRes s (i * nVar (sizes s) + k)%nat
                + node_array (nodes s) ResTruncError i k))%D
          /\ LinSysSol out (i * nVar (sizes s) + k) = zero)).
  { destruct (Hloop (nVar (sizes s)) (le_n _)) as (E1 & E2 & E3 & E4 & E5).
    repeat split; try done; try (by apply E5); by apply E4. }
  intros m. induction m as [|m IH]; intros Hm; cbv zeta.
  { rewrite for_loop_0. repeat split; try done; lia. }
  rewrite for_loop_S. destruct IH as (E1 & E2 & E3 & E4 & E5); [lia|].
  set (s1 := for_loop m _ s) in *. clearbody s1.
  cbn [sizes nodes LinSysSol Jacobian LinSysRes set_LinSysRes set_LinSysSol set_monitor].
  split; [done|]. split; [done|]. split; [done|]. split.
  - intros q Hq. rewrite !array_insert_lookup, !decide_False by lia. apply E4. lia.
  - intros k Hk. destruct (decide (k = m)) as [->|Hne].
    + rewrite !array_insert_lookup, !decide_True by done. rewrite E2. split; [|done].
      destruct (E4 (i * nVar (sizes s) + m)) as [-> _]; [lia|done].
    + rewrite !array_insert_lookup, !decide_False by lia. apply E5. lia.
Qed.

Lemma Implicit_point_spec geometry i s :
  let out := Implicit_point geometry i s in
  let n := nVar (sizes s) in
  let dt := node_scalar (nodes s) Delta_Time i in
  sizes out = sizes s
  /\ node_scalar (nodes out) = node_scalar (nodes s)
  /\ Jacobian out
     = (if fne dt zero then AddVal2Diag n i (Volume geometry i / dt)%D (Jacobian s)
        else SetVal2Diag i one (Jacobian s))
  /\ (forall q, ~ in_block n i q ->
        LinSysRes out q = LinSysRes s q /\ LinSysSol out q = LinSysSol s q)
  /\ (forall j k, j <> i ->
        node_array (nodes out) ResTruncError j k = node_array (nodes s) ResTruncError j k)
  /\ (forall k, k < n -> LinSysSol out (i * n + k) = zero)
  /\ (fne dt zero = false -> forall k, k < n ->
        LinSysRes out (i * n + k) = (- (zero + zero))%D
        /\ node_array (nodes out) ResTruncError i k = zero).
Proof.
  cbv zeta. unfold Implicit_point.
  destruct (Implicit_diagonal_spec geometry i s) as (D1 & D2 & D3 & D4 & D5 & D6 & D7).
  destruct (Implicit_rhs_spec geometry i (Implicit_diagonal geometry i s))
    as (R1 & R2 & R3 & R4 & R5).
  cbv zeta in *. rewrite D1 in R4, R5.
  rewrite R1, R2, R3, D1, D2, D4.
  split; [done|]. split; [done|]. split; [done|]. split; [|split; [done|split]].
  - intros q Hq. destruct (R4 q Hq) as [-> ->]. by rewrite D5, D3.
  - intros k Hk. by apply R5.
  - intros Hdt k Hk. destruct (R5 k Hk) as [-> _]. by destruct (D7 Hdt k Hk) as [-> ->].
Qed.

Lemma Implicit_reset_frame s :
  let out := Implicit_reset s in
  sizes out = sizes s /\ nodes out = nodes s /\ Jacobian out = Jacobian s
  /\ LinSysRes out = LinSysRes s /\ LinSysSol out = LinSysSol s.
Proof.
  cbv zeta. unfold Implicit_reset.
  apply (for_loop_ind (fun _ out =>
    sizes out = sizes s /\ nodes out = nodes s /\ Jacobian out = Jacobian s
    /\ LinSysRes out = LinSysRes s /\ LinSysSol out = LinSysSol s)); [done|].
  by intros i a _ H.
Qed.

(** The loop over the owned points: the rows of the points it has passed,
    and for the points of zero time step the right-hand side, the truncation
    error and the initial guess. *)
Lemma Implicit_build_spec geometry s :
  let out := Implicit_build geometry s in
  let n := nVar (sizes s) in
  let dt r := node_scalar (nodes s) Delta_Time r in
  sizes out = sizes s
  /\ node_scalar (nodes out) = node_scalar (nodes s)
  /\ (forall r c, r < nPointDomain (sizes s) ->
        Jacobian out !! (r, c)
        = implicit_row n r (Volume geometry r) (dt r) (Jacobian s) c)
  /\ (forall r k, r < nPointDomain (sizes s) -> k < n ->
        LinSysSol out (r * n + k) = zero
        /\ (fne (dt r) zero = false ->
            LinSysRes out (r * n + k) = (- (zero + zero))%D
            /\ node_array (nodes out) ResTruncError r k = zero)).
Proof.
  cbv zeta. unfold Implicit_build.
  destruct (Implicit_reset_frame s) as (F1 & F2 & F3 & F4 & F5).

  enough (Hloop : forall m,
    let out := for_loop m (Implicit_point geometry) (Implicit_reset s) in
    sizes out = sizes s /\ node_scalar (nodes out) = node_scalar (nodes s)
    /\ (forall r c, m <= r -> Jacobian out !! (r, c) = Jacobian s !! (r, c))
    /\ (forall r c, r < m ->
          Jacobian out !! (r, c)
          = implicit_row (nVar (sizes s)) r (Volume geometry r)
              (node_scalar (nodes s) Delta_Time r) (Jacobian s) c)
    /\ (forall r k, r < m -> k < nVar (sizes s) ->
          LinSysSol out (r * nVar (sizes s) + k) = zero
          /\ (fne (node_scalar (nodes s) Delta_Time r) zero = false ->
              LinSysRes out (r * nVar (sizes s) + k) = (- (zero + zero))%D
              /\ node_array (nodes out) ResTruncError r k = zero))).
  { destruct (Hloop (nPointDomain (sizes s))) as (E1 & E2 & _ & E4 & E5). done. }
  intros m. induction m as [|m IH]; cbv zeta.
  { rewrite for_loop_0, F1, F2, F3. repeat split; try done; lia. }
  rewrite for_loop_S. destruct IH as (E1 & E2 & E3 & E4 & E5).
  set (s1 := for_loop m _ _) in *. clearbody s1.
  destruct (Implicit_point_spec geometry m s1) as (P1 & P2 & P3 & P4 & P5 & P6 & P7).
  cbv zeta in *. rewrite E1, E2 in *. rewrite P1, P2, P3.
  split; [done|]. split; [done|]. split; [|split].
  - intros r c Hr. destruct (fne _ zero).
    + rewrite AddVal2Diag_lookup, decide_False by (intros [= -> _]; lia). apply E3. lia.
    + rewrite SetVal2Diag_lookup, decide_False by (intros [= -> _]; lia).
      destruct (decide (r = m)); [lia|].
      rewrite (E3 r c) by lia. by destruct (Jacobian s !! (r, c)).
  - intros r c Hr. destruct (decide (r = m)) as [->|Hne].
    + unfold implicit_row. destruct (fne _ zero).
      * rewrite AddVal2Diag_lookup. destruct (decide (c = m)) as [->|Hc].
        -- rewrite decide_True by done. by rewrite E3.
        -- rewrite decide_False by (intros [= ?]; done). by apply E3.
      * rewrite SetVal2Diag_lookup. destruct (decide (c = m)) as [->|Hc].
        -- by rewrite decide_True.
        -- rewrite decide_False by (intros [= ?]; done).
           destruct (decide (m = m)); [|done]. by rewrite E3.
    + rewrite <- (E4 r c) by lia. destruct (fne _ zero).
      * rewrite AddVal2Diag_lookup, decide_False by (intros [= ? _]; done). done.
      * rewrite SetVal2Diag_lookup, decide_False by (intros [= ? _]; done).
        destruct (decide (r = m)); [done|].
        by destruct (Jacobian s1 !! (r, c)).
  - intros r k Hr Hk. destruct (decide (r = m)) as [->|Hne].
    + split; [by apply P6|]. intros Hdt. by apply P7.
    + destruct (P4 (r * nVar (sizes s) + k)) as [-> ->].
      { apply block_apart; [done|done]. }
      destruct (E5 r k) as [E6 E7]; [lia|done|]. split; [done|].
      intros Hdt. destruct (E7 Hdt) as [E8 E9]. split; [done|].
      by rewrite P5.
Qed.

(** The ghost points come after the owned ones. *)
Lemma Implicit_ghost_frame s :
  let out := Implicit_ghost s in
  let n := nVar (sizes s) in
  sizes out = sizes s /\ nodes out = nodes s /\ Jacobian out = Jacobian s
  /\ (forall r k, r < nPointDomain (sizes s) -> k < n ->
        LinSysRes out (r * n + k) = LinSysRes s (r * n + k)
        /\ LinSysSol out (r * n + k) = LinSysSol s (r * n + k)).
Proof.
  cbv zeta. unfold Implicit_ghost, for_range. cbv zeta.
  apply (foldl_invariant (fun out =>
    sizes out = sizes s /\ nodes out = nodes s /\ Jacobian out = Jacobian s
    /\ (forall r k, r < nPointDomain (sizes s) -> k < nVar (sizes s) ->
          LinSysRes out (r * nVar (sizes s) + k) = LinSysRes s (r * nVar (sizes s) + k)
          /\ LinSysSol out (r * nVar (sizes s) + k) = LinSysSol s (r * nVar (sizes s) + k))));
    [done|].
  intros a iPoint Hin Ha. apply elem_of_seq in Hin.
  apply (for_loop_ind (fun _ out =>
    sizes out = sizes s /\ nodes out = nodes s /\ Jacobian out = Jacobian s
    /\ (forall r k, r < nPointDomain (sizes s) -> k < nVar (sizes s) ->
          LinSysRes out (r * nVar (sizes s) + k) = LinSysRes s (r * nVar (sizes s) + k)
          /\ LinSysSol out (r * nVar (sizes s) + k) = LinSysSol s (r * nVar (sizes s) + k))));
    [done|].
  intros iVar b HiVar (E1 & E2 & E3 & E4).
  cbn [sizes nodes LinSysSol Jacobian LinSysRes set_LinSysRes set_LinSysSol].
  cbn [sizes nodes LinSysSol Jacobian LinSysRes set_LinSysRes set_LinSysSol].
  split; [done|]. split; [done|]. split; [done|].
  intros r k Hr Hk.
  assert (Hne : iPoint * nVar (sizes s) + iVar <> r * nVar (sizes s) + k).
  { intros Heq. apply (block_apart (nVar (sizes s)) iPoint r k); [lia|done|].
    rewrite <- Heq. apply in_block_index. done. }
  rewrite !array_insert_lookup, !decide_False by done. by apply E4.
Qed.

Lemma Implicit_system_spec geometry s :
  let out := Implicit_system geometry s in
  let n := nVar (sizes s) in
  let dt r := node_scalar (nodes s) Delta_Time r in
  forall r, r < nPointDomain (sizes s) ->
    (forall c, Jacobian out !! (r, c)
               = implicit_row n r (Volume geometry r) (dt r) (Jacobian s) c)
    /\ (forall k, k < n ->
          LinSysSol out (r * n + k) = zero
          /\ (fne (dt r) zero = false ->
              LinSysRes out (r * n + k) = (- (zero + zero))%D
              /\ node_array (nodes out) ResTruncError r k = zero)).
Proof.
  cbv zeta. intros r Hr. unfold Implicit_system.
  destruct (Implicit_build_spec geometry s) as (B1 & B2 & B3 & B4).
  destruct (Implicit_ghost_frame (Implicit_build geometry s)) as (G1 & G2 & G3 & G4).
  cbv zeta in *. rewrite B1 in G4. rewrite G2, G3. split.
  - intros c. by apply B3.
  - intros k Hk. destruct (G4 r k Hr Hk) as [-> ->]. by apply B4.
Qed.

(** The equations of an identity row: a block of zeros keeps the sum as it
    is, and the identity block brings in the unknown of the equation. *)
Lemma block_times_zero n x j k acc :
  (zero_or_nan acc -> zero_or_nan (block_times n zero_block x j k acc))
  /\ (~ is_zero acc -> ~ is_zero (block_times n zero_block x j k acc)).
Proof.
  unfold block_times.
  apply (for_loop_ind (fun _ a => (zero_or_nan acc -> zero_or_nan a)
                                  /\ (~ is_zero acc -> ~ is_zero a))); [done|].
  intros l a _ [Hz Hnz]. split; intros Hacc.
  - apply fadd_zero_or_nan; [by apply Hz|apply fmul_zero_l].
  - apply fadd_not_zero; [by apply Hnz|apply fmul_zero_l].
Qed.

Lemma block_times_identity n x i k acc :
  k < n -> valid_binary prec emax (x (i * n + k)) = true ->
  ~ is_zero (x (i * n + k)) -> zero_or_nan acc ->
  ~ is_zero (block_times n (diag_block one) x i k acc).
Proof.
  intros Hk Hv Hx Hacc. unfold block_times.
  enough (Hloop : forall m,
            let a := for_loop m (fun jVar acc =>
                       (acc + diag_block one k jVar * x (i * n + jVar)%nat)%D) acc in
            (m <= k -> zero_or_nan a) /\ (k < m -> ~ is_zero a)).
  { destruct (Hloop n) as [_ H]. by apply H. }
  intros m. induction m as [|m IH]; cbv zeta.
  { rewrite for_loop_0. split; [done|lia]. }
  rewrite for_loop_S. destruct IH as [Hz Hnz].
  change (diag_block one k m) with (if decide (k = m) then one else zero).
  destruct (decide (k = m)) as [<-|Hne].
  - split; [lia|]. intros _. rewrite fmul_one_l by done.
    apply fadd_zero_or_nan_l; [|done]. by apply Hz.
  - split.
    + intros Hm. apply fadd_zero_or_nan; [apply Hz; lia|apply fmul_zero_l].
    + intros Hm. apply fadd_not_zero; [apply Hnz; lia|apply fmul_zero_l].
Qed.

Lemma identity_row_unknown n nP J x i k :
  identity_row i J -> i < nP -> k < n ->
  valid_binary prec emax (x (i * n + k)) = true ->
  ~ is_zero (x (i * n + k)) -> ~ is_zero (row_times n nP J x i k).
Proof.
  intros [Hdiag Hoff] Hi Hk Hv Hx. unfold row_times.
  set (body := fun (jPoint : nat) (acc : su2double) =>
                 match J !! (i, jPoint) with
                 | Some B => block_times n B x jPoint k acc
                 | None => acc
                 end).
  enough (Hloop : forall m,
            (m <= i -> zero_or_nan (for_loop m body zero))
            /\ (i < m -> ~ is_zero (for_loop m body zero))).
  { destruct (Hloop nP) as [_ H]. by apply H. }
  intros m. induction m as [|m IH].
  { rewrite for_loop_0. split; [intros _; left; by exists false|lia]. }
  rewrite for_loop_S. destruct IH as [Hz Hnz].
  set (r := for_loop m body zero) in *. clearbody r. subst body. cbv beta.
  destruct (decide (m = i)) as [->|Hne].
  - rewrite Hdiag. split; [lia|]. intros _.
    apply block_times_identity; [done|done|done|]. by apply Hz.
  - destruct (J !! (i, m)) as [B|] eqn:HB.
    + rewrite (Hoff m B Hne HB).
      destruct (block_times_zero n x m k r) as [Bz Bnz].
      split; intros Hm; [apply Bz, Hz; lia|apply Bnz, Hnz; lia].
    + split; intros Hm; [apply Hz; lia|apply Hnz; lia].
Qed.

(** On an identity row, a vector of finite numbers that is zero at the point
    gives a zero left side. *)
Lemma identity_row_solved n nP J x i k :
  identity_row i J -> (forall q, is_finite (x q)) ->
  (forall m, m < n -> is_zero (x (i * n + m))) ->
  is_zero (row_times n nP J x i k).
Proof.
  intros [Hdiag Hoff] Hfin Hx. unfold row_times.
  apply (for_loop_ind (fun _ a => is_zero a)); [by exists false|].
  intros j acc _ Hacc.
  destruct (J !! (i, j)) as [B|] eqn:HB; [|done].
  assert (Hblk : forall m, m < n -> is_zero (B k m * x (j * n + m)%nat)%D).
  { intros m Hm. destruct (decide (j = i)) as [->|Hne].
    - rewrite Hdiag in HB. injection HB as <-.
      apply fmul_by_zero; [|done|right; by apply Hx].
      unfold diag_block. by destruct (decide (k = m)).
    - rewrite (Hoff j B Hne HB). apply fmul_by_zero; [done|done|left; by exists false]. }
  unfold block_times.
  apply (for_loop_ind (fun _ a => is_zero a)); [done|].
  intros m a Hm Ha. apply fadd_zeros; [done|by apply Hblk].
Qed.

(** C8: the system ImplicitEuler_Iteration hands to the linear solver.  For
    an owned point of nonzero time step the diagonal block of its row is the
    one the routine has found plus Volume/dt on its diagonal, and the other
    blocks of the row are as found.  For an owned point of zero time step
    the row is the identity (the diagonal block is there and is the identity,
    the other blocks are zero), the right-hand side and the truncation error
    of the point are zero and the initial guess is zero.  Such a point cannot
    make the system singular: its equations can be satisfied and determine
    its unknowns.  Every vector of finite numbers that is zero at the point
    satisfies them, and every vector of doubles that satisfies them, the
    solved increment, is zero at the point, whatever the rest of the matrix
    and of the vector is. *)
Theorem implicit_system_degenerate_cells
    (geometry : CGeometry) (s : State) (iPoint : nat) :
  iPoint < nPointDomain (sizes s) ->
  let n := nVar (sizes s) in
  let dt := node_scalar (nodes s) Delta_Time iPoint in
  let Vol := Volume geometry iPoint in
  let sys := Implicit_system geometry s in
  let sol := Implicit_solve geometry sys in
  ImplicitEuler_Iteration geometry s
  = (step Implicit_update ;; step (InitiateComms_SOLUTION geometry) ;;
     step (CompleteComms_SOLUTION geometry) ;; SetResidual_RMS geometry) sol
  /\ (fne dt zero = true ->
        Jacobian sys !! (iPoint, iPoint)
        = block_add n (diag_block (Vol / dt)%D) <$> Jacobian s !! (iPoint, iPoint)
        /\ forall j, j <> iPoint -> Jacobian sys !! (iPoint, j) = Jacobian s !! (iPoint, j))
  /\ (fne dt zero = false ->
        identity_row iPoint (Jacobian sys)
        /\ (forall k, k < n ->
              is_zero (LinSysRes sys (iPoint * n + k))
              /\ node_array (nodes sys) ResTruncError iPoint k = zero
              /\ LinSysSol sys (iPoint * n + k) = zero)
        /\ (forall (nP : nat) (x : array),
              (forall q, is_finite (x q)) ->
              (forall k, k < n -> is_zero (x (iPoint * n + k))) ->
              solves_point n nP (Jacobian sys) (LinSysRes sys) x iPoint)
        /\ (forall (nP : nat) (x : array),
              iPoint < nP -> doubles x ->
              solves_point n nP (Jacobian sys) (LinSysRes sys) x iPoint ->
              forall k, k < n -> is_zero (x (iPoint * n + k)))).
Proof.
  intros Hi. cbv zeta.
  destruct (Implicit_system_spec geometry s iPoint Hi) as [HJ Hrhs]. cbv zeta in *.
  split; [reflexivity|]. split.
  - intros Hdt. unfold implicit_row in HJ. rewrite Hdt in HJ. split.
    + rewrite HJ. by rewrite decide_True.
    + intros j Hj. rewrite HJ. by rewrite decide_False.
  - intros Hdt. unfold implicit_row in HJ. rewrite Hdt in HJ.
    assert (Hres : forall k, k < nVar (sizes s) ->
              is_zero (LinSysRes (Implicit_system geometry s) (iPoint * nVar (sizes s) + k))).
    { intros k Hk. destruct (Hrhs k Hk) as [_ H]. destruct (H Hdt) as [-> _].
      by exists true. }
    assert (Hrow : identity_row iPoint (Jacobian (Implicit_system geometry s))).
    { split.
      - rewrite HJ. by rewrite decide_True.
      - intros j blk Hj. rewrite HJ, decide_False by done.
        destruct (Jacobian s !! (iPoint, j)); [|done]. by intros [= <-]. }
    split; [exact Hrow|]. split.
    + intros k Hk. destruct (Hrhs k Hk) as [Hsol H]. destruct (H Hdt) as [_ Hrte].
      split; [by apply Hres|]. done.
    + split.
      * intros nP x Hfin Hx k Hk. apply feq_zeros; [|by apply Hres].
        by apply identity_row_solved.
      * intros nP x HnP Hx Hsolves k Hk.
        destruct (is_zero_cases (x (iPoint * nVar (sizes s) + k))) as [Hz|Hnz]; [done|].
        exfalso.
        apply (identity_row_unknown (nVar (sizes s)) nP _ x iPoint k Hrow HnP Hk (Hx _) Hnz).
        apply (feq_zero _ _ (Hres k Hk)). by apply Hsolves.
Qed.

(** ** The initialization option *)

Lemma nondim_frame_refl s : nondim_frame s s.
Proof. done. Qed.

Lemma nondim_frame_trans s1 s2 s3 :
  nondim_frame s1 s2 -> nondim_frame s2 s3 -> nondim_frame s1 s3.
Proof.
  intros (E1 & E2 & E3 & E4) (E5 & E6 & E7 & E8). unfold nondim_frame.
  by rewrite E5, E6, E7, E8.
Qed.

Lemma cset_frame x v s : nondim_frame s (cset x v s).
Proof. done. Qed.

Lemma NonDim_fluid_model_frame s s0 :
  NonDim_fluid_model s = Some s0 -> nondim_frame s s0 /\ config s0 = config s.
Proof.
  unfold NonDim_fluid_model. destruct (Kind_FluidModel (config s)); try done.
  by intros [= <-].
Qed.

Lemma NonDim_fluid_model_user s :
  Kind_FluidModel (config s) = USER_DEFINED_NONEQ <-> is_Some (NonDim_fluid_model s).
Proof.
  unfold NonDim_fluid_model. destruct (Kind_FluidModel (config s)); split; try done;
    intros [x Hx]; done.
Qed.

Lemma NonDim_velocity_frame soundspeed s : nondim_frame s (NonDim_velocity soundspeed s).
Proof.
  unfold NonDim_velocity. cbv zeta.
  destruct (bool_decide (nDim (sizes s) = 2)); cbn [sizes cset set_config];
    destruct (bool_decide (nDim (sizes s) = 3)); done.
Qed.

(** C9 (amended): with the user-defined nonequilibrium fluid model, the one
    model the routine instantiates, and the Reynolds-number initialization
    option selected, SetNondimensionalization of a viscous run ends in the
    fatal error whose message names TD_CONDITIONS: the process is aborted,
    and rank 0 has the error block with that message and the name of the
    routine at the end of its console.  In an inviscid run the option is not
    looked at and the routine returns. *)
Theorem reynolds_option_fatal_when_viscous (iMesh : nat) (s : State) :
  Kind_FluidModel (config s) = USER_DEFINED_NONEQ ->
  reynolds_init s = true ->
  let msg := "Only thermodynamics quantities based initialization: set pressure, temperatures and flag INIT_OPTION= TD_CONDITIONS." in
  let fn := CURRENT_FUNCTION "SetNondimensionalization" in
  is_Some (String.index 0 "TD_CONDITIONS" msg)
  /\ (Viscous (config s) = true ->
      exists s', SetNondimensionalization iMesh s = Some (Aborted 0 (reported msg fn s'))
                 /\ cout s' = cout s /\ Rank s' = Rank s
                 /\ (Rank s = 0 -> cout (reported msg fn s') = cout s ++ error_block msg fn))
  /\ (Viscous (config s) = false ->
      exists out, SetNondimensionalization iMesh s = Some (Done out)).
Proof.
  intros Hkind Hre. cbv zeta. split; [by eexists|].
  apply NonDim_fluid_model_user in Hkind as [s0 Hs0].
  destruct (NonDim_fluid_model_frame s s0 Hs0) as [Hfr0 Hcfg0].
  unfold SetNondimensionalization. cbv zeta. rewrite Hs0. cbn [fmap option_fmap option_map].
  split.
  - intros Hvisc. unfold NonDim_free_stream. cbv zeta. rewrite Hvisc.
    match goal with |- context [reynolds_init ?x] => set (s' := x) end.
    assert (Hfr : nondim_frame s s').
    { subst s'.
      repeat (eapply nondim_frame_trans; [|apply cset_frame]).
      eapply nondim_frame_trans; [|apply NonDim_velocity_frame].
      eapply nondim_frame_trans; [|apply cset_frame].
      exact Hfr0. }
    destruct Hfr as (Hinit & _ & Hcout & Hrank).
    assert (Hre' : reynolds_init s' = true).
    { unfold reynolds_init in *. by rewrite Hinit. }
    rewrite Hre'. cbn [negb]. rewrite Error_andThen, Error_aborts.
    exists s'. split; [done|]. split; [done|]. split; [done|].
    intros H0. unfold reported. rewrite Hrank, H0.
    destruct (decide (0 = 0)); [|done]. unfold print. cbn [cout set_cout]. by rewrite Hcout.
  - intros Hvisc. unfold NonDim_free_stream. cbv zeta. rewrite Hvisc. by eexists.
Qed.

End Properties.

Section Containment.

Context {variable_methods : CNEMOEulerVariable_methods}.

(** Two runs of the upwind loop with two flux functors [F] and [F'] that
    return the same flux on the edges of [l] stay together on every entry of
    the residual vector on which they start together. *)
Lemma Upwind_edge_agree (F F' : CNumerics_methods) geometry iMesh
    (Q : nat -> Prop) n sA sB e :
  same_frame sA sB ->
  (forall q, Q q -> LinSysRes sA q = LinSysRes sB q) ->
  (forall k, k < nVar (sizes sA) ->
     ComputeResidual (CNumerics_methods := F) (Upwind_inputs geometry sA iMesh e n) (config sA) k
     = ComputeResidual (CNumerics_methods := F') (Upwind_inputs geometry sA iMesh e n) (config sA) k) ->
  let rA := Upwind_edge (numerics_methods := F) geometry iMesh (n, sA) e in
  let rB := Upwind_edge (numerics_methods := F') geometry iMesh (n, sB) e in
  rA.1 = rB.1 /\ same_frame rA.2 rB.2
  /\ (forall q, Q q -> LinSysRes rA.2 q = LinSysRes rB.2 q).
Proof.
  intros Hfr HQ HF. cbn zeta. unfold Upwind_edge. cbn [fst snd].
  rewrite <- (Upwind_inputs_frame geometry iMesh e n sA sB Hfr).
  destruct Hfr as (Hn & Hs & Hc). rewrite <- Hs, <- Hc.
  rewrite <- (scan_nan_ext _ _ _ false HF).
  split; [done|]. destruct (negb _); [|done].
  split; [done|]. intros q Hq. unfold Upwind_update. cbn [LinSysRes set_LinSysRes sizes].
  rewrite <- Hs. apply SubtractBlock_agree; [exact HF|].
  apply AddBlock_agree; [done|]. by apply HQ.
Qed.

Lemma Upwind_run_agree (F F' : CNumerics_methods) geometry iMesh
    (Q : nat -> Prop) (l : list CEdge) : forall n sA sB,
  same_frame sA sB ->
  (forall q, Q q -> LinSysRes sA q = LinSysRes sB q) ->
  (forall e n k, e ∈ l -> k < nVar (sizes sA) ->
     ComputeResidual (CNumerics_methods := F) (Upwind_inputs geometry sA iMesh e n) (config sA) k
     = ComputeResidual (CNumerics_methods := F') (Upwind_inputs geometry sA iMesh e n) (config sA) k) ->
  let rA := foldl (Upwind_edge (numerics_methods := F) geometry iMesh) (n, sA) l in
  let rB := foldl (Upwind_edge (numerics_methods := F') geometry iMesh) (n, sB) l in
  rA.1 = rB.1 /\ same_frame rA.2 rB.2
  /\ (forall q, Q q -> LinSysRes rA.2 q = LinSysRes rB.2 q).
Proof.
  induction l as [|e l IH]; intros n sA sB Hfr HQ HF; [done|].
  cbn zeta. cbn [foldl].
  destruct (Upwind_edge_agree F F' geometry iMesh Q n sA sB e Hfr HQ)
    as (Hn1 & Hfr1 & HQ1).
  { intros k Hk. apply HF; [left|done]. }
  pose proof (Upwind_edge_frame (numerics_methods := F) geometry iMesh n sA e) as HfrA.
  destruct (Upwind_edge (numerics_methods := F) geometry iMesh (n, sA) e) as [nA sA'].
  destruct (Upwind_edge (numerics_methods := F') geometry iMesh (n, sB) e) as [nB sB'].
  cbn [fst snd] in *. subst nB.
  apply IH; [done|done|].
  intros e' n' k He' Hk.
  rewrite <- !(Upwind_inputs_frame geometry iMesh e' n' sA sA' HfrA).
  destruct HfrA as (_ & Hs & Hc). rewrite <- Hc. rewrite <- Hs in Hk.
  apply HF; [by right|done].
Qed.

(** The run in which the flux of edge [e] has a NaN and a run in which it
    has none, all other fluxes being the same: the residual of every point
    other than the two endpoints of [e] is the same at the end. *)
Lemma Upwind_containment (F F' : CNumerics_methods) geometry iMesh n s l1 e l2 :
  (forall n, exists k, k < nVar (sizes s) /\
     is_nan (ComputeResidual (CNumerics_methods := F)
               (Upwind_inputs geometry s iMesh e n) (config s) k)) ->
  (forall e' n k, e' ∈ l1 ++ l2 -> k < nVar (sizes s) ->
     ComputeResidual (CNumerics_methods := F) (Upwind_inputs geometry s iMesh e' n) (config s) k
     = ComputeResidual (CNumerics_methods := F') (Upwind_inputs geometry s iMesh e' n) (config s) k) ->
  let rA := foldl (Upwind_edge (numerics_methods := F) geometry iMesh) (n, s) (l1 ++ e :: l2) in
  let rB := foldl (Upwind_edge (numerics_methods := F') geometry iMesh) (n, s) (l1 ++ e :: l2) in
  forall q, ~ in_block (nVar (sizes s)) (Node0 e) q ->
            ~ in_block (nVar (sizes s)) (Node1 e) q ->
    LinSysRes rA.2 q = LinSysRes rB.2 q.
Proof.
  intros Hnan HF. cbn zeta. rewrite !foldl_app. cbn [foldl].
  set (Q := fun q => ~ in_block (nVar (sizes s)) (Node0 e) q
                     /\ ~ in_block (nVar (sizes s)) (Node1 e) q).
  destruct (Upwind_run_agree F F' geometry iMesh Q l1 n s s (same_frame_refl s))
    as (Hn1 & Hfr1 & HQ1); [done| |].
  { intros e' n' k He' Hk. apply HF; [|done]. apply elem_of_app. by left. }
  pose proof (Upwind_edge_frame (numerics_methods := F) geometry iMesh) as HfrA.
  pose proof (Upwind_edge_frame (numerics_methods := F') geometry iMesh) as HfrB.
  pose proof (Upwind_run_frame (numerics_methods := F) geometry iMesh l1 n s) as Hfr0.
  destruct (foldl (Upwind_edge (numerics_methods := F) geometry iMesh) (n, s) l1) as [nA sA].
  destruct (foldl (Upwind_edge (numerics_methods := F') geometry iMesh) (n, s) l1) as [nB sB].
  cbn [fst snd] in *. subst nB.
  (* the edge with the NaN *)
  assert (HA : (Upwind_edge (numerics_methods := F) geometry iMesh (nA, sA) e).2 = sA).
  { apply Upwind_edge_rejected.
    rewrite <- (Upwind_inputs_frame geometry iMesh e nA s sA Hfr0).
    destruct Hfr0 as (_ & <- & <-). apply Hnan. }
  assert (HnAB : (Upwind_edge (numerics_methods := F) geometry iMesh (nA, sA) e).1
                 = (Upwind_edge (numerics_methods := F') geometry iMesh (nA, sB) e).1).
  { unfold Upwind_edge. cbn [fst]. by apply Upwind_inputs_frame. }
  assert (HB : forall q, Q q ->
            LinSysRes (Upwind_edge (numerics_methods := F') geometry iMesh (nA, sB) e).2 q
            = LinSysRes sB q).
  { intros q [Hq0 Hq1]. unfold Upwind_edge. cbn [snd]. destruct (negb _); [|done].
    unfold Upwind_update. cbn [LinSysRes set_LinSysRes sizes].
    destruct Hfr1 as (_ & Hs1 & _). destruct Hfr0 as (_ & Hs0 & _).
    rewrite <- Hs1, <- Hs0. by apply Add_Subtract_other. }
  specialize (HfrA nA sA e). specialize (HfrB nA sB e).
  destruct (Upwind_edge (numerics_methods := F) geometry iMesh (nA, sA) e) as [nA' sA'].
  destruct (Upwind_edge (numerics_methods := F') geometry iMesh (nA, sB) e) as [nB' sB'].
  cbn [fst snd] in *. subst nB' sA'.
  intros q Hq0 Hq1.
  assert (HfrAB : same_frame sA sB').
  { destruct Hfr1 as (E1 & E2 & E3), HfrB as (E4 & E5 & E6).
    unfold same_frame. by rewrite E1, E2, E3. }
  destruct (Upwind_run_agree F F' geometry iMesh Q l2 nA' sA sB' HfrAB)
    as (_ & _ & HQ2).
  - intros q' Hq'. rewrite HB by done. by apply HQ1.
  - intros e' n' k He' Hk.
    rewrite <- !(Upwind_inputs_frame geometry iMesh e' n' s sA Hfr0).
    destruct Hfr0 as (_ & Hs0 & Hc0). rewrite <- Hc0. rewrite <- Hs0 in Hk.
    apply HF; [|done]. apply elem_of_app. by right.
  - by apply HQ2.
Qed.

Lemma Centered_err_agree s s' sc sc' :
  same_frame s s' -> flux_agree (nVar (sizes s)) (implicit_scheme s) sc sc' ->
  Centered_err s sc = Centered_err s' sc'.
Proof.
  intros (_ & Hs & Hc) [Hres Hjac]. unfold Centered_err, implicit_scheme in *.
  rewrite <- Hs, <- Hc. rewrite (scan_nan2_ext _ _ _ _ _ false Hres).
  destruct (bool_decide _); [|done].
  by apply scan_nan_block2_ext, Hjac.
Qed.

Lemma Centered_edge_agree (F F' : CNumerics_methods) geometry
    (Q : nat -> Prop) n sA sB e :
  same_frame sA sB ->
  (forall q, Q q -> LinSysRes sA q = LinSysRes sB q) ->
  flux_agree (nVar (sizes sA)) (implicit_scheme sA)
    (ComputeResidual_centered (CNumerics_methods := F)
       (Centered_inputs geometry sA e n) (config sA) (scratch sA))
    (ComputeResidual_centered (CNumerics_methods := F')
       (Centered_inputs geometry sA e n) (config sA) (scratch sB)) ->
  let rA := Centered_edge (numerics_methods := F) geometry (n, sA) e in
  let rB := Centered_edge (numerics_methods := F') geometry (n, sB) e in
  rA.1 = rB.1 /\ same_frame rA.2 rB.2
  /\ (forall q, Q q -> LinSysRes rA.2 q = LinSysRes rB.2 q).
Proof.
  intros Hfr HQ HF. cbn zeta. unfold Centered_edge. cbn [fst snd].
  rewrite <- (Centered_inputs_frame geometry e n sA sB Hfr).
  split; [done|].
  destruct Hfr as (Hn & Hs & Hc). rewrite <- Hc.
  set (s1A := set_scratch _ sA). set (s1B := set_scratch _ sB).
  assert (Hfr1 : same_frame s1A s1B) by done.
  rewrite <- (Centered_err_agree s1A s1B (scratch s1A) (scratch s1B) Hfr1 HF).
  destruct (negb _); [|done].
  destruct (Centered_update_frame e s1A) as (E1 & E2 & E3 & _).
  destruct (Centered_update_frame e s1B) as (E4 & E5 & E6 & _).
  split. { unfold same_frame. by rewrite E1, E2, E3, E4, E5, E6. }
  intros q Hq. rewrite !Centered_update_LinSysRes.
  change (sizes s1B) with (sizes sB). change (sizes s1A) with (sizes sA).
  rewrite <- Hs. destruct HF as [Hres _].
  apply SubtractBlock_agree; [intros k Hk; by destruct (Hres k Hk)|].
  apply AddBlock_agree; [intros k Hk; by destruct (Hres k Hk)|].
  apply SubtractBlock_agree; [intros k Hk; by destruct (Hres k Hk)|].
  apply AddBlock_agree; [intros k Hk; by destruct (Hres k Hk)|].
  by apply HQ.
Qed.

Lemma Centered_run_agree (F F' : CNumerics_methods) geometry
    (Q : nat -> Prop) (l : list CEdge) : forall n sA sB,
  same_frame sA sB ->
  (forall q, Q q -> LinSysRes sA q = LinSysRes sB q) ->
  (forall e n sc sc', e ∈ l ->
     flux_agree (nVar (sizes sA)) (implicit_scheme sA)
       (ComputeResidual_centered (CNumerics_methods := F)
          (Centered_inputs geometry sA e n) (config sA) sc)
       (ComputeResidual_centered (CNumerics_methods := F')
          (Centered_inputs geometry sA e n) (config sA) sc')) ->
  let rA := foldl (Centered_edge (numerics_methods := F) geometry) (n, sA) l in
  let rB := foldl (Centered_edge (numerics_methods := F') geometry) (n, sB) l in
  rA.1 = rB.1 /\ same_frame rA.2 rB.2
  /\ (forall q, Q q -> LinSysRes rA.2 q = LinSysRes rB.2 q).
Proof.
  induction l as [|e l IH]; intros n sA sB Hfr HQ HF; [done|].
  cbn zeta. cbn [foldl].
  destruct (Centered_edge_agree F F' geometry Q n sA sB e Hfr HQ)
    as (Hn1 & Hfr1 & HQ1).
  { apply HF. left. }
  pose proof (Centered_edge_frame (numerics_methods := F) geometry n sA e) as HfrA.
  destruct (Centered_edge (numerics_methods := F) geometry (n, sA) e) as [nA sA'].
  destruct (Centered_edge (numerics_methods := F') geometry (n, sB) e) as [nB sB'].
  cbn [fst snd] in *. subst nB.
  apply IH; [done|done|].
  intros e' n' sc sc' He'.
  rewrite <- !(Centered_inputs_frame geometry e' n' sA sA' HfrA).
  destruct HfrA as (_ & Hs & Hc). unfold implicit_scheme. rewrite <- Hc, <- Hs.
  apply HF. by right.
Qed.

Lemma Centered_containment (F F' : CNumerics_methods) geometry n s l1 e l2 :
  (forall n sc,
     let out := ComputeResidual_centered (CNumerics_methods := F)
                  (Centered_inputs geometry s e n) (config s) sc in
     (exists k, k < nVar (sizes s) /\ (is_nan (Res_Conv out k) \/ is_nan (Res_Visc out k)))
     \/ (implicit_scheme s = true /\
         exists k l, k < nVar (sizes s) /\ l < nVar (sizes s) /\
           (is_nan (Jacobian_i out k l) \/ is_nan (Jacobian_j out k l)))) ->
  (forall e' n sc sc', e' ∈ l1 ++ l2 ->
     flux_agree (nVar (sizes s)) (implicit_scheme s)
       (ComputeResidual_centered (CNumerics_methods := F)
          (Centered_inputs geometry s e' n) (config s) sc)
       (ComputeResidual_centered (CNumerics_methods := F')
          (Centered_inputs geometry s e' n) (config s) sc')) ->
  let rA := foldl (Centered_edge (numerics_methods := F) geometry) (n, s) (l1 ++ e :: l2) in
  let rB := foldl (Centered_edge (numerics_methods := F') geometry) (n, s) (l1 ++ e :: l2) in
  forall q, ~ in_block (nVar (sizes s)) (Node0 e) q ->
            ~ in_block (nVar (sizes s)) (Node1 e) q ->
    LinSysRes rA.2 q = LinSysRes rB.2 q.
Proof.
  intros Hnan HF. cbn zeta. rewrite !foldl_app. cbn [foldl].
  set (Q := fun q => ~ in_block (nVar (sizes s)) (Node0 e) q
                     /\ ~ in_block (nVar (sizes s)) (Node1 e) q).
  destruct (Centered_run_agree F F' geometry Q l1 n s s (same_frame_refl s))
    as (Hn1 & Hfr1 & HQ1); [done| |].
  { intros e' n' sc sc' He'. apply HF. apply elem_of_app. by left. }
  pose proof (Centered_edge_frame (numerics_methods := F) geometry) as HfrA.
  pose proof (Centered_edge_frame (numerics_methods := F') geometry) as HfrB.
  pose proof (Centered_run_frame (numerics_methods := F) geometry l1 n s) as Hfr0.
  destruct (foldl (Centered_edge (numerics_methods := F) geometry) (n, s) l1) as [nA sA].
  destruct (foldl (Centered_edge (numerics_methods := F') geometry) (n, s) l1) as [nB sB].
  cbn [fst snd] in *. subst nB.
  (* the edge with the NaN *)
  assert (HA : LinSysRes (Centered_edge (numerics_methods := F) geometry (nA, sA) e).2
               = LinSysRes sA).
  { apply Centered_edge_rejected. unfold Centered_edge. cbn [snd].
    set (s1 := set_scratch _ sA).
    assert (Hsc : scratch (if negb (Centered_err s1 (scratch s1))
                           then Centered_update e s1 else s1) = scratch s1).
    { destruct (negb _); [|done]. by destruct (Centered_update_frame e s1) as (_&_&_&->). }
    rewrite Hsc. unfold s1. cbn [scratch set_scratch].
    rewrite <- (Centered_inputs_frame geometry e nA s sA Hfr0).
    destruct Hfr0 as (_ & Hs0 & Hc0). unfold implicit_scheme.
    rewrite <- Hs0, <- Hc0. apply (Hnan nA (scratch sA)). }
  assert (HnAB : (Centered_edge (numerics_methods := F) geometry (nA, sA) e).1
                 = (Centered_edge (numerics_methods := F') geometry (nA, sB) e).1).
  { unfold Centered_edge. cbn [fst]. by apply Centered_inputs_frame. }
  assert (HB : forall q, Q q ->
            LinSysRes (Centered_edge (numerics_methods := F') geometry (nA, sB) e).2 q
            = LinSysRes sB q).
  { intros q [Hq0 Hq1]. unfold Centered_edge. cbn [snd]. destruct (negb _); [|done].
    rewrite Centered_update_LinSysRes. cbn [sizes set_scratch LinSysRes].
    destruct Hfr1 as (_ & Hs1 & _). destruct Hfr0 as (_ & Hs0 & _).
    rewrite <- Hs1, <- Hs0. by rewrite !Add_Subtract_other. }
  specialize (HfrA nA sA e). specialize (HfrB nA sB e).
  destruct (Centered_edge (numerics_methods := F) geometry (nA, sA) e) as [nA' sA'].
  destruct (Centered_edge (numerics_methods := F') geometry (nA, sB) e) as [nB' sB'].
  cbn [fst snd] in *. subst nB'.
  intros q Hq0 Hq1.
  assert (HfrAB : same_frame sA' sB').
  { destruct Hfr1 as (E1 & E2 & E3), HfrB as (E4 & E5 & E6), HfrA as (E7 & E8 & E9).
    unfold same_frame. by rewrite <- E7, <- E8, <- E9, E1, E2, E3. }
  destruct (Centered_run_agree F F' geometry Q l2 nA' sA' sB' HfrAB)
    as (_ & _ & HQ2).
  - intros q' Hq'. rewrite HB by done. rewrite HA. by apply HQ1.
  - intros e' n' sc sc' He'.
    pose proof (same_frame_trans _ _ _ Hfr0 HfrA) as Hfr2.
    rewrite <- !(Centered_inputs_frame geometry e' n' s sA' Hfr2).
    destruct Hfr2 as (_ & Hs0 & Hc0). unfold implicit_scheme. rewrite <- Hc0, <- Hs0.
    apply HF. apply elem_of_app. by right.
  - by apply HQ2.
Qed.

Lemma centered_rejected_cases n implicit out :
  centered_rejected n implicit out ->
  (exists k, k < n /\ (is_nan (Res_Conv out k) \/ is_nan (Res_Visc out k)))
  \/ (implicit = true /\
      exists k l, k < n /\ l < n /\
        (is_nan (Jacobian_i out k l) \/ is_nan (Jacobian_j out k l))).
Proof.
  intros [(k & Hk & Hv)|[(k & Hk & Hv)|(Hi & [(k & l & Hk & Hl & Hv)|(k & l & Hk & Hl & Hv)])]].
  - left. exists k. split; [done|by left].
  - left. exists k. split; [done|by right].
  - right. split; [done|]. exists k, l. split; [done|]. split; [done|by left].
  - right. split; [done|]. exists k, l. split; [done|]. split; [done|by right].
Qed.

(** C2: an interior edge whose flux residual has a NaN (for the centered
    path: the convective or the dissipation residual, or a Jacobian block
    when the scheme is implicit) is discarded.  Processing it changes neither
    the residual vector nor the Jacobian; both edge loops return normally
    whatever the functor computes; and at the end of the loop the residual of
    every point other than the two endpoints of the edge is the one of a run
    with a functor [F'] that returns the same fluxes on all other edges
    (and anything, a flux without NaN included, on this one). *)
Theorem nan_edge_discarded (F F' : CNumerics_methods)
    (geometry : CGeometry) (iMesh iRKStep : nat) (numerics : CNumerics) (s : State)
    (l1 l2 : list CEdge) (e : CEdge) :
  edges geometry = l1 ++ e :: l2 ->
  let n := nVar (sizes s) in
  let outside q := ~ in_block n (Node0 e) q /\ ~ in_block n (Node1 e) q in
  (* the centered path *)
  ((forall numerics0 s0,
      let s' := (Centered_edge (numerics_methods := F) geometry (numerics0, s0) e).2 in
      centered_rejected (nVar (sizes s0)) (implicit_scheme s0) (scratch s') ->
      LinSysRes s' = LinSysRes s0 /\ Jacobian s' = Jacobian s0)
   /\ returns (Centered_Residual (numerics_methods := F) geometry numerics iMesh iRKStep s)
   /\ ((forall numerics0 sc, centered_rejected n (implicit_scheme s)
          (ComputeResidual_centered (CNumerics_methods := F)
             (Centered_inputs geometry s e numerics0) (config s) sc)) ->
       (forall e' numerics0 sc sc', e' ∈ l1 ++ l2 ->
          flux_agree n (implicit_scheme s)
            (ComputeResidual_centered (CNumerics_methods := F)
               (Centered_inputs geometry s e' numerics0) (config s) sc)
            (ComputeResidual_centered (CNumerics_methods := F')
               (Centered_inputs geometry s e' numerics0) (config s) sc')) ->
       forall q, outside q ->
         LinSysRes (final (Centered_Residual (numerics_methods := F)
                             geometry numerics iMesh iRKStep s)) q
         = LinSysRes (final (Centered_Residual (numerics_methods := F')
                               geometry numerics iMesh iRKStep s)) q))
  /\
  (* the upwind path *)
  ((forall numerics0 s0,
      has_nan (nVar (sizes s0))
        (ComputeResidual (CNumerics_methods := F)
           (Upwind_inputs geometry s0 iMesh e numerics0) (config s0)) ->
      (Upwind_edge (numerics_methods := F) geometry iMesh (numerics0, s0) e).2 = s0)
   /\ returns (Upwind_Residual (numerics_methods := F) geometry numerics iMesh s)
   /\ ((forall numerics0, has_nan n
          (ComputeResidual (CNumerics_methods := F)
             (Upwind_inputs geometry s iMesh e numerics0) (config s))) ->
       (forall e' numerics0 k, e' ∈ l1 ++ l2 -> k < n ->
          ComputeResidual (CNumerics_methods := F)
            (Upwind_inputs geometry s iMesh e' numerics0) (config s) k
          = ComputeResidual (CNumerics_methods := F')
              (Upwind_inputs geometry s iMesh e' numerics0) (config s) k) ->
       forall q, outside q ->
         LinSysRes (final (Upwind_Residual (numerics_methods := F)
                             geometry numerics iMesh s)) q
         = LinSysRes (final (Upwind_Residual (numerics_methods := F')
                               geometry numerics iMesh s)) q)).
Proof.
  intros Hedges n outside. split; (split; [|split; [done|]]).
  - intros numerics0 s0 s' Hrej.
    destruct (Centered_edge_rejected (numerics_methods := F) geometry numerics0 s0 e)
      as (HL & HJ & _); [|done].
    by apply centered_rejected_cases.
  - intros Hnan HF q [Hq0 Hq1]. unfold Centered_Residual, step. cbn [final].
    rewrite Hedges.
    apply (Centered_containment F F'); [|done|done|done].
    intros n0 sc. cbn zeta. by apply centered_rejected_cases.
  - intros numerics0 s0 Hnan. by apply Upwind_edge_rejected.
  - intros Hnan HF q [Hq0 Hq1]. unfold Upwind_Residual, step. cbn [final].
    rewrite Hedges. by apply (Upwind_containment F F').
Qed.

End Containment.

(** ** Examples on the small instance *)



(** A NaN injected on the edge from point 1 to point 2 of the small
    instance: the residual of point 0 is the one of the run without it, for
    the centered and for the upwind path. *)
Lemma nan_edge_discarded_witness :
  let s := ex_state ex_implicit in
  edges ex_geometry = [ex_edge01] ++ ex_edge12 :: []
  /\ (forall numerics0, has_nan 2
        (ComputeResidual (CNumerics_methods := ex_functors_nan)
           (Upwind_inputs (variable_methods := ex_variable)
              ex_geometry s 0 ex_edge12 numerics0) (config s)))
  /\ (forall k, k < 2 ->
        LinSysRes (final (Centered_Residual (numerics_methods := ex_functors_nan)
                            ex_geometry ex_numerics 0 0 s)) k
        = LinSysRes (final (Centered_Residual (numerics_methods := ex_functors)
                              ex_geometry ex_numerics 0 0 s)) k)
  /\ (forall k, k < 2 ->
        LinSysRes (final (Upwind_Residual (numerics_methods := ex_functors_nan)
                            (variable_methods := ex_variable)
                            ex_geometry ex_numerics 0 s)) k
        = LinSysRes (final (Upwind_Residual (numerics_methods := ex_functors)
                              (variable_methods := ex_variable)
                              ex_geometry ex_numerics 0 s)) k).
Proof.
  cbv zeta.
  assert (Hnan : forall numerics0, has_nan 2
            (ComputeResidual (CNumerics_methods := ex_functors_nan)
               (Upwind_inputs (variable_methods := ex_variable)
                  ex_geometry (ex_state ex_implicit) 0 ex_edge12 numerics0)
               (config (ex_state ex_implicit)))).
  { intros numerics0. exists 0. split; [lia|]. vm_compute. reflexivity. }
  destruct (nan_edge_discarded (variable_methods := ex_variable)
              ex_functors_nan ex_functors ex_geometry 0 0 ex_numerics
              (ex_state ex_implicit) [ex_edge01] [] ex_edge12 eq_refl)
    as [(_ & _ & Hc) (_ & _ & Hu)].
  split; [reflexivity|]. split; [exact Hnan|]. split.
  - intros k Hk. apply Hc.
    + intros numerics0 sc. right. left. exists 0. split; [cbn; lia|].
      vm_compute. reflexivity.
    + intros e' numerics0 sc sc' He'. apply list_elem_of_singleton in He' as ->.
      split.
      * intros j Hj. split; vm_compute; reflexivity.
      * intros _ j l _ _. split; reflexivity.
    + unfold in_block. cbn. lia.
  - intros k Hk. apply Hu.
    + exact Hnan.
    + intros e' numerics0 j He' Hj. apply list_elem_of_singleton in He' as ->.
      vm_compute. reflexivity.
    + unfold in_block. cbn. lia.
Defined.


(** At the boundary vertex of the small instance (point 2, state (3, 3),
    normal (1, 0)), the one vertex of marker 0, the functor receives the
    state of point 2 on both sides and the normal (-1, 0); the flux
    (3 + 3)(-1) = -6 is added to the first entry of the block of point 2,
    which is what the routine returns. *)
Lemma supersonic_outlet_zero_gradient_witness :
  let s := ex_state ex_explicit in
  let n := Supersonic_Outlet_inputs ex_geometry s ex_vertex2 ex_numerics in
  marker_vertices ex_geometry 0 = [] ++ ex_vertex2 :: []
  /\ Domain ex_geometry (vertex_Node ex_vertex2) = true
  /\ in_array n U_i = vec2 (Z2D 3) (Z2D 3) /\ in_array n U_j = vec2 (Z2D 3) (Z2D 3)
  /\ in_array n Normal 0 = (- one)%D
  /\ exists out, BC_Supersonic_Outlet (numerics_methods := ex_functors)
                   ex_geometry ex_numerics ex_numerics 0 s = Done out
       /\ LinSysRes out 4 = (Z2D 4 + Z2D (-6))%D.
Proof.
  cbv zeta.
  assert (Hmk : marker_vertices ex_geometry 0 = [] ++ ex_vertex2 :: []) by reflexivity.
  assert (Hd : Domain ex_geometry (vertex_Node ex_vertex2) = true) by reflexivity.
  destruct (supersonic_outlet_zero_gradient (numerics_methods := ex_functors)
              (variable_methods := ex_variable)
              ex_geometry ex_numerics ex_numerics 0 (ex_state ex_explicit)
              [] [] ex_vertex2 0 Hmk Hd)
    as (Hret & (Hi & Hj & _) & Hn & _ & Hadd & _).
  split; [exact Hmk|]. split; [exact Hd|]. split; [exact Hi|]. split; [exact Hj|]. split.
  - apply (Hn 0). cbn. lia.
  - eexists. split; [exact Hret|]. apply (Hadd 0). cbn. lia.
Defined.

(** At point 1 of the small instance the chemistry source is a NaN: it is
    counted and skipped, while the axisymmetric source (2, 3) is added and the
    vibrational source (2, 3) subtracted; the loop has been at point 0 before
    and goes on to point 2. *)
Lemma source_terms_checked_one_by_one_witness :
  let s := ex_state (ex_config EULER_EXPLICIT false NO TD_CONDITIONS false true) in
  let c0 := {| eAxi_local := 0; eChm_local := 0; eVib_local := 0 |} in
  let run m := for_loop m (Source_point (numerics_methods := ex_functors_nan) ex_geometry)
                 (ex_numerics, (c0, Source_reset s)) in
  1 < nPointDomain (sizes s)
  /\ (run 1).2.1 = c0
  /\ (run 2).2.1 = {| eAxi_local := 0; eChm_local := 1; eVib_local := 0 |}
  /\ LinSysRes (run 2).2.2 3 = (LinSysRes (run 1).2.2 3 + Z2D 3 - Z2D 3)%D
  /\ LinSysRes (run 2).2.2 4 = LinSysRes (run 1).2.2 4
  /\ Source_Residual (numerics_methods := ex_functors_nan) ex_geometry ex_numerics 0 s
     = Done (Source_warning (run 3).2.1 (run 3).2.2).
Proof.
  cbv zeta.
  destruct (source_terms_checked_one_by_one (numerics_methods := ex_functors_nan)
              ex_geometry ex_numerics 0
              (ex_state (ex_config EULER_EXPLICIT false NO TD_CONDITIONS false true)))
    as (Hret & _ & Hpoint & _).
  assert (Hi : 1 < nPointDomain (sizes (ex_state
                 (ex_config EULER_EXPLICIT false NO TD_CONDITIONS false true))))
    by (cbn; lia).
  destruct (Hpoint 1 Hi) as (_ & Hin & Hout & _).
  split; [exact Hi|]. split; [vm_compute; reflexivity|].
  split; [vm_compute; reflexivity|]. split; [|split].
  - exact (Hin 1 ltac:(cbn; lia)).
  - apply (Hout 4). unfold in_block. cbn. lia.
  - exact Hret.
Defined.

(** Point 0 of the small instance in steady mode: CFL 2, volume 4 and
    spectral radius 2 give the local step 4, stored as the configured
    maximum 1. *)
Lemma local_time_step_witness :
  let s := ex_state ex_explicit in
  let s1 := TimeStep_spectral_radii (variable_methods := ex_variable) ex_geometry s in
  let out := (TimeStep_local ex_geometry 0 s1).2 in
  let dt := node_scalar (nodes out) Delta_Time 0 in
  0 < nPointDomain (sizes s)
  /\ is_pos_finite (Get (config s) (CFL 0))
  /\ is_pos_finite (Volume ex_geometry 0)
  /\ is_pos_finite (node_scalar (nodes s1) Max_Lambda_Inv 0)
  /\ fle zero (Get (config s) Max_DeltaTime) = true
  /\ node_scalar (nodes s1) Max_Lambda_Inv 0 = Z2D 2
  /\ dt = one /\ fle zero dt = true /\ fle dt (Get (config s) Max_DeltaTime) = true
  /\ SetTime_Step (variable_methods := ex_variable) ex_geometry 0 0 s = Done out.
Proof.
  cbv zeta.
  assert (Hi : 0 < nPointDomain (sizes (ex_state ex_explicit))) by (cbn; lia).
  destruct (local_time_step (variable_methods := ex_variable)
              ex_geometry 0 0 (ex_state ex_explicit) 0 Hi)
    as (Hsteady & Hstored & Hbounds & _).
  assert (Hcfl : is_pos_finite (Get (config (ex_state ex_explicit)) (CFL 0)))
    by (vm_compute; exact I).
  assert (Hvol : is_pos_finite (Volume ex_geometry 0)) by (vm_compute; exact I).
  assert (Hinv : is_pos_finite
            (node_scalar (nodes (TimeStep_spectral_radii (variable_methods := ex_variable)
                                   ex_geometry (ex_state ex_explicit))) Max_Lambda_Inv 0))
    by (vm_compute; exact I).
  assert (Hmax : fle zero (Get (config (ex_state ex_explicit)) Max_DeltaTime) = true)
    by (vm_compute; reflexivity).
  destruct Hbounds as [Hlo Hhi]; [exact Hcfl|exact Hvol|exact Hinv|discriminate|exact Hmax|].
  destruct Hstored as [Hdt _]; [vm_compute; reflexivity|].
  split; [exact Hi|]. split; [exact Hcfl|]. split; [exact Hvol|].
  split; [exact Hinv|]. split; [exact Hmax|].
  split; [vm_compute; reflexivity|].
  split; [rewrite Hdt; vm_compute; reflexivity|].
  split; [exact Hlo|]. split; [exact Hhi|].
  apply Hsteady; vm_compute; reflexivity.
Defined.

(** A cell turned inside out: on the small mesh with the volume of point 0
    set to -4, in steady mode, the volume is nonzero, the routine returns,
    and the step stored for point 0 is 2 (-4) / 2 = -4: it is not between 0
    and the configured maximum 1. *)
Lemma local_time_step_negative_volume :
  let s := ex_state ex_explicit in
  let out := final (SetTime_Step (variable_methods := ex_variable)
                      ex_geometry_inverted 0 0 s) in
  let dt := node_scalar (nodes out) Delta_Time 0 in
  time_steping s = false /\ dual_time s = false
  /\ 0 < nPointDomain (sizes s)
  /\ fne (Volume ex_geometry_inverted 0) zero = true
  /\ returns (SetTime_Step (variable_methods := ex_variable) ex_geometry_inverted 0 0 s)
  /\ dt = Z2D (-4)
  /\ fle zero dt = false
  /\ ~ (fle zero dt = true /\ fle dt (Get (config s) Max_DeltaTime) = true).
Proof.
  cbv zeta. split; [reflexivity|]. split; [reflexivity|]. split; [cbn; lia|].
  split; [reflexivity|]. split; [vm_compute; eauto|].
  split; [vm_compute; reflexivity|]. split; [vm_compute; reflexivity|].
  intros [H _]. vm_compute in H. discriminate H.
Qed.

(** C10: SetTime_Step takes Min_Delta_Time, Max_Delta_Time and the global
    step of the time-stepping mode from the local steps as they are before
    the configured maximum is applied: the minimum, the maximum and again the
    minimum of the uncapped local steps over the owned points of nonzero
    volume; the maximum only replaces the value stored for the point.  In
    time-stepping mode with a nonzero unsteady CFL number every owned point
    then gets the global step, which the configured maximum does not limit:
    there is a run in which the step assigned to a point is greater than the
    configured maximum. *)
Theorem global_time_step_not_capped :
  (forall (V : CNEMOEulerVariable_methods) (geometry : CGeometry) (iMesh Iteration : nat)
          (s : State),
     let s1 := TimeStep_spectral_radii geometry s in
     let n := nPointDomain (sizes s) in
     let Global_Delta_Time := min_uncapped geometry iMesh s1 n big_Delta_Time in
     exists out, SetTime_Step geometry iMesh Iteration s = Done out
       /\ (TimeStep_local geometry iMesh s1).1 = Global_Delta_Time
       /\ Min_Delta_Time out = Global_Delta_Time
       /\ Max_Delta_Time out = max_uncapped geometry iMesh s1 n zero
       /\ (forall j, j < n ->
             node_scalar (nodes (TimeStep_local geometry iMesh s1).2) Delta_Time j
             = if fne (Volume geometry j) zero
               then capped s (Local_Delta_Time geometry iMesh s1 j) else zero)
       /\ (time_steping s = true -> feq (Get (config s) Unst_CFL) zero = false ->
           forall j, j < n -> node_scalar (nodes out) Delta_Time j = Global_Delta_Time))
  /\ (exists (V : CNEMOEulerVariable_methods) (geometry : CGeometry) (iMesh Iteration : nat)
             (s out : State),
        time_steping s = true
        /\ SetTime_Step geometry iMesh Iteration s = Done out
        /\ forall j, j < nPointDomain (sizes s) ->
             fgt (node_scalar (nodes out) Delta_Time j) (Get (config s) Max_DeltaTime) = true).
Proof.
  split.
  - intros V geometry iMesh Iteration s. cbv zeta.
    destruct (SetTime_Step_extrema geometry iMesh Iteration s) as (out & Hout & Hmin & Hmax & Hts).
    destruct (TimeStep_spectral_radii_frame geometry s) as (Hc1 & Hs1 & _).
    destruct (TimeStep_local_spec geometry iMesh (TimeStep_spectral_radii geometry s))
      as (HG & _ & _ & _ & _ & _ & Hdt).
    rewrite Hs1 in HG, Hdt.
    exists out. repeat split; try done.
    intros j Hj. rewrite (Hdt j Hj). unfold capped. by rewrite Hc1.
  - exists ex_variable, ex_geometry, 0, 0,
      (ex_state (ex_config EULER_EXPLICIT false TIME_STEPPING TD_CONDITIONS false false)).
    eexists. split; [reflexivity|]. split; [reflexivity|].
    intros j Hj. change (j < 3) in Hj.
    destruct j as [|[|[|j]]]; [vm_compute; reflexivity..|lia].
Qed.

(** The small instance in time-stepping mode: the unsteady CFL number is 3,
    the configured maximum is 1, and every point gets the global step. *)
Lemma global_time_step_not_capped_witness :
  let s := ex_state (ex_config EULER_EXPLICIT false TIME_STEPPING TD_CONDITIONS false false) in
  let G := min_uncapped ex_geometry 0
             (TimeStep_spectral_radii (variable_methods := ex_variable) ex_geometry s)
             3 big_Delta_Time in
  time_steping s = true /\ feq (Get (config s) Unst_CFL) zero = false
  /\ fgt G (Get (config s) Max_DeltaTime) = true
  /\ exists out, SetTime_Step (variable_methods := ex_variable) ex_geometry 0 0 s = Done out
       /\ forall j, j < 3 -> node_scalar (nodes out) Delta_Time j = G.
Proof.
  cbv zeta.
  destruct global_time_step_not_capped as [Hall _].
  destruct (Hall ex_variable ex_geometry 0 0
              (ex_state (ex_config EULER_EXPLICIT false TIME_STEPPING TD_CONDITIONS false false)))
    as (out & Hout & _ & _ & _ & _ & Hts).
  split; [reflexivity|]. split; [vm_compute; reflexivity|].
  split; [vm_compute; reflexivity|].
  exists out. split; [exact Hout|].
  apply Hts; [reflexivity|vm_compute; reflexivity].
Defined.

(** The small instance with the implicit scheme: point 1 has a zero time
    step, point 0 has volume 4 and time step 1/2.  The row of point 1 is the
    identity with a zero right-hand side; the vector that is 7 at the other
    points and zero at point 1 satisfies the two equations of point 1. *)
Lemma implicit_system_degenerate_cells_witness :
  let s := ex_state ex_implicit in
  let sys := Implicit_system ex_geometry s in
  1 < nPointDomain (sizes s)
  /\ fne (node_scalar (nodes s) Delta_Time 1) zero = false
  /\ doubles ex_unknowns
  /\ solves_point 2 3 (Jacobian sys) (LinSysRes sys) ex_unknowns 1
  /\ identity_row 1 (Jacobian sys)
  /\ (forall k, k < 2 -> is_zero (ex_unknowns (1 * 2 + k)))
  /\ Jacobian sys !! (0, 0) = Some (block_add 2 (diag_block (Z2D 8)) (diag_block (Z2D 5))).
Proof.
  cbv zeta.
  assert (Hi : 1 < nPointDomain (sizes (ex_state ex_implicit))) by (cbn; lia).
  assert (Hdt : fne (node_scalar (nodes (ex_state ex_implicit)) Delta_Time 1) zero = false)
    by (vm_compute; reflexivity).
  assert (Hx : doubles ex_unknowns).
  { intros q. destruct q as [|[|[|[|q]]]]; reflexivity. }
  assert (Hsolves : solves_point 2 3 (Jacobian (Implicit_system ex_geometry (ex_state ex_implicit)))
                      (LinSysRes (Implicit_system ex_geometry (ex_state ex_implicit)))
                      ex_unknowns 1).
  { intros k Hk. destruct k as [|[|k]]; [vm_compute; reflexivity..|lia]. }
  destruct (implicit_system_degenerate_cells (solve_methods := ex_solve)
              (solver_methods := ex_solver) ex_geometry (ex_state ex_implicit) 1 Hi)
    as (_ & _ & Hzero).
  destruct (Hzero Hdt) as (Hrow & _ & _ & Hsol).
  split; [exact Hi|]. split; [exact Hdt|]. split; [exact Hx|]. split; [exact Hsolves|].
  split; [exact Hrow|]. split; [exact (Hsol 3 ex_unknowns ltac:(lia) Hx Hsolves)|].
  vm_compute. reflexivity.
Defined.

(** The small instance, inviscid, with the user-defined fluid model and the
    Reynolds-number option: the routine returns, and the console of rank 0
    ends with the report, not with an error block. *)
Lemma reynolds_option_inviscid_returns :
  let s := ex_state (ex_config EULER_EXPLICIT false NO REYNOLDS false false) in
  Kind_FluidModel (config s) = USER_DEFINED_NONEQ
  /\ reynolds_init s = true
  /\ exists out,
       SetNondimensionalization (libm := ex_libm) (consts := ex_constants)
         (tclib := ex_tclib) (printer := ex_printer) MESH_0 s = Some (Done out)
       /\ cout out
          = ["Inviscid flow: Computing density based on free-stream"; endl;
             "and pressure using the the equation of state for multi-species and multi-temperatures."; endl;
             "Force coefficients computed using free-stream values."; endl;
             endl; "-- Models:"; endl].
Proof.
  cbv zeta. split; [reflexivity|]. split; [reflexivity|].
  eexists. split; [reflexivity|]. vm_compute. reflexivity.
Qed.

Lemma reynolds_option_fatal_when_viscous_witness :
  let s := ex_state (ex_config EULER_EXPLICIT true NO REYNOLDS false false) in
  Kind_FluidModel (config s) = USER_DEFINED_NONEQ
  /\ reynolds_init s = true /\ Viscous (config s) = true
  /\ exists s', SetNondimensionalization (libm := ex_libm) (consts := ex_constants)
                  (tclib := ex_tclib) (printer := ex_printer) MESH_0 s
                = Some (Aborted 0 s').
Proof.
  cbv zeta.
  assert (Hkind : Kind_FluidModel
            (config (ex_state (ex_config EULER_EXPLICIT true NO REYNOLDS false false)))
            = USER_DEFINED_NONEQ) by reflexivity.
  assert (Hre : reynolds_init
            (ex_state (ex_config EULER_EXPLICIT true NO REYNOLDS false false)) = true)
    by reflexivity.
  destruct (reynolds_option_fatal_when_viscous (libm := ex_libm) (consts := ex_constants)
              (tclib := ex_tclib) (printer := ex_printer) MESH_0 _ Hkind Hre)
    as (_ & Hv & _).
  split; [exact Hkind|]. split; [exact Hre|]. split; [reflexivity|].
  destruct Hv as (s' & Hab & _); [reflexivity|].
  eexists. exact Hab.
Defined.

(* ===================================================================== *)
(** * Part II, continued. Properties of the further routines              *)
(* ===================================================================== *)

(** ** More facts of binary64 arithmetic *)

Lemma fmul_nan_r x : (x * NaN)%D = NaN.
Proof. by destruct x. Qed.

Lemma fadd_nan_r x : (x + NaN)%D = NaN.
Proof. by destruct x. Qed.


Lemma fadd_zero_zero x y : is_zero x -> is_zero y -> is_zero (x + y)%D.
Proof.
  intros [sx ->] [sy ->]. destruct sx, sy; by eexists.
Qed.

Lemma fadd_zero_r x y : is_zero y -> x <> S754_nan -> same_number (x + y)%D x.
Proof.
  intros [sy ->] Hx. unfold same_number, feq, fadd.
  destruct x as [sx|sx| |sx mx ex]; try done.
  - by destruct sx, sy.
  - by destruct sx.
  - change (SFadd prec emax (S754_finite sx mx ex) (S754_zero sy))
      with (S754_finite sx mx ex).
    unfold SFeqb. by rewrite SFcompare_refl.
Qed.

Lemma fdiv_zero_finite x y : is_zero x -> is_finite y -> ~ is_zero y -> is_zero (x / y)%D.
Proof.
  intros [sx ->] Hy Hnz. destruct y as [sy|sy| |sy my ey]; try done.
  - destruct Hnz. by eexists.
  - cbn. by eexists.
Qed.

Lemma fmul_finite_zero x y : is_finite x -> is_zero y -> is_zero (x * y)%D.
Proof.
  intros Hx [sy ->]. destruct x as [sx|sx| |sx mx ex]; try done; cbn; by eexists.
Qed.

Lemma fneg_finite x : is_finite x -> is_finite (- x)%D.
Proof. by destruct x. Qed.

(** ** The explicit schemes *)

Section ExplicitProperties.

Context {solver_methods : CSolver_methods}.
Context {geometry_getters : CGeometry_getters} {config_getters : CConfig_getters}.

(** The sweep over the variables of one point. *)
Lemma solution_sweep_spec geometry inc i s :
  let out := solution_sweep geometry inc i s in
  let n := nVar (sizes s) in
  sizes out = sizes s /\ config out = config s /\ LinSysRes out = LinSysRes s
  /\ LinSysSol out = LinSysSol s /\ Jacobian out = Jacobian s
  /\ node_scalar (nodes out) = node_scalar (nodes s)
  /\ (forall y j k, y <> Solution \/ j <> i \/ n <= k ->
        node_array (nodes out) y j k = node_array (nodes s) y j k)
  /\ (forall k, k < n ->
        node_array (nodes out) Solution i k
        = (node_array (nodes s) Solution i k + inc (explicit_Res s i k))%D).
Proof.
  cbv zeta. unfold solution_sweep. cbv zeta.
  enough (Hloop : forall m, m <= nVar (sizes s) ->
    let out := for_loop m (fun iVar s0 =>
      let Res := (GetBlock (nVar (sizes s)) i (LinSysRes s0) iVar
                  + node_array (nodes s0) ResTruncError i iVar)%D in
      s0 |> set_nodes (AddSolution i iVar (inc Res))
         |> set_monitor (AddRes_RMS iVar (Res * Res)%D)
         |> set_monitor (AddRes_Max iVar (fabs Res) (GlobalIndex geometry i)
                                    (Coord geometry i))) s in
    sizes out = sizes s /\ config out = config s /\ LinSysRes out = LinSysRes s
    /\ LinSysSol out = LinSysSol s /\ Jacobian out = Jacobian s
    /\ node_scalar (nodes out) = node_scalar (nodes s)
    /\ (forall y j k, y <> Solution \/ j <> i \/ m <= k ->
          node_array (nodes out) y j k = node_array (nodes s) y j k)
    /\ (forall k, k < m ->
          node_array (nodes out) Solution i k
          = (node_array (nodes s) Solution i k + inc (explicit_Res s i k))%D)).
  { exact (Hloop (nVar (sizes s)) (le_n _)). }
  intros m. induction m as [|m IH]; intros Hm; cbv zeta.
  { rewrite for_loop_0. repeat split; try done; lia. }
  rewrite for_loop_S. destruct IH as (E1 & E2 & E3 & E4 & E5 & E6 & E7 & E8); [lia|].
  set (s1 := for_loop m _ s) in *. clearbody s1.
  cbn [sizes config LinSysRes LinSysSol Jacobian nodes set_nodes set_monitor].
  split; [done|]. split; [done|]. split; [done|]. split; [done|]. split; [done|].
  split; [done|]. unfold AddSolution. split.
  - intros y j k Hyjk. rewrite SetArrayEntry_lookup, decide_False; [apply E7|].
    + destruct Hyjk as [?|[?|?]]; [by left|by right; left|right; right; lia].
    + intros (<- & <- & <-). destruct Hyjk as [?|[?|?]]; [done|done|lia].
  - intros k Hk. rewrite SetArrayEntry_lookup.
    destruct (decide (k = m)) as [->|Hne].
    + rewrite decide_True by done. rewrite (E7 Solution i m) by (right; right; lia).
      unfold explicit_Res, GetBlock. cbv zeta. rewrite E3.
      by rewrite (E7 ResTruncError i m) by (by left).
    + rewrite decide_False by (intros (_ & _ & ?); done). apply E8. lia.
Qed.

(** The loop over the owned points, for an increment that depends on the
    point and, through the per-point scalars, on the state. *)
Lemma explicit_loop_spec geometry (inc : State -> nat -> su2double -> su2double) n s0 :
  (forall s s' i, sizes s = sizes s' -> node_scalar (nodes s) = node_scalar (nodes s') ->
                  inc s i = inc s' i) ->
  let out := for_loop n (fun i s => solution_sweep geometry (inc s i) i s) s0 in
  let nV := nVar (sizes s0) in
  sizes out = sizes s0 /\ config out = config s0 /\ LinSysRes out = LinSysRes s0
  /\ LinSysSol out = LinSysSol s0 /\ Jacobian out = Jacobian s0
  /\ node_scalar (nodes out) = node_scalar (nodes s0)
  /\ (forall y j k, y <> Solution \/ n <= j \/ nV <= k ->
        node_array (nodes out) y j k = node_array (nodes s0) y j k)
  /\ (forall j k, j < n -> k < nV ->
        node_array (nodes out) Solution j k
        = (node_array (nodes s0) Solution j k + inc s0 j (explicit_Res s0 j k))%D).
Proof.
  intros Hinc. cbv zeta. induction n as [|n IH].
  { rewrite for_loop_0. repeat split; try done; lia. }
  rewrite for_loop_S. destruct IH as (E1 & E2 & E3 & E4 & E5 & E6 & E7 & E8).
  set (s1 := for_loop n _ s0) in *. clearbody s1.
  destruct (solution_sweep_spec geometry (inc s1 n) n s1)
    as (P1 & P2 & P3 & P4 & P5 & P6 & P7 & P8).
  cbv zeta in *. rewrite P1, P2, P3, P4, P5, P6, E1 in *.
  split; [done|]. split; [done|]. split; [done|]. split; [done|]. split; [done|].
  split; [done|]. split.
  - intros y j k Hyjk. rewrite P7; [apply E7|].
    + destruct Hyjk as [?|[?|?]]; [by left|right; left; lia|by right; right].
    + destruct Hyjk as [?|[?|?]]; [by left|right; left; lia|by right; right].
  - intros j k Hj Hk. destruct (decide (j = n)) as [->|Hne].
    + rewrite (P8 k Hk). rewrite (E7 Solution n k) by (right; left; lia).
      rewrite (Hinc s1 s0 n E1 E6). do 2 f_equal.
      unfold explicit_Res. cbv zeta. rewrite E1, E3.
      by rewrite (E7 ResTruncError n k) by (by left).
    + rewrite P7 by (right; left; done). apply E8; [lia|done].
Qed.

(** After the reset every residual norm below [nVar] is zero. *)
Lemma Implicit_reset_monitor s iVar :
  iVar < nVar (sizes s) ->
  Residual_RMS (monitor (Implicit_reset s)) iVar = zero
  /\ Residual_Max (monitor (Implicit_reset s)) iVar = zero.
Proof.
  unfold Implicit_reset. generalize (nVar (sizes s)) as n. intros n.
  induction n as [|n IH]; intros Hi; [lia|].
  rewrite for_loop_S. cbn [monitor set_monitor SetRes_RMS SetRes_Max Residual_RMS Residual_Max].
  rewrite !array_insert_lookup.
  destruct (decide (n = iVar)) as [->|Hne]; [done|]. apply IH. lia.
Qed.

Lemma ExplicitEuler_update_eq geometry s :
  Continuous_Adjoint (config s) = false ->
  ExplicitEuler_update geometry s
  = for_loop (nPointDomain (sizes s))
      (fun i s0 => solution_sweep geometry
         (fun Res => ((- Res) * (node_scalar (nodes s0) Delta_Time i
                                 / (Volume geometry i + GetPeriodicVolume geometry i)))%D)
         i s0)
      (Implicit_reset s).
Proof. intros Hadj. unfold ExplicitEuler_update. cbv zeta. by rewrite Hadj. Qed.

(** X1: the loop over the owned points of ExplicitEuler_Iteration, when the
    run is not a continuous adjoint one.  [out] is the state the loop leaves,
    the one the routine hands to the halo exchange of the solution it ends
    with; what the exchange then writes to the ghost points is not part of
    the statement.  In [out] every entry below nVar of the solution of an
    owned point has -Res * Delta added, with Res the residual plus the
    truncation error of the entry and Delta the time step of the point over
    its volume plus its periodic volume.  The solution of the other points,
    the entries from nVar on, every other per-point array and scalar, the
    residual vector and the Jacobian are in [out] as before the routine. *)
Theorem explicit_euler_update (geometry : CGeometry) (s : State) :
  Continuous_Adjoint (config s) = false ->
  let out := ExplicitEuler_update geometry s in
  let nV := nVar (sizes s) in
  ExplicitEuler_Iteration geometry s
  = (step (InitiateComms_SOLUTION geometry) ;; step (CompleteComms_SOLUTION geometry) ;;
     SetResidual_RMS geometry) out
  /\ (forall iPoint iVar, iPoint < nPointDomain (sizes s) -> iVar < nV ->
        let Delta := (node_scalar (nodes s) Delta_Time iPoint
                      / (Volume geometry iPoint + GetPeriodicVolume geometry iPoint))%D in
        node_array (nodes out) Solution iPoint iVar
        = (node_array (nodes s) Solution iPoint iVar
           + (- explicit_Res s iPoint iVar) * Delta)%D)
  /\ (forall y iPoint iVar, y <> Solution \/ nPointDomain (sizes s) <= iPoint \/ nV <= iVar ->
        node_array (nodes out) y iPoint iVar = node_array (nodes s) y iPoint iVar)
  /\ node_scalar (nodes out) = node_scalar (nodes s)
  /\ LinSysRes out = LinSysRes s /\ Jacobian out = Jacobian s.
Proof.
  intros Hadj. cbv zeta. split; [reflexivity|].
  rewrite (ExplicitEuler_update_eq geometry s Hadj).
  destruct (Implicit_reset_frame s) as (F1 & F2 & F3 & F4 & F5).
  destruct (explicit_loop_spec geometry
              (fun s0 i Res => ((- Res) * (node_scalar (nodes s0) Delta_Time i
                   / (Volume geometry i + GetPeriodicVolume geometry i)))%D)
              (nPointDomain (sizes s)) (Implicit_reset s))
    as (E1 & E2 & E3 & E4 & E5 & E6 & E7 & E8).
  { by intros s1 s2 i _ ->. }
  cbv zeta in *. rewrite F1, F2, F3, F4 in *.
  assert (HRes : forall i k, explicit_Res (Implicit_reset s) i k = explicit_Res s i k).
  { intros i k. unfold explicit_Res. cbv zeta. by rewrite F1, F2, F4. }
  split; [|done].
  intros iPoint iVar Hi Hk. rewrite (E8 iPoint iVar Hi Hk). by rewrite HRes.
Qed.

(** X2: in a continuous adjoint run ExplicitEuler_Iteration updates nothing:
    the loop over the points leaves the per-point storage, the residual
    vector and the Jacobian as they are, and the residual norms it hands to
    the communication are the zeros of the reset. *)
Theorem explicit_euler_adjoint_no_update (geometry : CGeometry) (s : State) :
  Continuous_Adjoint (config s) = true ->
  let out := ExplicitEuler_update geometry s in
  nodes out = nodes s /\ LinSysRes out = LinSysRes s /\ Jacobian out = Jacobian s
  /\ (forall iVar, iVar < nVar (sizes s) ->
        Residual_RMS (monitor out) iVar = zero /\ Residual_Max (monitor out) iVar = zero).
Proof.
  intros Hadj. cbv zeta.
  assert (Heq : ExplicitEuler_update geometry s = Implicit_reset s).
  { unfold ExplicitEuler_update. cbv zeta. rewrite Hadj.
    apply (for_loop_ind (fun _ out => out = Implicit_reset s)); [done|].
    by intros i a _ ->. }
  rewrite Heq. destruct (Implicit_reset_frame s) as (F1 & F2 & F3 & F4 & F5).
  split; [done|]. split; [done|]. split; [done|]. apply Implicit_reset_monitor.
Qed.


(** X4: a zero time step freezes the point.  When the time step of an owned
    point is zero, its volume plus periodic volume is finite and not zero,
    and the residual of an entry is finite, ExplicitEuler_Iteration leaves
    the entry of the solution the number it was (a zero may change its
    sign), unless it was a NaN. *)
Theorem explicit_euler_zero_step_freezes
    (geometry : CGeometry) (s : State) (iPoint iVar : nat) :
  Continuous_Adjoint (config s) = false ->
  iPoint < nPointDomain (sizes s) -> iVar < nVar (sizes s) ->
  is_zero (node_scalar (nodes s) Delta_Time iPoint) ->
  is_finite (Volume geometry iPoint + GetPeriodicVolume geometry iPoint)%D ->
  ~ is_zero (Volume geometry iPoint + GetPeriodicVolume geometry iPoint)%D ->
  is_finite (explicit_Res s iPoint iVar) ->
  ~ is_nan (node_array (nodes s) Solution iPoint iVar) ->
  same_number (node_array (nodes (ExplicitEuler_update geometry s)) Solution iPoint iVar)
              (node_array (nodes s) Solution iPoint iVar).
Proof.
  intros Hadj Hi Hk Hdt Hfin Hnz HRes Hnan.
  rewrite (ExplicitEuler_update_eq geometry s Hadj).
  destruct (Implicit_reset_frame s) as (F1 & F2 & F3 & F4 & F5).
  destruct (explicit_loop_spec geometry
              (fun s0 i Res => ((- Res) * (node_scalar (nodes s0) Delta_Time i
                   / (Volume geometry i + GetPeriodicVolume geometry i)))%D)
              (nPointDomain (sizes s)) (Implicit_reset s))
    as (_ & _ & _ & _ & _ & _ & _ & E8).
  { by intros s1 s2 i _ ->. }
  cbv zeta in E8. rewrite F1 in E8. rewrite (E8 iPoint iVar Hi Hk), F2.
  assert (HR : explicit_Res (Implicit_reset s) iPoint iVar = explicit_Res s iPoint iVar).
  { unfold explicit_Res. cbv zeta. by rewrite F1, F2, F4. }
  rewrite HR. apply fadd_zero_r; [|done].
  apply fmul_finite_zero; [by apply fneg_finite|]. by apply fdiv_zero_finite.
Qed.

Lemma ExplicitRK_update_eq geometry iRKStep s :
  ExplicitRK_update geometry iRKStep s
  = for_loop (nPointDomain (sizes s))
      (fun i s0 => solution_sweep geometry
         (fun Res => ((- Res) * (node_scalar (nodes s0) Delta_Time i / Volume geometry i)
                      * Get_Alpha_RKStep (config s) iRKStep)%D)
         i s0)
      (Implicit_reset s).
Proof. reflexivity. Qed.

(** X5: the loop over the owned points of ExplicitRK_Iteration.  [out] is
    the state the loop leaves, the one the routine hands to the halo exchange
    of the solution it ends with; what the exchange then writes to the ghost
    points is not part of the statement.  In [out] every entry below nVar of
    the solution of an owned point has -Res * Delta * alpha added, with alpha
    the coefficient of the Runge-Kutta step and Delta the time step over the
    volume alone; the continuous adjoint flag is not looked at.  Everything
    else of the per-point storage, the residual vector and the Jacobian are
    in [out] as before the routine. *)
Theorem explicit_rk_update (geometry : CGeometry) (iRKStep : nat) (s : State) :
  let out := ExplicitRK_update geometry iRKStep s in
  let nV := nVar (sizes s) in
  ExplicitRK_Iteration geometry iRKStep s
  = (step (InitiateComms_SOLUTION geometry) ;; step (CompleteComms_SOLUTION geometry) ;;
     SetResidual_RMS geometry) out
  /\ (forall iPoint iVar, iPoint < nPointDomain (sizes s) -> iVar < nV ->
        let Delta := (node_scalar (nodes s) Delta_Time iPoint / Volume geometry iPoint)%D in
        node_array (nodes out) Solution iPoint iVar
        = (node_array (nodes s) Solution iPoint iVar
           + (- explicit_Res s iPoint iVar) * Delta * Get_Alpha_RKStep (config s) iRKStep)%D)
  /\ (forall y iPoint iVar, y <> Solution \/ nPointDomain (sizes s) <= iPoint \/ nV <= iVar ->
        node_array (nodes out) y iPoint iVar = node_array (nodes s) y iPoint iVar)
  /\ node_scalar (nodes out) = node_scalar (nodes s)
  /\ LinSysRes out = LinSysRes s /\ Jacobian out = Jacobian s.
Proof.
  cbv zeta. split; [reflexivity|].
  rewrite (ExplicitRK_update_eq geometry iRKStep s).
  destruct (Implicit_reset_frame s) as (F1 & F2 & F3 & F4 & F5).
  destruct (explicit_loop_spec geometry
              (fun s0 i Res => ((- Res) * (node_scalar (nodes s0) Delta_Time i
                   / Volume geometry i) * Get_Alpha_RKStep (config s) iRKStep)%D)
              (nPointDomain (sizes s)) (Implicit_reset s))
    as (E1 & E2 & E3 & E4 & E5 & E6 & E7 & E8).
  { by intros s1 s2 i _ ->. }
  cbv zeta in *. rewrite F1, F2, F3, F4 in *.
  assert (HRes : forall i k, explicit_Res (Implicit_reset s) i k = explicit_Res s i k).
  { intros i k. unfold explicit_Res. cbv zeta. by rewrite F1, F2, F4. }
  split; [|done].
  intros iPoint iVar Hi Hk. rewrite (E8 iPoint iVar Hi Hk). by rewrite HRes.
Qed.

End ExplicitProperties.

(** ** The spectral radii *)

Lemma foldl_rel {A B C : Type} (R : A -> B -> Prop) (f : A -> C -> A) (g : B -> C -> B)
    (l : list C) a b :
  R a b -> (forall a b x, x ∈ l -> R a b -> R (f a x) (g b x)) ->
  R (foldl f a l) (foldl g b l).
Proof.
  revert a b. induction l as [|x l IH]; intros a b Hab Hstep; [done|]. cbn [foldl].
  apply IH.
  - apply Hstep; [by left|done].
  - intros a' b' y Hy. apply Hstep. by right.
Qed.

Lemma for_loop_rel {A B : Type} (R : nat -> A -> B -> Prop) n
    (f : nat -> A -> A) (g : nat -> B -> B) a b :
  R 0 a b -> (forall i a b, i < n -> R i a b -> R (S i) (f i a) (g i b)) ->
  R n (for_loop n f a) (for_loop n g b).
Proof.
  intros H0 Hstep. induction n as [|n IH]; [done|].
  rewrite !for_loop_S. apply Hstep; [lia|]. apply IH. intros i a' b' Hi. apply Hstep. lia.
Qed.

Section RadiiProperties.

Context {variable_methods : CNEMOEulerVariable_methods}.
Context {solver_comms : CSolver_comms}.

(** An accumulation reaches the scalar of its own point, and only when the
    point belongs to the domain. *)
Lemma AddMax_Lambda_lookup x geometry iPoint v s y p :
  node_scalar (nodes (AddMax_Lambda x geometry iPoint v s)) y p
  = if Domain geometry iPoint && bool_decide (x = y /\ iPoint = p)
    then (node_scalar (nodes s) x iPoint + v)%D
    else node_scalar (nodes s) y p.
Proof.
  unfold AddMax_Lambda. destruct (Domain geometry iPoint); [|done].
  cbn [andb nodes set_nodes]. unfold AddScalar. rewrite SetScalar_lookup.
  destruct (decide (x = y)) as [->|Hxy].
  - destruct (decide (iPoint = p)) as [->|Hp].
    + by rewrite bool_decide_eq_true_2.
    + by rewrite bool_decide_eq_false_2 by (intros [_ ?]; done).
  - by rewrite bool_decide_eq_false_2 by (intros [? _]; done).
Qed.

Lemma AddMax_Lambda_other x geometry iPoint v s y p :
  Domain geometry p = false \/ p <> iPoint ->
  node_scalar (nodes (AddMax_Lambda x geometry iPoint v s)) y p = node_scalar (nodes s) y p.
Proof.
  intros Hp. rewrite AddMax_Lambda_lookup.
  destruct (Domain geometry iPoint) eqn:Hd; [|done]. cbn [andb].
  rewrite bool_decide_eq_false_2; [done|].
  intros [_ <-]. destruct Hp as [Hp|Hp]; [congruence|done].
Qed.

Lemma AddMax_Lambda_fields x geometry iPoint v s :
  sizes (AddMax_Lambda x geometry iPoint v s) = sizes s
  /\ config (AddMax_Lambda x geometry iPoint v s) = config s
  /\ node_array (nodes (AddMax_Lambda x geometry iPoint v s)) = node_array (nodes s).
Proof. unfold AddMax_Lambda. by destruct (Domain geometry iPoint). Qed.

(** The loops over the edges and over the boundary vertices, for any two
    bodies that keep the configuration and reach the ends of the edge, or
    the node of the vertex, only: a point that is a halo point or is not
    incident to the mesh keeps its scalars. *)
Lemma radii_loops_untouched (estep : State -> CEdge -> State)
    (vstep : State -> CVertex -> State) geometry s x p :
  (forall s e, config (estep s e) = config s
     /\ (Domain geometry p = false \/ (p <> Node0 e /\ p <> Node1 e) ->
         node_scalar (nodes (estep s e)) x p = node_scalar (nodes s) x p)) ->
  (forall s v, config (vstep s v) = config s
     /\ (Domain geometry p = false \/ p <> vertex_Node v ->
         node_scalar (nodes (vstep s v)) x p = node_scalar (nodes s) x p)) ->
  Domain geometry p = false \/ ~ incident geometry (config s) p ->
  let out :=
    for_loop (length (vertex geometry)) (fun iMarker s =>
      if bool_decide (Marker_All_KindBC (config s) iMarker <> INTERNAL_BOUNDARY)
      then foldl vstep s (marker_vertices geometry iMarker) else s)
      (foldl estep s (edges geometry)) in
  config out = config s /\ node_scalar (nodes out) x p = node_scalar (nodes s) x p.
Proof.
  intros He Hv Hp. cbv zeta.
  assert (Hedges : config (foldl estep s (edges geometry)) = config s
                   /\ node_scalar (nodes (foldl estep s (edges geometry))) x p
                      = node_scalar (nodes s) x p).
  { apply (foldl_invariant (fun a =>
      config a = config s /\ node_scalar (nodes a) x p = node_scalar (nodes s) x p)); [done|].
    intros a e Hin [E1 E2]. destruct (He a e) as [C1 C2]. rewrite C1, C2; [done|].
    destruct Hp as [Hp|Hp]; [by left|right].
    split; intros ->; apply Hp; left; exists e; split; [done|by left|done|by right]. }
  set (s1 := foldl estep s (edges geometry)) in *. clearbody s1.
  destruct Hedges as [E1 E2]. rewrite <- E1, <- E2.
  assert (Hp1 : Domain geometry p = false \/ ~ incident geometry (config s1) p)
    by (by rewrite E1).
  clear E1 E2 Hp.
  apply (for_loop_ind (fun _ a =>
    config a = config s1 /\ node_scalar (nodes a) x p = node_scalar (nodes s1) x p)); [done|].
  intros iMarker a _ [E1 E2]. case_bool_decide as Hbc; [|done].
  apply (foldl_invariant (fun b =>
    config b = config s1 /\ node_scalar (nodes b) x p = node_scalar (nodes s1) x p)); [done|].
  intros b v Hin [B1 B2]. destruct (Hv b v) as [C1 C2]. rewrite C1, C2; [done|].
  destruct Hp1 as [Hp1|Hp1]; [by left|right].
  intros ->. apply Hp1. right. exists iMarker, v. rewrite <- E1. done.
Qed.

Lemma MaxEig_reset_spec s :
  sizes (MaxEig_reset s) = sizes s /\ config (MaxEig_reset s) = config s
  /\ node_array (nodes (MaxEig_reset s)) = node_array (nodes s)
  /\ forall x p, node_scalar (nodes (MaxEig_reset s)) x p
       = if bool_decide (x = Lambda /\ p < nPointDomain (sizes s)) then zero
         else node_scalar (nodes s) x p.
Proof.
  unfold MaxEig_reset. generalize (nPointDomain (sizes s)) as n. intros n.
  induction n as [|n IH].
  { rewrite for_loop_0. repeat split; try done. intros x p.
    by rewrite bool_decide_eq_false_2 by lia. }
  rewrite for_loop_S. destruct IH as (E1 & E2 & E3 & E4).
  cbn [sizes config nodes set_nodes]. split; [done|]. split; [done|]. split; [done|].
  intros x p. rewrite SetScalar_lookup, E4.
  destruct (decide (Lambda = x)) as [<-|Hx].
  - destruct (decide (n = p)) as [<-|Hp].
    + by rewrite bool_decide_eq_true_2 by (split; [done|lia]).
    + repeat case_bool_decide; try done; exfalso; intuition lia.
  - repeat case_bool_decide; try done; exfalso; intuition congruence.
Qed.

Lemma MaxEig_edge_local geometry p s e :
  config (MaxEig_edge geometry s e) = config s
  /\ (Domain geometry p = false \/ (p <> Node0 e /\ p <> Node1 e) ->
      node_scalar (nodes (MaxEig_edge geometry s e)) Lambda p
      = node_scalar (nodes s) Lambda p).
Proof.
  unfold MaxEig_edge. cbv zeta. split.
  - by rewrite !(proj1 (proj2 (AddMax_Lambda_fields _ _ _ _ _))).
  - intros Hp. rewrite !AddMax_Lambda_other; [done|tauto|tauto].
Qed.

Lemma MaxEig_vertex_local geometry p s v :
  config (MaxEig_vertex geometry s v) = config s
  /\ (Domain geometry p = false \/ p <> vertex_Node v ->
      node_scalar (nodes (MaxEig_vertex geometry s v)) Lambda p
      = node_scalar (nodes s) Lambda p).
Proof.
  unfold MaxEig_vertex. cbv zeta. split.
  - by rewrite !(proj1 (proj2 (AddMax_Lambda_fields _ _ _ _ _))).
  - intros Hp. by rewrite !AddMax_Lambda_other.
Qed.

(** X6: SetMax_Eigenvalue at the points the mesh does not reach.  Before the
    communication, the eigenvalue of a point that is a halo point, or that
    is no end of an interior edge and no node of a vertex of a marker other
    than an internal boundary, is 0 when the point is below nPointDomain and
    is the value the routine has found otherwise. *)
Theorem max_eigenvalue_unreached_point (geometry : CGeometry) (s : State) (iPoint : nat) :
  Domain geometry iPoint = false \/ ~ incident geometry (config s) iPoint ->
  SetMax_Eigenvalue geometry s
  = (step (InitiateComms_MAX_EIGENVALUE geometry) ;;
     step (CompleteComms_MAX_EIGENVALUE geometry)) (MaxEig_accumulate geometry s)
  /\ node_scalar (nodes (MaxEig_accumulate geometry s)) Lambda iPoint
     = if bool_decide (iPoint < nPointDomain (sizes s)) then zero
       else node_scalar (nodes s) Lambda iPoint.
Proof.
  intros Hp. split; [reflexivity|]. unfold MaxEig_accumulate, MaxEig_boundary.
  destruct (MaxEig_reset_spec s) as (R1 & R2 & R3 & R4).
  destruct (radii_loops_untouched (MaxEig_edge geometry) (MaxEig_vertex geometry)
              geometry (MaxEig_reset s) Lambda iPoint) as [_ ->].
  - intros s0 e. apply MaxEig_edge_local.
  - intros s0 v. apply MaxEig_vertex_local.
  - by rewrite R2.
  - rewrite R4. repeat case_bool_decide; try done; exfalso; intuition congruence.
Qed.

Lemma radii_agree_Inv N geometry iPoint v s1 s2 :
  radii_agree N s1 s2 ->
  radii_agree N (AddMax_Lambda Max_Lambda_Inv geometry iPoint v s1)
                (AddMax_Lambda Lambda geometry iPoint v s2).
Proof.
  intros (E1 & E2 & E3 & E4 & E5). unfold radii_agree.
  destruct (AddMax_Lambda_fields Max_Lambda_Inv geometry iPoint v s1) as (-> & -> & ->).
  destruct (AddMax_Lambda_fields Lambda geometry iPoint v s2) as (-> & -> & ->).
  split; [done|]. split; [done|]. split; [done|]. split.
  - unfold AddMax_Lambda. by destruct (Domain geometry iPoint).
  - intros p Hp. rewrite !AddMax_Lambda_lookup.
    destruct (Domain geometry iPoint); cbn [andb]; [|by apply E5].
    destruct (decide (iPoint = p)) as [->|Hne].
    + rewrite !bool_decide_eq_true_2 by done. by rewrite E5.
    + rewrite !bool_decide_eq_false_2 by (intros [_ ?]; done). by apply E5.
Qed.

Lemma radii_agree_Visc N geometry iPoint v s1 s2 :
  radii_agree N s1 s2 ->
  radii_agree N (AddMax_Lambda Max_Lambda_Visc geometry iPoint v s1) s2.
Proof.
  intros (E1 & E2 & E3 & E4 & E5). unfold radii_agree.
  destruct (AddMax_Lambda_fields Max_Lambda_Visc geometry iPoint v s1) as (-> & -> & ->).
  split; [done|]. split; [done|]. split; [done|]. split.
  - unfold AddMax_Lambda. by destruct (Domain geometry iPoint).
  - intros p Hp. rewrite AddMax_Lambda_lookup.
    rewrite bool_decide_eq_false_2 by (intros [? _]; done).
    rewrite andb_false_r. by apply E5.
Qed.

Lemma radii_agree_edge N geometry s1 s2 e :
  proj_vel_reads_arrays variable_methods ->
  Grid_Movement (config s2) = false ->
  radii_agree N s1 s2 ->
  radii_agree N (TimeStep_edge geometry s1 e) (MaxEig_edge geometry s2 e).
Proof.
  intros Hproj Hgm Hagree. pose proof Hagree as (E1 & E2 & E3 & E4 & E5).
  unfold TimeStep_edge, MaxEig_edge. cbv zeta.
  rewrite E1, E2, E4, Hgm.
  rewrite !(Hproj (nodes s1) (nodes s2) _ _ E3).
  destruct (negb (Viscous (config s2))).
  - by do 2 apply radii_agree_Inv.
  - do 2 apply radii_agree_Visc. by do 2 apply radii_agree_Inv.
Qed.

Lemma radii_agree_vertex N geometry s1 s2 v :
  proj_vel_reads_arrays variable_methods ->
  Grid_Movement (config s2) = false ->
  radii_agree N s1 s2 ->
  radii_agree N (TimeStep_vertex geometry s1 v) (MaxEig_vertex geometry s2 v).
Proof.
  intros Hproj Hgm Hagree. pose proof Hagree as (E1 & E2 & E3 & E4 & E5).
  unfold TimeStep_vertex, MaxEig_vertex. cbv zeta.
  rewrite E1, E2, E4, Hgm.
  rewrite !(Hproj (nodes s1) (nodes s2) _ _ E3).
  destruct (negb (Viscous (config s2))).
  - by apply radii_agree_Inv.
  - apply radii_agree_Visc. by apply radii_agree_Inv.
Qed.

Lemma radii_agree_reset s :
  radii_agree (nPointDomain (sizes s)) (TimeStep_reset s) (MaxEig_reset s).
Proof.
  unfold TimeStep_reset, MaxEig_reset. cbv zeta.
  set (s0 := set_Max_Delta_Time _ _).
  change (nPointDomain (sizes s0)) with (nPointDomain (sizes s)).
  apply (for_loop_rel (fun i a b =>
    sizes a = sizes b /\ config a = config b
    /\ node_array (nodes a) = node_array (nodes b)
    /\ node_scalar (nodes a) SoundSpeed = node_scalar (nodes b) SoundSpeed
    /\ forall p, p < i ->
         node_scalar (nodes a) Max_Lambda_Inv p = node_scalar (nodes b) Lambda p)).
  { repeat split; try done. intros p Hp. lia. }
  intros i a b Hi (E1 & E2 & E3 & E4 & E5).
  assert (Hgoal : forall a', sizes a' = sizes a -> config a' = config a ->
            node_array (nodes a') = node_array (nodes a) ->
            node_scalar (nodes a') SoundSpeed = node_scalar (nodes a) SoundSpeed ->
            (forall p, node_scalar (nodes a') Max_Lambda_Inv p
                       = node_scalar (nodes (set_nodes (SetScalar Max_Lambda_Inv i zero) a))
                           Max_Lambda_Inv p) ->
            sizes a' = sizes (set_nodes (SetScalar Lambda i zero) b)
            /\ config a' = config (set_nodes (SetScalar Lambda i zero) b)
            /\ node_array (nodes a') = node_array (nodes (set_nodes (SetScalar Lambda i zero) b))
            /\ node_scalar (nodes a') SoundSpeed
               = node_scalar (nodes (set_nodes (SetScalar Lambda i zero) b)) SoundSpeed
            /\ forall p, p < S i ->
                 node_scalar (nodes a') Max_Lambda_Inv p
                 = node_scalar (nodes (set_nodes (SetScalar Lambda i zero) b)) Lambda p).
  { intros a' A1 A2 A3 A4 A5. cbn [sizes config nodes set_nodes].
    split; [congruence|]. split; [congruence|]. split; [by rewrite A3|].
    split; [by rewrite A4|].
    intros p Hp. rewrite A5. cbn [nodes set_nodes]. rewrite !SetScalar_lookup.
    destruct (decide (Max_Lambda_Inv = Max_Lambda_Inv)); [|done].
    destruct (decide (Lambda = Lambda)); [|done].
    destruct (decide (i = p)); [done|]. apply E5. lia. }
  cbv zeta. destruct (Viscous _); apply Hgoal; try done.
Qed.

(** X7: the two accumulations of the inviscid spectral radius agree.  On a
    grid that does not move, and with a projected velocity that is computed
    from the per-point arrays, the maximum inviscid eigenvalue SetTime_Step
    accumulates for a point below nPointDomain is the eigenvalue
    SetMax_Eigenvalue accumulates for it (before the communication), bit for
    bit, in a viscous run too. *)
Theorem max_eigenvalue_matches_time_step (geometry : CGeometry) (s : State) (iPoint : nat) :
  proj_vel_reads_arrays variable_methods ->
  Grid_Movement (config s) = false ->
  iPoint < nPointDomain (sizes s) ->
  node_scalar (nodes (TimeStep_spectral_radii geometry s)) Max_Lambda_Inv iPoint
  = node_scalar (nodes (MaxEig_accumulate geometry s)) Lambda iPoint.
Proof.
  intros Hproj Hgm Hi.
  enough (Hagree : radii_agree (nPointDomain (sizes s))
                     (TimeStep_spectral_radii geometry s) (MaxEig_accumulate geometry s)).
  { destruct Hagree as (_ & _ & _ & _ & E5). by apply E5. }
  unfold TimeStep_spectral_radii, MaxEig_accumulate, TimeStep_boundary, MaxEig_boundary.
  set (N := nPointDomain (sizes s)).
  assert (Hedges : radii_agree N (foldl (TimeStep_edge geometry) (TimeStep_reset s) (edges geometry))
                     (foldl (MaxEig_edge geometry) (MaxEig_reset s) (edges geometry))
                   /\ Grid_Movement (config (foldl (MaxEig_edge geometry) (MaxEig_reset s)
                                               (edges geometry))) = false).
  { apply (foldl_rel (fun a b => radii_agree N a b /\ Grid_Movement (config b) = false)).
    - split; [apply radii_agree_reset|].
      by rewrite (proj1 (proj2 (MaxEig_reset_spec s))).
    - intros a b e _ [Hab Hb]. split; [by apply radii_agree_edge|].
      by rewrite (proj1 (MaxEig_edge_local geometry 0 b e)). }
  destruct Hedges as [Hedges Hgm1].
  set (a0 := foldl (TimeStep_edge geometry) _ _) in *.
  set (b0 := foldl (MaxEig_edge geometry) _ _) in *. clearbody a0 b0.
  enough (Hboth : radii_agree N
            (for_loop (length (vertex geometry)) (fun iMarker s0 =>
               if bool_decide (Marker_All_KindBC (config s0) iMarker <> INTERNAL_BOUNDARY)
               then foldl (TimeStep_vertex geometry) s0 (marker_vertices geometry iMarker)
               else s0) a0)
            (for_loop (length (vertex geometry)) (fun iMarker s0 =>
               if bool_decide (Marker_All_KindBC (config s0) iMarker <> INTERNAL_BOUNDARY)
               then foldl (MaxEig_vertex geometry) s0 (marker_vertices geometry iMarker)
               else s0) b0)
          /\ Grid_Movement (config (for_loop (length (vertex geometry)) (fun iMarker s0 =>
               if bool_decide (Marker_All_KindBC (config s0) iMarker <> INTERNAL_BOUNDARY)
               then foldl (MaxEig_vertex geometry) s0 (marker_vertices geometry iMarker)
               else s0) b0)) = false) by apply Hboth.
  apply (for_loop_rel (fun _ a b => radii_agree N a b /\ Grid_Movement (config b) = false));
    [done|].
  intros iMarker a b _ [Hab Hb]. rewrite (proj1 (proj2 Hab)).
  destruct (bool_decide _); [|done].
  apply (foldl_rel (fun a b => radii_agree N a b /\ Grid_Movement (config b) = false));
    [done|].
  intros a' b' v _ [Hab' Hb']. split; [by apply radii_agree_vertex|].
  by rewrite (proj1 (MaxEig_vertex_local geometry 0 b' v)).
Qed.

Lemma TimeStep_edge_local geometry x p s e :
  config (TimeStep_edge geometry s e) = config s
  /\ (Domain geometry p = false \/ (p <> Node0 e /\ p <> Node1 e) ->
      node_scalar (nodes (TimeStep_edge geometry s e)) x p = node_scalar (nodes s) x p).
Proof.
  split; [apply TimeStep_edge_frame|].
  intros Hp. unfold TimeStep_edge. cbv zeta.
  destruct (negb (Viscous (config s))); rewrite !AddMax_Lambda_other; tauto.
Qed.

Lemma TimeStep_vertex_local geometry x p s v :
  config (TimeStep_vertex geometry s v) = config s
  /\ (Domain geometry p = false \/ p <> vertex_Node v ->
      node_scalar (nodes (TimeStep_vertex geometry s v)) x p = node_scalar (nodes s) x p).
Proof.
  split; [apply TimeStep_vertex_frame|].
  intros Hp. unfold TimeStep_vertex. cbv zeta.
  destruct (negb (Viscous (config s))); rewrite !AddMax_Lambda_other; tauto.
Qed.

Lemma TimeStep_reset_Inv s p :
  p < nPointDomain (sizes s) ->
  node_scalar (nodes (TimeStep_reset s)) Max_Lambda_Inv p = zero.
Proof.
  unfold TimeStep_reset. cbv zeta.
  set (s0 := set_Max_Delta_Time _ _).
  change (nPointDomain (sizes s0)) with (nPointDomain (sizes s)).
  generalize (nPointDomain (sizes s)) as n. intros n.
  induction n as [|n IH]; intros Hp; [lia|].
  rewrite for_loop_S. cbv zeta.
  assert (Hgoal : node_scalar (nodes (set_nodes (SetScalar Max_Lambda_Inv n zero)
                    (for_loop n (fun iPoint s1 =>
                       let s2 := set_nodes (SetScalar Max_Lambda_Inv iPoint zero) s1 in
                       if Viscous (config s2)
                       then set_nodes (SetScalar Max_Lambda_Visc iPoint zero) s2 else s2) s0)))
                    Max_Lambda_Inv p = zero).
  { cbn [nodes set_nodes]. rewrite SetScalar_lookup.
    destruct (decide (Max_Lambda_Inv = Max_Lambda_Inv)); [|done].
    destruct (decide (n = p)); [done|]. apply IH. lia. }
  destruct (Viscous _); [|exact Hgoal].
  cbn [nodes set_nodes]. rewrite SetScalar_lookup.
  destruct (decide (Max_Lambda_Visc = Max_Lambda_Inv)); [done|]. exact Hgoal.
Qed.

Lemma fdiv_pos_zero x : is_pos_finite x -> (x / zero)%D = S754_infinity false.
Proof. by destruct x as [| | |[] m e]. Qed.

Lemma fgt_infinity x : is_finite x -> fgt (S754_infinity false) x = true.
Proof. by destruct x as [[]| | |[] m e]. Qed.

(** X8: SetTime_Step at an owned point the mesh does not reach.  In an
    inviscid run, when the point is no end of an interior edge and no node of
    a boundary vertex (or is flagged as a halo point), its spectral radius
    stays 0; with a positive finite CFL number times volume the local step
    is +infinity, and the step stored for the point is the configured
    maximum, when that is finite. *)
Theorem time_step_unreached_point
    (geometry : CGeometry) (iMesh : nat) (s : State) (iPoint : nat) :
  Domain geometry iPoint = false \/ ~ incident geometry (config s) iPoint ->
  iPoint < nPointDomain (sizes s) ->
  Viscous (config s) = false ->
  is_pos_finite (Get (config s) (CFL iMesh) * Volume geometry iPoint)%D ->
  fne (Volume geometry iPoint) zero = true ->
  is_finite (Get (config s) Max_DeltaTime) ->
  let s1 := TimeStep_spectral_radii geometry s in
  node_scalar (nodes s1) Max_Lambda_Inv iPoint = zero
  /\ Local_Delta_Time geometry iMesh s1 iPoint = S754_infinity false
  /\ node_scalar (nodes (TimeStep_local geometry iMesh s1).2) Delta_Time iPoint
     = Get (config s) Max_DeltaTime.
Proof.
  intros Hp Hi Hvisc Hcv Hvol Hmax. cbv zeta.
  destruct (TimeStep_spectral_radii_frame geometry s) as (Hc1 & Hs1 & _).
  assert (Hzero : node_scalar (nodes (TimeStep_spectral_radii geometry s))
                    Max_Lambda_Inv iPoint = zero).
  { unfold TimeStep_spectral_radii, TimeStep_boundary.
    destruct (TimeStep_reset_frame s) as (Hc0 & Hs0 & _).
    destruct (radii_loops_untouched (TimeStep_edge geometry) (TimeStep_vertex geometry)
                geometry (TimeStep_reset s) Max_Lambda_Inv iPoint) as [_ ->].
    - intros s0 e. apply TimeStep_edge_local.
    - intros s0 v. apply TimeStep_vertex_local.
    - by rewrite Hc0.
    - by apply TimeStep_reset_Inv. }
  assert (Hlocal : Local_Delta_Time geometry iMesh (TimeStep_spectral_radii geometry s) iPoint
                   = S754_infinity false).
  { unfold Local_Delta_Time. cbv zeta. rewrite Hc1, Hvisc, Hzero.
    by apply fdiv_pos_zero. }
  split; [done|]. split; [done|].
  destruct (TimeStep_local_spec geometry iMesh (TimeStep_spectral_radii geometry s))
    as (_ & _ & _ & _ & _ & _ & Hdt).
  rewrite Hs1 in Hdt. rewrite (Hdt iPoint Hi), Hvol, Hlocal.
  unfold capped. rewrite Hc1. by rewrite fgt_infinity.
Qed.

End RadiiProperties.

(** ** The time step of the unsteady modes *)

Lemma flt_fle x y : flt x y = true -> fle x y = true.
Proof. unfold flt, fle, SFltb, SFleb. by destruct (SFcompare x y) as [[]|]. Qed.

Lemma fmin_le_l a b : a <> S754_nan -> fle (fmin a b) a = true.
Proof.
  intros Ha. unfold fmin. destruct (flt b a) eqn:E; [by apply flt_fle|].
  by apply SFleb_refl.
Qed.

Section UnsteadyProperties.

Context {variable_methods : CNEMOEulerVariable_methods}.

(** The loop of the time-stepping mode: it sets the CFL number of the level
    at every point it passes, and stores the same step everywhere. *)
Lemma TimeStep_global_time_stepping iMesh G s :
  time_steping s = true ->
  let out := TimeStep_global iMesh G s in
  (0 < nPointDomain (sizes s) -> Get (config out) (CFL iMesh) = Get (config s) Unst_CFL)
  /\ (forall j, j < nPointDomain (sizes s) ->
        node_scalar (nodes out) Delta_Time j
        = if feq (Get (config s) Unst_CFL) zero then Get (config s) Delta_UnstTime else G).
Proof.
  intros Hts. cbv zeta. unfold TimeStep_global. rewrite Hts.
  generalize (nPointDomain (sizes s)) as n. intros n.
  enough (Hloop :
    let out := for_loop n (fun iPoint s0 =>
        let s1 := set_config (Set_ (CFL iMesh) (Get (config s0) Unst_CFL)) s0 in
        if feq (Get (config s1) (CFL iMesh)) zero
        then set_nodes (SetScalar Delta_Time iPoint (Get (config s1) Delta_UnstTime)) s1
        else set_nodes (SetScalar Delta_Time iPoint G) s1) s in
    (0 < n -> Get (config out) (CFL iMesh) = Get (config s) Unst_CFL)
    /\ Get (config out) Unst_CFL = Get (config s) Unst_CFL
    /\ Get (config out) Delta_UnstTime = Get (config s) Delta_UnstTime
    /\ (forall j, j < n ->
          node_scalar (nodes out) Delta_Time j
          = if feq (Get (config s) Unst_CFL) zero then Get (config s) Delta_UnstTime else G)).
  { destruct Hloop as (H1 & _ & _ & H4). done. }
  induction n as [|n IH]; cbv zeta.
  { rewrite for_loop_0. repeat split; try done; lia. }
  rewrite for_loop_S. destruct IH as (E1 & E2 & E3 & E4).
  set (a := for_loop n _ s) in *. clearbody a. cbv zeta.
  assert (Hget : Get (config (set_config (Set_ (CFL iMesh) (Get (config a) Unst_CFL)) a))
                   (CFL iMesh) = Get (config s) Unst_CFL).
  { cbn. unfold fn_insert, insert. destruct (decide (CFL iMesh = CFL iMesh)); [|done].
    exact E2. }
  assert (Hother : forall x, x <> CFL iMesh ->
            Get (config (set_config (Set_ (CFL iMesh) (Get (config a) Unst_CFL)) a)) x
            = Get (config a) x).
  { intros x Hx. cbn. unfold fn_insert, insert.
    by destruct (decide (CFL iMesh = x)) as [<-|]. }
  rewrite Hget.
  destruct (feq (Get (config s) Unst_CFL) zero);
    cbn [config nodes set_nodes]; rewrite Hget, !Hother by done;
    (split; [done|]); (split; [done|]); (split; [done|]);
    intros j Hj; rewrite SetScalar_lookup;
    (destruct (decide (Delta_Time = Delta_Time)); [|done]);
    (destruct (decide (n = j)); [done|]); apply E4; lia.
Qed.

(** X9: SetTime_Step in time-stepping mode.  With one owned point or more,
    the routine leaves the CFL number of the mesh level overwritten by the
    unsteady CFL number, every other number of the configuration as it was;
    and when the unsteady CFL number is zero every owned point gets the
    configured unsteady time step, not the global step of the mesh. *)
Theorem time_stepping_overwrites_cfl
    (geometry : CGeometry) (iMesh Iteration : nat) (s : State) :
  time_steping s = true ->
  0 < nPointDomain (sizes s) ->
  exists out, SetTime_Step geometry iMesh Iteration s = Done out
    /\ Get (config out) (CFL iMesh) = Get (config s) Unst_CFL
    /\ (forall x, x <> CFL iMesh -> Get (config out) x = Get (config s) x)
    /\ (feq (Get (config s) Unst_CFL) zero = true ->
        forall j, j < nPointDomain (sizes s) ->
          node_scalar (nodes out) Delta_Time j = Get (config s) Delta_UnstTime).
Proof.
  intros Hts Hn. unfold SetTime_Step, step.
  destruct (TimeStep_spectral_radii_frame geometry s) as (Hc1 & Hs1 & _).
  destruct (TimeStep_local_spec geometry iMesh (TimeStep_spectral_radii geometry s))
    as (_ & _ & _ & Hc2 & Hs2 & _ & _).
  destruct (TimeStep_local geometry iMesh (TimeStep_spectral_radii geometry s)) as [G s2].
  cbn [fst snd] in *. eexists. split; [reflexivity|].
  assert (Hcfg : config s2 = config s) by (by rewrite Hc2, Hc1).
  assert (Hsz : sizes s2 = sizes s) by (by rewrite Hs2, Hs1).
  assert (Hts2 : time_steping s2 = true) by (unfold time_steping in *; by rewrite Hcfg).
  destruct (TimeStep_global_frame iMesh G s2) as (_ & _ & _ & Htm & _ & Hget).
  destruct (TimeStep_global_time_stepping iMesh G s2 Hts2) as [Hcfl Hdt].
  rewrite TimeStep_dual_off.
  - rewrite Hsz, Hcfg in *. split; [by apply Hcfl|]. split; [done|].
    intros Hz j Hj. rewrite (Hdt j Hj). by rewrite Hz.
  - unfold dual_time, time_steping in *. rewrite Htm.
    apply bool_decide_eq_true in Hts2. by rewrite Hts2.
Qed.

(** The two blocks of the dual time strategy. *)
Lemma TimeStep_dual_spec iMesh Iteration G s :
  dual_time s = true ->
  let out := TimeStep_dual iMesh Iteration G s in
  let D := dual_Delta_UnstTimeND iMesh Iteration G (config s) in
  Get (config out) Delta_UnstTimeND = D
  /\ (forall x, x <> Delta_UnstTimeND -> Get (config out) x = Get (config s) x)
  /\ (forall j, j < nPointDomain (sizes s) ->
        node_scalar (nodes out) Delta_Time j
        = if implicit_scheme s then node_scalar (nodes s) Delta_Time j
          else fmin (two_thirds * D)%D (node_scalar (nodes s) Delta_Time j)).
Proof.
  intros Hdual. cbv zeta. unfold TimeStep_dual. cbv zeta. rewrite Hdual. cbn [andb].
  set (s' := if _ && _ && _ then _ else s).
  assert (Hs' : sizes s' = sizes s /\ nodes s' = nodes s
                /\ dual_time s' = true /\ implicit_scheme s' = implicit_scheme s
                /\ Get (config s') Delta_UnstTimeND
                   = dual_Delta_UnstTimeND iMesh Iteration G (config s)
                /\ forall x, x <> Delta_UnstTimeND -> Get (config s') x = Get (config s) x).
  { subst s'. unfold dual_Delta_UnstTimeND.
    destruct (_ && _ && _); [|done].
    cbn [sizes nodes set_config config]. repeat split; try done.
    intros x Hx. cbn. unfold fn_insert, insert.
    by destruct (decide (Delta_UnstTimeND = x)) as [<-|]. }
  clearbody s'. destruct Hs' as (Z1 & Z2 & Z3 & Z4 & Z5 & Z6).
  rewrite Z3, <- Z1, <- Z2, <- Z4, <- Z5.
  enough (Hloop : forall n,
    let out := for_loop n (fun iPoint s0 =>
        if negb (implicit_scheme s0) then
          set_nodes (SetScalar Delta_Time iPoint
            (fmin (two_thirds * Get (config s0) Delta_UnstTimeND)%D
                  (node_scalar (nodes s0) Delta_Time iPoint))) s0
        else s0) s' in
    config out = config s'
    /\ (forall j, node_scalar (nodes out) Delta_Time j
          = if bool_decide (j < n) && negb (implicit_scheme s')
            then fmin (two_thirds * Get (config s') Delta_UnstTimeND)%D
                      (node_scalar (nodes s') Delta_Time j)
            else node_scalar (nodes s') Delta_Time j)).
  { destruct (Hloop (nPointDomain (sizes s'))) as [E1 E2]. rewrite E1.
    split; [done|]. split; [done|].
    intros j Hj. rewrite E2, bool_decide_eq_true_2 by done.
    by destruct (implicit_scheme s'). }
  intros n. induction n as [|n IH]; cbv zeta.
  { rewrite for_loop_0. split; [done|]. intros j. by rewrite bool_decide_eq_false_2 by lia. }
  rewrite for_loop_S. destruct IH as [E1 E2].
  set (a := for_loop n _ s') in *. clearbody a.
  assert (Himp : implicit_scheme a = implicit_scheme s')
    by (unfold implicit_scheme; by rewrite E1).
  rewrite Himp. destruct (implicit_scheme s'); cbn [negb].
  - split; [done|]. intros j. rewrite E2. by rewrite !andb_false_r.
  - cbn [config nodes set_nodes]. split; [done|].
    intros j. rewrite SetScalar_lookup.
    destruct (decide (Delta_Time = Delta_Time)); [|done].
    rewrite !andb_true_r in *. rewrite E1.
    destruct (decide (n = j)) as [<-|Hne].
    + rewrite bool_decide_eq_true_2 by lia. rewrite (E2 n).
      by rewrite bool_decide_eq_false_2 by lia.
    + rewrite (E2 j). repeat case_bool_decide; try done; exfalso; lia.
Qed.

(** X10: SetTime_Step in a dual-time run.  The unsteady time step is
    recomputed from the global step (unsteady CFL * global / CFL) at
    iteration 0 on the finest mesh when the unsteady CFL number is not zero,
    and is left alone otherwise.  With an explicit scheme the step stored
    for every owned point is the smaller of the local step and 2/3 of the
    unsteady step, so it is never above 2/3 of the unsteady step; with the
    implicit scheme the local step is kept. *)
Theorem dual_time_step_bounded
    (geometry : CGeometry) (iMesh Iteration : nat) (s : State) :
  dual_time s = true ->
  let s1 := TimeStep_spectral_radii geometry s in
  let G := min_uncapped geometry iMesh s1 (nPointDomain (sizes s)) big_Delta_Time in
  let D := dual_Delta_UnstTimeND iMesh Iteration G (config s) in
  exists out, SetTime_Step geometry iMesh Iteration s = Done out
    /\ Get (config out) Delta_UnstTimeND = D
    /\ (forall x, x <> Delta_UnstTimeND -> Get (config out) x = Get (config s) x)
    /\ (forall j, j < nPointDomain (sizes s) ->
          let local := if fne (Volume geometry j) zero
                       then capped s (Local_Delta_Time geometry iMesh s1 j) else zero in
          node_scalar (nodes out) Delta_Time j
          = (if implicit_scheme s then local else fmin (two_thirds * D)%D local)
          /\ (implicit_scheme s = false -> (two_thirds * D)%D <> S754_nan ->
              fle (node_scalar (nodes out) Delta_Time j) (two_thirds * D)%D = true)).
Proof.
  intros Hdual. cbv zeta. unfold SetTime_Step, step.
  destruct (TimeStep_spectral_radii_frame geometry s) as (Hc1 & Hs1 & _).
  destruct (TimeStep_local_spec geometry iMesh (TimeStep_spectral_radii geometry s))
    as (HG & _ & _ & Hc2 & Hs2 & _ & Hdt).
  rewrite Hs1 in HG, Hdt.
  destruct (TimeStep_local geometry iMesh (TimeStep_spectral_radii geometry s)) as [G s2].
  cbn [fst snd] in *. eexists. split; [reflexivity|].
  assert (Hcfg : config s2 = config s) by (by rewrite Hc2, Hc1).
  assert (Hsz : sizes s2 = sizes s) by (by rewrite Hs2, Hs1).
  assert (Hts2 : time_steping s2 = false).
  { unfold time_steping, dual_time in *. rewrite Hcfg.
    destruct (Time_Marching (config s)); done. }
  assert (Hg : TimeStep_global iMesh G s2 = s2).
  { unfold TimeStep_global. by rewrite Hts2. }
  rewrite Hg.
  assert (Hdual2 : dual_time s2 = true) by (unfold dual_time in *; by rewrite Hcfg).
  destruct (TimeStep_dual_spec iMesh Iteration G s2 Hdual2) as (D1 & D2 & D3).
  cbv zeta in *. rewrite Hcfg, Hsz in *. subst G.
  assert (Himp : implicit_scheme s2 = implicit_scheme s)
    by (unfold implicit_scheme; by rewrite Hcfg).
  split; [done|]. split; [done|].
  intros j Hj. rewrite (D3 j Hj), Himp, (Hdt j Hj).
  assert (Hcap : capped (TimeStep_spectral_radii geometry s)
                   (Local_Delta_Time geometry iMesh (TimeStep_spectral_radii geometry s) j)
                 = capped s
                   (Local_Delta_Time geometry iMesh (TimeStep_spectral_radii geometry s) j)).
  { unfold capped. by rewrite Hc1. }
  rewrite Hcap. split; [done|].
  intros Hexp Hnan. rewrite Hexp. by apply fmin_le_l.
Qed.

End UnsteadyProperties.

(** ** The implicit scheme: right-hand side, initial guess and update *)

Section ImplicitProperties.

Context {solve_methods : CSysSolve_methods} {solver_methods : CSolver_methods}.

Lemma Implicit_diagonal_nonzero geometry i s :
  fne (node_scalar (nodes s) Delta_Time i) zero = true ->
  LinSysRes (Implicit_diagonal geometry i s) = LinSysRes s
  /\ nodes (Implicit_diagonal geometry i s) = nodes s.
Proof. intros Hdt. unfold Implicit_diagonal. cbv zeta. by rewrite Hdt. Qed.

(** The right-hand side of the owned points of nonzero time step. *)
Lemma Implicit_build_rhs geometry s :
  let out := Implicit_build geometry s in
  let n := nVar (sizes s) in
  forall r k, r < nPointDomain (sizes s) -> k < n ->
    fne (node_scalar (nodes s) Delta_Time r) zero = true ->
    LinSysRes out (r * n + k)
    = (- (LinSysRes s (r * n + k)%nat + node_array (nodes s) ResTruncError r k))%D.
Proof.
  cbv zeta. unfold Implicit_build.
  destruct (Implicit_reset_frame s) as (F1 & F2 & F3 & F4 & F5).
  enough (Hloop : forall m,
    let out := for_loop m (Implicit_point geometry) (Implicit_reset s) in
    sizes out = sizes s /\ node_scalar (nodes out) = node_scalar (nodes s)
    /\ (forall r k, m <= r -> k < nVar (sizes s) ->
          LinSysRes out (r * nVar (sizes s) + k) = LinSysRes s (r * nVar (sizes s) + k)
          /\ node_array (nodes out) ResTruncError r k = node_array (nodes s) ResTruncError r k)
    /\ (forall r k, r < m -> k < nVar (sizes s) ->
          fne (node_scalar (nodes s) Delta_Time r) zero = true ->
          LinSysRes out (r * nVar (sizes s) + k)
          = (- (LinSysRes s (r * nVar (sizes s) + k)%nat
                + node_array (nodes s) ResTruncError r k))%D)).
  { intros r k Hr Hk. by apply (Hloop (nPointDomain (sizes s))). }
  intros m. induction m as [|m IH]; cbv zeta.
  { rewrite for_loop_0, F1, F2, F4. repeat split; try done; lia. }
  rewrite for_loop_S. destruct IH as (E1 & E2 & E3 & E4).
  set (s1 := for_loop m _ _) in *. clearbody s1.
  destruct (Implicit_point_spec geometry m s1) as (P1 & P2 & _ & P4 & P5 & _ & _).
  cbv zeta in *. rewrite E1 in *. rewrite P1, P2.
  split; [done|]. split; [done|]. split.
  - intros r k Hr Hk. destruct (P4 (r * nVar (sizes s) + k)) as [-> _].
    { apply block_apart; [lia|done]. }
    rewrite P5 by lia. apply E3; [lia|done].
  - intros r k Hr Hk Hdt. destruct (decide (r = m)) as [->|Hne].
    + unfold Implicit_point.
      destruct (Implicit_diagonal_spec geometry m s1) as (D1 & _).
      destruct (Implicit_rhs_spec geometry m (Implicit_diagonal geometry m s1))
        as (_ & _ & _ & _ & R5).
      cbv zeta in *. rewrite D1, E1 in R5.
      destruct (R5 k Hk) as [-> _].
      destruct (Implicit_diagonal_nonzero geometry m s1) as [-> ->].
      { by rewrite E2. }
      by destruct (E3 m k (le_n _) Hk) as [-> ->].
    + destruct (P4 (r * nVar (sizes s) + k)) as [-> _].
      { apply block_apart; [done|done]. }
      apply E4; [lia|done|done].
Qed.

(** The loop over the ghost points. *)
Lemma Implicit_ghost_zero s r k :
  nPointDomain (sizes s) <= r < nPoint (sizes s) -> k < nVar (sizes s) ->
  LinSysRes (Implicit_ghost s) (r * nVar (sizes s) + k) = zero
  /\ LinSysSol (Implicit_ghost s) (r * nVar (sizes s) + k) = zero.
Proof.
  intros Hr Hk. unfold Implicit_ghost, for_range. cbv zeta.
  assert (Hseq : seq (nPointDomain (sizes s)) (nPoint (sizes s) - nPointDomain (sizes s))
                 = seq (nPointDomain (sizes s)) (r - nPointDomain (sizes s))
                   ++ r :: seq (S r) (nPoint (sizes s) - S r)).
  { replace (nPoint (sizes s) - nPointDomain (sizes s))
      with ((r - nPointDomain (sizes s)) + S (nPoint (sizes s) - S r)) by lia.
    rewrite seq_app. cbn [seq]. do 3 f_equal; lia. }
  rewrite Hseq, foldl_app. cbn [foldl].
  set (a := foldl _ s (seq _ (r - _))). clearbody a.
  set (body := fun (iPoint : nat) (s0 : State) =>
    for_loop (nVar (sizes s)) (fun iVar s1 =>
      s1 |> set_LinSysRes (fun LinSysRes => <[iPoint * nVar (sizes s) + iVar := zero]> LinSysRes)
         |> set_LinSysSol (fun LinSysSol => <[iPoint * nVar (sizes s) + iVar := zero]> LinSysSol))
      s0).
  assert (Hat : LinSysRes (body r a) (r * nVar (sizes s) + k) = zero
                /\ LinSysSol (body r a) (r * nVar (sizes s) + k) = zero).
  { subst body. cbv beta.
    enough (Hloop : forall m, m <= nVar (sizes s) -> forall j, j < m ->
      let out := for_loop m (fun iVar s1 =>
        s1 |> set_LinSysRes (fun LinSysRes => <[r * nVar (sizes s) + iVar := zero]> LinSysRes)
           |> set_LinSysSol (fun LinSysSol => <[r * nVar (sizes s) + iVar := zero]> LinSysSol))
        a in
      LinSysRes out (r * nVar (sizes s) + j) = zero
      /\ LinSysSol out (r * nVar (sizes s) + j) = zero).
    { by apply (Hloop (nVar (sizes s)) (le_n _) k Hk). }
    intros m. induction m as [|m IH]; intros Hm j Hj; [lia|]. cbv zeta.
    rewrite for_loop_S. cbn [LinSysRes LinSysSol set_LinSysRes set_LinSysSol].
    rewrite !array_insert_lookup. destruct (decide (m = j)) as [->|Hne].
    - by rewrite !decide_True.
    - rewrite !decide_False by lia. apply IH; lia. }
  apply (foldl_invariant (fun out =>
    LinSysRes out (r * nVar (sizes s) + k) = zero
    /\ LinSysSol out (r * nVar (sizes s) + k) = zero)); [exact Hat|].
  intros b iPoint Hin Hb. apply elem_of_seq in Hin.
  apply (for_loop_ind (fun _ out =>
    LinSysRes out (r * nVar (sizes s) + k) = zero
    /\ LinSysSol out (r * nVar (sizes s) + k) = zero)); [done|].
  intros iVar c HiVar [C1 C2].
  cbn [LinSysRes LinSysSol set_LinSysRes set_LinSysSol].
  assert (Hne : iPoint * nVar (sizes s) + iVar <> r * nVar (sizes s) + k).
  { intros Heq. apply (block_apart (nVar (sizes s)) iPoint r k); [lia|done|].
    rewrite <- Heq. by apply in_block_index. }
  by rewrite !array_insert_lookup, !decide_False.
Qed.

(** X11: the system ImplicitEuler_Iteration hands to the linear solver.
    For an owned point of nonzero time step the right-hand side is minus the
    sum of the residual and the truncation error of the point; for a ghost
    point it is zero; and the initial guess is zero at every owned point and
    every ghost point. *)
Theorem implicit_system_rhs (geometry : CGeometry) (s : State) :
  let sys := Implicit_system geometry s in
  let n := nVar (sizes s) in
  (forall iPoint iVar, iPoint < nPointDomain (sizes s) -> iVar < n ->
     fne (node_scalar (nodes s) Delta_Time iPoint) zero = true ->
     LinSysRes sys (iPoint * n + iVar)
     = (- (LinSysRes s (iPoint * n + iVar)%nat
           + node_array (nodes s) ResTruncError iPoint iVar))%D)
  /\ (forall iPoint iVar,
        nPointDomain (sizes s) <= iPoint < nPoint (sizes s) -> iVar < n ->
        LinSysRes sys (iPoint * n + iVar) = zero)
  /\ (forall iPoint iVar,
        iPoint < nPointDomain (sizes s) \/ iPoint < nPoint (sizes s) -> iVar < n ->
        LinSysSol sys (iPoint * n + iVar) = zero).
Proof.
  cbv zeta. unfold Implicit_system.
  destruct (Implicit_build_spec geometry s) as (B1 & B2 & B3 & B4).
  destruct (Implicit_ghost_frame (Implicit_build geometry s)) as (G1 & G2 & G3 & G4).
  cbv zeta in *. rewrite B1 in G4.
  split; [|split].
  - intros i k Hi Hk Hdt. destruct (G4 i k Hi Hk) as [-> _].
    by apply Implicit_build_rhs.
  - intros i k Hi Hk.
    destruct (Implicit_ghost_zero (Implicit_build geometry s) i k) as [H _].
    + by rewrite B1.
    + by rewrite B1.
    + by rewrite B1 in H.
  - intros i k Hi Hk. destruct (decide (i < nPointDomain (sizes s))) as [Hd|Hd].
    + destruct (G4 i k Hd Hk) as [_ ->]. by apply B4.
    + destruct (Implicit_ghost_zero (Implicit_build geometry s) i k) as [_ H].
      * rewrite B1. lia.
      * by rewrite B1.
      * by rewrite B1 in H.
Qed.

(** The update of the solution by the increments. *)
Lemma Implicit_update_spec s :
  let out := Implicit_update s in
  let n := nVar (sizes s) in
  LinSysSol out = LinSysSol s /\ node_scalar (nodes out) = node_scalar (nodes s)
  /\ (forall y r k, y <> Solution \/ nPointDomain (sizes s) <= r \/ n <= k ->
        node_array (nodes out) y r k = node_array (nodes s) y r k)
  /\ (forall r k, r < nPointDomain (sizes s) -> k < n ->
        node_array (nodes out) Solution r k
        = (node_array (nodes s) Solution r k
           + node_scalar (nodes s) UnderRelaxation r * LinSysSol s (r * n + k)%nat)%D).
Proof.
  cbv zeta. unfold Implicit_update. cbv zeta.
  enough (Hloop : forall N,
    let out := for_loop N (fun iPoint s0 =>
      for_loop (nVar (sizes s)) (fun iVar s1 =>
        set_nodes (fun nodes =>
          AddSolution iPoint iVar
            (node_scalar nodes UnderRelaxation iPoint
             * LinSysSol s1 (iPoint * nVar (sizes s) + iVar)%nat)%D nodes) s1) s0) s in
    LinSysSol out = LinSysSol s /\ node_scalar (nodes out) = node_scalar (nodes s)
    /\ (forall y r k, y <> Solution \/ N <= r \/ nVar (sizes s) <= k ->
          node_array (nodes out) y r k = node_array (nodes s) y r k)
    /\ (forall r k, r < N -> k < nVar (sizes s) ->
          node_array (nodes out) Solution r k
          = (node_array (nodes s) Solution r k
             + node_scalar (nodes s) UnderRelaxation r
               * LinSysSol s (r * nVar (sizes s) + k)%nat)%D)).
  { apply Hloop. }
  intros N. induction N as [|N IH]; cbv zeta.
  { rewrite for_loop_0. repeat split; try done; lia. }
  rewrite for_loop_S. destruct IH as (E1 & E2 & E3 & E4).
  set (a := for_loop N _ s) in *. clearbody a.
  enough (Hinner : forall m, m <= nVar (sizes s) ->
    let out := for_loop m (fun iVar s1 =>
        set_nodes (fun nodes =>
          AddSolution N iVar
            (node_scalar nodes UnderRelaxation N
             * LinSysSol s1 (N * nVar (sizes s) + iVar)%nat)%D nodes) s1) a in
    LinSysSol out = LinSysSol a /\ node_scalar (nodes out) = node_scalar (nodes a)
    /\ (forall y r k, y <> Solution \/ r <> N \/ m <= k ->
          node_array (nodes out) y r k = node_array (nodes a) y r k)
    /\ (forall k, k < m ->
          node_array (nodes out) Solution N k
          = (node_array (nodes a) Solution N k
             + node_scalar (nodes a) UnderRelaxation N
               * LinSysSol a (N * nVar (sizes s) + k)%nat)%D)).
  { destruct (Hinner (nVar (sizes s)) (le_n _)) as (I1 & I2 & I3 & I4).
    rewrite I1, I2, E1, E2. split; [done|]. split; [done|]. split.
    - intros y r k Hyrk. rewrite I3; [apply E3|].
      + destruct Hyrk as [?|[?|?]]; [by left|right; left; lia|by right; right].
      + destruct Hyrk as [?|[?|?]]; [by left|right; left; lia|by right; right].
    - intros r k Hr Hk. destruct (decide (r = N)) as [->|Hne].
      + rewrite (I4 k Hk), E1, E2. by rewrite (E3 Solution N k) by (right; left; lia).
      + rewrite I3 by (right; left; done). apply E4; [lia|done]. }
  intros m. induction m as [|m IHm]; intros Hm; cbv zeta.
  { rewrite for_loop_0. repeat split; try done; lia. }
  rewrite for_loop_S. destruct IHm as (I1 & I2 & I3 & I4); [lia|].
  set (b := for_loop m _ a) in *. clearbody b.
  cbn [LinSysSol nodes set_nodes]. unfold AddSolution.
  split; [done|]. split; [done|]. split.
  - intros y r k Hyrk. rewrite SetArrayEntry_lookup, decide_False; [apply I3|].
    + destruct Hyrk as [?|[?|?]]; [by left|by right; left|right; right; lia].
    + intros (<- & <- & <-). destruct Hyrk as [?|[?|?]]; [done|done|lia].
  - intros k Hk. rewrite SetArrayEntry_lookup.
    destruct (decide (m = k)) as [->|Hne].
    + rewrite decide_True by done. rewrite I1, I2.
      by rewrite (I3 Solution N k) by (right; right; lia).
    + rewrite decide_False by (intros (_ & _ & ?); done). apply I4. lia.
Qed.

(** The assembly writes no per-point array but the truncation error. *)
Lemma Implicit_diagonal_arrays geometry i s y r k :
  y <> ResTruncError ->
  node_array (nodes (Implicit_diagonal geometry i s)) y r k = node_array (nodes s) y r k.
Proof.
  intros Hy. unfold Implicit_diagonal. cbv zeta.
  destruct (fne _ zero); [done|].
  apply (for_loop_ind (fun _ out =>
    node_array (nodes out) y r k = node_array (nodes s) y r k)); [done|].
  intros iVar a _ Ha. cbn [nodes set_nodes set_LinSysRes].
  rewrite SetArrayEntry_lookup, decide_False; [done|].
  intros (<- & _). done.
Qed.

Lemma Implicit_build_Solution geometry s r k :
  node_array (nodes (Implicit_build geometry s)) Solution r k
  = node_array (nodes s) Solution r k.
Proof.
  unfold Implicit_build.
  destruct (Implicit_reset_frame s) as (_ & F2 & _).
  apply (for_loop_ind (fun _ out =>
    node_array (nodes out) Solution r k = node_array (nodes s) Solution r k));
    [by rewrite F2|].
  intros i a _ Ha. unfold Implicit_point.
  destruct (Implicit_rhs_spec geometry i (Implicit_diagonal geometry i a)) as (_ & -> & _).
  by rewrite Implicit_diagonal_arrays.
Qed.

(** The solution after the solve and the update, from the state the
    routine has started with. *)
Lemma Implicit_update_after_solve geometry s :
  let sol := Implicit_solve geometry (Implicit_system geometry s) in
  let out := Implicit_update sol in
  let n := nVar (sizes s) in
  (forall iPoint iVar, iPoint < nPointDomain (sizes s) -> iVar < n ->
     node_array (nodes out) Solution iPoint iVar
     = (node_array (nodes s) Solution iPoint iVar
        + node_scalar (nodes s) UnderRelaxation iPoint
          * LinSysSol sol (iPoint * n + iVar)%nat)%D)
  /\ (forall iPoint iVar, nPointDomain (sizes s) <= iPoint \/ n <= iVar ->
        node_array (nodes out) Solution iPoint iVar
        = node_array (nodes s) Solution iPoint iVar)
  /\ node_scalar (nodes out) = node_scalar (nodes s).
Proof.
  cbv zeta.
  destruct (Implicit_build_spec geometry s) as (B1 & B2 & _).
  destruct (Implicit_ghost_frame (Implicit_build geometry s)) as (G1 & G2 & _).
  assert (Hsys : sizes (Implicit_system geometry s) = sizes s
                 /\ node_scalar (nodes (Implicit_system geometry s)) = node_scalar (nodes s)).
  { unfold Implicit_system. cbv zeta in *. by rewrite G1, G2, B1, B2. }
  destruct Hsys as [S1 S2].
  assert (Hsolve : sizes (Implicit_solve geometry (Implicit_system geometry s))
                   = sizes (Implicit_system geometry s)
                   /\ nodes (Implicit_solve geometry (Implicit_system geometry s))
                      = nodes (Implicit_system geometry s)).
  { unfold Implicit_solve. by destruct (Solve _ _ _ _ _) as [[[J b] x] it]. }
  destruct Hsolve as [V1 V2].
  assert (HSol : forall r k,
            node_array (nodes (Implicit_system geometry s)) Solution r k
            = node_array (nodes s) Solution r k).
  { intros r k. unfold Implicit_system. cbv zeta in G2. rewrite G2.
    apply Implicit_build_Solution. }
  destruct (Implicit_update_spec (Implicit_solve geometry (Implicit_system geometry s)))
    as (U1 & U2 & U3 & U4).
  cbv zeta in *. rewrite V1, V2, S1, S2 in *.
  split; [|split; [|done]].
  - intros i k Hi Hk. rewrite (U4 i k Hi Hk). by rewrite HSol.
  - intros i k Hik. rewrite U3 by (by right). apply HSol.
Qed.

(** X12: the update loop of ImplicitEuler_Iteration.  [out] is the state
    the loop leaves, the one the routine hands to the halo exchange of the
    solution it ends with; what the exchange then writes to the ghost points
    is not part of the statement.  In [out] every entry below nVar of the
    solution of an owned point has the under-relaxation factor of the point
    times the solved increment added; the solution of the ghost points, the
    entries from nVar on and the per-point scalars are in [out] as before the
    routine. *)
Theorem implicit_update_increment (geometry : CGeometry) (s : State) :
  let sol := Implicit_solve geometry (Implicit_system geometry s) in
  let out := Implicit_update sol in
  let n := nVar (sizes s) in
  ImplicitEuler_Iteration geometry s
  = (step (InitiateComms_SOLUTION geometry) ;; step (CompleteComms_SOLUTION geometry) ;;
     SetResidual_RMS geometry) out
  /\ (forall iPoint iVar, iPoint < nPointDomain (sizes s) -> iVar < n ->
        node_array (nodes out) Solution iPoint iVar
        = (node_array (nodes s) Solution iPoint iVar
           + node_scalar (nodes s) UnderRelaxation iPoint
             * LinSysSol sol (iPoint * n + iVar)%nat)%D)
  /\ (forall iPoint iVar, nPointDomain (sizes s) <= iPoint \/ n <= iVar ->
        node_array (nodes out) Solution iPoint iVar
        = node_array (nodes s) Solution iPoint iVar)
  /\ node_scalar (nodes out) = node_scalar (nodes s).
Proof. cbv zeta. split; [reflexivity|]. apply Implicit_update_after_solve. Qed.

(** X13: a zero time step freezes the point in the implicit scheme too.
    For an owned point of zero time step, when the linear solver returns for
    an entry of the point what the identity row says, the right-hand side,
    and the under-relaxation factor of the point is finite,
    ImplicitEuler_Iteration leaves the entry of the solution the number it
    was (a zero may change its sign), unless it was a NaN. *)
Theorem implicit_zero_step_freezes
    (geometry : CGeometry) (s : State) (iPoint iVar : nat) :
  iPoint < nPointDomain (sizes s) -> iVar < nVar (sizes s) ->
  fne (node_scalar (nodes s) Delta_Time iPoint) zero = false ->
  let sys := Implicit_system geometry s in
  let sol := Implicit_solve geometry sys in
  let total_index := iPoint * nVar (sizes s) + iVar in
  LinSysSol sol total_index = LinSysRes sys total_index ->
  is_finite (node_scalar (nodes s) UnderRelaxation iPoint) ->
  ~ is_nan (node_array (nodes s) Solution iPoint iVar) ->
  same_number (node_array (nodes (Implicit_update sol)) Solution iPoint iVar)
              (node_array (nodes s) Solution iPoint iVar).
Proof.
  intros Hi Hk Hdt. cbv zeta. intros Hsolve Hrelax Hnan.
  destruct (Implicit_update_after_solve geometry s) as (Hupd & _). cbv zeta in Hupd.
  rewrite (Hupd iPoint iVar Hi Hk), Hsolve.
  destruct (Implicit_system_spec geometry s iPoint Hi) as [_ Hrhs]. cbv zeta in Hrhs.
  destruct (Hrhs iVar Hk) as [_ H]. destruct (H Hdt) as [-> _].
  apply fadd_zero_r; [|done].
  apply fmul_finite_zero; [done|]. by exists true.
Qed.

End ImplicitProperties.

(** ** The source term of the dual time strategy *)

(** A test on two values that are known. *)
Ltac resolve_bool_decide :=
  match goal with
  | |- context [@bool_decide (?a = ?b) ?d] =>
      first [ rewrite (@bool_decide_eq_true_2 (a = b) d) by done
            | rewrite (@bool_decide_eq_false_2 (a = b) d) by done ]
  end.

Lemma fsub_self_finite x : is_finite x -> (x - x)%D = zero.
Proof. intros Hx. rewrite fsub_fadd_neg. by apply fadd_neg_finite. Qed.

Section DualTimeProperties.

Context {geometry_getters : CGeometry_getters} {variable_getters : CVariable_getters}.

(** The loop that computes the residual of one point writes the entries
    below nVar of the work array, and nothing else. *)
Lemma DualTime_Residual_spec U1 U2 U3 V1 V2 V3 T s :
  let out := DualTime_Residual U1 U2 U3 V1 V2 V3 T s in
  sizes out = sizes s /\ config out = config s /\ nodes out = nodes s
  /\ LinSysRes out = LinSysRes s /\ Jacobian out = Jacobian s
  /\ (forall k,
        Residual (scratch out) k
        = if decide (k < nVar (sizes s)) then
            match Time_Marching (config s) with
            | DT_STEPPING_1ST => ((U3 k * V3 - U2 k * V2) / T)%D
            | DT_STEPPING_2ND =>
                ((Z2D 3 * U3 k * V3 - Z2D 4 * U2 k * V2 + Z2D 1 * U1 k * V1)
                 / (Z2D 2 * T))%D
            | _ => Residual (scratch s) k
            end
          else Residual (scratch s) k).
Proof.
  cbv zeta. unfold DualTime_Residual.
  generalize (nVar (sizes s)) as n. intros n. induction n as [|n IH].
  { rewrite for_loop_0. repeat split; done. }
  rewrite for_loop_S. destruct IH as (E1 & E2 & E3 & E4 & E5 & E6).
  set (a := for_loop n _ s) in *. clearbody a. cbv zeta.
  assert (Hgoal : forall b,
    sizes b = sizes a -> config b = config a -> nodes b = nodes a ->
    LinSysRes b = LinSysRes a -> Jacobian b = Jacobian a ->
    (forall k, Residual (scratch b) k
       = if decide (k = n) then
           match Time_Marching (config s) with
           | DT_STEPPING_1ST => ((U3 k * V3 - U2 k * V2) / T)%D
           | DT_STEPPING_2ND =>
               ((Z2D 3 * U3 k * V3 - Z2D 4 * U2 k * V2 + Z2D 1 * U1 k * V1)
                / (Z2D 2 * T))%D
           | _ => Residual (scratch a) k
           end
         else Residual (scratch a) k) ->
    sizes b = sizes s /\ config b = config s /\ nodes b = nodes s
    /\ LinSysRes b = LinSysRes s /\ Jacobian b = Jacobian s
    /\ (forall k, Residual (scratch b) k
          = if decide (k < S n) then
              match Time_Marching (config s) with
              | DT_STEPPING_1ST => ((U3 k * V3 - U2 k * V2) / T)%D
              | DT_STEPPING_2ND =>
                  ((Z2D 3 * U3 k * V3 - Z2D 4 * U2 k * V2 + Z2D 1 * U1 k * V1)
                   / (Z2D 2 * T))%D
              | _ => Residual (scratch s) k
              end
            else Residual (scratch s) k)).
  { intros b B1 B2 B3 B4 B5 B6. rewrite B1, B2, B3, B4, B5.
    repeat split; try done. intros k. rewrite B6, E6.
    destruct (decide (k = n)) as [->|Hne].
    - destruct (decide (n < n)); [lia|]. destruct (decide (n < S n)); [|lia].
      by destruct (Time_Marching (config s)).
    - destruct (decide (k < n)); destruct (decide (k < S n)); try done; lia. }
  match goal with |- sizes ?X = _ /\ _ => set (b := X) end.
  assert (Hb : b = match Time_Marching (config s) with
                   | DT_STEPPING_1ST =>
                       set_scratch (set_Residual (fun R =>
                         <[n := ((U3 n * V3 - U2 n * V2) / T)%D]> R)) a
                   | DT_STEPPING_2ND =>
                       set_scratch (set_Residual (fun R =>
                         <[n := ((Z2D 3 * U3 n * V3 - Z2D 4 * U2 n * V2 + Z2D 1 * U1 n * V1)
                                 / (Z2D 2 * T))%D]> R)) a
                   | _ => a
                   end).
  { subst b.
    assert (Htm' : Time_Marching (config a) = Time_Marching (config s)) by (by rewrite E2).
    destruct (Time_Marching (config s)) eqn:Htm;
      repeat (first [ rewrite Htm' | rewrite Htm | resolve_bool_decide
                    | progress cbn [config set_scratch] ]); reflexivity. }
  clearbody b. subst b.
  destruct (Time_Marching (config s)) eqn:Htm;
    apply Hgoal; try done; intros k;
    cbn [scratch set_scratch Residual set_Residual];
    rewrite ?array_insert_lookup;
    destruct (decide (k = n)) as [->|Hne];
    rewrite ?decide_True by done; rewrite ?decide_False by done; done.
Qed.

Lemma set_entry_lookup i j v (J : block) k l :
  set_entry i j v J k l = if decide (i = k /\ j = l) then v else J k l.
Proof.
  unfold set_entry, insert, fn_insert.
  destruct (decide (i = k)) as [->|]; [|by rewrite decide_False by tauto].
  destruct (decide (j = l)) as [->|]; [by rewrite decide_True|].
  by rewrite decide_False by tauto.
Qed.

(** The loops that fill the work block of one point. *)
Lemma DualTime_Jacobian_i_spec V T s :
  let out := DualTime_Jacobian_i V T s in
  let d := match Time_Marching (config s) with
           | DT_STEPPING_1ST => (V / T)%D
           | DT_STEPPING_2ND => ((V * Z2D 3) / (Z2D 2 * T))%D
           | _ => zero
           end in
  sizes out = sizes s /\ config out = config s /\ nodes out = nodes s
  /\ LinSysRes out = LinSysRes s /\ Jacobian out = Jacobian s
  /\ Residual (scratch out) = Residual (scratch s)
  /\ diagonal_below (nVar (sizes s)) d (Jacobian_i (scratch out)).
Proof.
  cbv zeta. unfold DualTime_Jacobian_i. cbv zeta.
  set (d := match Time_Marching (config s) with
            | DT_STEPPING_1ST => (V / T)%D
            | DT_STEPPING_2ND => ((V * Z2D 3) / (Z2D 2 * T))%D
            | _ => zero
            end).
  enough (Hrows : forall m, m <= nVar (sizes s) ->
    let out := for_loop m (fun iVar s0 =>
      let s1 := for_loop (nVar (sizes s)) (fun jVar s2 =>
        set_scratch (set_Jacobian_i (set_entry iVar jVar zero)) s2) s0 in
      let s2 :=
        if bool_decide (Time_Marching (config s1) = DT_STEPPING_1ST) then
          set_scratch (set_Jacobian_i (set_entry iVar iVar (V / T)%D)) s1
        else s1 in
      if bool_decide (Time_Marching (config s2) = DT_STEPPING_2ND) then
        set_scratch (set_Jacobian_i
          (set_entry iVar iVar ((V * Z2D 3) / (Z2D 2 * T))%D)) s2
      else s2) s in
    sizes out = sizes s /\ config out = config s /\ nodes out = nodes s
    /\ LinSysRes out = LinSysRes s /\ Jacobian out = Jacobian s
    /\ Residual (scratch out) = Residual (scratch s)
    /\ (forall k l, k < m -> l < nVar (sizes s) ->
          Jacobian_i (scratch out) k l = if decide (k = l) then d else zero)).
  { destruct (Hrows (nVar (sizes s)) (le_n _)) as (E1 & E2 & E3 & E4 & E5 & E6 & E7).
    repeat split; done. }
  intros m. induction m as [|m IH]; intros Hm; cbv zeta.
  { rewrite for_loop_0. repeat split; try done; lia. }
  rewrite for_loop_S. destruct IH as (E1 & E2 & E3 & E4 & E5 & E6 & E7); [lia|].
  set (a := for_loop m _ s) in *. clearbody a. cbv beta zeta.
  (* the row is cleared *)
  assert (Hzero :
    let z := for_loop (nVar (sizes s)) (fun jVar s2 =>
        set_scratch (set_Jacobian_i (set_entry m jVar zero)) s2) a in
    sizes z = sizes a /\ config z = config a /\ nodes z = nodes a
    /\ LinSysRes z = LinSysRes a /\ Jacobian z = Jacobian a
    /\ Residual (scratch z) = Residual (scratch a)
    /\ (forall k l, Jacobian_i (scratch z) k l
          = if decide (k = m /\ l < nVar (sizes s)) then zero
            else Jacobian_i (scratch a) k l)).
  { cbv zeta. generalize (nVar (sizes s)) as n. intros n. induction n as [|n IHn].
    { rewrite for_loop_0. repeat split; try done. intros k l.
      by rewrite decide_False by lia. }
    rewrite for_loop_S. destruct IHn as (Z1 & Z2 & Z3 & Z4 & Z5 & Z6 & Z7).
    cbn [sizes config nodes LinSysRes Jacobian scratch set_scratch Residual
         set_Jacobian_i Jacobian_i].
    repeat split; try done. intros k l. rewrite set_entry_lookup, Z7.
    repeat case_decide; try done; exfalso; lia. }
  cbv zeta in Hzero. set (z := for_loop (nVar (sizes s)) _ a) in *. clearbody z.
  destruct Hzero as (Z1 & Z2 & Z3 & Z4 & Z5 & Z6 & Z7).
  match goal with |- sizes ?X = _ /\ _ => set (b := X) end.
  assert (Hb : b = match Time_Marching (config s) with
                   | DT_STEPPING_1ST =>
                       set_scratch (set_Jacobian_i (set_entry m m (V / T)%D)) z
                   | DT_STEPPING_2ND =>
                       set_scratch (set_Jacobian_i
                         (set_entry m m ((V * Z2D 3) / (Z2D 2 * T))%D)) z
                   | _ => z
                   end).
  { subst b.
    assert (Htm' : Time_Marching (config z) = Time_Marching (config s))
      by (by rewrite Z2, E2).
    destruct (Time_Marching (config s)) eqn:Htm;
      repeat (first [ rewrite Htm' | rewrite Htm | resolve_bool_decide
                    | progress cbn [config set_scratch] ]); reflexivity. }
  clearbody b. subst b.
  assert (Hgoal : forall b (v : su2double),
    sizes b = sizes z -> config b = config z -> nodes b = nodes z ->
    LinSysRes b = LinSysRes z -> Jacobian b = Jacobian z ->
    Residual (scratch b) = Residual (scratch z) ->
    (forall k l, Jacobian_i (scratch b) k l
       = if decide (k = m /\ l = m) then v else Jacobian_i (scratch z) k l) ->
    v = d ->
    sizes b = sizes s /\ config b = config s /\ nodes b = nodes s
    /\ LinSysRes b = LinSysRes s /\ Jacobian b = Jacobian s
    /\ Residual (scratch b) = Residual (scratch s)
    /\ (forall k l, k < S m -> l < nVar (sizes s) ->
          Jacobian_i (scratch b) k l = if decide (k = l) then d else zero)).
  { intros b v B1 B2 B3 B4 B5 B6 B7 Hv.
    rewrite B1, B2, B3, B4, B5, B6, Z1, Z2, Z3, Z4, Z5, Z6.
    repeat split; try done. intros k l Hk Hl. rewrite B7, Z7, Hv.
    destruct (decide (k = m)) as [->|Hne].
    - destruct (decide (l = m)) as [->|Hl'].
      + rewrite decide_True by done. by rewrite decide_True.
      + rewrite decide_False by tauto. rewrite decide_True by done.
        by rewrite decide_False by (intros ->; done).
    - rewrite decide_False by tauto. rewrite decide_False by tauto. apply E7; [lia|done]. }
  subst d. destruct (Time_Marching (config s)) eqn:Htm.
  - apply (Hgoal z zero); try done. intros k l.
    destruct (decide (k = m /\ l = m)) as [[-> ->]|]; [|done].
    rewrite Z7. by rewrite decide_True by (split; [done|lia]).
  - apply (Hgoal z zero); try done. intros k l.
    destruct (decide (k = m /\ l = m)) as [[-> ->]|]; [|done].
    rewrite Z7. by rewrite decide_True by (split; [done|lia]).
  - apply (Hgoal _ (V / T)%D); try done. intros k l.
    cbn [scratch set_scratch set_Jacobian_i Jacobian_i]. rewrite set_entry_lookup.
    repeat case_decide; try done; exfalso; intuition lia.
  - apply (Hgoal _ ((V * Z2D 3) / (Z2D 2 * T))%D); try done. intros k l.
    cbn [scratch set_scratch set_Jacobian_i Jacobian_i]. rewrite set_entry_lookup.
    repeat case_decide; try done; exfalso; intuition lia.
  - apply (Hgoal z zero); try done. intros k l.
    destruct (decide (k = m /\ l = m)) as [[-> ->]|]; [|done].
    rewrite Z7. by rewrite decide_True by (split; [done|lia]).
Qed.

Lemma AddBlock2_lookup (n i j : nat) (B : block) (J : CSysMatrix) (r c : nat) :
  AddBlock2 n i j B J !! (r, c)
  = if decide ((i, j) = (r, c)) then block_add n B <$> J !! (i, j) else J !! (r, c).
Proof.
  unfold AddBlock2. by rewrite lookup_alter.
Qed.

Lemma dual_time_source_ext geometry a s i k :
  config a = config s -> nodes a = nodes s ->
  (~ dual_time_scheme (config s) -> Residual (scratch a) k = Residual (scratch s) k) ->
  dual_time_source geometry a i k = dual_time_source geometry s i k.
Proof.
  intros Hc Hn Hr. unfold dual_time_source. cbv zeta. rewrite Hc, Hn.
  unfold dual_time_scheme in Hr.
  destruct (Time_Marching (config s)) eqn:Htm; try done;
    apply Hr; intros [?|?]; done.
Qed.

(** One owned point. *)
Lemma DualTime_point_spec geometry i a :
  let out := DualTime_point geometry (implicit_scheme a) (Grid_Movement (config a)) i a in
  let n := nVar (sizes a) in
  sizes out = sizes a /\ config out = config a /\ nodes out = nodes a
  /\ (~ dual_time_scheme (config a) ->
      forall k, Residual (scratch out) k = Residual (scratch a) k)
  /\ (forall k, k < n ->
        LinSysRes out (i * n + k)
        = (LinSysRes a (i * n + k)%nat + dual_time_source geometry a i k)%D)
  /\ (forall q, ~ in_block n i q -> LinSysRes out q = LinSysRes a q)
  /\ (if implicit_scheme a
      then exists B, diagonal_below n (dual_time_diagonal geometry a i) B
                     /\ Jacobian out = AddBlock2 n i i B (Jacobian a)
      else Jacobian out = Jacobian a).
Proof.
  cbv zeta. unfold DualTime_point. cbv zeta.
  set (U1 := GetSolution_time_n1 (nodes a) i).
  set (U2 := GetSolution_time_n (nodes a) i).
  set (U3 := node_array (nodes a) Solution i).
  set (V1 := if Grid_Movement (config a) then GetVolume_nM1 geometry i else Volume geometry i).
  set (V2 := if Grid_Movement (config a) then GetVolume_n geometry i else Volume geometry i).
  destruct (DualTime_Residual_spec U1 U2 U3 V1 V2 (Volume geometry i)
              (Get (config a) Delta_UnstTimeND) a) as (R1 & R2 & R3 & R4 & R5 & R6).
  cbv zeta in *.
  set (r := DualTime_Residual U1 U2 U3 V1 V2 (Volume geometry i)
              (Get (config a) Delta_UnstTimeND) a) in *. clearbody r.
  set (r' := set_LinSysRes (AddBlock (nVar (sizes a)) i (Residual (scratch r))) r).
  assert (Hr' : sizes r' = sizes a /\ config r' = config a /\ nodes r' = nodes a
                /\ Jacobian r' = Jacobian a /\ scratch r' = scratch r
                /\ LinSysRes r' = AddBlock (nVar (sizes a)) i (Residual (scratch r))
                                    (LinSysRes a)).
  { subst r'. cbn [sizes config nodes Jacobian scratch LinSysRes set_LinSysRes].
    by rewrite R1, R2, R3, R4, R5. }
  clearbody r'. destruct Hr' as (A1 & A2 & A3 & A4 & A5 & A6).
  assert (Hsrc : forall k, k < nVar (sizes a) ->
            Residual (scratch r) k = dual_time_source geometry a i k).
  { intros k Hk. rewrite R6, decide_True by done. unfold dual_time_source. cbv zeta.
    by destruct (Time_Marching (config a)). }
  assert (Hstale : ~ dual_time_scheme (config a) ->
            forall k, Residual (scratch r) k = Residual (scratch a) k).
  { intros Hnd k. unfold dual_time_scheme in Hnd. rewrite R6.
    destruct (decide _); [|done].
    destruct (Time_Marching (config a)) eqn:Htm; try done; exfalso; tauto. }
  assert (Hres : (forall k, k < nVar (sizes a) ->
                    LinSysRes r' (i * nVar (sizes a) + k)
                    = (LinSysRes a (i * nVar (sizes a) + k)%nat
                       + dual_time_source geometry a i k)%D)
                 /\ (forall q, ~ in_block (nVar (sizes a)) i q ->
                       LinSysRes r' q = LinSysRes a q)).
  { rewrite A6. split.
    - intros k Hk. rewrite AddBlock_at by done. by rewrite Hsrc.
    - intros q Hq. by apply AddBlock_other. }
  destruct Hres as [Hat Hother].
  destruct (implicit_scheme a).
  - destruct (DualTime_Jacobian_i_spec (Volume geometry i)
                (Get (config a) Delta_UnstTimeND) r') as (J1 & J2 & J3 & J4 & J5 & J6 & J7).
    cbv zeta in *.
    cbn [sizes config nodes LinSysRes Jacobian scratch set_Jacobian].
    rewrite J1, J2, J3, J4, J5, J6, A1, A2, A3, A4, A5 in *.
    split; [done|]. split; [done|]. split; [done|]. split; [done|].
    split; [done|]. split; [done|].
    eexists. split; [|reflexivity]. exact J7.
  - rewrite A1, A2, A3, A4, A5. done.
Qed.

(** The loop over the owned points. *)
Lemma DualTime_loop_spec geometry s m :
  let out := for_loop m (DualTime_point geometry (implicit_scheme s)
                           (Grid_Movement (config s))) s in
  let n := nVar (sizes s) in
  sizes out = sizes s /\ config out = config s /\ nodes out = nodes s
  /\ (~ dual_time_scheme (config s) ->
      forall k, Residual (scratch out) k = Residual (scratch s) k)
  /\ (forall r k, r < m -> k < n ->
        LinSysRes out (r * n + k)
        = (LinSysRes s (r * n + k)%nat + dual_time_source geometry s r k)%D)
  /\ (forall q, (forall r, r < m -> ~ in_block n r q) -> LinSysRes out q = LinSysRes s q)
  /\ (implicit_scheme s = false -> Jacobian out = Jacobian s)
  /\ (forall r c, r <> c \/ m <= r -> Jacobian out !! (r, c) = Jacobian s !! (r, c))
  /\ (implicit_scheme s = true -> forall r, r < m ->
        exists B, diagonal_below n (dual_time_diagonal geometry s r) B
                  /\ Jacobian out !! (r, r) = block_add n B <$> Jacobian s !! (r, r)).
Proof.
  cbv zeta. induction m as [|m IH].
  { rewrite for_loop_0. repeat split; try done; lia. }
  rewrite for_loop_S. destruct IH as (E1 & E2 & E3 & E4 & E5 & E6 & E7 & E8 & E9).
  set (a := for_loop m _ s) in *. clearbody a.
  assert (Himp : implicit_scheme s = implicit_scheme a)
    by (unfold implicit_scheme; by rewrite E2).
  replace (DualTime_point geometry (implicit_scheme s) (Grid_Movement (config s)) m a)
    with (DualTime_point geometry (implicit_scheme a) (Grid_Movement (config a)) m a)
    by (by rewrite <- Himp, E2).
  destruct (DualTime_point_spec geometry m a) as (P1 & P2 & P3 & P4 & P5 & P6 & P7).
  cbv zeta in *.
  set (b := DualTime_point geometry (implicit_scheme a) (Grid_Movement (config a)) m a) in *.
  clearbody b. rewrite E1, E2 in *. rewrite P1, P2, P3.
  assert (Hsrc : forall k, dual_time_source geometry a m k = dual_time_source geometry s m k).
  { intros k. apply dual_time_source_ext; [done|done|]. intros Hnd. by apply E4. }
  assert (Hdiag : dual_time_diagonal geometry a m = dual_time_diagonal geometry s m).
  { unfold dual_time_diagonal. by rewrite E2. }
  split; [done|]. split; [done|]. split; [done|]. split.
  { intros Hnd k. rewrite (P4 Hnd k). by apply E4. }
  split.
  { intros r k Hr Hk. destruct (decide (r = m)) as [->|Hne].
    - rewrite (P5 k Hk), Hsrc. f_equal. apply E6.
      intros r Hr'. apply block_apart; [lia|done].
    - rewrite P6 by (apply block_apart; [done|done]). apply E5; [lia|done]. }
  split.
  { intros q Hq. rewrite P6 by (apply Hq; lia). apply E6. intros r Hr. apply Hq. lia. }
  rewrite <- Himp in P7. destruct (implicit_scheme s) eqn:Hs.
  - destruct P7 as (B & HB & HJ). rewrite Hdiag in HB. split; [done|]. split.
    + intros r c Hrc. rewrite HJ, AddBlock2_lookup.
      rewrite decide_False by (intros [= -> ->]; destruct Hrc; [done|lia]).
      apply E8. destruct Hrc; [by left|right; lia].
    + intros _ r Hr. destruct (decide (r = m)) as [->|Hne].
      * exists B. split; [done|]. rewrite HJ, AddBlock2_lookup, decide_True by done.
        by rewrite (E8 m m) by (right; lia).
      * destruct (E9 eq_refl r) as (B' & HB' & HJ'); [lia|].
        exists B'. split; [done|]. rewrite HJ, AddBlock2_lookup.
        by rewrite decide_False by (intros [= -> _]; done).
  - rewrite P7. split; [by apply E7|]. split; [|done].
    intros r c Hrc. apply E8. destruct Hrc; [by left|right; lia].
Qed.

(** X14: SetResidual_DualTime adds to every entry below nVar of the residual
    of every owned point the backward difference of the time marching scheme:
    (U V - Un Vn)/dt for the first-order scheme, (3 U V - 4 Un Vn + 1 Unm1
    Vnm1)/(2 dt) for the second-order one, with the volumes of the previous
    levels replaced by the present volume on a grid that does not move.  In a
    run that is neither, it adds what the work array Residual of the solver
    holds on entry, to every owned point.  The other entries of the residual
    vector, the per-point storage and the configuration are not written, and
    with an explicit scheme the Jacobian is not written either. *)
Theorem dual_time_source_added
    (geometry : CGeometry) (iRKStep iMesh RunTime_EqSystem : nat) (s : State) :
  let n := nVar (sizes s) in
  exists out, SetResidual_DualTime geometry iRKStep iMesh RunTime_EqSystem s = Done out
    /\ (forall iPoint iVar, iPoint < nPointDomain (sizes s) -> iVar < n ->
          LinSysRes out (iPoint * n + iVar)
          = (LinSysRes s (iPoint * n + iVar)%nat
             + dual_time_source geometry s iPoint iVar)%D)
    /\ (~ dual_time_scheme (config s) ->
        forall iPoint iVar, iPoint < nPointDomain (sizes s) -> iVar < n ->
          LinSysRes out (iPoint * n + iVar)
          = (LinSysRes s (iPoint * n + iVar)%nat + Residual (scratch s) iVar)%D)
    /\ (forall q, (forall iPoint, iPoint < nPointDomain (sizes s) -> ~ in_block n iPoint q) ->
          LinSysRes out q = LinSysRes s q)
    /\ nodes out = nodes s /\ config out = config s
    /\ (implicit_scheme s = false -> Jacobian out = Jacobian s).
Proof.
  cbv zeta. unfold SetResidual_DualTime, step. eexists. split; [reflexivity|]. cbv zeta.
  destruct (DualTime_loop_spec geometry s (nPointDomain (sizes s)))
    as (E1 & E2 & E3 & E4 & E5 & E6 & E7 & E8 & E9).
  cbv zeta in *. split; [done|]. split; [|done].
  intros Hnd i k Hi Hk. rewrite (E5 i k Hi Hk). f_equal.
  unfold dual_time_source, dual_time_scheme in *. cbv zeta.
  destruct (Time_Marching (config s)); try done; exfalso; tauto.
Qed.

(** X15: a solution that does not change in time has no dual time source.
    With the first-order scheme on a grid that does not move, when the entry
    of the solution of an owned point equals the one of the previous time
    level, its product with the volume is finite and the unsteady time step
    is finite and not zero, SetResidual_DualTime leaves the entry of the
    residual the number it was (a zero may change its sign), unless it was a
    NaN. *)
Theorem dual_time_steady_state
    (geometry : CGeometry) (iRKStep iMesh RunTime_EqSystem : nat) (s : State)
    (iPoint iVar : nat) :
  Time_Marching (config s) = DT_STEPPING_1ST ->
  Grid_Movement (config s) = false ->
  iPoint < nPointDomain (sizes s) -> iVar < nVar (sizes s) ->
  GetSolution_time_n (nodes s) iPoint iVar = node_array (nodes s) Solution iPoint iVar ->
  is_finite (node_array (nodes s) Solution iPoint iVar * Volume geometry iPoint)%D ->
  is_finite (Get (config s) Delta_UnstTimeND) ->
  ~ is_zero (Get (config s) Delta_UnstTimeND) ->
  let total_index := iPoint * nVar (sizes s) + iVar in
  ~ is_nan (LinSysRes s total_index) ->
  same_number
    (LinSysRes (final (SetResidual_DualTime geometry iRKStep iMesh RunTime_EqSystem s))
               total_index)
    (LinSysRes s total_index).
Proof.
  intros Htm Hgm Hi Hk HU Hfin HT HTnz. cbv zeta. intros Hnan.
  unfold SetResidual_DualTime, step. cbn [final].
  destruct (DualTime_loop_spec geometry s (nPointDomain (sizes s)))
    as (_ & _ & _ & _ & E5 & _).
  cbv zeta in E5. rewrite (E5 iPoint iVar Hi Hk).
  apply fadd_zero_r; [|done].
  unfold dual_time_source. cbv zeta. rewrite Htm, Hgm, HU.
  rewrite (fsub_self_finite _ Hfin).
  apply fdiv_zero_finite; [by exists false|done|done].
Qed.

(** X16: the Jacobian of SetResidual_DualTime in an implicit run.  The
    diagonal block of every owned point gets a block added whose entries
    below nVar are those of d times the identity, with d = Volume/dt for the
    first-order scheme, (Volume*3)/(2 dt) for the second-order one and 0 for
    any other time marching; a block off the diagonal, or of a point that is
    not owned, is not written. *)
Theorem dual_time_jacobian
    (geometry : CGeometry) (iRKStep iMesh RunTime_EqSystem : nat) (s : State) :
  implicit_scheme s = true ->
  let out := final (SetResidual_DualTime geometry iRKStep iMesh RunTime_EqSystem s) in
  let n := nVar (sizes s) in
  (forall iPoint, iPoint < nPointDomain (sizes s) ->
     exists B, diagonal_below n (dual_time_diagonal geometry s iPoint) B
               /\ Jacobian out !! (iPoint, iPoint)
                  = block_add n B <$> Jacobian s !! (iPoint, iPoint))
  /\ (forall iPoint jPoint, iPoint <> jPoint \/ nPointDomain (sizes s) <= iPoint ->
        Jacobian out !! (iPoint, jPoint) = Jacobian s !! (iPoint, jPoint)).
Proof.
  intros Himp. cbv zeta. unfold SetResidual_DualTime, step. cbn [final].
  destruct (DualTime_loop_spec geometry s (nPointDomain (sizes s)))
    as (_ & _ & _ & _ & _ & _ & _ & E8 & E9).
  cbv zeta in *. split; [by apply E9|done].
Qed.

End DualTimeProperties.

(** ** The symmetry plane *)

Lemma fmul_nan_l x : (NaN * x)%D = NaN.
Proof. by destruct x. Qed.

Lemma fadd_nan_l x : (NaN + x)%D = NaN.
Proof. by destruct x. Qed.

Lemma fmul_zero_zero x y : is_zero x -> is_zero y -> (x * y)%D = zero \/ (x * y)%D = S754_zero true.
Proof. intros [sx ->] [sy ->]. destruct sx, sy; cbn; tauto. Qed.

Lemma scratch_frame_refl s : scratch_frame s s.
Proof. done. Qed.

Lemma scratch_frame_trans s1 s2 s3 :
  scratch_frame s1 s2 -> scratch_frame s2 s3 -> scratch_frame s1 s3.
Proof.
  intros (A1 & A2 & A3 & A4 & A5 & A6 & A7) (B1 & B2 & B3 & B4 & B5 & B6 & B7).
  unfold scratch_frame. by rewrite B1, B2, B3, B4, B5, B6, B7.
Qed.

Lemma set_scratch_frame f s : scratch_frame s (set_scratch f s).
Proof. done. Qed.

Lemma for_loop_scratch_frame n (body : nat -> State -> State) s :
  (forall i a, scratch_frame a (body i a)) -> scratch_frame s (for_loop n body s).
Proof.
  intros Hbody. apply (for_loop_ind (fun _ out => scratch_frame s out)); [done|].
  intros i a _ Ha. eapply scratch_frame_trans; [exact Ha|apply Hbody].
Qed.

Section SymPlaneProperties.

Context {primitive_getters : CVariable_primitive_getters}.
Context {gas_getters : CNEMOGas_getters}.

Lemma Sym_Plane_UnitNormal_at nDim Normal Area iDim :
  iDim < nDim -> Sym_Plane_UnitNormal nDim Normal Area iDim = ((- Normal iDim) / Area)%D.
Proof.
  intros Hd. unfold Sym_Plane_UnitNormal.
  apply (for_loop_insert_at nDim (fun i => i) (fun i _ => ((- Normal i) / Area)%D) zeros iDim);
    [done|]. by intros i j _ _ ->.
Qed.

(** A loop that writes one entry of the work array [Residual] per
    iteration. *)
Lemma Residual_loop_spec n (idx : nat -> nat) (val : nat -> su2double) s :
  let out := for_loop n (fun i s0 =>
    set_scratch (set_Residual (fun R => <[idx i := val i]> R)) s0) s in
  scratch_frame s out /\ Jacobian_i (scratch out) = Jacobian_i (scratch s)
  /\ Residual (scratch out)
     = for_loop n (fun i (R : array) => <[idx i := val i]> R) (Residual (scratch s)).
Proof.
  cbv zeta. induction n as [|n IH]; [done|].
  rewrite !for_loop_S. destruct IH as (E1 & E2 & E3).
  split; [|split].
  - eapply scratch_frame_trans; [exact E1|apply set_scratch_frame].
  - cbn [scratch set_scratch set_Residual Jacobian_i]. exact E2.
  - cbn [scratch set_scratch set_Residual Residual]. by rewrite E3.
Qed.

Lemma Sym_Plane_Residual_spec P Area UnitNormal s :
  let out := Sym_Plane_Residual P Area UnitNormal s in
  let nS := nSpecies (sizes s) in
  let nD := nDim (sizes s) in
  scratch_frame s out
  /\ (forall k, k < nS + nD + 2 ->
        Residual (scratch out) k
        = if decide (nS <= k < nS + nD) then (P * UnitNormal (k - nS)%nat * Area)%D
          else zero).
Proof.
  cbv zeta. unfold Sym_Plane_Residual. cbv zeta.
  destruct (Residual_loop_spec (nSpecies (sizes s)) (fun i => i) (fun _ => zero) s)
    as (A1 & _ & A3). cbv zeta in *.
  set (s1 := for_loop (nSpecies (sizes s)) _ s) in *. clearbody s1.
  destruct (Residual_loop_spec (nDim (sizes s)) (fun i => nSpecies (sizes s) + i)
              (fun i => (P * UnitNormal i * Area)%D) s1) as (B1 & _ & B3). cbv zeta in *.
  set (s2 := for_loop (nDim (sizes s)) _ s1) in *. clearbody s2.
  split.
  - eapply scratch_frame_trans; [|apply set_scratch_frame].
    eapply scratch_frame_trans; [|apply set_scratch_frame].
    by eapply scratch_frame_trans.
  - intros k Hk. cbn [scratch set_scratch set_Residual Residual].
    rewrite !array_insert_lookup, B3, A3.
    destruct (decide (nSpecies (sizes s) + nDim (sizes s) + 1 = k)) as [<-|H1].
    { by rewrite decide_False by lia. }
    destruct (decide (nSpecies (sizes s) + nDim (sizes s) = k)) as [<-|H2].
    { by rewrite decide_False by lia. }
    destruct (decide (nSpecies (sizes s) <= k < nSpecies (sizes s) + nDim (sizes s)))
      as [Hm|Hm].
    + replace k with (nSpecies (sizes s) + (k - nSpecies (sizes s))) at 1 by lia.
      rewrite (for_loop_insert_at (nDim (sizes s)) (fun i => nSpecies (sizes s) + i)
                 (fun i _ => (P * UnitNormal i * Area)%D)) by (intros; lia).
      done.
    + rewrite (for_loop_insert_other (nDim (sizes s)) (fun i => nSpecies (sizes s) + i)
                 (fun i _ => (P * UnitNormal i * Area)%D)) by (intros; lia).
      apply (for_loop_insert_at (nSpecies (sizes s)) (fun i => i) (fun _ _ => zero));
        [lia|]. by intros i j _ _ ->.
Qed.

Lemma write_Jacobian_i_frame i j v s : scratch_frame s (write_Jacobian_i i j v s).
Proof. done. Qed.

Lemma Sym_Plane_Jacobian_i_frame iPoint P Area UnitNormal s :
  scratch_frame s (Sym_Plane_Jacobian_i iPoint P Area UnitNormal s).
Proof.
  unfold Sym_Plane_Jacobian_i. cbv zeta.
  set (s1 := for_loop (nVar (sizes s)) _ s).
  assert (H1 : scratch_frame s s1).
  { subst s1. apply for_loop_scratch_frame. intros i a.
    apply for_loop_scratch_frame. intros j b. apply write_Jacobian_i_frame. }
  clearbody s1.
  match goal with |- context [for_loop ?n ?body (zero, s1)] =>
    set (r := for_loop n body (zero, s1)) end.
  assert (H2 : scratch_frame s r.2).
  { subst r.
    match goal with |- context [for_loop ?n ?body (zero, s1)] =>
      apply (for_loop_ind (fun _ (cs : su2double * State) => scratch_frame s cs.2)
               n body (zero, s1)) end; [done|].
    intros i [conc a] _ Ha. cbn [snd] in *.
    eapply scratch_frame_trans; [exact Ha|].
    apply for_loop_scratch_frame. intros j b.
    eapply scratch_frame_trans; apply write_Jacobian_i_frame. }
  clearbody r. destruct r as [conc s2]. cbn [snd] in H2.
  eapply scratch_frame_trans; [exact H2|].
  eapply scratch_frame_trans.
  - apply for_loop_scratch_frame. intros i a.
    eapply scratch_frame_trans; [|apply write_Jacobian_i_frame].
    eapply scratch_frame_trans; [|apply write_Jacobian_i_frame].
    eapply scratch_frame_trans; [|apply write_Jacobian_i_frame].
    eapply scratch_frame_trans; [|apply write_Jacobian_i_frame].
    apply for_loop_scratch_frame. intros j b. apply write_Jacobian_i_frame.
  - apply for_loop_scratch_frame. intros i a.
    apply for_loop_scratch_frame. intros j b. apply write_Jacobian_i_frame.
Qed.

Lemma sym_plane_flux_ext s s' v k :
  sizes s' = sizes s -> nodes s' = nodes s -> sym_plane_flux s' v k = sym_plane_flux s v k.
Proof. intros Hs Hn. unfold sym_plane_flux. by rewrite Hs, Hn. Qed.

(** One vertex of the marker. *)
Lemma Sym_Plane_vertex_spec geometry implicit s v :
  nVar (sizes s) = nSpecies (sizes s) + nDim (sizes s) + 2 ->
  let out := Sym_Plane_vertex geometry implicit s v in
  let n := nVar (sizes s) in
  let iPoint := vertex_Node v in
  sizes out = sizes s /\ config out = config s /\ nodes out = nodes s
  /\ (forall r k, k < n ->
        LinSysRes out (r * n + k)
        = if Domain geometry iPoint && bool_decide (iPoint = r)
          then (LinSysRes s (r * n + k)%nat + sym_plane_flux s v k)%D
          else LinSysRes s (r * n + k))
  /\ (implicit = false -> Jacobian out = Jacobian s)
  /\ (forall r c, r <> c -> Jacobian out !! (r, c) = Jacobian s !! (r, c)).
Proof.
  intros HnVar. cbv zeta. unfold Sym_Plane_vertex. cbv zeta.
  destruct (Domain geometry (vertex_Node v)); [|done]. cbn [andb].
  set (Area := face_area (nDim (sizes s)) (vertex_Normal v)).
  set (U := Sym_Plane_UnitNormal (nDim (sizes s)) (vertex_Normal v) Area).
  set (P := GetPressure (nodes s) (vertex_Node v)).
  destruct (Sym_Plane_Residual_spec P Area U s) as [Hfr Hres]. cbv zeta in Hres.
  set (s1 := Sym_Plane_Residual P Area U s) in *. clearbody s1.
  destruct Hfr as (F1 & F2 & F3 & F4 & F5 & F6 & F7).
  set (s2 := set_LinSysRes (AddBlock (nVar (sizes s)) (vertex_Node v)
                              (Residual (scratch s1))) s1).
  assert (Hs2 : sizes s2 = sizes s /\ config s2 = config s /\ nodes s2 = nodes s
                /\ Jacobian s2 = Jacobian s
                /\ forall r k, k < nVar (sizes s) ->
                     LinSysRes s2 (r * nVar (sizes s) + k)
                     = if bool_decide (vertex_Node v = r)
                       then (LinSysRes s (r * nVar (sizes s) + k)%nat
                             + sym_plane_flux s v k)%D
                       else LinSysRes s (r * nVar (sizes s) + k)).
  { subst s2. cbn [sizes config nodes Jacobian LinSysRes set_LinSysRes].
    rewrite F1, F2, F3, F5, F7. repeat split; try done.
    intros r k Hk. case_bool_decide as Hr.
    - subst r. rewrite AddBlock_at by done. f_equal.
      rewrite Hres by lia. unfold sym_plane_flux. cbv zeta.
      destruct (decide (_ <= k < _)) as [Hm|Hm]; [|done].
      subst U. rewrite Sym_Plane_UnitNormal_at by lia. done.
    - apply AddBlock_other. by apply block_apart. }
  clearbody s2. destruct Hs2 as (G1 & G2 & G3 & G4 & G5).
  destruct implicit.
  - destruct (Sym_Plane_Jacobian_i_frame (vertex_Node v) P Area U s2)
      as (J1 & J2 & J3 & J4 & J5 & J6 & J7).
    cbn [sizes config nodes LinSysRes Jacobian set_Jacobian].
    rewrite J1, J2, J3, J5, J7, G1, G2, G3, G4.
    split; [done|]. split; [done|]. split; [done|]. split; [done|]. split; [done|].
    intros r c Hrc. rewrite AddBlock2_lookup.
    by rewrite decide_False by (intros [= -> ->]; done).
  - rewrite G1, G2, G3, G4. done.
Qed.

(** The loop over the vertices. *)
Lemma Sym_Plane_loop_spec geometry implicit (l : list CVertex) s :
  nVar (sizes s) = nSpecies (sizes s) + nDim (sizes s) + 2 ->
  let out := foldl (Sym_Plane_vertex geometry implicit) s l in
  let n := nVar (sizes s) in
  sizes out = sizes s /\ config out = config s /\ nodes out = nodes s
  /\ (forall r k, k < n ->
        LinSysRes out (r * n + k)
        = sym_plane_sum geometry s l r k (LinSysRes s (r * n + k)))
  /\ (implicit = false -> Jacobian out = Jacobian s)
  /\ (forall r c, r <> c -> Jacobian out !! (r, c) = Jacobian s !! (r, c)).
Proof.
  intros HnVar. cbv zeta. induction l as [|v l IH] using rev_ind; [done|].
  rewrite foldl_app. cbn [foldl]. destruct IH as (E1 & E2 & E3 & E4 & E5 & E6).
  set (a := foldl _ s l) in *. clearbody a.
  destruct (Sym_Plane_vertex_spec geometry implicit a v) as (P1 & P2 & P3 & P4 & P5 & P6).
  { by rewrite E1. }
  cbv zeta in *. rewrite E1 in *. rewrite P1, P2, P3.
  split; [done|]. split; [done|]. split; [done|]. split; [|split].
  - intros r k Hk. rewrite (P4 r k Hk). unfold sym_plane_sum. rewrite foldl_app.
    cbn [foldl]. fold (sym_plane_sum geometry s l r k (LinSysRes s (r * nVar (sizes s) + k))).
    rewrite (E4 r k Hk). by rewrite (sym_plane_flux_ext s a v k E1 E3).
  - intros Himp. rewrite (P5 Himp). by apply E5.
  - intros r c Hrc. rewrite (P6 r c Hrc). by apply E6.
Qed.

(** X17: BC_Sym_Plane.  With nVar = nSpecies + nDim + 2, every entry of the
    residual block of a point ends as its value on entry plus, one after the
    other, the fluxes of the vertices of the marker that sit on the point and
    belong to the domain: zero for the species and the two energies, and the
    pressure of the point times the outward unit normal times the area for
    the momentum.  A halo vertex adds nothing.  The per-point storage and
    the configuration are not written; with an explicit scheme the Jacobian
    is not written, and with the implicit one only diagonal blocks are. *)
Theorem sym_plane_residual (geometry : CGeometry) (conv_numerics visc_numerics : CNumerics)
    (val_marker : nat) (s : State) :
  nVar (sizes s) = nSpecies (sizes s) + nDim (sizes s) + 2 ->
  let n := nVar (sizes s) in
  exists out, BC_Sym_Plane geometry conv_numerics visc_numerics val_marker s = Done out
    /\ nodes out = nodes s /\ config out = config s
    /\ (forall iPoint iVar, iVar < n ->
          LinSysRes out (iPoint * n + iVar)
          = sym_plane_sum geometry s (marker_vertices geometry val_marker) iPoint iVar
              (LinSysRes s (iPoint * n + iVar)))
    /\ (implicit_scheme s = false -> Jacobian out = Jacobian s)
    /\ (forall iPoint jPoint, iPoint <> jPoint ->
          Jacobian out !! (iPoint, jPoint) = Jacobian s !! (iPoint, jPoint)).
Proof.
  intros HnVar. cbv zeta. unfold BC_Sym_Plane, step. eexists. split; [reflexivity|].
  cbv zeta.
  destruct (Sym_Plane_loop_spec geometry (implicit_scheme s)
              (marker_vertices geometry val_marker) s HnVar) as (E1 & E2 & E3 & E4 & E5 & E6).
  cbv zeta in *. done.
Qed.

Lemma face_area_zero nDim Normal :
  (forall iDim, iDim < nDim -> is_zero (Normal iDim)) -> face_area nDim Normal = zero.
Proof.
  intros Hz. unfold face_area.
  enough (Hsum : for_loop nDim (fun iDim Area => (Area + Normal iDim * Normal iDim)%D) zero
                 = zero) by (by rewrite Hsum).
  induction nDim as [|n IH]; [done|].
  rewrite for_loop_S, IH by (intros i Hi; apply Hz; lia).
  destruct (Hz n) as [sg ->]; [lia|]. by destruct sg.
Qed.

Lemma sym_plane_sum_nan geometry s l r k x :
  is_nan x -> is_nan (sym_plane_sum geometry s l r k x).
Proof.
  unfold sym_plane_sum, is_nan. revert x. induction l as [|v l IH]; intros x ->; [done|].
  cbn [foldl]. apply IH. destruct (_ && _); [|done]. apply fadd_nan_l.
Qed.

(** X18: a degenerate face poisons the momentum residual.  When a vertex of
    the marker belongs to the domain and the components below nDim of its
    normal are all zero, its area is 0, its unit normal is 0/0, and after
    BC_Sym_Plane every momentum entry of the residual of its point is a NaN;
    the routine has no check that would discard the face. *)
Theorem sym_plane_zero_normal_nan
    (geometry : CGeometry) (conv_numerics visc_numerics : CNumerics)
    (val_marker : nat) (s : State) (v : CVertex) (iDim : nat) :
  nVar (sizes s) = nSpecies (sizes s) + nDim (sizes s) + 2 ->
  v ∈ marker_vertices geometry val_marker ->
  Domain geometry (vertex_Node v) = true ->
  (forall jDim, jDim < nDim (sizes s) -> is_zero (vertex_Normal v jDim)) ->
  iDim < nDim (sizes s) ->
  let total_index := vertex_Node v * nVar (sizes s) + (nSpecies (sizes s) + iDim) in
  is_nan (LinSysRes (final (BC_Sym_Plane geometry conv_numerics visc_numerics val_marker s))
            total_index).
Proof.
  intros HnVar Hin Hdom Hzero Hd. cbv zeta. unfold BC_Sym_Plane, step. cbn [final].
  destruct (Sym_Plane_loop_spec geometry (implicit_scheme s)
              (marker_vertices geometry val_marker) s HnVar) as (_ & _ & _ & E4 & _).
  cbv zeta in E4. rewrite E4 by lia.
  apply list_elem_of_split in Hin as (l1 & l2 & ->).
  unfold sym_plane_sum. rewrite foldl_app. cbn [foldl].
  rewrite Hdom, bool_decide_eq_true_2 by done. cbn [andb].
  apply (sym_plane_sum_nan geometry s l2 (vertex_Node v) (nSpecies (sizes s) + iDim)).
  assert (Hflux : sym_plane_flux s v (nSpecies (sizes s) + iDim) = NaN).
  { unfold sym_plane_flux. cbv zeta. rewrite decide_True by lia.
    rewrite (face_area_zero _ _ Hzero).
    replace (nSpecies (sizes s) + iDim - nSpecies (sizes s)) with iDim by lia.
    destruct (Hzero iDim Hd) as [sg ->]. cbn [fneg SFopp].
    change ((S754_zero (negb sg)) / zero)%D with NaN.
    by rewrite fmul_nan_r, fmul_nan_l. }
  unfold is_nan. rewrite Hflux. apply fadd_nan_r.
Qed.

End SymPlaneProperties.

(** ** Examples of the further routines on the small instance *)

(** The small instance on the partitioned mesh: point 0 has residual (0, 1),
    truncation error (1/2, 1/2), time step 1/2 and volume 4; point 2 is a
    ghost point, and the loop leaves its solution as it is. *)
Lemma explicit_euler_update_witness :
  let s := ex_state_halo ex_explicit in
  let out := ExplicitEuler_update (geometry_getters := ex_geometry_getters) ex_geometry s in
  Continuous_Adjoint (config s) = false
  /\ nPointDomain (sizes s) = 2 /\ nPoint (sizes s) = 3
  /\ node_array (nodes out) Solution 0 1
     = (Z2D 3 + (- (Z2D 1 + half)) * (half / (Z2D 4 + zero)))%D
  /\ node_array (nodes out) Solution 2 1 = node_array (nodes s) Solution 2 1.
Proof.
  cbv zeta.
  assert (Hadj : Continuous_Adjoint (config (ex_state_halo ex_explicit)) = false)
    by reflexivity.
  destruct (explicit_euler_update (solver_methods := ex_solver)
              (geometry_getters := ex_geometry_getters) ex_geometry
              (ex_state_halo ex_explicit) Hadj)
    as (_ & Hsol & Hother & _).
  split; [exact Hadj|]. split; [reflexivity|]. split; [reflexivity|]. split.
  - apply (Hsol 0 1); cbn; lia.
  - apply (Hother Solution 2 1). right. left. cbn. lia.
Defined.

Lemma explicit_euler_adjoint_no_update_witness :
  Continuous_Adjoint (config (ex_state ex_adjoint)) = true
  /\ nodes (ExplicitEuler_update (geometry_getters := ex_geometry_getters)
              ex_geometry (ex_state ex_adjoint)) = nodes (ex_state ex_adjoint).
Proof.
  assert (Hadj : Continuous_Adjoint (config (ex_state ex_adjoint)) = true) by reflexivity.
  split; [exact Hadj|].
  exact (proj1 (explicit_euler_adjoint_no_update (geometry_getters := ex_geometry_getters)
                  ex_geometry (ex_state ex_adjoint) Hadj)).
Defined.


(** The small instance: point 1 has a zero time step and volume 4. *)
Lemma explicit_euler_zero_step_freezes_witness :
  let s := ex_state ex_explicit in
  is_zero (node_scalar (nodes s) Delta_Time 1)
  /\ same_number
       (node_array (nodes (ExplicitEuler_update (geometry_getters := ex_geometry_getters)
                             ex_geometry s)) Solution 1 0)
       (node_array (nodes s) Solution 1 0).
Proof.
  cbv zeta.
  assert (Hdt : is_zero (node_scalar (nodes (ex_state ex_explicit)) Delta_Time 1))
    by (exists false; reflexivity).
  split; [exact Hdt|].
  apply (explicit_euler_zero_step_freezes (geometry_getters := ex_geometry_getters)
           ex_geometry (ex_state ex_explicit) 1 0).
  - reflexivity.
  - cbn; lia.
  - cbn; lia.
  - exact Hdt.
  - vm_compute. exact I.
  - intros [sg Hz]. vm_compute in Hz. discriminate Hz.
  - vm_compute. exact I.
  - intros Hn. vm_compute in Hn. discriminate Hn.
Defined.

(** Point 3 of the four-point instance is flagged as a halo point. *)
Lemma max_eigenvalue_unreached_point_witness :
  Domain ex_geometry 3 = false
  /\ node_scalar (nodes (MaxEig_accumulate (variable_methods := ex_variable)
                           ex_geometry (ex_state4 ex_explicit))) Lambda 3 = zero.
Proof.
  split; [reflexivity|].
  exact (proj2 (max_eigenvalue_unreached_point (variable_methods := ex_variable)
                  (solver_comms := ex_comms) ex_geometry (ex_state4 ex_explicit) 3
                  (or_introl eq_refl))).
Defined.

(** Point 1 of the small instance: the edges 0-1 and 1-2 give 2 + 4. *)
Lemma max_eigenvalue_matches_time_step_witness :
  proj_vel_reads_arrays ex_variable
  /\ node_scalar (nodes (TimeStep_spectral_radii (variable_methods := ex_variable)
                           ex_geometry (ex_state ex_explicit))) Max_Lambda_Inv 1
     = node_scalar (nodes (MaxEig_accumulate (variable_methods := ex_variable)
                             ex_geometry (ex_state ex_explicit))) Lambda 1
  /\ node_scalar (nodes (MaxEig_accumulate (variable_methods := ex_variable)
                           ex_geometry (ex_state ex_explicit))) Lambda 1 = Z2D 6.
Proof.
  assert (Hproj : proj_vel_reads_arrays ex_variable) by (intros n n' i N _; reflexivity).
  split; [exact Hproj|]. split.
  - apply (max_eigenvalue_matches_time_step (variable_methods := ex_variable)
             ex_geometry (ex_state ex_explicit) 1 Hproj); [reflexivity|cbn; lia].
  - vm_compute. reflexivity.
Defined.

(** Point 3 of the four-point instance: CFL 2, volume 4, maximum 1. *)
Lemma time_step_unreached_point_witness :
  let s := ex_state4 ex_explicit in
  let s1 := TimeStep_spectral_radii (variable_methods := ex_variable) ex_geometry s in
  Domain ex_geometry 3 = false
  /\ is_pos_finite (Get (config s) (CFL 0) * Volume ex_geometry 3)%D
  /\ node_scalar (nodes (TimeStep_local ex_geometry 0 s1).2) Delta_Time 3 = one.
Proof.
  cbv zeta.
  assert (Hcv : is_pos_finite (Get (config (ex_state4 ex_explicit)) (CFL 0)
                               * Volume ex_geometry 3)%D) by (vm_compute; exact I).
  split; [reflexivity|]. split; [exact Hcv|].
  apply (time_step_unreached_point (variable_methods := ex_variable)
           ex_geometry 0 (ex_state4 ex_explicit) 3).
  - left. reflexivity.
  - cbn. lia.
  - reflexivity.
  - exact Hcv.
  - vm_compute. reflexivity.
  - vm_compute. exact I.
Defined.

(** The small instance in time-stepping mode. *)
Lemma time_stepping_overwrites_cfl_witness :
  let s := ex_state (ex_config EULER_EXPLICIT false TIME_STEPPING TD_CONDITIONS false false) in
  time_steping s = true /\ 0 < nPointDomain (sizes s)
  /\ Get (config s) (CFL 0) = Z2D 2
  /\ exists out, SetTime_Step (variable_methods := ex_variable) ex_geometry 0 0 s = Done out
       /\ Get (config out) (CFL 0) = Z2D 3.
Proof.
  cbv zeta.
  assert (Hn : 0 < nPointDomain (sizes (ex_state
            (ex_config EULER_EXPLICIT false TIME_STEPPING TD_CONDITIONS false false))))
    by (cbn; lia).
  destruct (time_stepping_overwrites_cfl (variable_methods := ex_variable) ex_geometry 0 0
              (ex_state (ex_config EULER_EXPLICIT false TIME_STEPPING TD_CONDITIONS false false))
              eq_refl Hn) as (out & Hout & Hcfl & _).
  split; [reflexivity|]. split; [exact Hn|]. split; [reflexivity|].
  exists out. split; [exact Hout|]. exact Hcfl.
Defined.

(** The small instance with the first-order dual time strategy and the
    explicit scheme, at iteration 1: the unsteady step is the configured 1,
    and no stored step is above 2/3. *)
Lemma dual_time_step_bounded_witness :
  let s := ex_state (ex_config EULER_EXPLICIT false DT_STEPPING_1ST TD_CONDITIONS false false) in
  dual_time s = true
  /\ exists out, SetTime_Step (variable_methods := ex_variable) ex_geometry 0 1 s = Done out
       /\ Get (config out) Delta_UnstTimeND = one
       /\ fle (node_scalar (nodes out) Delta_Time 0) (two_thirds * one)%D = true.
Proof.
  cbv zeta.
  destruct (dual_time_step_bounded (variable_methods := ex_variable) ex_geometry 0 1
              (ex_state (ex_config EULER_EXPLICIT false DT_STEPPING_1ST TD_CONDITIONS
                           false false)) eq_refl) as (out & Hout & HD & _ & Hdt).
  split; [reflexivity|]. exists out. split; [exact Hout|]. split; [exact HD|].
  destruct (Hdt 0) as [_ Hle]; [cbn; lia|]. apply Hle; [reflexivity|].
  vm_compute. discriminate.
Defined.

(** Point 0 of the small instance with the implicit scheme: residual
    (0, 1), truncation error (1/2, 1/2), time step 1/2. *)
Lemma implicit_system_rhs_witness :
  let s := ex_state ex_implicit in
  fne (node_scalar (nodes s) Delta_Time 0) zero = true
  /\ LinSysRes (Implicit_system ex_geometry s) (0 * 2 + 1) = (- (Z2D 1 + half))%D
  /\ LinSysSol (Implicit_system ex_geometry s) (2 * 2 + 1) = zero.
Proof.
  cbv zeta.
  destruct (implicit_system_rhs ex_geometry (ex_state ex_implicit)) as (Hrhs & _ & Hsol).
  split; [reflexivity|]. split.
  - apply (Hrhs 0 1); [cbn; lia|cbn; lia|reflexivity].
  - apply (Hsol 2 1); [left; cbn; lia|cbn; lia].
Defined.

(** The small instance on the partitioned mesh, with the implicit scheme:
    point 0 is owned and gets its increment, point 2 is a ghost point and
    the loop leaves its solution as it is. *)
Lemma implicit_update_increment_witness :
  let s := ex_state_halo ex_implicit in
  let sol := Implicit_solve (solve_methods := ex_solve) ex_geometry
               (Implicit_system ex_geometry s) in
  nPointDomain (sizes s) = 2 /\ nPoint (sizes s) = 3
  /\ node_array (nodes (Implicit_update sol)) Solution 0 1
     = (Z2D 3 + one * LinSysSol sol 1)%D
  /\ node_array (nodes (Implicit_update sol)) Solution 2 1
     = node_array (nodes s) Solution 2 1.
Proof.
  cbv zeta.
  destruct (implicit_update_increment (solve_methods := ex_solve)
              (solver_methods := ex_solver) ex_geometry (ex_state_halo ex_implicit))
    as (_ & Hupd & Hghost & _).
  split; [reflexivity|]. split; [reflexivity|]. split.
  - apply (Hupd 0 1); cbn; lia.
  - apply (Hghost 2 1). left. cbn. lia.
Defined.

(** Point 1 of the small instance has a zero time step; one sweep of point
    Jacobi returns the right-hand side on its identity row. *)
Lemma implicit_zero_step_freezes_witness :
  let s := ex_state ex_implicit in
  let sol := Implicit_solve (solve_methods := ex_solve) ex_geometry
               (Implicit_system ex_geometry s) in
  fne (node_scalar (nodes s) Delta_Time 1) zero = false
  /\ LinSysSol sol (1 * 2 + 0) = LinSysRes (Implicit_system ex_geometry s) (1 * 2 + 0)
  /\ same_number (node_array (nodes (Implicit_update sol)) Solution 1 0)
                 (node_array (nodes s) Solution 1 0).
Proof.
  cbv zeta.
  assert (Hsolve : LinSysSol (Implicit_solve (solve_methods := ex_solve) ex_geometry
                                (Implicit_system ex_geometry (ex_state ex_implicit)))
                     (1 * 2 + 0)
                   = LinSysRes (Implicit_system ex_geometry (ex_state ex_implicit)) (1 * 2 + 0))
    by (vm_compute; reflexivity).
  split; [reflexivity|]. split; [exact Hsolve|].
  apply (implicit_zero_step_freezes (solve_methods := ex_solve)
           ex_geometry (ex_state ex_implicit) 1 0).
  - cbn; lia.
  - cbn; lia.
  - reflexivity.
  - exact Hsolve.
  - vm_compute. exact I.
  - intros Hn. vm_compute in Hn. discriminate Hn.
Defined.

(** The small instance in steady mode: the work array holds zeros. *)
Lemma dual_time_source_added_witness :
  let s := ex_state ex_explicit in
  ~ dual_time_scheme (config s)
  /\ exists out, SetResidual_DualTime (geometry_getters := ex_geometry_getters)
                   (variable_getters := ex_variable_getters) ex_geometry 0 0 0 s = Done out
       /\ LinSysRes out (1 * 2 + 1) = (Z2D 3 + zero)%D.
Proof.
  cbv zeta.
  assert (Hnd : ~ dual_time_scheme (config (ex_state ex_explicit)))
    by (intros [H|H]; discriminate H).
  destruct (dual_time_source_added (geometry_getters := ex_geometry_getters)
              (variable_getters := ex_variable_getters) ex_geometry 0 0 0
              (ex_state ex_explicit)) as (out & Hout & _ & Hstale & _).
  split; [exact Hnd|]. exists out. split; [exact Hout|].
  apply (Hstale Hnd 1 1); cbn; lia.
Defined.

(** The small instance with the first-order dual time scheme: the previous
    time level holds the solution. *)
Lemma dual_time_steady_state_witness :
  let s := ex_state (ex_dual_1st EULER_EXPLICIT) in
  Time_Marching (config s) = DT_STEPPING_1ST
  /\ same_number
       (LinSysRes (final (SetResidual_DualTime (geometry_getters := ex_geometry_getters)
                            (variable_getters := ex_variable_getters) ex_geometry 0 0 0 s))
                  (0 * 2 + 1))
       (LinSysRes s (0 * 2 + 1)).
Proof.
  cbv zeta. split; [reflexivity|].
  apply (dual_time_steady_state (geometry_getters := ex_geometry_getters)
           (variable_getters := ex_variable_getters) ex_geometry 0 0 0
           (ex_state (ex_dual_1st EULER_EXPLICIT)) 0 1).
  - reflexivity.
  - reflexivity.
  - cbn; lia.
  - cbn; lia.
  - reflexivity.
  - vm_compute. exact I.
  - vm_compute. exact I.
  - intros [sg Hz]. vm_compute in Hz. discriminate Hz.
  - intros Hn. vm_compute in Hn. discriminate Hn.
Defined.

(** The small instance, implicit, first order: volume 4 over the unsteady
    step 1 on the diagonal of point 0. *)
Lemma dual_time_jacobian_witness :
  let s := ex_state (ex_dual_1st EULER_IMPLICIT) in
  implicit_scheme s = true
  /\ dual_time_diagonal ex_geometry s 0 = (Z2D 4 / one)%D
  /\ exists B, diagonal_below 2 (Z2D 4 / one)%D B
       /\ Jacobian (final (SetResidual_DualTime (geometry_getters := ex_geometry_getters)
                             (variable_getters := ex_variable_getters) ex_geometry 0 0 0 s))
            !! (0, 0)
          = Some (block_add 2 B (diag_block (Z2D 5))).
Proof.
  cbv zeta.
  destruct (dual_time_jacobian (geometry_getters := ex_geometry_getters)
              (variable_getters := ex_variable_getters) ex_geometry 0 0 0
              (ex_state (ex_dual_1st EULER_IMPLICIT)) eq_refl) as [Hdiag _].
  destruct (Hdiag 0) as (B & HB & HJ); [cbn; lia|].
  split; [reflexivity|]. split; [reflexivity|].
  exists B. split; [exact HB|]. exact HJ.
Defined.

(** A wall face of normal 2 on point 0, pressure 10, implicit scheme: the
    momentum residual goes from 1 to 1 + 10 * (-2/2) * 2 = -19. *)
Lemma sym_plane_residual_witness :
  let s := ex_wall_state ex_implicit in
  nVar (sizes s) = nSpecies (sizes s) + nDim (sizes s) + 2
  /\ exists out, BC_Sym_Plane (primitive_getters := ex_primitive_getters)
                   (gas_getters := ex_gas_getters) ex_wall ex_numerics ex_numerics 0 s
                 = Done out
       /\ LinSysRes out (0 * 3 + 0) = Z2D (-19)
       /\ Jacobian out !! (0, 1) = Some zero_block.
Proof.
  cbv zeta.
  destruct (sym_plane_residual (primitive_getters := ex_primitive_getters)
              (gas_getters := ex_gas_getters) ex_wall ex_numerics ex_numerics 0
              (ex_wall_state ex_implicit) eq_refl)
    as (out & Hout & _ & _ & Hres & _ & Hoff).
  split; [reflexivity|]. exists out. split; [exact Hout|]. split.
  - etransitivity; [apply (Hres 0 0); cbn; lia|]. vm_compute. reflexivity.
  - rewrite (Hoff 0 1) by lia. reflexivity.
Defined.

(** The degenerate face on point 1: its momentum residual, entry 1 * 3 + 0,
    is a NaN after the sweep over the marker. *)
Lemma sym_plane_zero_normal_nan_witness :
  let s := ex_wall_state ex_explicit in
  let v := {| vertex_Node := 1; vertex_Normal := zeros |} in
  nVar (sizes s) = nSpecies (sizes s) + nDim (sizes s) + 2
  /\ v ∈ marker_vertices ex_wall 1
  /\ Domain ex_wall (vertex_Node v) = true
  /\ is_nan (LinSysRes (final (BC_Sym_Plane (primitive_getters := ex_primitive_getters)
                                 (gas_getters := ex_gas_getters)
                                 ex_wall ex_numerics ex_numerics 1 s))
               (1 * 3 + (0 + 0))).
Proof.
  cbv zeta.
  assert (Hin : {| vertex_Node := 1; vertex_Normal := zeros |} ∈ marker_vertices ex_wall 1)
    by (apply list_elem_of_here).
  split; [reflexivity|]. split; [exact Hin|]. split; [reflexivity|].
  apply (sym_plane_zero_normal_nan (primitive_getters := ex_primitive_getters)
           (gas_getters := ex_gas_getters) ex_wall ex_numerics ex_numerics 1
           (ex_wall_state ex_explicit) {| vertex_Node := 1; vertex_Normal := zeros |} 0).
  - reflexivity.
  - exact Hin.
  - reflexivity.
  - intros jDim _. exists false. reflexivity.
  - cbn; lia.
Defined.
